(** * Quagmire: a shallow embedding of the polyalphabetic cipher solver

    The definitions below follow [src/quagmire.c] function by function.

    Conventions of the embedding.
    - A C [int] is a [Z].  Every theorem bounds the values it works on
      (symbols in [0,26), lengths of at most a few thousand), so no
      arithmetic of the modelled functions leaves the range of [int].
    - A C array is a [list Z].  Reading or writing outside the list, reading
      a local variable that was never assigned, and dividing by zero are
      undefined behaviour in C: the embedding reports them as [None].
    - [%] is C's truncating remainder, [Z.rem].
    - A [for] loop over an [int] counter is [for_loop]; its body says
      [Next] to go on and [Break] to leave the loop.
    - [rand()] is a stream of future results, consumed from the front. *)

From Stdlib Require Import ZArith Lia Bool Ascii String Floats.
From stdpp Require Import base option list sets sorting.

#[local] Set Warnings "-inexact-float,-clear-no-such-hyp".

Open Scope Z_scope.

(* ===================================================================== *)
(** ** Constants *)

(** The sizes are macros.  The header of [quagmire.c] is outside [src/];
    [quagmire3.c], the earlier solver next to it, defines them itself, with
    the values below. *)
Definition ALPHABET_SIZE : Z := 26.
Definition MAX_CIPHER_LENGTH : Z := 1000.
Definition MAX_CYCLEWORD_LEN : Z := 30.

(* ===================================================================== *)
(** ** Arrays and loops *)

(** [a[i]] as an rvalue. *)
Definition rd (a : list Z) (i : Z) : option Z :=
  if bool_decide (0 ≤ i) then a !! Z.to_nat i else None.

(** [a[i] = v]. *)
Definition wr (a : list Z) (i : Z) (v : Z) : option (list Z) :=
  if bool_decide (0 ≤ i < Z.of_nat (length a))
  then Some (<[Z.to_nat i := v]> a) else None.

(** How a loop body ends: fall through to the next iteration, or [break]. *)
Inductive ctl (St : Type) : Type :=
| Next (s : St)
| Break (s : St).
Arguments Next {St} s.
Arguments Break {St} s.

(** [for (i = lo; i < lo + n; i++) body], [n] iterations at most. *)
Fixpoint for_loop {St : Type} (n : nat) (i : Z)
    (body : Z → St → option (ctl St)) (s : St) : option St :=
  match n with
  | O => Some s
  | S n' =>
      match body i s with
      | None => None
      | Some (Break s') => Some s'
      | Some (Next s') => for_loop n' (i + 1) body s'
      end
  end.

(** [for (i = lo; i < hi; i++) body]. *)
Definition for_range {St : Type} (lo hi : Z)
    (body : Z → St → option (ctl St)) (s : St) : option St :=
  for_loop (Z.to_nat (hi - lo)) lo body s.

(** [x % ALPHABET_SIZE] followed by [if (x < 0) x += ALPHABET_SIZE]. *)
Definition wrap_index (x : Z) : Z :=
  let indx := Z.rem x ALPHABET_SIZE in
  if indx <? 0 then indx + ALPHABET_SIZE else indx.

(** The Atbash involution [ALPHABET_SIZE - x - 1]. *)
Definition atbash (beaufort : bool) (x : Z) : Z :=
  if beaufort then ALPHABET_SIZE - x - 1 else x.

(* ===================================================================== *)
(** ** The cipher transform: [quagmire_decrypt], [quagmire_encrypt] *)

(** The locals that live across the iterations of the outer loop.  The
    position variables are declared at function scope and assigned only
    inside the searches: [None] until a search has hit. *)
Record xform_locals : Type := XformLocals {
  posn_keyword : option Z;
  posn_cycleword : option Z;
  xform_out : list Z
}.

(** First inner loop of [quagmire_decrypt]: position of the ciphertext
    symbol in the ciphertext keyword. *)
Definition decrypt_find_keyword (cipher_indices ciphertext_keyword_indices : list Z)
    (i : Z) (posn : option Z) : option (option Z) :=
  for_range 0 ALPHABET_SIZE (λ j posn,
    ct_indx ← rd ciphertext_keyword_indices j;
    c ← rd cipher_indices i;
    if c =? ct_indx then Some (Break (Some j)) else Some (Next posn)) posn.

(** Second inner loop of both transforms: position of the (Atbash-ed)
    cycleword symbol in the ciphertext keyword. *)
Definition find_cycleword (ciphertext_keyword_indices cycleword_indices : list Z)
    (cycleword_len : Z) (beaufort : bool) (i : Z) (posn : option Z)
    : option (option Z) :=
  for_range 0 ALPHABET_SIZE (λ j posn,
    if cycleword_len =? 0 then None else
    cw ← rd cycleword_indices (Z.rem i cycleword_len);
    let cw_indx := atbash beaufort cw in
    kj ← rd ciphertext_keyword_indices j;
    if cw_indx =? kj then Some (Break (Some j)) else Some (Next posn)) posn.

Definition quagmire_decrypt_step (cipher_indices : list Z)
    (plaintext_keyword_indices ciphertext_keyword_indices cycleword_indices : list Z)
    (cycleword_len : Z) (beaufort : bool) (i : Z) (st : xform_locals)
    : option (ctl xform_locals) :=
  pk ← decrypt_find_keyword cipher_indices ciphertext_keyword_indices i
          (posn_keyword st);
  pc ← find_cycleword ciphertext_keyword_indices cycleword_indices
          cycleword_len beaufort i (posn_cycleword st);
  k ← pk;
  c ← pc;
  let indx := wrap_index (k - c) in
  d ← rd plaintext_keyword_indices indx;
  Some (Next (XformLocals pk pc (xform_out st ++ [atbash beaufort d]))).

(** [quagmire_decrypt]: the result is what the function leaves in
    [decrypted[0 .. cipher_len)]. *)
Definition quagmire_decrypt (cipher_indices : list Z) (cipher_len : Z)
    (plaintext_keyword_indices ciphertext_keyword_indices cycleword_indices : list Z)
    (cycleword_len : Z) (beaufort : bool) : option (list Z) :=
  xform_out <$>
    for_range 0 cipher_len
      (quagmire_decrypt_step cipher_indices plaintext_keyword_indices
         ciphertext_keyword_indices cycleword_indices cycleword_len beaufort)
      (XformLocals None None []).

(** First inner loop of [quagmire_encrypt]: position of the plaintext
    symbol in the plaintext keyword. *)
Definition encrypt_find_keyword (plaintext_indices plaintext_keyword_indices : list Z)
    (i : Z) (posn : option Z) : option (option Z) :=
  for_range 0 ALPHABET_SIZE (λ j posn,
    pt_indx ← rd plaintext_indices i;
    kj ← rd plaintext_keyword_indices j;
    if pt_indx =? kj then Some (Break (Some j)) else Some (Next posn)) posn.

Definition quagmire_encrypt_step (plaintext_indices : list Z)
    (plaintext_keyword_indices ciphertext_keyword_indices cycleword_indices : list Z)
    (cycleword_len : Z) (beaufort : bool) (i : Z) (st : xform_locals)
    : option (ctl xform_locals) :=
  pk ← encrypt_find_keyword plaintext_indices plaintext_keyword_indices i
          (posn_keyword st);
  pc ← find_cycleword ciphertext_keyword_indices cycleword_indices
          cycleword_len beaufort i (posn_cycleword st);
  k ← pk;
  c ← pc;
  let indx := wrap_index (k + c) in
  e ← rd ciphertext_keyword_indices indx;
  Some (Next (XformLocals pk pc (xform_out st ++ [atbash beaufort e]))).

(** [quagmire_encrypt]: the result is what the function leaves in
    [encrypted[0 .. cipher_len)]. *)
Definition quagmire_encrypt (plaintext_indices : list Z) (cipher_len : Z)
    (plaintext_keyword_indices ciphertext_keyword_indices cycleword_indices : list Z)
    (cycleword_len : Z) (beaufort : bool) : option (list Z) :=
  xform_out <$>
    for_range 0 cipher_len
      (quagmire_encrypt_step plaintext_indices plaintext_keyword_indices
         ciphertext_keyword_indices cycleword_indices cycleword_len beaufort)
      (XformLocals None None []).

(** [straight_alphabet]: ABCDEFGHIJKLMNOPQRSTUVWXYZ. *)
Definition straight_alphabet (len : Z) : list Z := seqZ 0 len.

(** Key material the transforms are meant for. *)
Definition in_alphabet (x : Z) : Prop := 0 ≤ x < ALPHABET_SIZE.

Definition keyword_perm (key : list Z) : Prop :=
  length key = 26%nat ∧ NoDup key ∧ Forall in_alphabet key.

Definition cycleword_ok (cycleword : list Z) (cycleword_len : Z) : Prop :=
  1 ≤ cycleword_len ≤ Z.of_nat (length cycleword) ∧
  Forall in_alphabet (take (Z.to_nat cycleword_len) cycleword).


(* ===================================================================== *)
(** ** Specification-side functions for the transforms *)

(** Position of the first occurrence of [x] in [key] (0 when absent). *)
Definition posn_of (key : list Z) (x : Z) : Z :=
  from_option (λ p, Z.of_nat p.1) 0 (list_find (λ y, y = x) key).

(** [a[i]] of an array known to be long enough. *)
Definition at_ (a : list Z) (i : Z) : Z := default 0 (rd a i).

(** The cycleword symbol that position [i] of the text uses. *)
Definition cycle_symbol (cycleword : list Z) (cycleword_len : Z)
    (beaufort : bool) (i : Z) : Z :=
  atbash beaufort (at_ cycleword (Z.rem i cycleword_len)).

(** What [quagmire_decrypt] writes at position [i] for ciphertext symbol [x]. *)
Definition decrypt_symbol (P C W : list Z) (cycleword_len : Z) (beaufort : bool)
    (i x : Z) : Z :=
  atbash beaufort
    (at_ P (wrap_index (posn_of C x
                        - posn_of C (cycle_symbol W cycleword_len beaufort i)))).

(** What [quagmire_encrypt] writes at position [i] for plaintext symbol [x]. *)
Definition encrypt_symbol (P C W : list Z) (cycleword_len : Z) (beaufort : bool)
    (i x : Z) : Z :=
  atbash beaufort
    (at_ C (wrap_index (posn_of P x
                        + posn_of C (cycle_symbol W cycleword_len beaufort i)))).

Global Instance in_alphabet_dec (x : Z) : Decision (in_alphabet x).
Proof. unfold in_alphabet. apply _. Defined.

Global Instance keyword_perm_dec (key : list Z) : Decision (keyword_perm key).
Proof. unfold keyword_perm. apply _. Defined.

Global Instance cycleword_ok_dec (W : list Z) (n : Z) : Decision (cycleword_ok W n).
Proof. unfold cycleword_ok. apply _. Defined.

(** KRYPTOSABCDEFGHIJLMNQUVWXZ, the keyed alphabet of the examples. *)
Definition kryptos_alphabet : list Z :=
  [10;17;24;15;19;14;18;0;1;2;3;4;5;6;7;8;9;11;12;13;16;20;21;22;23;25].

(* ===================================================================== *)
(** ** Floating point

    A C [double] is an IEEE 754 binary64 number, Rocq's primitive [float].
    A C [float] is held as the binary64 number of the same value:
    [to_float] is the conversion [(float) x], rounding to nearest even into
    binary32.  The functions of [libm] that the program calls ([exp], [log],
    [pow]) and the number parsers of [libc] ([atoi], [atof]) are parameters
    of the functions that use them. *)

Abbreviation double := PrimFloat.float.

(** [(double) z] for an [int] [z]. *)
Definition double_of_int (z : Z) : double :=
  SF2Prim (binary_normalize 53 1024 z 0 false).

(** [(float) x]. *)
Definition to_float (x : double) : double :=
  match Prim2SF x with
  | S754_finite s m e => SF2Prim (binary_round 24 128 s m e)
  | _ => x
  end.

(* ===================================================================== *)
(** ** [main]: the command line *)

(** As [quagmire3.c] defines it. *)
Definition MAX_FILENAME_LEN : Z := 100.

(** The [int] locals of [main] that the argument loop assigns.
    [cycleword_len] has no initialiser. *)
Record int_opts : Type := IntOpts {
  cipher_type : Z;
  ngram_size : Z;
  plaintext_keyword_len : Z;
  ciphertext_keyword_len : Z;
  plaintext_max_keyword_len : Z;
  ciphertext_max_keyword_len : Z;
  min_keyword_len : Z;
  max_cycleword_len : Z;
  cycleword_len : option Z;
  n_hill_climbs : Z;
  n_restarts : Z
}.

(** The [double] locals. *)
Record prob_opts : Type := ProbOpts {
  n_sigma_threshold : double;
  ioc_threshold : double;
  backtracking_probability : double;
  keyword_permutation_probability : double;
  slip_probability : double
}.

(** The [float] locals. *)
Record weight_opts : Type := WeightOpts {
  weight_ngram : double;
  weight_crib : double;
  weight_ioc : double;
  weight_entropy : double
}.

(** The [char] buffers of [MAX_FILENAME_LEN] bytes; they have no
    initialiser. *)
Record file_opts : Type := FileOpts {
  ciphertext_file : option string;
  crib_file : option string;
  ngram_file : option string;
  dictionary_file : option string
}.

(** The [bool] locals. *)
Record flag_opts : Type := FlagOpts {
  verbose : bool;
  cipher_present : bool;
  crib_present : bool;
  plaintext_keyword_len_present : bool;
  ciphertext_keyword_len_present : bool;
  cycleword_len_present : bool;
  dictionary_present_p : bool;
  variant : bool
}.

Record main_locals : Type := MainLocals {
  ints : int_opts;
  probs : prob_opts;
  weights : weight_opts;
  files : file_opts;
  flags : flag_opts
}.

(** The initialisers of [main]. *)
Definition main_init : main_locals :=
  MainLocals
    (IntOpts 3 0 5 5 12 12 5 20 None 1000 1)
    (ProbOpts 1%float 0.047%float 0.01%float 0.01%float 0.0005%float)
    (WeightOpts 12%float 36%float 1%float 1%float)
    (FileOpts None None None None)
    (FlagOpts false false false false false false false false).

Definition on_ints (f : int_opts → int_opts) (c : main_locals) : main_locals :=
  MainLocals (f (ints c)) (probs c) (weights c) (files c) (flags c).
Definition on_probs (f : prob_opts → prob_opts) (c : main_locals) : main_locals :=
  MainLocals (ints c) (f (probs c)) (weights c) (files c) (flags c).
Definition on_weights (f : weight_opts → weight_opts) (c : main_locals) : main_locals :=
  MainLocals (ints c) (probs c) (f (weights c)) (files c) (flags c).
Definition on_files (f : file_opts → file_opts) (c : main_locals) : main_locals :=
  MainLocals (ints c) (probs c) (weights c) (f (files c)) (flags c).
Definition on_flags (f : flag_opts → flag_opts) (c : main_locals) : main_locals :=
  MainLocals (ints c) (probs c) (weights c) (files c) (f (flags c)).

(** Assignments, one per local. *)
Definition set_cipher_type (v : Z) '(IntOpts _ b c d e f g h i j k) :=
  IntOpts v b c d e f g h i j k.
Definition set_ngram_size (v : Z) '(IntOpts a _ c d e f g h i j k) :=
  IntOpts a v c d e f g h i j k.
Definition set_plaintext_keyword_len (v : Z) '(IntOpts a b _ d e f g h i j k) :=
  IntOpts a b v d e f g h i j k.
Definition set_ciphertext_keyword_len (v : Z) '(IntOpts a b c _ e f g h i j k) :=
  IntOpts a b c v e f g h i j k.
Definition set_plaintext_max_keyword_len (v : Z) '(IntOpts a b c d _ f g h i j k) :=
  IntOpts a b c d v f g h i j k.
Definition set_ciphertext_max_keyword_len (v : Z) '(IntOpts a b c d e _ g h i j k) :=
  IntOpts a b c d e v g h i j k.
Definition set_min_keyword_len (v : Z) '(IntOpts a b c d e f _ h i j k) :=
  IntOpts a b c d e f v h i j k.
Definition set_max_cycleword_len (v : Z) '(IntOpts a b c d e f g _ i j k) :=
  IntOpts a b c d e f g v i j k.
Definition set_cycleword_len (v : Z) '(IntOpts a b c d e f g h _ j k) :=
  IntOpts a b c d e f g h (Some v) j k.
Definition set_n_hill_climbs (v : Z) '(IntOpts a b c d e f g h i _ k) :=
  IntOpts a b c d e f g h i v k.
Definition set_n_restarts (v : Z) '(IntOpts a b c d e f g h i j _) :=
  IntOpts a b c d e f g h i j v.

Definition set_n_sigma_threshold (v : double) '(ProbOpts _ b c d e) :=
  ProbOpts v b c d e.
Definition set_ioc_threshold (v : double) '(ProbOpts a _ c d e) :=
  ProbOpts a v c d e.
Definition set_backtracking_probability (v : double) '(ProbOpts a b _ d e) :=
  ProbOpts a b v d e.
Definition set_keyword_permutation_probability (v : double) '(ProbOpts a b c _ e) :=
  ProbOpts a b c v e.
Definition set_slip_probability (v : double) '(ProbOpts a b c d _) :=
  ProbOpts a b c d v.

Definition set_weight_ngram (v : double) '(WeightOpts _ b c d) := WeightOpts v b c d.
Definition set_weight_crib (v : double) '(WeightOpts a _ c d) := WeightOpts a v c d.
Definition set_weight_ioc (v : double) '(WeightOpts a b _ d) := WeightOpts a b v d.
Definition set_weight_entropy (v : double) '(WeightOpts a b c _) := WeightOpts a b c v.

Definition set_ciphertext_file (v : string) '(FileOpts _ b c d) := FileOpts (Some v) b c d.
Definition set_crib_file (v : string) '(FileOpts a _ c d) := FileOpts a (Some v) c d.
Definition set_ngram_file (v : string) '(FileOpts a b _ d) := FileOpts a b (Some v) d.
Definition set_dictionary_file (v : string) '(FileOpts a b c _) := FileOpts a b c (Some v).

Definition set_verbose (v : bool) '(FlagOpts _ b c d e f g h) := FlagOpts v b c d e f g h.
Definition set_cipher_present (v : bool) '(FlagOpts a _ c d e f g h) := FlagOpts a v c d e f g h.
Definition set_crib_present (v : bool) '(FlagOpts a b _ d e f g h) := FlagOpts a b v d e f g h.
Definition set_plaintext_keyword_len_present (v : bool) '(FlagOpts a b c _ e f g h) :=
  FlagOpts a b c v e f g h.
Definition set_ciphertext_keyword_len_present (v : bool) '(FlagOpts a b c d _ f g h) :=
  FlagOpts a b c d v f g h.
Definition set_cycleword_len_present (v : bool) '(FlagOpts a b c d e _ g h) :=
  FlagOpts a b c d e v g h.
Definition set_dictionary_present_p (v : bool) '(FlagOpts a b c d e f _ h) :=
  FlagOpts a b c d e f v h.
Definition set_variant (v : bool) '(FlagOpts a b c d e f g _) := FlagOpts a b c d e f g v.

(** [strcpy] into a buffer of [MAX_FILENAME_LEN] bytes: the string and its
    terminator have to fit. *)
Definition strcpy_filename (v : string) : option string :=
  if Z.of_nat (String.length v) <? MAX_FILENAME_LEN then Some v else None.

(** What one branch of the [if]/[else if] chain over [argv[i]] does. *)
Inductive arg_action : Type :=
| WithValue (f : string → main_locals → option main_locals)
    (* reads [argv[++i]] *)
| NoValue (f : main_locals → main_locals)
| UnknownArg.

Section command_line.
Context (atoi : string → Z) (atof : string → double).

Definition arg_action_of (arg : string) : arg_action :=
  if String.eqb arg "-type" then
    WithValue (λ v c, Some (on_ints (set_cipher_type (atoi v)) c))
  else if String.eqb arg "-cipher" then
    WithValue (λ v c, f ← strcpy_filename v;
      Some (on_files (set_ciphertext_file f) (on_flags (set_cipher_present true) c)))
  else if String.eqb arg "-crib" then
    WithValue (λ v c, f ← strcpy_filename v;
      Some (on_files (set_crib_file f) (on_flags (set_crib_present true) c)))
  else if String.eqb arg "-ngramsize" then
    WithValue (λ v c, Some (on_ints (set_ngram_size (atoi v)) c))
  else if String.eqb arg "-ngramfile" then
    WithValue (λ v c, f ← strcpy_filename v; Some (on_files (set_ngram_file f) c))
  else if String.eqb arg "-maxkeywordlen" then
    WithValue (λ v c,
      let c := on_ints (set_plaintext_keyword_len (atoi v)) c in
      Some (on_ints (set_ciphertext_keyword_len (plaintext_keyword_len (ints c))) c))
  else if String.eqb arg "-keywordlen" then
    WithValue (λ v c,
      let c := on_flags (set_plaintext_keyword_len_present true) c in
      let c := on_flags (set_ciphertext_keyword_len_present true) c in
      let c := on_ints (set_plaintext_keyword_len (atoi v)) c in
      let c := on_ints (set_ciphertext_keyword_len (plaintext_keyword_len (ints c))) c in
      let c := on_ints (set_plaintext_max_keyword_len
                 (Z.max (plaintext_max_keyword_len (ints c))
                        (1 + plaintext_keyword_len (ints c)))) c in
      let c := on_ints (set_ciphertext_max_keyword_len
                 (Z.max (ciphertext_max_keyword_len (ints c))
                        (1 + ciphertext_keyword_len (ints c)))) c in
      Some (on_ints (set_min_keyword_len (plaintext_keyword_len (ints c))) c))
  else if String.eqb arg "-plaintextkeywordlen" then
    WithValue (λ v c,
      let c := on_flags (set_plaintext_keyword_len_present true) c in
      let c := on_ints (set_plaintext_keyword_len (atoi v)) c in
      let c := on_ints (set_plaintext_max_keyword_len
                 (Z.max (plaintext_max_keyword_len (ints c))
                        (1 + plaintext_keyword_len (ints c)))) c in
      Some (on_ints (set_min_keyword_len (plaintext_keyword_len (ints c))) c))
  else if String.eqb arg "-ciphertextkeywordlen" then
    WithValue (λ v c,
      let c := on_flags (set_ciphertext_keyword_len_present true) c in
      let c := on_ints (set_ciphertext_keyword_len (atoi v)) c in
      let c := on_ints (set_ciphertext_max_keyword_len
                 (Z.max (ciphertext_max_keyword_len (ints c))
                        (1 + ciphertext_keyword_len (ints c)))) c in
      Some (on_ints (set_min_keyword_len (ciphertext_keyword_len (ints c))) c))
  else if String.eqb arg "-maxcyclewordlen" then
    WithValue (λ v c, Some (on_ints (set_max_cycleword_len (atoi v)) c))
  else if String.eqb arg "-cyclewordlen" then
    WithValue (λ v c,
      let n := atoi v in
      let c := on_flags (set_cycleword_len_present true) c in
      let c := on_ints (set_cycleword_len n) c in
      let c := if n =? 0 then on_flags (set_cycleword_len_present false) c else c in
      Some (on_ints (set_max_cycleword_len
              (Z.max (max_cycleword_len (ints c)) (1 + n))) c))
  else if String.eqb arg "-nsigmathreshold" then
    WithValue (λ v c, Some (on_probs (set_n_sigma_threshold (atof v)) c))
  else if String.eqb arg "-nlocal" then
    NoValue (λ c, c)
  else if String.eqb arg "-nhillclimbs" then
    WithValue (λ v c, Some (on_ints (set_n_hill_climbs (atoi v)) c))
  else if String.eqb arg "-nrestarts" then
    WithValue (λ v c, Some (on_ints (set_n_restarts (atoi v)) c))
  else if String.eqb arg "-backtrackprob" then
    WithValue (λ v c, Some (on_probs (set_backtracking_probability (atof v)) c))
  else if String.eqb arg "-keywordpermprob" then
    WithValue (λ v c, Some (on_probs (set_backtracking_probability (atof v)) c))
  else if String.eqb arg "-slipprob" then
    WithValue (λ v c, Some (on_probs (set_slip_probability (atof v)) c))
  else if String.eqb arg "-iocthreshold" then
    WithValue (λ v c, Some (on_probs (set_ioc_threshold (atof v)) c))
  else if String.eqb arg "-dictionary" || String.eqb arg "-dict" then
    WithValue (λ v c, f ← strcpy_filename v;
      Some (on_files (set_dictionary_file f) (on_flags (set_dictionary_present_p true) c)))
  else if String.eqb arg "-weightngram" then
    WithValue (λ v c, Some (on_weights (set_weight_ngram (to_float (atof v))) c))
  else if String.eqb arg "-weightcrib" then
    WithValue (λ v c, Some (on_weights (set_weight_crib (to_float (atof v))) c))
  else if String.eqb arg "-weightioc" then
    WithValue (λ v c, Some (on_weights (set_weight_ioc (to_float (atof v))) c))
  else if String.eqb arg "-weightentropy" then
    WithValue (λ v c, Some (on_weights (set_weight_entropy (to_float (atof v))) c))
  else if String.eqb arg "-variant" then
    NoValue (on_flags (set_variant true))
  else if String.eqb arg "-verbose" then
    NoValue (on_flags (set_verbose true))
  else UnknownArg.

(** How the argument loop of [main] ends. *)
Inductive parsed : Type :=
| Parsed (c : main_locals)       (* the loop ran to [argc] *)
| ErrorUnknownArg (arg : string) (* [return 0] *).

(** The argument loop over [argv[1 .. argc)].  A flag that takes a value
    and stands last reads [argv[argc]], the null pointer. *)
Fixpoint parse_args (args : list string) (c : main_locals) : option parsed :=
  match args with
  | [] => Some (Parsed c)
  | arg :: rest =>
      match arg_action_of arg with
      | UnknownArg => Some (ErrorUnknownArg arg)
      | NoValue f => parse_args rest (f c)
      | WithValue f =>
          match rest with
          | [] => None
          | v :: rest' =>
              match f v c with
              | None => None
              | Some c' => parse_args rest' c'
              end
          end
      end
  end.
End command_line.

(* ===================================================================== *)
(** ** More loops *)

(** [for (i = hi; i > hi - n; i--) body], [n] iterations at most. *)
Fixpoint for_loop_down {St : Type} (n : nat) (i : Z)
    (body : Z → St → option (ctl St)) (s : St) : option St :=
  match n with
  | O => Some s
  | S n' =>
      match body i s with
      | None => None
      | Some (Break s') => Some s'
      | Some (Next s') => for_loop_down n' (i - 1) body s'
      end
  end.

(** [for (i = hi; i > lo; i--) body]. *)
Definition for_range_down {St : Type} (hi lo : Z)
    (body : Z → St → option (ctl St)) (s : St) : option St :=
  for_loop_down (Z.to_nat (hi - lo)) hi body s.

(** [while (cond) body].  The loops modelled with it have no bound in the
    source; [None] is also the answer when [fuel] iterations did not reach
    the exit. *)
Fixpoint while_loop {St : Type} (fuel : nat) (cond : St → bool)
    (body : St → option St) (s : St) : option St :=
  match fuel with
  | O => None
  | S fuel' =>
      if cond s then
        match body s with
        | None => None
        | Some s' => while_loop fuel' cond body s'
        end
      else Some s
  end.

(** [vec_copy(src, dest, len)]. *)
Definition vec_copy (src dest : list Z) (len : Z) : option (list Z) :=
  for_range 0 len (λ i dest, v ← rd src i; dest ← wr dest i v; Some (Next dest)) dest.

(* ===================================================================== *)
(** ** The random number generator *)

(** The state of [rand()]: the results of the calls to come. *)
Definition rng : Type := nat → Z.

Definition rand (g : rng) : Z * rng := (g O, λ n, g (S n)).

(** [rand()] returns a value in [0, RAND_MAX]. *)
Definition rng_ok (RAND_MAX : Z) (g : rng) : Prop := ∀ n, 0 ≤ g n ≤ RAND_MAX.

(** [rand_int]: [min + rand() % (max - min)]. *)
Definition rand_int (min max : Z) (g : rng) : option (Z * rng) :=
  if max - min =? 0 then None
  else let '(r, g) := rand g in Some (min + Z.rem r (max - min), g).

Section random.
(** [RAND_MAX] of the C library, the table [english_monograms] and the
    compile-time switches [FREQUENCY_WEIGHTED_SELECTION] and
    [KRYPTOS_PT_SCRAMBLE] come from headers outside [src/]: they are
    parameters. *)
Context (RAND_MAX : Z) (english_monograms : list double).
Context (FREQUENCY_WEIGHTED_SELECTION KRYPTOS_PT_SCRAMBLE : bool).

(** [frand]: [((double) rand())/((double) RAND_MAX)]. *)
Definition frand (g : rng) : double * rng :=
  let '(r, g) := rand g in
  ((double_of_int r / double_of_int RAND_MAX)%float, g).

(** [english_monograms[s]]. *)
Definition monogram (s : Z) : option double :=
  if bool_decide (0 ≤ s) then english_monograms !! Z.to_nat s else None.

(** [rand_int_frequency_weighted]. *)
Definition rand_int_frequency_weighted (state : list Z) (min_index max_index : Z)
    (g : rng) : option (Z * rng) :=
  total ← for_range min_index max_index (λ i total,
             s ← rd state i; m ← monogram s;
             Some (Next (total + m)%float)) 0%float;
  let '(rnd, g) := frand g in
  r ← for_range min_index max_index (λ i '(cumsum, found),
             s ← rd state i; m ← monogram s;
             let cumsum := (cumsum + m / total)%float in
             if (rnd <? cumsum)%float then Some (Break (cumsum, Some i))
             else Some (Next (cumsum, found))) (0%float, None);
  Some (default (max_index - 1) r.2, g).

(** [perturbate_cycleword]. *)
Definition perturbate_cycleword (state : list Z) (max len : Z) (g : rng)
    : option (list Z * rng) :=
  '(i, g) ← rand_int 0 len g;
  '(v, g) ← rand_int 0 max g;
  state ← wr state i v;
  Some (state, g).

(** The "delete [state[j]]" loop of [perturbate_keyword]. *)
Definition delete_at (state : list Z) (j len : Z) : option (list Z) :=
  for_range (j + 1) len (λ k state,
    v ← rd state k; state ← wr state (k - 1) v; Some (Next state)) state.

(** The "insert" loop of [perturbate_keyword]. *)
Definition insert_sorted (state : list Z) (temp keyword_len len : Z)
    : option (list Z) :=
  for_range keyword_len len (λ k state,
    sk ← rd state k;
    if (temp <? sk) || (k =? len - 1) then
      state ← for_range_down (len - 1) k (λ l state,
                 v ← rd state (l - 1); state ← wr state l v; Some (Next state)) state;
      state ← wr state k temp;
      Some (Break state)
    else Some (Next state)) state.

(** [perturbate_keyword]. *)
Definition perturbate_keyword (state : list Z) (len keyword_len : Z) (g : rng)
    : option (list Z * rng) :=
  let '(u, g) := frand g in
  if (u <? 0.2)%float then
    '(i, g) ← (if KRYPTOS_PT_SCRAMBLE then rand_int 7 keyword_len g
               else rand_int 0 keyword_len g);
    '(j, g) ← (if KRYPTOS_PT_SCRAMBLE then rand_int 7 keyword_len g
               else rand_int 0 keyword_len g);
    temp ← rd state i;
    sj ← rd state j;
    state ← wr state i sj;
    state ← wr state j temp;
    Some (state, g)
  else
    '(i, g) ← (if KRYPTOS_PT_SCRAMBLE then rand_int 7 len g
               else if FREQUENCY_WEIGHTED_SELECTION
               then rand_int_frequency_weighted state 0 keyword_len g
               else rand_int 0 keyword_len g);
    '(j, g) ← (if KRYPTOS_PT_SCRAMBLE then rand_int 7 len g
               else if FREQUENCY_WEIGHTED_SELECTION
               then rand_int_frequency_weighted state keyword_len len g
               else rand_int keyword_len len g);
    temp ← rd state i;
    sj ← rd state j;
    state ← wr state i sj;
    state ← delete_at state j len;
    state ← insert_sorted state temp keyword_len len;
    Some (state, g).

(** [random_keyword]; [fuel] bounds the draws of the rejection loop. *)
Definition random_keyword (fuel : nat) (keyword : list Z) (len keyword_len : Z)
    (g : rng) : option (list Z * rng) :=
  '(keyword, _, g) ← while_loop fuel
    (λ '(keyword, n_chars, g), n_chars <? keyword_len)
    (λ '(keyword, n_chars, g),
       '(candidate, g) ← rand_int 0 ALPHABET_SIZE g;
       distinct ← for_range 0 n_chars (λ i distinct,
                    ki ← rd keyword i;
                    if ki =? candidate then Some (Break false)
                    else Some (Next distinct)) true;
       if distinct : bool then
         keyword ← wr keyword n_chars candidate;
         Some (keyword, n_chars + 1, g)
       else Some (keyword, n_chars, g))
    (keyword, 0, g);
  '(keyword, _) ← for_range 0 ALPHABET_SIZE (λ i '(keyword, indx),
       present ← for_range 0 keyword_len (λ j present,
                    kj ← rd keyword j;
                    if kj =? i then Some (Break true)
                    else Some (Next present)) false;
       if present : bool then Some (Next (keyword, indx))
       else keyword ← wr keyword indx i; Some (Next (keyword, indx + 1)))
    (keyword, keyword_len);
  Some (keyword, g).

(** [random_cycleword]. *)
Definition random_cycleword (cycleword : list Z) (max keyword_len : Z) (g : rng)
    : option (list Z * rng) :=
  for_range 0 keyword_len (λ i '(cycleword, g),
    '(v, g) ← rand_int 0 max g;
    cycleword ← wr cycleword i v;
    Some (Next (cycleword, g))) (cycleword, g).
End random.

(** The block encoding of a keyword permutation with keyword length [k]:
    26 symbols of the alphabet; the first [k] distinct; the rest strictly
    ascending and exactly the symbols that are not among the first [k]. *)
Definition keyword_encoding (k : Z) (state : list Z) : Prop :=
  length state = 26%nat ∧
  Forall in_alphabet state ∧
  NoDup (take (Z.to_nat k) state) ∧
  StronglySorted Z.lt (drop (Z.to_nat k) state) ∧
  ∀ x, x ∈ drop (Z.to_nat k) state ↔
       in_alphabet x ∧ x ∉ take (Z.to_nat k) state.


(** Two streams for [rand()], used in the examples: a linear congruence
    and a constant. *)
Definition rng_example : rng := λ n, (Z.of_nat n * 7919 + 13) mod 32768.
Definition rng_constant (r : Z) : rng := λ _, r.

(* ===================================================================== *)
(** ** The crib engine: [cribs_satisfied_p] *)

(** [crib_frequencies], a matrix of [ALPHABET_SIZE] rows by
    [ALPHABET_SIZE] columns; the row is the crib symbol, the column the
    ciphertext symbol. *)
Abbreviation crib_matrix := (list (list Z)).

Definition matrix_zero : crib_matrix :=
  replicate 26 (replicate 26 0).

(** [m[r][c]]. *)
Definition mrd (m : crib_matrix) (r c : Z) : option Z :=
  if bool_decide (0 ≤ r) then row ← m !! Z.to_nat r; rd row c else None.

(** [m[r][c] = v]. *)
Definition mwr (m : crib_matrix) (r c v : Z) : option crib_matrix :=
  if bool_decide (0 ≤ r) then
    row ← m !! Z.to_nat r; row ← wr row c v; Some (<[Z.to_nat r := row]> m)
  else None.

(** "Extract column": the positions [cycleword_len*k + j] below
    [cipher_len] and the ciphertext symbols there.  The two local arrays
    hold [MAX_CIPHER_LENGTH] entries; the loop ends within [cipher_len]
    rounds, which is the fuel given. *)
Definition extract_column (cipher_indices : list Z) (cipher_len cycleword_len j : Z)
    : option (list Z * list Z) :=
  '(_, ciphertext_column_indices, ciphertext_column) ←
    while_loop (S (Z.to_nat cipher_len))
      (λ '(k, _, _), cycleword_len * k + j <? cipher_len)
      (λ '(k, idx, col),
         if k <? MAX_CIPHER_LENGTH then
           c ← rd cipher_indices (cycleword_len * k + j);
           Some (k + 1, idx ++ [cycleword_len * k + j], col ++ [c])
         else None)
      (0, [], []);
  Some (ciphertext_column_indices, ciphertext_column).

(** "Check for clash in rows": [true] when some row holds more than one
    mark, where the function returns [false]. *)
Definition row_clash (m : crib_matrix) : option bool :=
  for_range 0 ALPHABET_SIZE (λ ii _,
    r ← for_range 0 ALPHABET_SIZE (λ jj '(total, _),
          f ← mrd m ii jj;
          let total := total + f in
          if 1 <? total then Some (Break (total, true))
          else Some (Next (total, false))) (0, false);
    if r.2 : bool then Some (Break true) else Some (Next false)) false.

(** "Check for clash in cols". *)
Definition col_clash (m : crib_matrix) : option bool :=
  for_range 0 ALPHABET_SIZE (λ jj _,
    r ← for_range 0 ALPHABET_SIZE (λ ii '(total, _),
          f ← mrd m ii jj;
          let total := total + f in
          if 1 <? total then Some (Break (total, true))
          else Some (Next (total, false))) (0, false);
    if r.2 : bool then Some (Break true) else Some (Next false)) false.

(** The loop over the column for crib [i]; the flag says that the function
    has returned [false]. *)
Definition place_crib (ciphertext_column_indices ciphertext_column : list Z)
    (column_length : Z) (crib_indices crib_positions : list Z) (i : Z)
    (m : crib_matrix) : option (crib_matrix * bool) :=
  for_range 0 column_length (λ k '(m, _),
    cp ← rd crib_positions i;
    ci ← rd ciphertext_column_indices k;
    if cp =? ci then
      pt ← rd crib_indices i;
      ct ← rd ciphertext_column k;
      m ← mwr m pt ct 1;
      rc ← row_clash m;
      if rc : bool then Some (Break (m, true)) else
      cc ← col_clash m;
      if cc : bool then Some (Break (m, true)) else Some (Next (m, false))
    else Some (Next (m, false))) (m, false).

(** One round of the loop over the columns; [true] when the function
    returns [false] in it. *)
Definition check_column (cipher_indices : list Z) (cipher_len : Z)
    (crib_indices crib_positions : list Z) (n_cribs cycleword_len j : Z)
    : option bool :=
  '(ciphertext_column_indices, ciphertext_column) ←
    extract_column cipher_indices cipher_len cycleword_len j;
  let column_length := Z.of_nat (length ciphertext_column_indices) in
  r ← for_range 0 n_cribs (λ i '(m, _),
        r ← place_crib ciphertext_column_indices ciphertext_column
              column_length crib_indices crib_positions i m;
        if r.2 : bool then Some (Break r) else Some (Next r))
      (matrix_zero, false);
  Some r.2.

(** [cribs_satisfied_p]. *)
Definition cribs_satisfied_p (cipher_indices : list Z) (cipher_len : Z)
    (crib_indices crib_positions : list Z) (n_cribs cycleword_len : Z)
    : option bool :=
  if n_cribs =? 0 then Some true else
  r ← for_range 0 cycleword_len (λ j _,
        c ← check_column cipher_indices cipher_len crib_indices crib_positions
              n_cribs cycleword_len j;
        if c : bool then Some (Break true) else Some (Next false)) false;
  Some (negb r).







(* ===================================================================== *)
(** ** The crib engine: [constrain_cycleword] *)

(** The linear search used four times in [constrain_cycleword]:
    [for (k = 0; k < ALPHABET_SIZE; k++) if (key[k] == target) { posn = k; break; }]. *)
Definition find_posn (key : list Z) (target : Z) (posn : option Z)
    : option (option Z) :=
  for_range 0 ALPHABET_SIZE (λ k posn,
    kk ← rd key k;
    if kk =? target then Some (Break (Some k)) else Some (Next posn)) posn.

(** The locals of [constrain_cycleword] and the caller's cycleword. *)
Record constrain_locals : Type := ConstrainLocals {
  crib_cyclewords : list Z;
  cc_cycleword_indices : list Z;
  cc_posn_keyword : option Z;
  cc_posn_cycleword : option Z;
  cc_contradiction : bool  (* the function has returned [true] *)
}.

Section constrain.
(** [INACTIVE] is a macro of the header, which is outside [src/]: a
    parameter. *)
Context (INACTIVE : Z).

(** The body of the loop over the cribs, for cycleword position [i]. *)
Definition constrain_crib (cipher_indices crib_indices crib_positions : list Z)
    (plaintext_keyword_indices ciphertext_keyword_indices : list Z)
    (cycleword_len : Z) (variant : bool) (i j : Z) (st : constrain_locals)
    : option (ctl constrain_locals) :=
  pos ← rd crib_positions j;
  if cycleword_len =? 0 then None else
  if Z.rem pos cycleword_len =? i then
    crib_char ← rd crib_indices j;
    ciphertext_char ← rd cipher_indices pos;
    '(pk, pc, indx) ←
      (if variant then
         pk ← find_posn plaintext_keyword_indices ciphertext_char
                 (cc_posn_keyword st);
         pc ← find_posn ciphertext_keyword_indices crib_char
                 (cc_posn_cycleword st);
         k ← pk; c ← pc;
         Some (pk, pc, wrap_index (c - k))
       else
         pk ← find_posn ciphertext_keyword_indices ciphertext_char
                 (cc_posn_keyword st);
         pc ← find_posn plaintext_keyword_indices crib_char
                 (cc_posn_cycleword st);
         k ← pk; c ← pc;
         Some (pk, pc, wrap_index (k - c)));
    cw ← rd (crib_cyclewords st) i;
    sym ← rd plaintext_keyword_indices indx;
    if cw =? INACTIVE then
      ccw ← wr (crib_cyclewords st) i sym;
      cyc ← wr (cc_cycleword_indices st) i sym;
      Some (Next (ConstrainLocals ccw cyc pk pc false))
    else if negb (cw =? sym) then
      Some (Break (ConstrainLocals (crib_cyclewords st)
                     (cc_cycleword_indices st) pk pc true))
    else
      Some (Next (ConstrainLocals (crib_cyclewords st)
                    (cc_cycleword_indices st) pk pc false))
  else Some (Next st).

(** [constrain_cycleword]: the value returned and the caller's cycleword
    as the function leaves it.  [crib_cyclewords] holds
    [MAX_CYCLEWORD_LEN] entries. *)
Definition constrain_cycleword (cipher_indices : list Z) (cipher_len : Z)
    (crib_indices crib_positions : list Z) (n_cribs : Z)
    (plaintext_keyword_indices ciphertext_keyword_indices : list Z)
    (cycleword_indices : list Z) (cycleword_len : Z) (variant : bool)
    : option (bool * list Z) :=
  if n_cribs =? 0 then Some (false, cycleword_indices) else
  ccw ← for_range 0 cycleword_len (λ i ccw,
           ccw ← wr ccw i INACTIVE; Some (Next ccw))
         (replicate (Z.to_nat MAX_CYCLEWORD_LEN) 0);
  st ← for_range 0 cycleword_len (λ i st,
         st ← for_range 0 n_cribs
                (constrain_crib cipher_indices crib_indices crib_positions
                   plaintext_keyword_indices ciphertext_keyword_indices
                   cycleword_len variant i) st;
         if cc_contradiction st then Some (Break st) else Some (Next st))
       (ConstrainLocals ccw cycleword_indices None None false);
  Some (cc_contradiction st, cc_cycleword_indices st).
End constrain.

(** The cycleword symbol that a crib demands in [constrain_cycleword]. *)
Definition demanded_symbol (P C : list Z) (variant : bool) (x c : Z) : Z :=
  if variant then at_ P (wrap_index (posn_of C x - posn_of P c))
  else at_ P (wrap_index (posn_of C c - posn_of P x)).

(** B and A exchanged, the rest straight: BACDEFGHIJKLMNOPQRSTUVWXYZ. *)
Definition ba_alphabet : list Z := 1 :: 0 :: seqZ 2 24.

(* ===================================================================== *)
(** ** Alphabet primitives: [tally], [index_of_coincidence], [entropy] *)

(** [tally]: the frequencies of the symbols of [plaintext[0 .. len)]. *)
Definition tally (plaintext : list Z) (len : Z) (n_frequencies : Z)
    : option (list Z) :=
  for_range 0 len (λ i frequencies,
    s ← rd plaintext i;
    f ← rd frequencies s;
    frequencies ← wr frequencies s (f + 1);
    Some (Next frequencies)) (replicate (Z.to_nat n_frequencies) 0).

(** [index_of_coincidence]; it returns a [float]. *)
Definition index_of_coincidence (plaintext : list Z) (len : Z) : option double :=
  frequencies ← tally plaintext len ALPHABET_SIZE;
  ioc ← for_range 0 ALPHABET_SIZE (λ i ioc,
           f ← rd frequencies i;
           Some (Next (ioc + double_of_int (f * (f - 1)))%float)) 0%float;
  Some (to_float (ioc / double_of_int (len * (len - 1)))%float).

Section int_arith.
(** [INT_MAX] of [limits.h]; [INT_MIN] is [- INT_MAX - 1]. *)
Context (INT_MAX : Z).

(** [a + b] and [a * b] on [int]s: a result outside the range of [int] is
    undefined. *)
Definition int_add (a b : Z) : option Z :=
  if bool_decide (- INT_MAX - 1 ≤ a + b ≤ INT_MAX) then Some (a + b) else None.

Definition int_mul (a b : Z) : option Z :=
  if bool_decide (- INT_MAX - 1 ≤ a * b ≤ INT_MAX) then Some (a * b) else None.
End int_arith.

Section score.
(** [INT_MAX] of [limits.h] and [exp], [log] and [pow] of the C mathematics
    library. *)
Context (INT_MAX : Z).
Context (libm_exp libm_log : double → double) (libm_pow : double → double → double).

(** [entropy]. *)
Definition entropy (text : list Z) (len : Z) : option double :=
  frequencies ← tally text len ALPHABET_SIZE;
  for_range 0 ALPHABET_SIZE (λ i entropy,
    f ← rd frequencies i;
    if 0 <? f then
      let freq := (double_of_int f / double_of_int len)%float in
      Some (Next (entropy - freq * libm_log freq)%float)
    else Some (Next entropy)) 0%float.

(** [crib_score]. *)
Definition crib_score (text : list Z) (len : Z)
  (crib_indices crib_positions : list Z) (n_cribs : Z) : option double :=
  if n_cribs =? 0 then Some 0%float else
  n_matches ← for_range 0 n_cribs (λ i n_matches,
               p ← rd crib_positions i;
               t ← rd text p;
               c ← rd crib_indices i;
               if t =? c then Some (Next (n_matches + 1))
               else Some (Next n_matches)) 0;
  Some (double_of_int n_matches / double_of_int n_cribs)%float.

(** [ngram_data[index]], a [float] of the table. *)
Definition ngram_at (ngram_data : list double) (index : Z) : option double :=
  if bool_decide (0 ≤ index) then ngram_data !! Z.to_nat index else None.

(** [ngram_score].  [index] and [base] are [int]s: [index += d * base] and
    [base *= ALPHABET_SIZE] are undefined when they leave the range. *)
Definition ngram_score (decrypted : list Z) (cipher_len : Z)
  (ngram_data : list double) (ngram_size : Z) : option double :=
  score ← for_range 0 (cipher_len - ngram_size) (λ i score,
           '(index, _) ← for_range 0 ngram_size (λ j '(index, base),
               d ← rd decrypted (i + j);
               t ← int_mul INT_MAX d base;
               index ← int_add INT_MAX index t;
               base ← int_mul INT_MAX base ALPHABET_SIZE;
               Some (Next (index, base))) (0, 1);
           g ← ngram_at ngram_data index;
           Some (Next (score + g)%float)) 0%float;
  Some (libm_pow (double_of_int ALPHABET_SIZE) (double_of_int ngram_size) * score
      / double_of_int (cipher_len - ngram_size))%float.

(** The text that [state_score] scores. *)
Definition candidate_text (cipher_indices : list Z) (cipher_len : Z)
  (plaintext_keyword_state ciphertext_keyword_state cycleword_state : list Z)
  (cycleword_len : Z) (variant beaufort : bool) : option (list Z) :=
  if variant then
    quagmire_encrypt cipher_indices cipher_len plaintext_keyword_state
      ciphertext_keyword_state cycleword_state cycleword_len beaufort
  else
    quagmire_decrypt cipher_indices cipher_len plaintext_keyword_state
      ciphertext_keyword_state cycleword_state cycleword_len beaufort.

(** The IoC term and the entropy term of the score. *)
Definition ioc_term (decrypted : list Z) (cipher_len : Z) : option double :=
  ioc ← index_of_coincidence decrypted cipher_len;
  let mean_english_ioc := 1.742%float in
  let ioc_score := to_float (double_of_int ALPHABET_SIZE * ioc)%float in
  Some (libm_exp (- libm_pow (ioc_score - mean_english_ioc) 2))%float.

Definition entropy_term (decrypted : list Z) (cipher_len : Z) : option double :=
  e ← entropy decrypted cipher_len;
  let mean_english_entropy := 2.85%float in
  Some (libm_exp (- libm_pow (e - mean_english_entropy) 2))%float.

(** [weight_ngram + weight_crib + weight_ioc + weight_entropy], a sum of
    [float]s. *)
Definition weight_sum (w : weight_opts) : double :=
  to_float (to_float (to_float (weight_ngram w + weight_crib w)
                    + weight_ioc w)
          + weight_entropy w)%float.

(** [state_score]. *)
Definition state_score (cipher_indices : list Z) (cipher_len : Z)
  (crib_indices crib_positions : list Z) (n_cribs : Z)
  (plaintext_keyword_state ciphertext_keyword_state cycleword_state : list Z)
  (cycleword_len : Z) (variant beaufort : bool)
  (ngram_data : list double) (ngram_size : Z) (w : weight_opts)
  : option double :=
  decrypted ← candidate_text cipher_indices cipher_len plaintext_keyword_state
               ciphertext_keyword_state cycleword_state cycleword_len
               variant beaufort;
  decrypted_ngram_score ← ngram_score decrypted cipher_len ngram_data ngram_size;
  decrypted_crib_score ← crib_score decrypted cipher_len crib_indices
                          crib_positions n_cribs;
  ioc_score ← ioc_term decrypted cipher_len;
  entropy_score ← entropy_term decrypted cipher_len;
  let score := (weight_ngram w * decrypted_ngram_score
              + weight_crib w * decrypted_crib_score
              + weight_ioc w * ioc_score
              + weight_entropy w * entropy_score)%float in
  let score := (score / weight_sum w)%float in
  Some (score / 3.41)%float.
End score.

(** *** The score as the specification writes it *)

(** Horner form of a little-endian number in base 26. *)
Definition horner (digits : list Z) : Z :=
  foldr (λ d acc, d + ALPHABET_SIZE * acc) 0 digits.












(* ===================================================================== *)
(** ** The period estimator *)

(** [vec[i]] of an array of [double]s. *)
Definition rdd (vec : list double) (i : Z) : option double :=
  if bool_decide (0 ≤ i) then vec !! Z.to_nat i else None.

(** [vec[i] = v]. *)
Definition wrd (vec : list double) (i : Z) (v : double) : option (list double) :=
  if bool_decide (0 ≤ i < Z.of_nat (length vec))
  then Some (<[Z.to_nat i := v]> vec) else None.

(** [mean_ioc]: the mean of the IoC of the [len_cycleword] columns.  The
    column is copied into the caller's [caesar_column], of
    [MAX_CIPHER_LENGTH] entries; each column takes at most [len] rounds,
    the fuel given. *)
Definition mean_ioc (text : list Z) (len len_cycleword : Z) : option double :=
  weighted_ioc ← for_range 0 len_cycleword (λ k weighted_ioc,
      '(i, caesar_column) ←
        while_loop (S (Z.to_nat len))
          (λ '(i, _), len_cycleword * i + k <? len)
          (λ '(i, caesar_column),
             if i <? MAX_CIPHER_LENGTH then
               c ← rd text (len_cycleword * i + k);
               Some (i + 1, caesar_column ++ [c])
             else None)
          (0, []);
      ioc ← index_of_coincidence caesar_column i;
      Some (Next (weighted_ioc + ioc)%float)) 0%float;
  Some (weighted_ioc / double_of_int len_cycleword)%float.

(** [vec_mean]. *)
Definition vec_mean (vec : list double) (len : Z) : option double :=
  total ← for_range 0 len (λ i total,
             v ← rdd vec i; Some (Next (total + v)%float)) 0%float;
  Some (total / double_of_int len)%float.

Section period.
Context (libm_pow : double → double → double).

(** [vec_stddev]. *)
Definition vec_stddev (vec : list double) (len : Z) : option double :=
  mu ← vec_mean vec len;
  sumdev ← for_range 0 len (λ i sumdev,
              v ← rdd vec i;
              Some (Next (sumdev + libm_pow (v - mu) 2)%float)) 0%float;
  Some (PrimFloat.sqrt (sumdev / double_of_int len))%float.

(** First stage of [estimate_cycleword_lengths]: [mu_ioc], the mean IoC
    of every candidate length; the array holds [MAX_CYCLEWORD_LEN]
    entries. *)
Definition candidate_iocs (text : list Z) (len max_cycleword_len : Z)
    : option (list double) :=
  for_range 1 (max_cycleword_len + 1) (λ i mu_ioc,
    m ← mean_ioc text len i;
    mu_ioc ← wrd mu_ioc (i - 1) m;
    Some (Next mu_ioc)) (replicate (Z.to_nat MAX_CYCLEWORD_LEN) 0%float).

(** Second stage: [mu_ioc_normalised], the z-scores. *)
Definition normalise_iocs (mu_ioc : list double) (max_cycleword_len : Z)
    : option (list double) :=
  mu ← vec_mean mu_ioc max_cycleword_len;
  std ← vec_stddev mu_ioc max_cycleword_len;
  for_range 0 max_cycleword_len (λ i z,
    v ← rdd mu_ioc i;
    z ← wrd z i ((v - mu) / std)%float;
    Some (Next z)) (replicate (Z.to_nat MAX_CYCLEWORD_LEN) 0%float).

(** Third stage: "select only those above n_sigma_threshold and sort by
    mean IOC".  The result is [*n_cycleword_lengths] and the caller's
    array [cycleword_lengths], of [MAX_CIPHER_LENGTH] entries. *)
Definition select_lengths (mu_ioc mu_ioc_normalised : list double)
    (max_cycleword_len : Z) (n_sigma_threshold ioc_threshold : double)
    (cycleword_lengths : list Z) : option (Z * list Z) :=
  '(n, _, lengths) ←
    for_range 0 max_cycleword_len (λ i '(n, current_ioc, lengths),
      '(threshold, max_ioc, lengths) ←
        for_range 0 max_cycleword_len (λ j '(threshold, max_ioc, lengths),
          z ← rdd mu_ioc_normalised j;
          v ← rdd mu_ioc j;
          if (n_sigma_threshold <? z)%float && (ioc_threshold <? v)%float
             && (max_ioc <? z)%float && (z <? current_ioc)%float then
            lengths ← wr lengths i (j + 1);
            Some (Next (true, z, lengths))
          else Some (Next (threshold, max_ioc, lengths)))
          (false, 0%float, lengths);
      Some (Next (if threshold : bool then n + 1 else n, max_ioc, lengths)))
      (0, 1e6%float, cycleword_lengths);
  Some (n, lengths).

(** [estimate_cycleword_lengths]: the candidate lengths returned, the first
    [*n_cycleword_lengths] entries of [cycleword_lengths].  (The function
    goes on to compute [word_len_norm_ioc], which nothing reads.) *)
Definition estimate_cycleword_lengths (text : list Z) (len max_cycleword_len : Z)
    (n_sigma_threshold ioc_threshold : double) : option (list Z) :=
  mu_ioc ← candidate_iocs text len max_cycleword_len;
  mu_ioc_normalised ← normalise_iocs mu_ioc max_cycleword_len;
  '(n, lengths) ← select_lengths mu_ioc mu_ioc_normalised max_cycleword_len
                    n_sigma_threshold ioc_threshold
                    (replicate (Z.to_nat MAX_CIPHER_LENGTH) 0);
  Some (take (Z.to_nat n) lengths).

(** The acceptance test of the specification for the candidate length [p]. *)
Definition accepts (mu_ioc mu_ioc_normalised : list double)
    (n_sigma_threshold ioc_threshold : double) (p : Z) : bool :=
  match rdd mu_ioc_normalised (p - 1), rdd mu_ioc (p - 1) with
  | Some z, Some v => (n_sigma_threshold <? z)%float && (ioc_threshold <? v)%float
  | _, _ => false
  end.
End period.

(** [pow(x, 2)], the only call of [pow] in the period estimator. *)
Definition pow_square (x y : double) : double := (x * x)%float.

(** ABCABC...ABC, 60 letters. *)
Definition abc_text : list Z := mjoin (replicate 20 [0; 1; 2]).

(* ===================================================================== *)
(** ** The hill climber: [quagmire_shotgun_hill_climber] *)

(** [straight_alphabet] as the climber calls it, on an array it owns. *)
Definition write_straight (keyword : list Z) (len : Z) : option (list Z) :=
  for_range 0 len (λ i keyword,
    keyword ← wr keyword i i; Some (Next keyword)) keyword.

(** The alphabets that the K4 blocks write: KOMITE, KRYPTOS, SOLUBE. *)
Definition komitet_alphabet : list Z :=
  [10;14;12;8;19;4;0;1;2;3;5;6;7;9;11;13;15;16;17;18;20;21;22;23;24;25].
Definition soluble_alphabet : list Z :=
  [18;14;11;20;1;4;0;2;3;5;6;7;8;9;10;12;13;15;16;17;19;21;22;23;24;25].

(** A plaintext keyword array, a ciphertext keyword array (both of
    [ALPHABET_SIZE] entries) and a cycleword array (of
    [MAX_CYCLEWORD_LEN] entries). *)
Record key_state : Type := KeyState {
  plaintext_keyword_state : list Z;
  ciphertext_keyword_state : list Z;
  cycleword_state : list Z
}.

(** The arguments of the climber that it only reads. *)
Record climber_config : Type := ClimberConfig {
  cfg_cipher_type : Z;
  cfg_cipher_indices : list Z;
  cfg_cipher_len : Z;
  cfg_crib_indices : list Z;
  cfg_crib_positions : list Z;
  cfg_n_cribs : Z;
  cfg_cycleword_len : Z;
  cfg_n_hill_climbs : Z;
  cfg_n_restarts : Z;
  cfg_ngram_data : list double;
  cfg_ngram_size : Z;
  cfg_backtracking_probability : double;
  cfg_keyword_permutation_probability : double;
  cfg_slip_probability : double;
  cfg_weights : weight_opts;
  cfg_variant : bool;
  cfg_beaufort : bool;
  cfg_verbose : bool
}.

(** The locals of the climber that change, the two keyword lengths (the
    Beaufort case assigns them) and the generator. *)
Record climber : Type := Climber {
  local_state : key_state;
  current_state : key_state;
  best_state : key_state;
  current_score : double;
  best_score : double;
  perturbate_keyword_p : bool;
  cl_plaintext_keyword_len : Z;
  cl_ciphertext_keyword_len : Z;
  n_iterations : Z;
  n_backtracks : Z;
  n_explore : Z;
  n_contradictions : Z;
  cl_rng : rng
}.

(** Where the climber stands: at the head of the loop over the restarts,
    at the head of the loop over the hill climbs, or past both. *)
Inductive control : Type :=
| AtRestart (n : Z)
| AtIteration (n i : Z)
| AtReturn.

(** What the header, which is outside [src/], and the C library fix: the
    cipher type macros (the labels of the [switch]es), [INACTIVE], the
    compile-time switches, the monogram table, [RAND_MAX], [INT_MAX] and
    the functions of [math.h]. *)
Record build : Type := Build {
  VIGENERE : Z;
  QUAGMIRE_1 : Z;
  QUAGMIRE_2 : Z;
  QUAGMIRE_3 : Z;
  QUAGMIRE_4 : Z;
  BEAUFORT : Z;
  INACTIVE : Z;
  FREQUENCY_WEIGHTED_SELECTION : bool;
  KRYPTOS_PT_SCRAMBLE : bool;
  KOMITET_PT : bool;
  KOMITET_CT : bool;
  KRYPTOS_PT : bool;
  KRYPTOS_CT : bool;
  SOLUBLE_PT : bool;
  SOLUBLE_CT : bool;
  english_monograms : list double;
  RAND_MAX : Z;
  INT_MAX : Z;
  libm_exp : double → double;
  libm_log : double → double;
  libm_pow : double → double → double
}.

Section climber.
(** Fuel for the rejection loop of [random_keyword]. *)
Context (b : build) (keyword_fuel : nat) (cfg : climber_config).

(** [if (cipher_type == VIGENERE) cycleword_len = ALPHABET_SIZE;] *)
Definition climber_cycleword_len : Z :=
  if cfg_cipher_type cfg =? VIGENERE b then ALPHABET_SIZE
  else cfg_cycleword_len cfg.

(** [state_score] on a state. *)
Definition score_state (k : key_state) : option double :=
  state_score (INT_MAX b) (libm_exp b) (libm_log b) (libm_pow b)
    (cfg_cipher_indices cfg) (cfg_cipher_len cfg)
    (cfg_crib_indices cfg) (cfg_crib_positions cfg) (cfg_n_cribs cfg)
    (plaintext_keyword_state k) (ciphertext_keyword_state k) (cycleword_state k)
    climber_cycleword_len (cfg_variant cfg) (cfg_beaufort cfg)
    (cfg_ngram_data cfg) (cfg_ngram_size cfg) (cfg_weights cfg).

(** The three [vec_copy] calls that copy a state. *)
Definition copy_state (src dest : key_state) : option key_state :=
  P ← vec_copy (plaintext_keyword_state src) (plaintext_keyword_state dest)
         ALPHABET_SIZE;
  C ← vec_copy (ciphertext_keyword_state src) (ciphertext_keyword_state dest)
         ALPHABET_SIZE;
  W ← vec_copy (cycleword_state src) (cycleword_state dest) climber_cycleword_len;
  Some (KeyState P C W).

(** One K4 block: 26 assignments to [own], then a copy to [other] for the
    ciphers with one keyword. *)
Definition k4_block (on : bool) (alphabet own other : list Z)
    : option (list Z * list Z) :=
  if on then
    own ← for_range 0 ALPHABET_SIZE (λ i own,
             a ← rd alphabet i; own ← wr own i a; Some (Next own)) own;
    if (cfg_cipher_type cfg =? VIGENERE b)
       || (cfg_cipher_type cfg =? BEAUFORT b)
       || (cfg_cipher_type cfg =? QUAGMIRE_3 b)
    then other ← vec_copy own other ALPHABET_SIZE; Some (own, other)
    else Some (own, other)
  else Some (own, other).

(** The K4 blocks, in the order of the source; [at_restart] is the copy
    that follows the initialisation. *)
Definition k4_blocks (at_restart : bool) (k : key_state) : option key_state :=
  let P := plaintext_keyword_state k in
  let C := ciphertext_keyword_state k in
  '(P, C) ← k4_block (KOMITET_PT b) komitet_alphabet P C;
  '(C, P) ← k4_block (KOMITET_CT b) komitet_alphabet C P;
  '(P, C) ← k4_block (KRYPTOS_PT b || (at_restart && KRYPTOS_PT_SCRAMBLE b))
              kryptos_alphabet P C;
  '(C, P) ← k4_block (KRYPTOS_CT b) kryptos_alphabet C P;
  '(P, C) ← k4_block (SOLUBLE_PT b) soluble_alphabet P C;
  '(C, P) ← k4_block (SOLUBLE_CT b) soluble_alphabet C P;
  Some (KeyState P C (cycleword_state k)).

(** "Initialise random state": the [switch] over the cipher type and the
    score of the state. *)
Definition fresh_state (s : climber) : option climber :=
  let cur := current_state s in
  let P0 := plaintext_keyword_state cur in
  let C0 := ciphertext_keyword_state cur in
  let W0 := cycleword_state cur in
  let pkl := cl_plaintext_keyword_len s in
  let ckl := cl_ciphertext_keyword_len s in
  let g := cl_rng s in
  '(cur, pkl, ckl, g) ←
    (if cfg_cipher_type cfg =? VIGENERE b then
       '(P, g) ← random_keyword keyword_fuel P0 ALPHABET_SIZE pkl g;
       C ← vec_copy P C0 ALPHABET_SIZE;
       W ← vec_copy P W0 ALPHABET_SIZE;
       Some (KeyState P C W, pkl, ckl, g)
     else if cfg_cipher_type cfg =? QUAGMIRE_1 b then
       '(P, g) ← random_keyword keyword_fuel P0 ALPHABET_SIZE pkl g;
       C ← write_straight C0 ALPHABET_SIZE;
       '(W, g) ← random_cycleword W0 ALPHABET_SIZE climber_cycleword_len g;
       Some (KeyState P C W, pkl, ckl, g)
     else if cfg_cipher_type cfg =? QUAGMIRE_2 b then
       P ← write_straight P0 ALPHABET_SIZE;
       '(C, g) ← random_keyword keyword_fuel C0 ALPHABET_SIZE ckl g;
       '(W, g) ← random_cycleword W0 ALPHABET_SIZE climber_cycleword_len g;
       Some (KeyState P C W, pkl, ckl, g)
     else if cfg_cipher_type cfg =? QUAGMIRE_3 b then
       '(P, g) ← random_keyword keyword_fuel P0 ALPHABET_SIZE pkl g;
       C ← vec_copy P C0 ALPHABET_SIZE;
       '(W, g) ← random_cycleword W0 ALPHABET_SIZE climber_cycleword_len g;
       Some (KeyState P C W, pkl, ckl, g)
     else if cfg_cipher_type cfg =? QUAGMIRE_4 b then
       '(P, g) ← random_keyword keyword_fuel P0 ALPHABET_SIZE pkl g;
       '(C, g) ← random_keyword keyword_fuel C0 ALPHABET_SIZE ckl g;
       '(W, g) ← random_cycleword W0 ALPHABET_SIZE climber_cycleword_len g;
       Some (KeyState P C W, pkl, ckl, g)
     else if cfg_cipher_type cfg =? BEAUFORT b then
       P ← write_straight P0 ALPHABET_SIZE;
       C ← vec_copy P C0 ALPHABET_SIZE;
       '(W, g) ← random_cycleword W0 ALPHABET_SIZE climber_cycleword_len g;
       Some (KeyState P C W, ALPHABET_SIZE, ALPHABET_SIZE, g)
     else Some (cur, pkl, ckl, g));
  score ← score_state cur;
  Some (Climber (local_state s) cur (best_state s) score (best_score s)
          (perturbate_keyword_p s) pkl ckl
          (n_iterations s) (n_backtracks s) (n_explore s) (n_contradictions s) g).

(** "Backtrack to best state". *)
Definition backtrack_state (s : climber) : option climber :=
  cur ← copy_state (best_state s) (current_state s);
  Some (Climber (local_state s) cur (best_state s) (best_score s) (best_score s)
          (perturbate_keyword_p s)
          (cl_plaintext_keyword_len s) (cl_ciphertext_keyword_len s)
          (n_iterations s) (n_backtracks s + 1) (n_explore s)
          (n_contradictions s) (cl_rng s)).

(** The head of a restart, down to [perturbate_keyword_p = true;]. *)
Definition restart_begin (s : climber) : option climber :=
  s ← (if (0 <? best_score s)%float then
         let '(u, g) := frand (RAND_MAX b) (cl_rng s) in
         let s := Climber (local_state s) (current_state s) (best_state s)
                    (current_score s) (best_score s) (perturbate_keyword_p s)
                    (cl_plaintext_keyword_len s) (cl_ciphertext_keyword_len s)
                    (n_iterations s) (n_backtracks s) (n_explore s)
                    (n_contradictions s) g in
         if (u <? cfg_backtracking_probability cfg)%float
         then backtrack_state s else fresh_state s
       else fresh_state s);
  cur ← k4_blocks true (current_state s);
  Some (Climber (local_state s) cur (best_state s)
          (current_score s) (best_score s) true
          (cl_plaintext_keyword_len s) (cl_ciphertext_keyword_len s)
          (n_iterations s) (n_backtracks s) (n_explore s)
          (n_contradictions s) (cl_rng s)).

(** The condition of the move: [true] for a keyword perturbation.  [&&]
    and [||] call [frand] only when the flag and the cipher type leave the
    choice open. *)
Definition choose_keyword_move (flag : bool) (g : rng) : bool * rng :=
  if cfg_cipher_type cfg =? BEAUFORT b then (false, g)
  else if flag || (cfg_cipher_type cfg =? VIGENERE b) then (true, g)
  else let '(u, g) := frand (RAND_MAX b) g in
       ((u <? cfg_keyword_permutation_probability cfg)%float, g).

Definition perturb_keyword (state : list Z) (keyword_len : Z) (g : rng)
    : option (list Z * rng) :=
  perturbate_keyword (RAND_MAX b) (english_monograms b)
    (FREQUENCY_WEIGHTED_SELECTION b) (KRYPTOS_PT_SCRAMBLE b)
    state ALPHABET_SIZE keyword_len g.

(** The [switch] of the keyword perturbation. *)
Definition keyword_move (k : key_state) (pkl ckl : Z) (g : rng)
    : option (key_state * rng) :=
  let P := plaintext_keyword_state k in
  let C := ciphertext_keyword_state k in
  let W := cycleword_state k in
  if cfg_cipher_type cfg =? VIGENERE b then
    '(P, g) ← perturb_keyword P pkl g;
    C ← vec_copy P C ALPHABET_SIZE;
    W ← vec_copy P W ALPHABET_SIZE;
    Some (KeyState P C W, g)
  else if cfg_cipher_type cfg =? QUAGMIRE_1 b then
    '(P, g) ← perturb_keyword P pkl g; Some (KeyState P C W, g)
  else if cfg_cipher_type cfg =? QUAGMIRE_2 b then
    '(C, g) ← perturb_keyword C ckl g; Some (KeyState P C W, g)
  else if cfg_cipher_type cfg =? QUAGMIRE_3 b then
    '(P, g) ← perturb_keyword P pkl g;
    C ← vec_copy P C ALPHABET_SIZE;
    Some (KeyState P C W, g)
  else if cfg_cipher_type cfg =? QUAGMIRE_4 b then
    let '(u, g) := frand (RAND_MAX b) g in
    if (u <? 0.5)%float then
      '(P, g) ← perturb_keyword P pkl g; Some (KeyState P C W, g)
    else
      '(C, g) ← perturb_keyword C ckl g; Some (KeyState P C W, g)
  else Some (k, g).

(** "perturbate": the copy of the current state and the move. *)
Definition perturb_stage (s : climber) : option (key_state * rng) :=
  loc ← copy_state (current_state s) (local_state s);
  let '(keyword, g) := choose_keyword_move (perturbate_keyword_p s) (cl_rng s) in
  '(loc, g) ←
    (if keyword then
       keyword_move loc (cl_plaintext_keyword_len s) (cl_ciphertext_keyword_len s) g
     else
       '(W, g) ← perturbate_cycleword (cycleword_state loc) ALPHABET_SIZE
                    climber_cycleword_len g;
       Some (KeyState (plaintext_keyword_state loc)
               (ciphertext_keyword_state loc) W, g));
  loc ← k4_blocks false loc;
  Some (loc, g).

(** The call of [constrain_cycleword]: the flag, the contradiction counter
    and the candidate that come out of it. *)
Definition constrain_stage (flag : bool) (n_contr : Z) (loc : key_state)
    : option (bool * Z * key_state) :=
  if negb (cfg_cipher_type cfg =? VIGENERE b)
     && negb (cfg_cipher_type cfg =? BEAUFORT b) then
    '(contradiction, W) ←
      constrain_cycleword (INACTIVE b) (cfg_cipher_indices cfg) (cfg_cipher_len cfg)
        (cfg_crib_indices cfg) (cfg_crib_positions cfg) (cfg_n_cribs cfg)
        (plaintext_keyword_state loc) (ciphertext_keyword_state loc)
        (cycleword_state loc) climber_cycleword_len (cfg_variant cfg);
    let loc := KeyState (plaintext_keyword_state loc)
                 (ciphertext_keyword_state loc) W in
    if contradiction : bool then Some (true, n_contr + 1, loc)
    else Some (false, n_contr, loc)
  else Some (flag, n_contr, loc).

(** One round of the loop over the hill climbs.  The first component is
    [i] as the body leaves it: the verbose report runs its own loop on
    [i]. *)
Definition hill_climb (i : Z) (s : climber) : option (Z * climber) :=
  '(loc, g) ← perturb_stage s;
  '(flag, n_contr, loc) ←
    constrain_stage (perturbate_keyword_p s) (n_contradictions s) loc;
  local_score ← score_state loc;
  '(cur, cur_score, n_expl, g) ←
    (if (current_score s <? local_score)%float then
       cur ← copy_state loc (current_state s);
       Some (cur, local_score, n_explore s, g)
     else
       let '(u, g) := frand (RAND_MAX b) g in
       if (u <? cfg_slip_probability cfg)%float then
         cur ← copy_state loc (current_state s);
         Some (cur, local_score, n_explore s + 1, g)
       else Some (current_state s, current_score s, n_explore s, g));
  if (best_score s <? cur_score)%float then
    best ← copy_state cur (best_state s);
    Some (if cfg_verbose cfg then Z.max climber_cycleword_len 0 else i,
          Climber loc cur best cur_score cur_score flag
            (cl_plaintext_keyword_len s) (cl_ciphertext_keyword_len s)
            (n_iterations s + 1) (n_backtracks s) n_expl n_contr g)
  else
    Some (i, Climber loc cur (best_state s) cur_score (best_score s) flag
               (cl_plaintext_keyword_len s) (cl_ciphertext_keyword_len s)
               (n_iterations s + 1) (n_backtracks s) n_expl n_contr g).

(** One step of the two nested loops. *)
Definition climber_next (c : control) (s : climber) : option (control * climber) :=
  match c with
  | AtRestart n =>
      if n <? cfg_n_restarts cfg then
        s ← restart_begin s; Some (AtIteration n 0, s)
      else Some (AtReturn, s)
  | AtIteration n i =>
      if i <? cfg_n_hill_climbs cfg then
        '(i, s) ← hill_climb i s; Some (AtIteration n (i + 1), s)
      else Some (AtRestart (n + 1), s)
  | AtReturn => Some (AtReturn, s)
  end.

(** [k] steps from the entry of the two loops. *)
Fixpoint climber_run (k : nat) (c : control) (s : climber)
    : option (control * climber) :=
  match k with
  | O => Some (c, s)
  | S k =>
      match climber_next c s with
      | Some (c, s) => climber_run k c s
      | None => None
      end
  end.

(** The state at the entry: [best_score = 0.], the counters at zero; the
    arrays hold what the stack held. *)
Definition climber_entry (uninit_local uninit_current uninit_best : key_state)
    (uninit_score : double) (uninit_flag : bool)
    (plaintext_keyword_len ciphertext_keyword_len : Z) (g : rng) : climber :=
  Climber uninit_local uninit_current uninit_best uninit_score 0%float
    uninit_flag plaintext_keyword_len ciphertext_keyword_len 0 0 0 0 g.

(** What the function hands back once the loops are done: the best state
    copied into the caller's arrays, the text it gives and the best score. *)
Definition climber_result (s : climber) (out : key_state)
    : option (double * key_state * list Z) :=
  out ← copy_state (best_state s) out;
  decrypted ← candidate_text (cfg_cipher_indices cfg) (cfg_cipher_len cfg)
                 (plaintext_keyword_state (best_state s))
                 (ciphertext_keyword_state (best_state s))
                 (cycleword_state (best_state s)) climber_cycleword_len
                 (cfg_variant cfg) (cfg_beaufort cfg);
  Some (best_score s, out, decrypted).

(** [quagmire_shotgun_hill_climber], within [fuel] steps of the loops. *)
Definition quagmire_shotgun_hill_climber (fuel : nat)
    (uninit_local uninit_current uninit_best : key_state)
    (uninit_score : double) (uninit_flag : bool)
    (plaintext_keyword_len ciphertext_keyword_len : Z) (g : rng)
    (out : key_state) : option (double * key_state * list Z) :=
  '(c, s) ← climber_run fuel (AtRestart 0)
              (climber_entry uninit_local uninit_current uninit_best
                 uninit_score uninit_flag
                 plaintext_keyword_len ciphertext_keyword_len g);
  match c with
  | AtReturn => climber_result s out
  | _ => None
  end.
End climber.

(** The first [ALPHABET_SIZE] entries of both keyword arrays are the
    straight alphabet. *)
Definition keywords_identity (k : key_state) : Prop :=
  take 26 (plaintext_keyword_state k) = straight_alphabet 26 ∧
  take 26 (ciphertext_keyword_state k) = straight_alphabet 26.

(** What a restart leaves alone. *)
Definition restart_frame (s s' : climber) : Prop :=
  local_state s' = local_state s ∧ best_state s' = best_state s ∧
  best_score s' = best_score s ∧ n_iterations s' = n_iterations s.

(** What a Beaufort run keeps at every point of the two loops: the
    current keywords are straight once a restart has begun, the candidate
    keywords once an iteration has run, the best keywords once a score
    above zero has been recorded. *)
Definition beaufort_inv (c : control) (s : climber) : Prop :=
  match c with
  | AtRestart n => n ≠ 0 → keywords_identity (current_state s)
  | AtIteration _ _ => keywords_identity (current_state s)
  | AtReturn => True
  end ∧
  (0 < n_iterations s → keywords_identity (local_state s)) ∧
  ((0 <? best_score s)%float = true → keywords_identity (best_state s)).

(** The K4 switches all off. *)
Definition k4_off (b : build) : Prop :=
  KRYPTOS_PT_SCRAMBLE b = false ∧ KOMITET_PT b = false ∧
  KOMITET_CT b = false ∧ KRYPTOS_PT b = false ∧ KRYPTOS_CT b = false ∧
  SOLUBLE_PT b = false ∧ SOLUBLE_CT b = false.

(** The labels of the [switch] over the cipher type. *)
Definition cipher_types (b : build) : list Z :=
  [VIGENERE b; QUAGMIRE_1 b; QUAGMIRE_2 b; QUAGMIRE_3 b; QUAGMIRE_4 b;
   BEAUFORT b].

(** A build for the examples: the cipher types numbered as the [-type]
    option numbers them, an [INACTIVE] outside the alphabet, the switches
    off but for the frequency-weighted selection, a flat monogram table,
    an [int] of 32 bits, and stand-ins for [exp], [log] and [pow], which
    only the scores see. *)
Definition example_build : build :=
  Build 0 1 2 3 4 5 (-1) true false false false false false false false
    (replicate 26 1%float) 32767 2147483647
    PrimFloat.sqrt PrimFloat.abs PrimFloat.mul.

(** A small run: the ciphertext HELLO with the cribs H at 0 and L at 3,
    period 3, one restart of two hill climbs, a keyword permutation
    probability of zero. *)
Definition example_config (cipher_type : Z) (beaufort : bool) : climber_config :=
  ClimberConfig cipher_type [7;4;11;11;14] 5 [7;11] [0;3] 2 3 2 1
    (replicate 26 0.5%float) 1 0.15%float 0%float 0.0005%float
    (weights main_init) false beaufort false.

(** Arrays as the stack may hold them at the entry. *)
Definition example_uninit : key_state :=
  KeyState (replicate 26 0) (replicate 26 0) (replicate 30 0).

(** The state at the entry of the example runs. *)
Definition example_entry : climber :=
  climber_entry example_uninit example_uninit example_uninit 0 false 7 7
    rng_example.

(* ===================================================================== *)
(** ** Integer helpers: [int_pow], [ngram_index_int], [ngram_score_slow] *)

Section machine_int.
(** [INT_MAX] of [limits.h]. *)
Context (INT_MAX : Z).

(** [int_pow].  [while (exp)] has no bound in the source: [fuel]. *)
Definition int_pow (fuel : nat) (base exp : Z) : option Z :=
  '(result, _, _) ← while_loop fuel (λ '(_, _, exp), negb (exp =? 0))
    (λ '(result, base, exp),
       result ← (if negb (Z.rem exp 2 =? 0) then int_mul INT_MAX result base
                 else Some result);
       let exp := Z.quot exp 2 in
       base ← int_mul INT_MAX base base;
       Some (result, base, exp)) (1, base, exp);
  Some result.

(** [ngram_index_int]; [index] and [base] are [int]s. *)
Definition ngram_index_int (ngram : list Z) (ngram_size : Z) : option Z :=
  '(index, _) ← for_range 0 ngram_size (λ i '(index, base),
      d ← rd ngram i;
      t ← int_mul INT_MAX d base;
      index ← int_add INT_MAX index t;
      base ← int_mul INT_MAX base ALPHABET_SIZE;
      Some (Next (index, base))) (0, 1);
  Some index.
End machine_int.

Section score_slow.
(** [INT_MAX] of [limits.h] and [pow] of the C mathematics library; the
    macro [MAX_NGRAM_SIZE] is the length of the local array [ngram], whose
    first contents are whatever the stack holds: [ngram_uninit]. *)
Context (INT_MAX : Z).
Context (libm_pow : double → double → double) (ngram_uninit : list Z).

(** [ngram_score_slow]. *)
Definition ngram_score_slow (decrypted : list Z) (cipher_len : Z)
  (ngram_data : list double) (ngram_size : Z) : option double :=
  '(score, _) ← for_range 0 (cipher_len - ngram_size) (λ i '(score, ngram),
      ngram ← for_range 0 ngram_size (λ j ngram,
                 d ← rd decrypted (i + j);
                 ngram ← wr ngram j d;
                 Some (Next ngram)) ngram;
      indx ← ngram_index_int INT_MAX ngram ngram_size;
      g ← ngram_at ngram_data indx;
      Some (Next ((score + g)%float, ngram))) (0%float, ngram_uninit);
  Some (libm_pow (double_of_int ALPHABET_SIZE) (double_of_int ngram_size) * score
      / double_of_int (cipher_len - ngram_size))%float.
End score_slow.

(* ===================================================================== *)
(** ** [shuffle] *)


(* ===================================================================== *)
(** ** Texts: [ord], [print_text] and the cribs of [main] *)

(** The code of a [char] of a text; the texts are ASCII. *)
Definition char_code (c : ascii) : Z := Z.of_nat (nat_of_ascii c).

(** The [char] that [printf("%c", x)] writes: [x] as an [unsigned char]. *)
Definition char_of_int (x : Z) : ascii :=
  ascii_of_nat (Z.to_nat (x mod 256)).

Section texts.
(** [toupper] of the C library. *)
Context (toupper : Z → Z).

(** [ord(text, indices)]. *)
Definition ord (text : string) (indices : list Z) : option (list Z) :=
  for_range 0 (Z.of_nat (String.length text)) (λ i indices,
    c ← String.get (Z.to_nat i) text;
    indices ← wr indices i (toupper (char_code c) - char_code "A"%char);
    Some (Next indices)) indices.
End texts.

(** [print_text(indices, len)]: what it writes. *)
Definition print_text (indices : list Z) (len : Z) : option string :=
  for_range 0 len (λ i out,
    x ← rd indices i;
    Some (Next (out ++ String (char_of_int (x + char_code "A"%char)) ""))%string) ""%string.

Section plain_char.
(** Whether the plain [char] of the platform is signed: the C standard
    leaves it to the implementation. *)
Context (char_signed : bool).

(** The value of a [char] in an expression: a byte from 128 on is
    negative where [char] is signed. *)
Definition char_value (c : ascii) : Z :=
  if char_signed && (127 <? char_code c) then char_code c - 256
  else char_code c.

(** The loop of [main] that extracts the cribs from [cribtext]: it leaves
    [crib_positions], [crib_indices] and [n_cribs]. *)
Definition main_cribs (cribtext : string) (cipher_len : Z)
  (crib_positions crib_indices : list Z) : option (list Z * list Z * Z) :=
  for_range 0 cipher_len (λ i '(crib_positions, crib_indices, n_cribs),
    c ← String.get (Z.to_nat i) cribtext;
    if negb (char_value c =? char_code "_"%char) then
      crib_positions ← wr crib_positions n_cribs i;
      crib_indices ← wr crib_indices n_cribs (char_value c - char_code "A"%char);
      Some (Next (crib_positions, crib_indices, n_cribs + 1))
    else Some (Next (crib_positions, crib_indices, n_cribs)))
    (crib_positions, crib_indices, 0).
End plain_char.

(** [toupper] in the C locale. *)
Definition toupper_ascii (c : Z) : Z :=
  if bool_decide (97 ≤ c ≤ 122) then c - 32 else c.

(* ===================================================================== *)
(** ** Specification-side functions for the helpers *)

(** How often the symbol [s] stands in [text]. *)
Definition occurrences (s : Z) (text : list Z) : Z :=
  Z.of_nat (length (filter (λ x, x = s) text)).

(** The z-score of the candidate length [p]: [mu_ioc_normalised[p - 1]]. *)
Definition z_score (mu_ioc_normalised : list double) (p : Z) : double :=
  default 0%float (rdd mu_ioc_normalised (p - 1)).

(* ===================================================================== *)
(** ** What the cipher types keep of the two keywords *)

(** The relation between the first [ALPHABET_SIZE] entries of the two
    keyword arrays that goes with a cipher type: Quagmire I has a straight
    ciphertext keyword, Quagmire II a straight plaintext keyword, Vigenere
    and Quagmire III one keyword for both. *)
Definition keywords_coupled (b : build) (cipher_type : Z) (k : key_state)
    : Prop :=
  (cipher_type = QUAGMIRE_1 b →
   take 26 (ciphertext_keyword_state k) = straight_alphabet 26) ∧
  (cipher_type = QUAGMIRE_2 b →
   take 26 (plaintext_keyword_state k) = straight_alphabet 26) ∧
  (cipher_type = VIGENERE b ∨ cipher_type = QUAGMIRE_3 b →
   take 26 (ciphertext_keyword_state k) = take 26 (plaintext_keyword_state k)).

(** The relation at every point of the two loops: on the current state
    once a restart has begun, on the candidate once an iteration has run,
    on the best state once a score above zero has been recorded. *)
Definition coupled_inv (b : build) (cipher_type : Z) (c : control)
    (s : climber) : Prop :=
  match c with
  | AtRestart n => n ≠ 0 → keywords_coupled b cipher_type (current_state s)
  | AtIteration _ _ => keywords_coupled b cipher_type (current_state s)
  | AtReturn => True
  end ∧
  (0 < n_iterations s → keywords_coupled b cipher_type (local_state s)) ∧
  ((0 <? best_score s)%float = true →
   keywords_coupled b cipher_type (best_state s)).

(* ===================================================================== *)
(** ** [main]: the runs of the hill climber *)

Section driver.
(** The cipher types are macros of the header, which is outside [src/],
    and so is the switch [CRIB_CHECK]. *)
Context (b : build) (CRIB_CHECK : bool).

(** "Vigenere cipher case" and "Beaufort cipher case". *)
Definition main_cipher_cases (o : int_opts) : int_opts :=
  let o := if cipher_type o =? VIGENERE b then set_min_keyword_len 1 o else o in
  if cipher_type o =? BEAUFORT b then
    set_plaintext_max_keyword_len 2
      (set_plaintext_max_keyword_len 2 (set_min_keyword_len 1 o))
  else o.

(** The body of the innermost loop down to the call of the climber:
    [true] when no [continue] is taken. *)
Definition main_selects (o : int_opts) (f : flag_opts)
    (cipher_indices : list Z) (cipher_len : Z)
    (crib_indices crib_positions : list Z) (n_cribs : Z)
    (cycleword_lengths : list Z) (i j k : Z) : option bool :=
  if plaintext_keyword_len_present f && negb (j =? plaintext_keyword_len o)
  then Some false else
  if ciphertext_keyword_len_present f && negb (k =? ciphertext_keyword_len o)
  then Some false else
  if ((cipher_type o =? VIGENERE b) || (cipher_type o =? QUAGMIRE_3 b))
     && negb (j =? k)
  then Some false else
  other_period ←
    (if cipher_type o =? VIGENERE b then
       p ← rd cycleword_lengths i; Some (negb ((p =? j) && (p =? k)))
     else Some false);
  if other_period : bool then Some false else
  if (cipher_type o =? BEAUFORT b) && negb ((j =? 1) && (k =? 1))
  then Some false else
  p ← rd cycleword_lengths i;
  satisfied ← cribs_satisfied_p cipher_indices cipher_len crib_indices
                crib_positions n_cribs p;
  if negb satisfied && CRIB_CHECK then Some false else Some true.

(** The three nested loops of [main]; the result lists the calls of
    [quagmire_shotgun_hill_climber] in their order, each with its cycleword
    length and its two keyword lengths.  (What the calls return decides
    which result is kept, not which calls follow.) *)
Definition main_calls (o : int_opts) (f : flag_opts)
    (cipher_indices : list Z) (cipher_len : Z)
    (crib_indices crib_positions : list Z) (n_cribs : Z)
    (cycleword_lengths : list Z) (n_cycleword_lengths : Z)
    : option (list (Z * Z * Z)) :=
  for_range 0 n_cycleword_lengths (λ i calls,
    calls ← for_range (Z.min (min_keyword_len o) (plaintext_keyword_len o))
                (plaintext_max_keyword_len o) (λ j calls,
      calls ← for_range (Z.min (min_keyword_len o) (ciphertext_keyword_len o))
                  (ciphertext_max_keyword_len o) (λ k calls,
        selected ← main_selects o f cipher_indices cipher_len crib_indices
                     crib_positions n_cribs cycleword_lengths i j k;
        if selected : bool then
          p ← rd cycleword_lengths i;
          Some (Next (calls ++ [(p, j, k)]))
        else Some (Next calls)) calls;
      Some (Next calls)) calls;
    Some (Next calls)) [].
End driver.

(* ===================================================================== *)
(** ** What the cribs demand of the cycleword *)

(** The column of crib [j], and the cycleword symbol that
    [constrain_cycleword] derives from it. *)
Definition crib_column (crib_positions : list Z) (cycleword_len j : Z) : Z :=
  Z.rem (at_ crib_positions j) cycleword_len.

Definition crib_demand (P C cipher_indices crib_indices crib_positions : list Z)
    (variant : bool) (j : Z) : Z :=
  demanded_symbol P C variant (at_ crib_indices j)
    (at_ cipher_indices (at_ crib_positions j)).

(* ===================================================================== *)
(** * Arrays and loops: basic facts *)

Lemma rd_Some (a : list Z) (i x : Z) :
  rd a i = Some x ↔ 0 ≤ i ∧ a !! Z.to_nat i = Some x.
Proof. unfold rd. case_bool_decide; intuition (done || lia). Qed.

Lemma rd_of_nat (a : list Z) (j : nat) : rd a (Z.of_nat j) = a !! j.
Proof. unfold rd. rewrite bool_decide_eq_true_2 by lia. by rewrite Nat2Z.id. Qed.

Lemma wrap_index_mod (x : Z) : wrap_index x = x mod 26.
Proof.
  unfold wrap_index, ALPHABET_SIZE.
  pose proof (Z.quot_rem' x 26) as Hqr.
  destruct (Z_le_gt_dec 0 x) as [Hx|Hx].
  - pose proof (Z.rem_bound_pos x 26 Hx ltac:(lia)) as Hb.
    rewrite (proj2 (Z.ltb_ge _ _)) by lia.
    apply Z.mod_unique with (q := x ÷ 26); lia.
  - pose proof (Z.rem_bound_abs x 26 ltac:(lia)) as Hb.
    pose proof (Z.rem_nonpos x 26 ltac:(lia) ltac:(lia)) as Hb'.
    destruct (Z.ltb_spec (Z.rem x 26) 0) as [Hn|Hn].
    + apply Z.mod_unique with (q := x ÷ 26 - 1); lia.
    + apply Z.mod_unique with (q := x ÷ 26); lia.
Qed.

Lemma at_of_nat (a : list Z) (j : nat) (x : Z) :
  a !! j = Some x → at_ a (Z.of_nat j) = x.
Proof. intros H. unfold at_. by rewrite rd_of_nat, H. Qed.

(** A search loop leaves at its first hit, with the state the hit sets. *)
Lemma for_loop_hit {St : Type} (body : Z → St → option (ctl St)) (k : nat) :
  ∀ (n : nat) (lo : Z) (s s' : St),
    (k < n)%nat →
    (∀ k' : nat, (k' < k)%nat → body (lo + Z.of_nat k') s = Some (Next s)) →
    body (lo + Z.of_nat k) s = Some (Break s') →
    for_loop n lo body s = Some s'.
Proof.
  induction k as [|k IH]; intros n lo s s' Hn Hpre Hhit;
    (destruct n as [|n]; [lia|]); simpl.
  - rewrite Z.add_0_r in Hhit. by rewrite Hhit.
  - pose proof (Hpre 0%nat ltac:(lia)) as H0. rewrite Z.add_0_r in H0.
    rewrite H0. apply IH; [lia| |].
    + intros k' Hk'. rewrite <- (Hpre (S k') ltac:(lia)). f_equal. lia.
    + rewrite <- Hhit. f_equal. lia.
Qed.


(** * Loop invariants *)

(** A loop whose body keeps an invariant and may leave early. *)
Lemma for_loop_inv_break {St : Type} (I : Z → St → Prop) (Q : St → Prop)
    (body : Z → St → option (ctl St)) (n : nat) :
  ∀ (lo : Z) (s : St),
    I lo s →
    (∀ i s, lo ≤ i < lo + Z.of_nat n → I i s →
       (∃ s', body i s = Some (Next s') ∧ I (i + 1) s') ∨
       (∃ s', body i s = Some (Break s') ∧ Q s')) →
    ∃ s', for_loop n lo body s = Some s' ∧ (I (lo + Z.of_nat n) s' ∨ Q s').
Proof.
  induction n as [|n IH]; intros lo s HI Hbody.
  - exists s. split; [done|]. left. by rewrite Z.add_0_r.
  - destruct (Hbody lo s) as [(s' & Hs' & HI')|(s' & Hs' & HQ)]; [lia|done| |].
    + destruct (IH (lo + 1) s' HI') as (s'' & Hs'' & Hfin).
      { intros i t Hi. apply Hbody. lia. }
      exists s''. cbn [for_loop]. rewrite Hs'. split; [done|].
      by replace (lo + Z.of_nat (S n)) with (lo + 1 + Z.of_nat n) by lia.
    + exists s'. cbn [for_loop]. rewrite Hs'. auto.
Qed.

(** A loop whose body keeps an invariant and never leaves early. *)
Lemma for_loop_inv {St : Type} (I : Z → St → Prop)
    (body : Z → St → option (ctl St)) (n : nat) (lo : Z) (s : St) :
  I lo s →
  (∀ i s, lo ≤ i < lo + Z.of_nat n → I i s →
     ∃ s', body i s = Some (Next s') ∧ I (i + 1) s') →
  ∃ s', for_loop n lo body s = Some s' ∧ I (lo + Z.of_nat n) s'.
Proof.
  intros HI Hbody.
  destruct (for_loop_inv_break I (λ _, False) body n lo s HI)
    as (s' & Hs' & [Hfin|[]]); [|by exists s'].
  intros i t Hi Ht. left. by apply Hbody.
Qed.

(** * Reading and writing inside a concatenation *)

Lemma rd_middle (A B : list Z) (x : Z) :
  rd (A ++ x :: B) (Z.of_nat (length A)) = Some x.
Proof. rewrite rd_of_nat. apply list_lookup_middle. done. Qed.

Lemma wr_middle (A B : list Z) (x v : Z) :
  wr (A ++ x :: B) (Z.of_nat (length A)) v = Some (A ++ v :: B).
Proof.
  unfold wr. rewrite bool_decide_eq_true_2.
  - rewrite Nat2Z.id. f_equal. rewrite insert_app_r_alt by lia.
    by rewrite Nat.sub_diag.
  - rewrite length_app. simpl. lia.
Qed.

Lemma rd_middle' (A B : list Z) (x i : Z) :
  i = Z.of_nat (length A) → rd (A ++ x :: B) i = Some x.
Proof. intros ->. apply rd_middle. Qed.

Lemma wr_middle' (A B : list Z) (x v i : Z) :
  i = Z.of_nat (length A) → wr (A ++ x :: B) i v = Some (A ++ v :: B).
Proof. intros ->. apply wr_middle. Qed.




(** * Keyword permutations *)

Lemma posn_of_spec (key : list Z) (x : Z) :
  x ∈ key →
  ∃ j : nat, posn_of key x = Z.of_nat j ∧ key !! j = Some x ∧
             ∀ j' y, key !! j' = Some y → (j' < j)%nat → y ≠ x.
Proof.
  intros Hin. unfold posn_of.
  destruct (list_find (λ y, y = x) key) as [[j y]|] eqn:Hfind.
  - apply list_find_Some in Hfind as (Hj & -> & Hpre). by exists j.
  - apply list_find_None in Hfind. rewrite Forall_forall in Hfind.
    by destruct (Hfind x Hin).
Qed.

Lemma posn_of_lookup (key : list Z) (j : nat) (x : Z) :
  NoDup key → key !! j = Some x → posn_of key x = Z.of_nat j.
Proof.
  intros Hnd Hj.
  destruct (posn_of_spec key x) as (j' & -> & Hj' & _);
    [by eapply list_elem_of_lookup_2|].
  f_equal. by eapply NoDup_lookup.
Qed.

(** A duplicate-free list of 26 symbols of the alphabet holds every symbol. *)
Lemma keyword_perm_elem (key : list Z) (x : Z) :
  keyword_perm key → in_alphabet x → x ∈ key.
Proof.
  intros (Hlen & Hnd & Hall) Hx.
  assert (key ⊆+ seqZ 0 26) as Hsub.
  { apply NoDup_submseteq; [done|]. intros y Hy.
    rewrite Forall_forall in Hall. specialize (Hall y Hy).
    apply elem_of_seqZ. unfold in_alphabet, ALPHABET_SIZE in Hall. lia. }
  apply submseteq_length_Permutation in Hsub.
  - rewrite Hsub. apply elem_of_seqZ.
    unfold in_alphabet, ALPHABET_SIZE in Hx. lia.
  - rewrite length_seqZ, Hlen. lia.
Qed.

Lemma keyword_perm_posn (key : list Z) (x : Z) :
  keyword_perm key → in_alphabet x →
  0 ≤ posn_of key x < 26 ∧ at_ key (posn_of key x) = x ∧
  rd key (posn_of key x) = Some x.
Proof.
  intros Hk Hx.
  destruct (posn_of_spec key x) as (j & -> & Hj & _);
    [by apply keyword_perm_elem|].
  destruct Hk as (Hlen & _ & _).
  pose proof (lookup_lt_Some _ _ _ Hj). rewrite rd_of_nat.
  split_and!; [lia|lia|by apply at_of_nat|done].
Qed.

Lemma keyword_perm_at (key : list Z) (i : Z) :
  keyword_perm key → 0 ≤ i < 26 →
  in_alphabet (at_ key i) ∧ rd key i = Some (at_ key i) ∧
  posn_of key (at_ key i) = i.
Proof.
  intros (Hlen & Hnd & Hall) Hi.
  destruct (lookup_lt_is_Some_2 key (Z.to_nat i)) as [x Hx]; [lia|].
  assert (rd key i = Some x) as Hrd by (apply rd_Some; split; [lia|done]).
  unfold at_. rewrite Hrd. simpl. split_and!; [|done|].
  - rewrite Forall_forall in Hall. apply Hall. by eapply list_elem_of_lookup_2.
  - rewrite (posn_of_lookup key (Z.to_nat i) x); [lia|done|done].
Qed.

Lemma straight_alphabet_perm : keyword_perm (straight_alphabet 26).
Proof.
  unfold keyword_perm, straight_alphabet. split_and!.
  - by rewrite length_seqZ.
  - apply NoDup_seqZ.
  - apply Forall_forall. intros x Hx. apply elem_of_seqZ in Hx.
    unfold in_alphabet, ALPHABET_SIZE. lia.
Qed.

Lemma atbash_alphabet (b : bool) (x : Z) : in_alphabet x → in_alphabet (atbash b x).
Proof. unfold in_alphabet, atbash, ALPHABET_SIZE. destruct b; lia. Qed.

Lemma cycle_symbol_ok (W : list Z) (cycleword_len : Z) (b : bool) (i : Z) :
  cycleword_ok W cycleword_len → 0 ≤ i →
  cycleword_len ≠ 0 ∧
  rd W (Z.rem i cycleword_len) = Some (at_ W (Z.rem i cycleword_len)) ∧
  in_alphabet (cycle_symbol W cycleword_len b i).
Proof.
  intros (Hlen & Hall) Hi.
  pose proof (Z.rem_bound_pos i cycleword_len Hi ltac:(lia)) as Hr.
  destruct (lookup_lt_is_Some_2 W (Z.to_nat (Z.rem i cycleword_len)))
    as [w Hw]; [lia|].
  assert (rd W (Z.rem i cycleword_len) = Some w) as Hrd
    by (apply rd_Some; split; [lia|done]).
  unfold cycle_symbol, at_. rewrite Hrd. simpl. split_and!; [lia|done|].
  apply atbash_alphabet. rewrite Forall_forall in Hall. apply Hall.
  apply list_elem_of_lookup. exists (Z.to_nat (Z.rem i cycleword_len)).
  rewrite lookup_take_lt by lia. done.
Qed.

(** * The linear searches of the transforms *)

Section searches.
Context (key : list Z) (Hkey : keyword_perm key).

Lemma decrypt_find_keyword_hit (cipher : list Z) (i x : Z) (posn : option Z) :
  rd cipher i = Some x → in_alphabet x →
  decrypt_find_keyword cipher key i posn = Some (Some (posn_of key x)).
Proof using Hkey.
  intros Hrd Hx.
  destruct (posn_of_spec key x) as (j & -> & Hj & Hpre);
    [by apply keyword_perm_elem|].
  pose proof (lookup_lt_Some _ _ _ Hj) as Hlt.
  destruct Hkey as (Hlen & _ & _).
  unfold decrypt_find_keyword, for_range.
  apply for_loop_hit with (k := j).
  - unfold ALPHABET_SIZE. lia.
  - intros k' Hk'. rewrite Z.add_0_l, rd_of_nat.
    destruct (lookup_lt_is_Some_2 key k') as [y Hy]; [lia|].
    rewrite Hy. simpl. rewrite Hrd. simpl.
    destruct (Z.eqb_spec x y) as [->|]; [|done].
    by destruct (Hpre k' y Hy Hk').
  - rewrite Z.add_0_l, rd_of_nat, Hj. simpl. rewrite Hrd. simpl.
    by rewrite Z.eqb_refl.
Qed.

Lemma encrypt_find_keyword_hit (plain : list Z) (i x : Z) (posn : option Z) :
  rd plain i = Some x → in_alphabet x →
  encrypt_find_keyword plain key i posn = Some (Some (posn_of key x)).
Proof using Hkey.
  intros Hrd Hx.
  destruct (posn_of_spec key x) as (j & -> & Hj & Hpre);
    [by apply keyword_perm_elem|].
  pose proof (lookup_lt_Some _ _ _ Hj) as Hlt.
  destruct Hkey as (Hlen & _ & _).
  unfold encrypt_find_keyword, for_range.
  apply for_loop_hit with (k := j).
  - unfold ALPHABET_SIZE. lia.
  - intros k' Hk'. rewrite Z.add_0_l, rd_of_nat, Hrd. simpl.
    destruct (lookup_lt_is_Some_2 key k') as [y Hy]; [lia|].
    rewrite Hy. simpl.
    destruct (Z.eqb_spec x y) as [->|]; [|done].
    by destruct (Hpre k' y Hy Hk').
  - rewrite Z.add_0_l, rd_of_nat, Hrd, Hj. simpl.
    by rewrite Z.eqb_refl.
Qed.

Lemma find_cycleword_hit (W : list Z) (cycleword_len : Z) (b : bool)
    (i : Z) (posn : option Z) :
  cycleword_ok W cycleword_len → 0 ≤ i →
  find_cycleword key W cycleword_len b i posn
  = Some (Some (posn_of key (cycle_symbol W cycleword_len b i))).
Proof using Hkey.
  intros HW Hi.
  destruct (cycle_symbol_ok W cycleword_len b i HW Hi) as (Hne & Hrd & Hx).
  set (x := cycle_symbol W cycleword_len b i) in *.
  destruct (posn_of_spec key x) as (j & -> & Hj & Hpre);
    [by apply keyword_perm_elem|].
  pose proof (lookup_lt_Some _ _ _ Hj) as Hlt.
  destruct Hkey as (Hlen & _ & _).
  apply Z.eqb_neq in Hne.
  unfold find_cycleword, for_range.
  apply for_loop_hit with (k := j).
  - unfold ALPHABET_SIZE. lia.
  - intros k' Hk'. rewrite Z.add_0_l, rd_of_nat, Hne, Hrd. simpl.
    destruct (lookup_lt_is_Some_2 key k') as [y Hy]; [lia|].
    rewrite Hy. simpl. fold (cycle_symbol W cycleword_len b i). fold x.
    destruct (Z.eqb_spec x y) as [->|]; [|done].
    by destruct (Hpre k' y Hy Hk').
  - rewrite Z.add_0_l, rd_of_nat, Hne, Hrd, Hj. simpl.
    fold (cycle_symbol W cycleword_len b i). fold x.
    by rewrite Z.eqb_refl.
Qed.
End searches.

(** * The transforms, symbol by symbol *)

Lemma wrap_index_range (x : Z) : 0 ≤ wrap_index x < 26.
Proof. rewrite wrap_index_mod. apply Z.mod_pos_bound. lia. Qed.

(** The outer loop of a transform appends one symbol per position. *)
Lemma xform_loop (step : Z → xform_locals → option (ctl xform_locals))
    (sym : Z → Z) (n : nat) :
  ∀ (lo : Z) (st : xform_locals),
    (∀ k st', lo ≤ k < lo + Z.of_nat n →
       ∃ pk pc, step k st' = Some (Next (XformLocals pk pc (xform_out st' ++ [sym k])))) →
    xform_out <$> for_loop n lo step st
    = Some (xform_out st ++ (sym <$> seqZ lo (Z.of_nat n))).
Proof.
  induction n as [|n IH]; intros lo st Hstep.
  - simpl. by rewrite app_nil_r.
  - destruct (Hstep lo st) as (pk & pc & Hlo); [lia|].
    cbn [for_loop]. rewrite Hlo.
    rewrite IH by (intros k st' Hk; apply Hstep; lia).
    cbn [xform_out]. rewrite (seqZ_cons lo (Z.of_nat (S n))) by lia.
    rewrite fmap_cons, <- app_assoc. simpl.
    replace (Z.pred (Z.of_nat (S n))) with (Z.of_nat n) by lia.
    by replace (Z.succ lo) with (lo + 1) by lia.
Qed.

Section transforms.
Context (P C W : list Z) (cycleword_len : Z) (beaufort : bool).
Context (HP : keyword_perm P) (HC : keyword_perm C).
Context (HW : cycleword_ok W cycleword_len).

Lemma decrypt_symbol_alphabet (i x : Z) :
  in_alphabet (decrypt_symbol P C W cycleword_len beaufort i x).
Proof using HP.
  apply atbash_alphabet, keyword_perm_at; [done|apply wrap_index_range].
Qed.

Lemma encrypt_symbol_alphabet (i x : Z) :
  in_alphabet (encrypt_symbol P C W cycleword_len beaufort i x).
Proof using HC.
  apply atbash_alphabet, keyword_perm_at; [done|apply wrap_index_range].
Qed.

Lemma quagmire_decrypt_step_spec (cipher : list Z) (i x : Z) (st : xform_locals) :
  0 ≤ i → rd cipher i = Some x → in_alphabet x →
  ∃ pk pc, quagmire_decrypt_step cipher P C W cycleword_len beaufort i st
  = Some (Next (XformLocals pk pc
       (xform_out st ++ [decrypt_symbol P C W cycleword_len beaufort i x]))).
Proof using HP HC HW.
  intros Hi Hrd Hx. unfold quagmire_decrypt_step.
  rewrite (decrypt_find_keyword_hit C HC cipher i x _ Hrd Hx). simpl.
  rewrite (find_cycleword_hit C HC W cycleword_len beaufort i _ HW Hi). simpl.
  destruct (keyword_perm_at P (wrap_index (posn_of C x
    - posn_of C (cycle_symbol W cycleword_len beaufort i))) HP
    (wrap_index_range _)) as (_ & -> & _).
  simpl. eauto.
Qed.

Lemma quagmire_encrypt_step_spec (plain : list Z) (i x : Z) (st : xform_locals) :
  0 ≤ i → rd plain i = Some x → in_alphabet x →
  ∃ pk pc, quagmire_encrypt_step plain P C W cycleword_len beaufort i st
  = Some (Next (XformLocals pk pc
       (xform_out st ++ [encrypt_symbol P C W cycleword_len beaufort i x]))).
Proof using HP HC HW.
  intros Hi Hrd Hx. unfold quagmire_encrypt_step.
  rewrite (encrypt_find_keyword_hit P HP plain i x _ Hrd Hx). simpl.
  rewrite (find_cycleword_hit C HC W cycleword_len beaufort i _ HW Hi). simpl.
  destruct (keyword_perm_at C (wrap_index (posn_of P x
    + posn_of C (cycle_symbol W cycleword_len beaufort i))) HC
    (wrap_index_range _)) as (_ & -> & _).
  simpl. eauto.
Qed.

Lemma rd_text (text : list Z) (k : Z) :
  Forall in_alphabet text → 0 ≤ k < Z.of_nat (length text) →
  rd text k = Some (at_ text k) ∧ in_alphabet (at_ text k).
Proof.
  intros Hall Hk.
  destruct (lookup_lt_is_Some_2 text (Z.to_nat k)) as [x Hx]; [lia|].
  assert (rd text k = Some x) as Hrd by (apply rd_Some; split; [lia|done]).
  unfold at_. rewrite Hrd. split; [done|]. simpl.
  rewrite Forall_forall in Hall. apply Hall. by eapply list_elem_of_lookup_2.
Qed.

(** [quagmire_decrypt] returns, and returns the symbol-wise image. *)
Lemma quagmire_decrypt_spec (cipher : list Z) :
  Forall in_alphabet cipher →
  quagmire_decrypt cipher (Z.of_nat (length cipher)) P C W cycleword_len beaufort
  = Some ((λ k, decrypt_symbol P C W cycleword_len beaufort k (at_ cipher k))
            <$> seqZ 0 (Z.of_nat (length cipher))).
Proof using HP HC HW.
  intros Hall. unfold quagmire_decrypt, for_range.
  rewrite Z.sub_0_r, Nat2Z.id.
  rewrite xform_loop with
    (sym := λ k, decrypt_symbol P C W cycleword_len beaufort k (at_ cipher k));
    [done|].
  intros k st' Hk. destruct (rd_text cipher k Hall Hk) as [Hrd Hx].
  apply quagmire_decrypt_step_spec; [lia|done|done].
Qed.

(** [quagmire_encrypt] returns, and returns the symbol-wise image. *)
Lemma quagmire_encrypt_spec (plain : list Z) :
  Forall in_alphabet plain →
  quagmire_encrypt plain (Z.of_nat (length plain)) P C W cycleword_len beaufort
  = Some ((λ k, encrypt_symbol P C W cycleword_len beaufort k (at_ plain k))
            <$> seqZ 0 (Z.of_nat (length plain))).
Proof using HP HC HW.
  intros Hall. unfold quagmire_encrypt, for_range.
  rewrite Z.sub_0_r, Nat2Z.id.
  rewrite xform_loop with
    (sym := λ k, encrypt_symbol P C W cycleword_len beaufort k (at_ plain k));
    [done|].
  intros k st' Hk. destruct (rd_text plain k Hall Hk) as [Hrd Hx].
  apply quagmire_encrypt_step_spec; [lia|done|done].
Qed.
End transforms.


Lemma kryptos_alphabet_perm : keyword_perm kryptos_alphabet.
Proof. apply (bool_decide_unpack _). vm_compute. exact I. Defined.


(** * Round trips and safety of the transforms *)

Lemma tabulate_length (f : Z → Z) (n : nat) :
  length (f <$> seqZ 0 (Z.of_nat n)) = n.
Proof. rewrite length_fmap, length_seqZ. lia. Qed.

Lemma tabulate_at (f : Z → Z) (n k : Z) :
  0 ≤ k < n → at_ (f <$> seqZ 0 n) k = f k.
Proof.
  intros Hk. unfold at_, rd. rewrite bool_decide_eq_true_2 by lia.
  rewrite list_lookup_fmap, lookup_seqZ_lt by lia. simpl. f_equal. lia.
Qed.

Lemma tabulate_ext (f : Z → Z) (M : list Z) :
  (∀ k, 0 ≤ k < Z.of_nat (length M) → f k = at_ M k) →
  f <$> seqZ 0 (Z.of_nat (length M)) = M.
Proof.
  intros Hf. apply list_eq. intros i. rewrite list_lookup_fmap.
  destruct (decide (i < length M)%nat) as [Hi|Hi].
  - rewrite lookup_seqZ_lt by lia. simpl.
    rewrite Hf by lia. rewrite Z.add_0_l. unfold at_. rewrite rd_of_nat.
    by destruct (lookup_lt_is_Some_2 M i Hi) as [x ->].
  - rewrite lookup_seqZ_ge by lia. simpl.
    symmetry. apply lookup_ge_None. lia.
Qed.

Lemma tabulate_Forall (f : Z → Z) (n : Z) (Q : Z → Prop) :
  (∀ k, Q (f k)) → Forall Q (f <$> seqZ 0 n).
Proof. intros HQ. apply Forall_fmap, Forall_forall. intros k _. apply HQ. Qed.

Lemma wrap_add_sub (a c : Z) :
  0 ≤ a < 26 → wrap_index (wrap_index (a + c) - c) = a.
Proof.
  intros Ha. rewrite !wrap_index_mod, Zminus_mod_idemp_l.
  replace (a + c - c) with a by lia. by apply Z.mod_small.
Qed.

Lemma wrap_sub_add (a c : Z) :
  0 ≤ a < 26 → wrap_index (wrap_index (a - c) + c) = a.
Proof.
  intros Ha. rewrite !wrap_index_mod, Zplus_mod_idemp_l.
  replace (a - c + c) with a by lia. by apply Z.mod_small.
Qed.

Section round_trip.
Context (P C W : list Z) (cycleword_len : Z).
Context (HP : keyword_perm P) (HC : keyword_perm C).
Context (HW : cycleword_ok W cycleword_len).

Lemma decrypt_encrypt_symbol (i x : Z) :
  in_alphabet x →
  decrypt_symbol P C W cycleword_len false i
    (encrypt_symbol P C W cycleword_len false i x) = x.
Proof using HP HC.
  intros Hx. unfold decrypt_symbol, encrypt_symbol, atbash.
  destruct (keyword_perm_posn P x HP Hx) as (Hp & Hat & _).
  destruct (keyword_perm_at C (wrap_index
    (posn_of P x + posn_of C (cycle_symbol W cycleword_len false i))) HC
    (wrap_index_range _)) as (_ & _ & ->).
  by rewrite wrap_add_sub.
Qed.

Lemma encrypt_decrypt_symbol (i x : Z) :
  in_alphabet x →
  encrypt_symbol P C W cycleword_len false i
    (decrypt_symbol P C W cycleword_len false i x) = x.
Proof using HP HC.
  intros Hx. unfold decrypt_symbol, encrypt_symbol, atbash.
  destruct (keyword_perm_posn C x HC Hx) as (Hp & Hat & _).
  destruct (keyword_perm_at P (wrap_index
    (posn_of C x - posn_of C (cycle_symbol W cycleword_len false i))) HP
    (wrap_index_range _)) as (_ & _ & ->).
  by rewrite wrap_sub_add.
Qed.
End round_trip.

(** C1 (as amended): with the Beaufort flag off, for keyword permutations
    [P] and [C], a cycleword over the alphabet and a text [M] over the
    alphabet (of any length, so in particular of at most 1000 symbols),
    [quagmire_encrypt] returns a text that [quagmire_decrypt] maps back to
    [M], and [quagmire_decrypt] returns a text that [quagmire_encrypt] maps
    back to [M], both under the same key material. *)
Theorem quagmire_round_trip (P C W M : list Z) (cycleword_len : Z) :
  keyword_perm P → keyword_perm C → cycleword_ok W cycleword_len →
  Forall in_alphabet M →
  (∃ E, quagmire_encrypt M (Z.of_nat (length M)) P C W cycleword_len false = Some E ∧
        quagmire_decrypt E (Z.of_nat (length M)) P C W cycleword_len false = Some M) ∧
  (∃ D, quagmire_decrypt M (Z.of_nat (length M)) P C W cycleword_len false = Some D ∧
        quagmire_encrypt D (Z.of_nat (length M)) P C W cycleword_len false = Some M).
Proof.
  intros HP HC HW HM. split.
  - eexists. split; [by apply quagmire_encrypt_spec|].
    set (E := _ <$> seqZ 0 _).
    assert (length E = length M) as HlenE by apply tabulate_length.
    rewrite <- HlenE at 1.
    rewrite quagmire_decrypt_spec; [|done|done|done|].
    + f_equal. rewrite HlenE. apply tabulate_ext. intros k Hk.
      unfold E. rewrite tabulate_at by done.
      apply decrypt_encrypt_symbol; [done|done|].
      by apply rd_text.
    + apply tabulate_Forall. intros k. by apply encrypt_symbol_alphabet.
  - eexists. split; [by apply quagmire_decrypt_spec|].
    set (D := _ <$> seqZ 0 _).
    assert (length D = length M) as HlenD by apply tabulate_length.
    rewrite <- HlenD at 1.
    rewrite quagmire_encrypt_spec; [|done|done|done|].
    + f_equal. rewrite HlenD. apply tabulate_ext. intros k Hk.
      unfold D. rewrite tabulate_at by done.
      apply encrypt_decrypt_symbol; [done|done|].
      by apply rd_text.
    + apply tabulate_Forall. intros k. by apply decrypt_symbol_alphabet.
Qed.

Lemma quagmire_round_trip_witness :
  ∃ E, quagmire_encrypt [7;4;11;11;14] 5 kryptos_alphabet kryptos_alphabet
         [10;14;12] 3 false = Some E ∧
       quagmire_decrypt E 5 kryptos_alphabet kryptos_alphabet
         [10;14;12] 3 false = Some [7;4;11;11;14].
Proof.
  refine (proj1 (quagmire_round_trip kryptos_alphabet kryptos_alphabet
                   [10;14;12] [7;4;11;11;14] 3 _ _ _ _)).
  - exact kryptos_alphabet_perm.
  - exact kryptos_alphabet_perm.
  - apply (bool_decide_unpack _). vm_compute. exact I.
  - apply (bool_decide_unpack _). vm_compute. exact I.
Defined.

(** The round trip fails for the Beaufort flag, already on the identity
    alphabets the solver uses for Beaufort: under cycleword A the plaintext
    A encrypts to A, and A decrypts to Y. *)
Lemma quagmire_round_trip_beaufort_fails :
  keyword_perm (straight_alphabet 26) ∧ cycleword_ok [0] 1 ∧
  Forall in_alphabet [0] ∧
  quagmire_encrypt [0] 1 (straight_alphabet 26) (straight_alphabet 26) [0] 1 true
  = Some [0] ∧
  quagmire_decrypt [0] 1 (straight_alphabet 26) (straight_alphabet 26) [0] 1 true
  = Some [24] ∧
  ¬ (∀ (b : bool) (P C W M : list Z) (cycleword_len : Z),
       keyword_perm P → keyword_perm C → cycleword_ok W cycleword_len →
       Forall in_alphabet M → Z.of_nat (length M) ≤ MAX_CIPHER_LENGTH →
       ∃ E, quagmire_encrypt M (Z.of_nat (length M)) P C W cycleword_len b = Some E ∧
            quagmire_decrypt E (Z.of_nat (length M)) P C W cycleword_len b = Some M).
Proof.
  assert (cycleword_ok [0] 1) as HW by (apply (bool_decide_unpack _); vm_compute; exact I).
  assert (Forall in_alphabet [0]) as HM by (apply (bool_decide_unpack _); vm_compute; exact I).
  split_and!; [apply straight_alphabet_perm|done|done|reflexivity|reflexivity|].
  intros H.
  destruct (H true (straight_alphabet 26) (straight_alphabet 26) [0] [0] 1
              straight_alphabet_perm straight_alphabet_perm HW HM)
    as (E & HE & HD).
  - vm_compute. discriminate.
  - vm_compute in HE. injection HE as <-. vm_compute in HD. discriminate.
Qed.

(** C10: for keyword permutations, a cycleword over the alphabet and a text
    over the alphabet, every inner linear search of [quagmire_decrypt] and
    [quagmire_encrypt] leaves through its [break] at an index [j] that holds
    the symbol searched for, whatever the position variable held before (so
    the fall-through that leaves it unset or stale is never taken); both
    transforms return, with one symbol of the alphabet per input symbol. *)
Theorem quagmire_transforms_safe (P C W text : list Z) (cycleword_len : Z)
    (beaufort : bool) :
  keyword_perm P → keyword_perm C → cycleword_ok W cycleword_len →
  Forall in_alphabet text →
  (∀ i posn, 0 ≤ i < Z.of_nat (length text) →
     (∃ j, decrypt_find_keyword text C i posn = Some (Some j) ∧
           0 ≤ j < ALPHABET_SIZE ∧ rd C j = rd text i) ∧
     (∃ j, encrypt_find_keyword text P i posn = Some (Some j) ∧
           0 ≤ j < ALPHABET_SIZE ∧ rd P j = rd text i) ∧
     (∃ j w, find_cycleword C W cycleword_len beaufort i posn = Some (Some j) ∧
           0 ≤ j < ALPHABET_SIZE ∧
           rd W (Z.rem i cycleword_len) = Some w ∧
           rd C j = Some (atbash beaufort w))) ∧
  (∃ out, quagmire_decrypt text (Z.of_nat (length text)) P C W cycleword_len beaufort
          = Some out ∧
          length out = length text ∧ Forall in_alphabet out) ∧
  (∃ out, quagmire_encrypt text (Z.of_nat (length text)) P C W cycleword_len beaufort
          = Some out ∧
          length out = length text ∧ Forall in_alphabet out).
Proof.
  intros HP HC HW Htext. split_and!.
  - intros i posn Hi. destruct (rd_text text i Htext Hi) as [Hrd Hx].
    split_and!.
    + exists (posn_of C (at_ text i)).
      destruct (keyword_perm_posn C _ HC Hx) as (? & _ & ?).
      split_and!; [by apply decrypt_find_keyword_hit|lia|unfold ALPHABET_SIZE; lia|congruence].
    + exists (posn_of P (at_ text i)).
      destruct (keyword_perm_posn P _ HP Hx) as (? & _ & ?).
      split_and!; [by apply encrypt_find_keyword_hit|lia|unfold ALPHABET_SIZE; lia|congruence].
    + destruct (cycle_symbol_ok W cycleword_len beaufort i HW) as (_ & Hw & Hcs);
        [lia|].
      exists (posn_of C (cycle_symbol W cycleword_len beaufort i)),
             (at_ W (Z.rem i cycleword_len)).
      destruct (keyword_perm_posn C _ HC Hcs) as (? & _ & ?).
      split_and!; [apply find_cycleword_hit; [done|done|lia]|lia|unfold ALPHABET_SIZE; lia|done|done].
  - eexists. split_and!; [by apply quagmire_decrypt_spec| |].
    + apply tabulate_length.
    + apply tabulate_Forall. intros k. by apply decrypt_symbol_alphabet.
  - eexists. split_and!; [by apply quagmire_encrypt_spec| |].
    + apply tabulate_length.
    + apply tabulate_Forall. intros k. by apply encrypt_symbol_alphabet.
Qed.

Lemma quagmire_transforms_safe_witness :
  ∃ out, quagmire_decrypt [7;4;11;11;14] 5 kryptos_alphabet (straight_alphabet 26)
           [10;14;12] 3 true = Some out ∧
         length out = 5%nat ∧ Forall in_alphabet out.
Proof.
  refine (proj1 (proj2 (quagmire_transforms_safe kryptos_alphabet
            (straight_alphabet 26) [10;14;12] [7;4;11;11;14] 3 true _ _ _ _))).
  - exact kryptos_alphabet_perm.
  - apply (bool_decide_unpack _). vm_compute. exact I.
  - apply (bool_decide_unpack _). vm_compute. exact I.
  - apply (bool_decide_unpack _). vm_compute. exact I.
Defined.

(** * The command line *)

(** C9: the branch of [-keywordpermprob F] assigns [atof F] to
    [backtracking_probability] and to nothing else, so
    [keyword_permutation_probability] keeps the value it had; given alone on
    the command line it leaves the keyword permutation probability at its
    initialiser 0.01. *)
Theorem keywordpermprob_sets_backtracking (atoi : string → Z)
    (atof : string → double) (F : string) (rest : list string) (c : main_locals) :
  let c' := on_probs (set_backtracking_probability (atof F)) c in
  parse_args atoi atof ("-keywordpermprob"%string :: F :: rest) c
  = parse_args atoi atof rest c' ∧
  backtracking_probability (probs c') = atof F ∧
  keyword_permutation_probability (probs c')
  = keyword_permutation_probability (probs c) ∧
  (∃ c'', parse_args atoi atof ["-keywordpermprob"%string; F] main_init
          = Some (Parsed c'') ∧
          backtracking_probability (probs c'') = atof F ∧
          keyword_permutation_probability (probs c'') = 0.01%float).
Proof.
  split_and!.
  - reflexivity.
  - by destruct c as [? [] ? ? ?].
  - by destruct c as [? [] ? ? ?].
  - eexists. split_and!; reflexivity.
Qed.

(** * The loops of [perturbate_keyword] *)

Lemma last_cons_default (B : list Z) :
  ∀ b z : Z, List.last (b :: B) z = List.last B b.
Proof.
  induction B as [|b' B IH]; intros b z; [done|].
  change (List.last (b :: b' :: B) z) with (List.last (b' :: B) z).
  rewrite !IH. done.
Qed.

(** Deleting: the elements after the hole move one place down; the last
    place keeps its old content. *)
Lemma delete_loop (B : list Z) :
  ∀ (A : list Z) (z : Z),
    for_loop (length B) (Z.of_nat (length A) + 1)
      (λ k state, v ← rd state k; state ← wr state (k - 1) v; Some (Next state))
      (A ++ z :: B)
    = Some (A ++ B ++ [List.last B z]).
Proof.
  induction B as [|b B IH]; intros A z; [done|].
  cbn [length for_loop].
  assert (rd (A ++ z :: b :: B) (Z.of_nat (length A) + 1) = Some b) as ->.
  { replace (A ++ z :: b :: B) with ((A ++ [z]) ++ b :: B)
      by (by rewrite <- app_assoc).
    apply rd_middle'. rewrite length_app. simpl. lia. }
  cbn [mbind option_bind].
  rewrite (wr_middle' A (b :: B) z b) by lia. cbn [mbind option_bind].
  specialize (IH (A ++ [b]) b).
  rewrite length_app, <- app_assoc in IH. simpl in IH.
  replace (Z.of_nat (length A) + 1 + 1) with (Z.of_nat (length A + 1) + 1) by lia.
  rewrite IH. rewrite <- app_assoc. cbn [app].
  by rewrite last_cons_default.
Qed.

Lemma delete_at_spec (A B : list Z) (y : Z) (j len : Z) :
  j = Z.of_nat (length A) → len = Z.of_nat (length (A ++ y :: B)) →
  delete_at (A ++ y :: B) j len = Some (A ++ B ++ [List.last B y]).
Proof.
  intros -> ->. unfold delete_at, for_range.
  rewrite length_app. simpl.
  replace (Z.to_nat _) with (length B) by lia.
  apply delete_loop.
Qed.

(** Shunting: the elements from the insertion point on move one place up,
    over the last place. *)
Lemma shunt_loop (H : list Z) :
  ∀ (A T : list Z) (z : Z),
    for_loop_down (length H) (Z.of_nat (length A + length H))
      (λ l state, v ← rd state (l - 1); state ← wr state l v; Some (Next state))
      (A ++ H ++ z :: T)
    = Some (A ++ hd z H :: H ++ T).
Proof.
  induction H as [|h H IH] using rev_ind; intros A T z.
  { simpl. done. }
  rewrite length_app. cbn [length]. rewrite Nat.add_1_r. cbn [for_loop_down].
  set (l := Z.of_nat (length A + S (length H))).
  assert (rd (A ++ (H ++ [h]) ++ z :: T) (l - 1) = Some h) as ->.
  { replace (A ++ (H ++ [h]) ++ z :: T) with ((A ++ H) ++ h :: z :: T)
      by (by rewrite <- !app_assoc).
    apply rd_middle'. rewrite length_app. lia. }
  cbn [mbind option_bind].
  assert (wr (A ++ (H ++ [h]) ++ z :: T) l h = Some (A ++ H ++ h :: h :: T)) as ->.
  { replace (A ++ (H ++ [h]) ++ z :: T) with ((A ++ H ++ [h]) ++ z :: T)
      by (by rewrite <- !app_assoc).
    rewrite (wr_middle' (A ++ H ++ [h]) T z h)
      by (rewrite !length_app; simpl; lia).
    by rewrite <- !app_assoc. }
  cbn [mbind option_bind].
  replace (l - 1) with (Z.of_nat (length A + length H)) by lia.
  rewrite (IH A (h :: T) h). rewrite <- !app_assoc. cbn [app].
  by destruct H.
Qed.

(** Cutting a list at its first element above [x]. *)
Lemma split_first_greater (x : Z) (rest : list Z) :
  ∃ lo hi, rest = lo ++ hi ∧ Forall (λ y, ¬ x < y) lo ∧
           (hi = [] ∨ ∃ h hi', hi = h :: hi' ∧ x < h).
Proof.
  induction rest as [|a rest (lo & hi & -> & Hlo & Hhi)].
  - exists [], []. split_and!; [done|constructor|by left].
  - destruct (decide (x < a)) as [Hlt|Hge].
    + exists [], (a :: lo ++ hi). split_and!; [done|constructor|].
      right. by exists a, (lo ++ hi).
    + exists (a :: lo), hi. split_and!; [done|by constructor|done].
Qed.

Lemma insert_sorted_spec (pre lo hi : list Z) (z x keyword_len len : Z) :
  keyword_len = Z.of_nat (length pre) →
  len = Z.of_nat (length (pre ++ lo ++ hi ++ [z])) →
  Forall (λ y, ¬ x < y) lo →
  (hi = [] ∨ ∃ h hi', hi = h :: hi' ∧ x < h) →
  insert_sorted (pre ++ lo ++ hi ++ [z]) x keyword_len len
  = Some (pre ++ lo ++ x :: hi).
Proof.
  intros -> -> Hlo Hhi. rewrite !length_app. cbn [length].
  unfold insert_sorted, for_range.
  apply for_loop_hit with (k := length lo); [lia| |].
  - intros k' Hk'.
    destruct (lookup_lt_is_Some_2 lo k' Hk') as [y Hy].
    assert (rd (pre ++ lo ++ hi ++ [z]) (Z.of_nat (length pre) + Z.of_nat k')
            = Some y) as ->.
    { rewrite <- Nat2Z.inj_add, rd_of_nat.
      rewrite lookup_app_r by lia.
      replace (length pre + k' - length pre)%nat with k' by lia.
      by rewrite lookup_app_l. }
    cbn [mbind option_bind].
    rewrite Forall_forall in Hlo.
    pose proof (Hlo y (list_elem_of_lookup_2 _ _ _ Hy)) as Hxy.
    rewrite (proj2 (Z.ltb_ge x y)) by lia.
    rewrite (proj2 (Z.eqb_neq _ _)) by lia.
    done.
  - set (A := pre ++ lo).
    replace (pre ++ lo ++ hi ++ [z]) with (A ++ hi ++ [z])
      by (unfold A; by rewrite <- !app_assoc).
    assert (Z.of_nat (length pre) + Z.of_nat (length lo) = Z.of_nat (length A))
      as -> by (unfold A; rewrite length_app; lia).
    assert (rd (A ++ hi ++ [z]) (Z.of_nat (length A)) = Some (hd z hi)) as ->.
    { destruct hi; apply rd_middle. }
    cbn [mbind option_bind].
    assert ((x <? hd z hi)
            || (Z.of_nat (length A)
                =? Z.of_nat (length pre + (length lo + (length hi + 1))) - 1)
            = true) as ->.
    { destruct Hhi as [->|(h & hi' & -> & Hlt)].
      - apply orb_true_iff. right. apply Z.eqb_eq.
        unfold A. rewrite length_app. simpl. lia.
      - apply orb_true_iff. left. simpl. by apply Z.ltb_lt. }
    unfold for_range_down.
    replace (Z.to_nat _) with (length hi)
      by (unfold A; rewrite length_app; lia).
    replace (Z.of_nat (length pre + (length lo + (length hi + 1))) - 1)
      with (Z.of_nat (length A + length hi))
      by (unfold A; rewrite length_app; lia).
    rewrite (shunt_loop hi A [] z). cbn [mbind option_bind].
    rewrite app_nil_r, wr_middle. cbn [mbind option_bind].
    unfold A. by rewrite <- app_assoc.
Qed.

(** * The random draws *)

Lemma rand_ok (RAND_MAX : Z) (g : rng) :
  rng_ok RAND_MAX g → 0 ≤ (rand g).1 ∧ rng_ok RAND_MAX (rand g).2.
Proof.
  intros Hg. split; [apply Hg|]. intros n. apply Hg.
Qed.

Lemma rand_int_ok (RAND_MAX : Z) (min max : Z) (g : rng) :
  rng_ok RAND_MAX g → min < max →
  ∃ v g', rand_int min max g = Some (v, g') ∧ min ≤ v < max ∧
          rng_ok RAND_MAX g'.
Proof.
  intros Hg Hlt. unfold rand_int.
  rewrite (proj2 (Z.eqb_neq _ _)) by lia.
  destruct (rand_ok RAND_MAX g Hg) as [Hr Hg'].
  destruct (rand g) as [r g'] eqn:Hrand. simpl in *.
  exists (min + Z.rem r (max - min)), g'. split_and!; [done| | |done].
  - pose proof (Z.rem_bound_pos r (max - min) Hr ltac:(lia)). lia.
  - pose proof (Z.rem_bound_pos r (max - min) Hr ltac:(lia)). lia.
Qed.

Lemma frand_ok (RAND_MAX : Z) (g : rng) :
  rng_ok RAND_MAX g → rng_ok RAND_MAX (frand RAND_MAX g).2.
Proof.
  intros Hg. unfold frand.
  destruct (rand_ok RAND_MAX g Hg) as [_ Hg'].
  by destruct (rand g).
Qed.

Lemma rand_int_frequency_weighted_ok (RAND_MAX : Z) (english_monograms : list double)
    (state : list Z) (min_index max_index : Z) (g : rng) :
  rng_ok RAND_MAX g → min_index < max_index →
  (∀ i, min_index ≤ i < max_index →
     ∃ s m, rd state i = Some s ∧ monogram english_monograms s = Some m) →
  ∃ v g', rand_int_frequency_weighted RAND_MAX english_monograms state
            min_index max_index g = Some (v, g') ∧
          min_index ≤ v < max_index ∧ rng_ok RAND_MAX g'.
Proof.
  intros Hg Hlt Hrd. unfold rand_int_frequency_weighted, for_range.
  set (n := Z.to_nat (max_index - min_index)).
  destruct (for_loop_inv (λ _ _, True)
    (λ i total, s ← rd state i; m ← monogram english_monograms s;
                Some (Next (total + m)%float)) n min_index 0%float I)
    as (total & -> & _).
  { intros i t Hi _. destruct (Hrd i) as (s & m & -> & Hm); [lia|].
    simpl. rewrite Hm. simpl. eauto. }
  cbn [mbind option_bind].
  pose proof (frand_ok RAND_MAX g Hg) as Hg'.
  destruct (frand RAND_MAX g) as [rnd g'].
  destruct (for_loop_inv_break
    (λ _ (st : double * option Z), st.2 = None)
    (λ st : double * option Z, ∃ i, st.2 = Some i ∧ min_index ≤ i < max_index)
    (λ i '(cumsum, found), s ← rd state i; m ← monogram english_monograms s;
       let cumsum := (cumsum + m / total)%float in
       if (rnd <? cumsum)%float then Some (Break (cumsum, Some i))
       else Some (Next (cumsum, found))) n min_index (0%float, None) eq_refl)
    as ([c f] & Hloop & Hfin).
  { intros i [c f] Hi Hf. simpl in Hf. subst f.
    destruct (Hrd i) as (s & m & -> & Hm); [lia|].
    simpl. rewrite Hm. simpl.
    destruct (PrimFloat.ltb rnd (c + m / total)); [right|left].
    - eexists. split; [done|]. exists i. split; [done|lia].
    - eexists. split; [done|]. done. }
  cbv beta iota zeta in Hloop |- *. rewrite Hloop.
  cbn [mbind option_bind]. simpl in *.
  eexists _, g'. split; [done|]. split; [|done].
  destruct Hfin as [->|(i & -> & Hi)]; simpl; lia.
Qed.

(** * [perturbate_keyword] keeps the block encoding *)

Lemma keyword_encoding_split (k : Z) (state : list Z) :
  keyword_encoding k state → 0 ≤ k ≤ 26 →
  ∃ pre tail, state = pre ++ tail ∧ Z.of_nat (length pre) = k ∧
    Z.of_nat (length tail) = 26 - k ∧
    Forall in_alphabet pre ∧ Forall in_alphabet tail ∧
    NoDup pre ∧ StronglySorted Z.lt tail ∧
    ∀ x, x ∈ tail ↔ in_alphabet x ∧ x ∉ pre.
Proof.
  intros (Hlen & Hall & Hnd & Hsort & Hmem) Hk.
  exists (take (Z.to_nat k) state), (drop (Z.to_nat k) state).
  rewrite take_drop, length_take, length_drop.
  rewrite <- (take_drop (Z.to_nat k) state), Forall_app in Hall.
  destruct Hall. split_and!; [done|lia|lia|done..].
Qed.

Lemma keyword_encoding_join (k : Z) (pre tail : list Z) :
  Z.of_nat (length pre) = k → Z.of_nat (length tail) = 26 - k →
  Forall in_alphabet pre → Forall in_alphabet tail →
  NoDup pre → StronglySorted Z.lt tail →
  (∀ x, x ∈ tail ↔ in_alphabet x ∧ x ∉ pre) →
  keyword_encoding k (pre ++ tail).
Proof.
  intros Hpre Htail Hap Hat Hnd Hsort Hmem. unfold keyword_encoding.
  rewrite take_app_length', drop_app_length' by lia.
  rewrite length_app, Forall_app. split_and!; [lia|done..].
Qed.

Lemma StronglySorted_lt_NoDup (l : list Z) : StronglySorted Z.lt l → NoDup l.
Proof.
  induction 1 as [|x l Hl IH Hx]; constructor; [|done].
  intros Hin. rewrite Forall_forall in Hx. specialize (Hx x Hin). lia.
Qed.

(** The second mode: a keyword letter goes out, a letter of the tail comes
    in, and the tail is put back in order. *)
Lemma swap_out_encoding (k i j : Z) (state : list Z) :
  keyword_encoding k state → 0 ≤ i < k → k ≤ j < 26 →
  ∃ x y s1 s2 s3,
    rd state i = Some x ∧ rd state j = Some y ∧
    wr state i y = Some s1 ∧ delete_at s1 j 26 = Some s2 ∧
    insert_sorted s2 x k 26 = Some s3 ∧ keyword_encoding k s3.
Proof.
  intros Henc Hi Hj.
  destruct (keyword_encoding_split k state Henc ltac:(lia))
    as (pre & tail & -> & Hpre & Htail & Hap & Hat & Hnd & Hsort & Hmem).
  destruct (lookup_lt_is_Some_2 pre (Z.to_nat i)) as [x Hx]; [lia|].
  destruct (lookup_lt_is_Some_2 tail (Z.to_nat (j - k))) as [y Hy]; [lia|].
  pose proof (take_drop_middle _ _ _ Hy) as Htl.
  set (t1 := take (Z.to_nat (j - k)) tail) in *.
  set (t2 := drop (S (Z.to_nat (j - k))) tail) in *.
  assert (length t1 = Z.to_nat (j - k)) as Ht1
    by (unfold t1; rewrite length_take; lia).
  pose proof (take_drop_middle _ _ _ Hx) as Hpr.
  set (p1 := take (Z.to_nat i) pre) in *.
  set (p2 := drop (S (Z.to_nat i)) pre) in *.
  assert (length p1 = Z.to_nat i) as Hp1
    by (unfold p1; rewrite length_take; lia).
  clearbody t1 t2 p1 p2. subst pre tail.
  rewrite length_app in Hpre, Htail. cbn [length] in Hpre, Htail.
  set (pre' := p1 ++ y :: p2).
  destruct (split_first_greater x (t1 ++ t2)) as (lo & hi & Hrest & Hlo & Hhi).
  exists x, y, (pre' ++ t1 ++ y :: t2), (pre' ++ lo ++ hi ++ [List.last t2 y]),
    (pre' ++ lo ++ x :: hi).
  assert (length pre' = length (p1 ++ x :: p2)) as Hlen'
    by (unfold pre'; rewrite !length_app; done).
  assert (Z.of_nat (length pre') = k) as Hpre'
    by (rewrite Hlen', length_app; cbn [length]; lia).
  assert (Z.of_nat (length (lo ++ hi)) = 25 - k) as Hrl
    by (rewrite <- Hrest, length_app; lia).
  rewrite length_app in Hrl.
  split_and!.
  - rewrite <- app_assoc. apply rd_middle'. lia.
  - replace ((p1 ++ x :: p2) ++ t1 ++ y :: t2)
      with (((p1 ++ x :: p2) ++ t1) ++ y :: t2) by (by rewrite <- !app_assoc).
    apply rd_middle'. rewrite !length_app. cbn [length]. lia.
  - rewrite <- !app_assoc. cbn [app].
    rewrite (wr_middle' p1 _ x y) by lia.
    unfold pre'. by rewrite <- !app_assoc.
  - replace (pre' ++ t1 ++ y :: t2) with ((pre' ++ t1) ++ y :: t2)
      by (by rewrite <- !app_assoc).
    rewrite delete_at_spec.
    + f_equal. rewrite <- !app_assoc. f_equal.
      rewrite (app_assoc t1 t2), Hrest. by rewrite <- !app_assoc.
    + rewrite length_app. lia.
    + rewrite !length_app. cbn [length]. lia.
  - apply insert_sorted_spec; [lia| |done|done].
    rewrite !length_app. cbn [length]. lia.
  - rewrite !Forall_app, !Forall_cons in Hap, Hat.
    destruct Hap as (Hap1 & Hax & Hap2). destruct Hat as (Hat1 & Hay & Hat2).
    assert (Forall in_alphabet (lo ++ hi)) as Hlh
      by (rewrite <- Hrest; by apply Forall_app).
    apply Forall_app in Hlh as [Halo Hahi].
    pose proof (StronglySorted_lt_NoDup _ Hsort) as Hndt.
    assert (y ∉ p1 ++ x :: p2) as Hyp.
    { intros Hin. apply (proj1 (Hmem y)); [set_solver|done]. }
    assert (x ∉ t1 ++ y :: t2) as Hxt.
    { intros Hin. apply (proj1 (Hmem x)) in Hin as [_ Hin]. set_solver. }
    assert (∀ v, v ∈ lo ++ hi ↔ v ∈ t1 ++ t2) as Hsame
      by (intros v; by rewrite Hrest).
    assert (StronglySorted Z.lt (lo ++ hi)) as Hslh.
    { rewrite <- Hrest. apply StronglySorted_app in Hsort as (H12 & Hs1 & Hs2).
      apply StronglySorted_cons in Hs2 as [Hy2 Hs2].
      apply StronglySorted_app_2; [|done|done].
      intros a b Ha Hb. rewrite Forall_forall in Hy2.
      pose proof (H12 a y Ha ltac:(set_solver)). pose proof (Hy2 b Hb). lia. }
    apply StronglySorted_app in Hslh as (Hlh & Hslo & Hshi).
    apply keyword_encoding_join.
    + done.
    + rewrite length_app. cbn [length]. lia.
    + unfold pre'. rewrite Forall_app, Forall_cons. done.
    + rewrite Forall_app, Forall_cons. done.
    + unfold pre'. apply NoDup_app in Hnd as (Hn1 & Hn12 & Hn2).
      apply NoDup_cons in Hn2 as [Hxp2 Hn2].
      apply NoDup_app. split_and!; [done| |].
      * intros v Hv Hv'. apply elem_of_cons in Hv' as [->|Hv'].
        -- apply Hyp. set_solver.
        -- apply (Hn12 v Hv). set_solver.
      * apply NoDup_cons. split; [|done]. intros Hin. apply Hyp. set_solver.
    + assert (Forall (λ a, a < x) lo) as Hlox.
      { rewrite Forall_forall in Hlo |- *. intros a Ha.
        pose proof (Hlo a Ha).
        assert (a ≠ x); [|lia]. intros ->. apply Hxt.
        assert (x ∈ t1 ++ t2) by (apply Hsame; set_solver). set_solver. }
      assert (Forall (λ b, x < b) hi) as Hhix.
      { destruct Hhi as [->|(h & hi' & -> & Hlt)]; [constructor|].
        apply StronglySorted_cons in Hshi as [Hh _].
        constructor; [done|]. eapply Forall_impl; [exact Hh|].
        intros b Hb. simpl in Hb. lia. }
      apply StronglySorted_app_2; [|done|].
      * intros a b Ha Hb. rewrite Forall_forall in Hlox, Hhix.
        apply elem_of_cons in Hb as [->|Hb]; [by apply Hlox|].
        pose proof (Hlox a Ha). pose proof (Hhix b Hb). lia.
      * apply StronglySorted_cons. split; [|done].
        eapply Forall_impl; [exact Hhix|]. done.
    + intros v. unfold pre'.
      assert (NoDup (p1 ++ x :: p2)) as Hnd' by done.
      apply NoDup_app in Hnd' as (_ & Hn12 & Hn2).
      apply NoDup_cons in Hn2 as [Hxp2 _].
      assert (x ∉ p1) as Hxp1 by (intros Hin; apply (Hn12 x Hin); set_solver).
      assert (y ∉ t1 ++ t2) as Hyt.
      { apply NoDup_app in Hndt as (_ & Hd12 & Hd2).
        apply NoDup_cons in Hd2 as [Hyt2 _].
        intros Hin. apply elem_of_app in Hin as [Hin|Hin]; [|done].
        apply (Hd12 y Hin). set_solver. }
      pose proof (Hmem v) as Hv. pose proof (Hsame v) as Hsv.
      split.
      * intros Hin.
        assert (v = x ∨ v ∈ t1 ++ t2) as [->|Hin'] by set_solver.
        -- split; [done|]. intros Hbad. apply Hyp.
           assert (x = y) as <- by set_solver. set_solver.
        -- assert (v ≠ y) by (intros ->; done).
           assert (v ∈ t1 ++ y :: t2) as Hvt by set_solver.
           apply Hv in Hvt as [Hva Hvp]. split; [done|]. set_solver.
      * intros [Hva Hvp].
        destruct (decide (v = x)) as [->|Hne]; [set_solver|].
        assert (v ∉ p1 ++ x :: p2) as Hvp' by set_solver.
        assert (v ∈ t1 ++ y :: t2) as Hvt by (apply Hv; done).
        assert (v ≠ y) by set_solver.
        assert (v ∈ t1 ++ t2) by set_solver. set_solver.
Qed.

Lemma swap_Permutation (l : list Z) (i j : nat) (xi xj : Z) :
  l !! i = Some xi → l !! j = Some xj →
  <[j := xi]> (<[i := xj]> l) ≡ₚ l.
Proof.
  intros Hi Hj. apply Permutation_inj. split; [by rewrite !length_insert|].
  pose proof (lookup_lt_Some _ _ _ Hi) as Hli.
  pose proof (lookup_lt_Some _ _ _ Hj) as Hlj.
  exists (λ p, if decide (p = i) then j else if decide (p = j) then i else p).
  split.
  - intros p q Hpq. repeat case_decide; congruence.
  - intros p. destruct (decide (p = j)) as [->|Hpj].
    + rewrite list_lookup_insert_eq by (by rewrite length_insert).
      repeat case_decide; congruence.
    + rewrite list_lookup_insert_ne by done.
      destruct (decide (p = i)) as [->|Hpi].
      * by rewrite list_lookup_insert_eq.
      * by rewrite list_lookup_insert_ne.
Qed.

(** The first mode: two keyword letters change places. *)
Lemma swap_in_encoding (k i j : Z) (state : list Z) :
  keyword_encoding k state → 0 ≤ i < k → 0 ≤ j < k → k ≤ 26 →
  ∃ xi xj s1 s2,
    rd state i = Some xi ∧ rd state j = Some xj ∧
    wr state i xj = Some s1 ∧ wr s1 j xi = Some s2 ∧
    keyword_encoding k s2.
Proof.
  intros Henc Hi Hj Hk.
  destruct (keyword_encoding_split k state Henc ltac:(lia))
    as (pre & tail & -> & Hpre & Htail & Hap & Hat & Hnd & Hsort & Hmem).
  destruct (lookup_lt_is_Some_2 pre (Z.to_nat i)) as [xi Hxi]; [lia|].
  destruct (lookup_lt_is_Some_2 pre (Z.to_nat j)) as [xj Hxj]; [lia|].
  exists xi, xj, (<[Z.to_nat i := xj]> pre ++ tail),
    (<[Z.to_nat j := xi]> (<[Z.to_nat i := xj]> pre) ++ tail).
  pose proof (swap_Permutation pre _ _ xi xj Hxi Hxj) as Hperm.
  split_and!.
  - apply rd_Some. split; [lia|]. by rewrite lookup_app_l by lia.
  - apply rd_Some. split; [lia|]. by rewrite lookup_app_l by lia.
  - unfold wr. rewrite bool_decide_eq_true_2 by (rewrite length_app; lia).
    by rewrite insert_app_l by lia.
  - unfold wr.
    rewrite bool_decide_eq_true_2 by (rewrite length_app, length_insert; lia).
    by rewrite insert_app_l by (rewrite length_insert; lia).
  - apply keyword_encoding_join.
    + by rewrite !length_insert.
    + done.
    + by rewrite Hperm.
    + done.
    + by rewrite Hperm.
    + done.
    + intros x. by rewrite Hperm.
Qed.

Section perturbate_keyword.
Context (RAND_MAX : Z) (english_monograms : list double).
Context (FREQUENCY_WEIGHTED_SELECTION : bool).
Context (Hmono : length english_monograms = 26%nat).

Lemma monogram_defined (state : list Z) (lo hi : Z) :
  length state = 26%nat → Forall in_alphabet state → 0 ≤ lo → hi ≤ 26 →
  ∀ i, lo ≤ i < hi →
    ∃ s m, rd state i = Some s ∧ monogram english_monograms s = Some m.
Proof using Hmono.
  intros Hlen Hall Hlo Hhi i Hi.
  destruct (lookup_lt_is_Some_2 state (Z.to_nat i)) as [s Hs]; [lia|].
  rewrite Forall_forall in Hall.
  pose proof (Hall s (list_elem_of_lookup_2 _ _ _ Hs)) as Hsa.
  unfold in_alphabet, ALPHABET_SIZE in Hsa.
  destruct (lookup_lt_is_Some_2 english_monograms (Z.to_nat s)) as [m Hm];
    [lia|].
  exists s, m. split; [apply rd_Some; split; [lia|done]|].
  unfold monogram. by rewrite bool_decide_eq_true_2 by lia.
Qed.

(** The draw of the keyword position and of the tail position in the
    second mode, with or without frequency weighting. *)
Lemma draw_ok (state : list Z) (lo hi : Z) (g : rng) :
  rng_ok RAND_MAX g → length state = 26%nat → Forall in_alphabet state →
  0 ≤ lo < hi → hi ≤ 26 →
  ∃ v g',
    (if FREQUENCY_WEIGHTED_SELECTION
     then rand_int_frequency_weighted RAND_MAX english_monograms state lo hi g
     else rand_int lo hi g) = Some (v, g') ∧
    lo ≤ v < hi ∧ rng_ok RAND_MAX g'.
Proof using Hmono.
  intros Hg Hlen Hall Hlo Hhi. destruct FREQUENCY_WEIGHTED_SELECTION.
  - apply rand_int_frequency_weighted_ok; [done|lia|].
    apply monogram_defined; [done|done|lia|lia].
  - apply (rand_int_ok RAND_MAX); [done|lia].
Qed.

Lemma perturbate_keyword_spec (state : list Z) (keyword_len : Z) (g : rng) :
  rng_ok RAND_MAX g → 1 ≤ keyword_len ≤ 25 →
  keyword_encoding keyword_len state →
  ∃ state' g',
    perturbate_keyword RAND_MAX english_monograms FREQUENCY_WEIGHTED_SELECTION
      false state ALPHABET_SIZE keyword_len g = Some (state', g') ∧
    keyword_encoding keyword_len state' ∧ rng_ok RAND_MAX g'.
Proof using Hmono.
  intros Hg Hk Henc. unfold perturbate_keyword, ALPHABET_SIZE.
  pose proof (frand_ok RAND_MAX g Hg) as Hg0.
  destruct (frand RAND_MAX g) as [u g0]. simpl in Hg0.
  pose proof Henc as (Hlen & Hall & _).
  destruct (PrimFloat.ltb u 0.2).
  - destruct (rand_int_ok RAND_MAX 0 keyword_len g0 Hg0)
      as (i & g1 & -> & Hi & Hg1); [lia|].
    cbn [mbind option_bind].
    destruct (rand_int_ok RAND_MAX 0 keyword_len g1 Hg1)
      as (j & g2 & -> & Hj & Hg2); [lia|].
    cbn [mbind option_bind].
    destruct (swap_in_encoding keyword_len i j state Henc Hi Hj)
      as (xi & xj & s1 & s2 & -> & -> & H1 & H2 & Hs2); [lia|].
    cbn [mbind option_bind]. rewrite H1. cbn [mbind option_bind].
    rewrite H2. cbn [mbind option_bind]. eauto.
  - destruct (draw_ok state 0 keyword_len g0 Hg0 Hlen Hall)
      as (i & g1 & -> & Hi & Hg1); [lia|lia|].
    cbn [mbind option_bind].
    destruct (draw_ok state keyword_len 26 g1 Hg1 Hlen Hall)
      as (j & g2 & -> & Hj & Hg2); [lia|lia|].
    cbn [mbind option_bind].
    destruct (swap_out_encoding keyword_len i j state Henc Hi Hj)
      as (x & y & s1 & s2 & s3 & -> & -> & H1 & H2 & H3 & Hs3).
    cbn [mbind option_bind]. rewrite H1. cbn [mbind option_bind].
    rewrite H2. cbn [mbind option_bind]. rewrite H3.
    cbn [mbind option_bind]. eauto.
Qed.
End perturbate_keyword.

(** A keyword permutation whose tail is ascending is block-encoded. *)
Lemma keyword_encoding_intro (k : Z) (state : list Z) :
  keyword_perm state → StronglySorted Z.lt (drop (Z.to_nat k) state) →
  keyword_encoding k state.
Proof.
  intros Hperm Hsort. pose proof Hperm as (Hlen & Hnd & Hall).
  split_and!; [done|done| |done|].
  - rewrite <- (take_drop (Z.to_nat k) state) in Hnd.
    by apply NoDup_app in Hnd as (? & _ & _).
  - intros x. rewrite <- (take_drop (Z.to_nat k) state) in Hnd, Hall.
    apply NoDup_app in Hnd as (_ & Hdisj & _).
    apply Forall_app in Hall as [_ Hall]. rewrite Forall_forall in Hall.
    split.
    + intros Hin. split; [by apply Hall|]. intros Hin'. by apply (Hdisj x).
    + intros [Hx Hnin]. pose proof (keyword_perm_elem state x Hperm Hx) as Hin.
      rewrite <- (take_drop (Z.to_nat k) state) in Hin. set_solver.
Qed.

(** C4 (as amended): for a keyword length [1 ≤ k ≤ 25], a block-encoded
    state and every stream of results of [rand()], [perturbate_keyword]
    returns, and the state it leaves is block-encoded again: its entries
    from [k] on are strictly ascending and are exactly the symbols that are
    not among its first [k] entries.  This holds with and without
    [FREQUENCY_WEIGHTED_SELECTION]; [KRYPTOS_PT_SCRAMBLE] is off. *)
Theorem perturbate_keyword_preserves_encoding (RAND_MAX : Z)
    (english_monograms : list double) (FREQUENCY_WEIGHTED_SELECTION : bool)
    (state : list Z) (k : Z) (g : rng) :
  length english_monograms = 26%nat →
  rng_ok RAND_MAX g → 1 ≤ k ≤ 25 → keyword_encoding k state →
  ∃ state' g',
    perturbate_keyword RAND_MAX english_monograms FREQUENCY_WEIGHTED_SELECTION
      false state ALPHABET_SIZE k g = Some (state', g') ∧
    keyword_encoding k state'.
Proof.
  intros Hmono Hg Hk Henc.
  destruct (perturbate_keyword_spec RAND_MAX english_monograms
              FREQUENCY_WEIGHTED_SELECTION Hmono state k g Hg Hk Henc)
    as (state' & g' & Hrun & Henc' & _).
  by exists state', g'.
Qed.

Lemma rng_example_ok : rng_ok 32767 rng_example.
Proof.
  intros n. unfold rng_example.
  pose proof (Z.mod_pos_bound (Z.of_nat n * 7919 + 13) 32768 eq_refl). lia.
Defined.

Lemma kryptos_alphabet_encoding : keyword_encoding 7 kryptos_alphabet.
Proof.
  apply keyword_encoding_intro.
  - apply (bool_decide_unpack _). vm_compute. exact I.
  - apply (bool_decide_unpack _). vm_compute. exact I.
Defined.

Lemma perturbate_keyword_preserves_encoding_witness :
  ∃ state' g',
    perturbate_keyword 32767 (replicate 26 1%float) true
      false kryptos_alphabet ALPHABET_SIZE 7 rng_example = Some (state', g') ∧
    keyword_encoding 7 state'.
Proof.
  apply perturbate_keyword_preserves_encoding.
  - reflexivity.
  - exact rng_example_ok.
  - lia.
  - exact kryptos_alphabet_encoding.
Defined.

(** With a keyword of all 26 letters the second mode has no tail to draw
    from.  Without frequency weighting [rand_int(26, 26)] takes a remainder
    by zero; with it the draw answers 25, a position of the keyword itself,
    and the letter taken out is lost: the state is no permutation any
    more. *)
Lemma perturbate_keyword_full_keyword_fails :
  rng_ok 32767 (rng_constant 20000) ∧
  keyword_encoding 26 (straight_alphabet 26) ∧
  perturbate_keyword 32767 (replicate 26 1%float) false false
    (straight_alphabet 26) ALPHABET_SIZE 26 (rng_constant 20000) = None ∧
  ∃ state' g',
    perturbate_keyword 32767 (replicate 26 1%float) true false
      (straight_alphabet 26) ALPHABET_SIZE 26 (rng_constant 20000)
    = Some (state', g') ∧
    ¬ keyword_encoding 26 state'.
Proof.
  split_and!.
  - intros n. unfold rng_constant. lia.
  - apply keyword_encoding_intro; [apply straight_alphabet_perm|].
    apply (bool_decide_unpack _). vm_compute. exact I.
  - vm_compute. reflexivity.
  - eexists _, _. split; [vm_compute; reflexivity|].
    intros (_ & _ & Hnd & _).
    match type of Hnd with
    | NoDup ?l =>
        assert (bool_decide (NoDup l) = false) as Hf by (vm_compute; reflexivity)
    end.
    by apply bool_decide_eq_false in Hf.
Qed.

(** * The crib feasibility check *)











Section column.
Context (cipher crib_indices crib_positions : list Z) (p j : Z).
Context (idx col : list Z).
Context (Hp : 1 ≤ p) (Hj : 0 ≤ j < p).
Context (Hcipher : Forall in_alphabet cipher).
Context (Hcribs : Forall in_alphabet crib_indices).
Context (Hsame : length crib_positions = length crib_indices).
Context (Hcol : length col = length idx).
Context (Hidx : ∀ n q, idx !! n = Some q →
           q = p * Z.of_nat n + j ∧ 0 ≤ q < Z.of_nat (length cipher) ∧
           col !! n = cipher !! Z.to_nat q).
Context (Hcov : ∀ q k, 0 ≤ k → q = p * k + j → q < Z.of_nat (length cipher) →
           idx !! Z.to_nat k = Some q).



End column.



Section feasibility.
Context (cipher crib_indices crib_positions : list Z) (p : Z).
Context (Hlen : Z.of_nat (length cipher) ≤ MAX_CIPHER_LENGTH).
Context (Hcipher : Forall in_alphabet cipher).
Context (Hcribs : Forall in_alphabet crib_indices).
Context (Hsame : length crib_positions = length crib_indices).


End feasibility.



(** * The fitness function *)





Lemma horner_range (digits : list Z) :
  Forall in_alphabet digits → 0 ≤ horner digits < 26 ^ Z.of_nat (length digits).
Proof.
  induction 1 as [|d ds Hd Hds IH]; [simpl; lia|].
  unfold in_alphabet, ALPHABET_SIZE in Hd.
  cbn [horner foldr length]. fold (horner ds). unfold ALPHABET_SIZE.
  rewrite Nat2Z.inj_succ, Z.pow_succ_r by lia. lia.
Qed.

Lemma int_add_fits (INT_MAX a b : Z) :
  - INT_MAX - 1 ≤ a + b ≤ INT_MAX → int_add INT_MAX a b = Some (a + b).
Proof. intros H. unfold int_add. by rewrite bool_decide_eq_true_2. Qed.

Lemma int_mul_fits (INT_MAX a b : Z) :
  - INT_MAX - 1 ≤ a * b ≤ INT_MAX → int_mul INT_MAX a b = Some (a * b).
Proof. intros H. unfold int_mul. by rewrite bool_decide_eq_true_2. Qed.



Section ngram.
Context (INT_MAX : Z) (libm_pow : double → double → double).

End ngram.





(* ===================================================================== *)
(** * The period estimator drops tied candidates *)

(** C5 (the code departs from it): on ABCABC...ABC (60 letters) with
    [max_cycleword_len = 20], [n_sigma_threshold = 1.0] and
    [ioc_threshold = 0.047], the periods 3, 6, 9, 12, 15 and 18 all have
    mean IoC 1 and the same z-score, above both thresholds, so all six
    pass the acceptance test; [estimate_cycleword_lengths] returns period 3
    alone, because a candidate is only taken when its z-score is strictly
    below the one taken before it. *)
Theorem estimate_cycleword_lengths_drops_ties :
  ∃ mu_ioc mu_ioc_normalised,
    candidate_iocs abc_text 60 20 = Some mu_ioc ∧
    normalise_iocs pow_square mu_ioc 20 = Some mu_ioc_normalised ∧
    List.filter (accepts mu_ioc mu_ioc_normalised 1 0.047) (seqZ 1 20)
    = [3; 6; 9; 12; 15; 18] ∧
    estimate_cycleword_lengths pow_square abc_text 60 20 1 0.047 = Some [3].
Proof.
  eexists _, _. split; [vm_compute; reflexivity|].
  split; [vm_compute; reflexivity|].
  split; vm_compute; reflexivity.
Qed.

(* ===================================================================== *)
(** * The cycleword constraint with two different keywords *)

Lemma ba_alphabet_perm : keyword_perm ba_alphabet.
Proof. apply (bool_decide_unpack _). vm_compute. exact I. Qed.

(** C2 (the code departs from it): with the plaintext keyword
    BACDEF...Z, the straight ciphertext keyword, the ciphertext C and the
    crib C at position 0, period 1, [constrain_cycleword] reports no
    contradiction and writes the cycleword B, read off the plaintext
    keyword; [quagmire_decrypt] looks the cycleword up in the ciphertext
    keyword and decrypts to A, not to the crib C. *)
Theorem constrain_cycleword_misses_crib (INACTIVE : Z) :
  keyword_perm ba_alphabet ∧ keyword_perm (straight_alphabet 26) ∧
  constrain_cycleword INACTIVE [2] 1 [2] [0] 1
    ba_alphabet (straight_alphabet 26) [0] 1 false = Some (false, [1]) ∧
  quagmire_decrypt [2] 1 ba_alphabet (straight_alphabet 26) [1] 1 false
  = Some [0].
Proof.
  split; [exact ba_alphabet_perm|]. split; [exact straight_alphabet_perm|].
  split; [|vm_compute; reflexivity].
  assert (Hcrib : constrain_crib INACTIVE [2] [2] [0] ba_alphabet
            (straight_alphabet 26) 1 false 0 0
            (ConstrainLocals (INACTIVE :: replicate 29 0) [0] None None false)
          = Some (Next (ConstrainLocals (1 :: replicate 29 0) [1]
                          (Some 2) (Some 2) false))).
  { unfold constrain_crib.
    cbn [cc_posn_keyword cc_posn_cycleword crib_cyclewords cc_cycleword_indices].
    change (1 =? 0) with false. change (0 `rem` 1 =? 0) with true.
    repeat first
      [ progress change (rd [0] 0) with (Some 0)
      | progress change (rd [2] 0) with (Some 2)
      | progress change (find_posn (straight_alphabet 26) 2 None)
          with (Some (Some 2))
      | progress change (find_posn ba_alphabet 2 None) with (Some (Some 2))
      | progress change (wrap_index (2 - 2)) with 0
      | progress change (rd (INACTIVE :: replicate 29 0) 0)
          with (Some INACTIVE)
      | progress change (rd ba_alphabet 0) with (Some 1)
      | progress cbn [mbind option_bind]
      | progress cbv beta iota ].
    rewrite (Z.eqb_refl INACTIVE). reflexivity. }
  unfold constrain_cycleword. change (1 =? 0) with false. cbv iota.
  change (for_range 0 1 ?f ?s) with (for_loop 1 0 f s).
  cbn [for_loop mbind option_bind]. 
  change (wr (replicate (Z.to_nat MAX_CYCLEWORD_LEN) 0) 0 INACTIVE)
    with (Some (INACTIVE :: replicate 29 0)).
  cbn [mbind option_bind].
  change (for_range 0 1 ?f ?s) with (for_loop 1 0 f s).
  cbn [for_loop]. rewrite Hcrib. reflexivity.
Qed.

(* ===================================================================== *)
(** * The hill climber *)

(** A loop whose body keeps an invariant wherever it returns. *)
Lemma for_loop_partial {St : Type} (I : Z → St → Prop) (Q : St → Prop)
    (body : Z → St → option (ctl St)) (n : nat) :
  ∀ (lo : Z) (s s' : St),
    for_loop n lo body s = Some s' →
    I lo s →
    (∀ i t r, lo ≤ i < lo + Z.of_nat n → I i t → body i t = Some r →
       match r with Next t' => I (i + 1) t' | Break t' => Q t' end) →
    I (lo + Z.of_nat n) s' ∨ Q s'.
Proof.
  induction n as [|n IH]; intros lo s s' Hrun HI Hbody.
  - injection Hrun as <-. left. by rewrite Z.add_0_r.
  - cbn [for_loop] in Hrun.
    destruct (body lo s) as [[t|t]|] eqn:Hb; [| |done].
    + assert (Hlo : lo ≤ lo < lo + Z.of_nat (S n)) by lia.
      pose proof (Hbody lo s (Next t) Hlo HI Hb) as Ht.
      replace (lo + Z.of_nat (S n)) with (lo + 1 + Z.of_nat n) by lia.
      apply (IH (lo + 1) t s' Hrun Ht).
      intros i u r Hi. apply Hbody. lia.
    + injection Hrun as <-. right.
      assert (Hlo : lo ≤ lo < lo + Z.of_nat (S n)) by lia.
      apply (Hbody lo s (Break t) Hlo HI Hb).
Qed.

Lemma wr_Some (a a' : list Z) (i v : Z) :
  wr a i v = Some a' →
  0 ≤ i ∧ (Z.to_nat i < length a)%nat ∧ a' = <[Z.to_nat i := v]> a.
Proof.
  unfold wr. case_bool_decide; [|done]. intros [= <-]. split_and!; [lia|lia|done].
Qed.

(** [vec_copy] makes the first [len] entries of [dest] those of [src]. *)
Lemma vec_copy_take (src dest dest' : list Z) (len : Z) :
  vec_copy src dest len = Some dest' →
  take (Z.to_nat len) dest' = take (Z.to_nat len) src.
Proof.
  unfold vec_copy, for_range. rewrite Z.sub_0_r. intros Hrun.
  destruct (for_loop_partial
    (λ i d, 0 ≤ i ∧ take (Z.to_nat i) d = take (Z.to_nat i) src)
    (λ _, False) _ _ _ _ _ Hrun) as [[_ H]|[]].
  - done.
  - intros i d r Hi [Hi0 Hd] Hb.
    destruct (rd src i) as [v|] eqn:Hv; [|done]. cbn in Hb.
    destruct (wr d i v) as [d'|] eqn:Hw; [|done]. cbn in Hb.
    injection Hb as <-.
    apply rd_Some in Hv as [_ Hv]. apply wr_Some in Hw as (_ & Hlen & ->).
    split; [lia|]. replace (Z.to_nat (i + 1)) with (S (Z.to_nat i)) by lia.
    rewrite (take_S_r src _ v Hv).
    rewrite (take_S_r (<[Z.to_nat i:=v]> d) _ v)
      by (by apply list_lookup_insert_eq).
    by rewrite take_insert_ge, Hd by lia.
  - by rewrite Z.add_0_l, Nat2Z.id in H.
Qed.

(** [write_straight] makes the first [len] entries the straight alphabet. *)
Lemma write_straight_take (keyword keyword' : list Z) (len : Z) :
  write_straight keyword len = Some keyword' →
  take (Z.to_nat len) keyword' = seqZ 0 (Z.of_nat (Z.to_nat len)).
Proof.
  unfold write_straight, for_range. rewrite Z.sub_0_r. intros Hrun.
  destruct (for_loop_partial
    (λ i d, 0 ≤ i ∧ take (Z.to_nat i) d = seqZ 0 i)
    (λ _, False) _ _ _ _ _ Hrun) as [[_ H]|[]].
  - done.
  - intros i d r Hi [Hi0 Hd] Hb.
    destruct (wr d i i) as [d'|] eqn:Hw; [|done]. cbn in Hb.
    injection Hb as <-. apply wr_Some in Hw as (_ & Hlen & ->).
    split; [lia|]. replace (Z.to_nat (i + 1)) with (S (Z.to_nat i)) by lia.
    rewrite (take_S_r (<[Z.to_nat i:=i]> d) _ i)
      by (by apply list_lookup_insert_eq).
    rewrite take_insert_ge, Hd by lia.
    rewrite (seqZ_app 0 i 1) by lia. done.
  - by rewrite Z.add_0_l, Nat2Z.id in H.
Qed.

Section climber_facts.
Context (b : build) (keyword_fuel : nat) (cfg : climber_config).

Lemma copy_state_keywords (src dest k : key_state) :
  copy_state b cfg src dest = Some k →
  take 26 (plaintext_keyword_state k) = take 26 (plaintext_keyword_state src) ∧
  take 26 (ciphertext_keyword_state k) = take 26 (ciphertext_keyword_state src).
Proof.
  unfold copy_state. intros H.
  destruct (vec_copy (plaintext_keyword_state src) _ _) as [P|] eqn:HP; [|done].
  destruct (vec_copy (ciphertext_keyword_state src) _ _) as [C|] eqn:HC; [|done].
  destruct (vec_copy (cycleword_state src) _ _) as [W|] eqn:HW; [|done].
  injection H as <-. split.
  - apply (vec_copy_take _ _ _ 26 HP).
  - apply (vec_copy_take _ _ _ 26 HC).
Qed.

Lemma copy_state_identity (src dest k : key_state) :
  copy_state b cfg src dest = Some k →
  keywords_identity src → keywords_identity k.
Proof.
  intros [HP HC]%copy_state_keywords [HP' HC']. split; congruence.
Qed.

Lemma k4_blocks_off (at_restart : bool) (k k' : key_state) :
  k4_off b → k4_blocks b cfg at_restart k = Some k' → k' = k.
Proof.
  intros (H1 & H2 & H3 & H4 & H5 & H6 & H7). unfold k4_blocks, k4_block.
  rewrite H1, H2, H3, H4, H5, H6, H7, andb_false_r. cbn.
  destruct k. by intros [= <-].
Qed.

(** Every restart, fresh or backtracked, raises the flag. *)
Lemma restart_begin_flag (s s' : climber) :
  restart_begin b keyword_fuel cfg s = Some s' → perturbate_keyword_p s' = true.
Proof.
  unfold restart_begin. intros H.
  destruct (if (0 <? best_score s)%float then _ else _) as [t|]; [|done].
  cbn in H. destruct (k4_blocks _ _ _ _) as [cur|]; [|done].
  by injection H as <-.
Qed.

Lemma fresh_state_frame (s s' : climber) :
  fresh_state b keyword_fuel cfg s = Some s' → restart_frame s s'.
Proof.
  unfold fresh_state. intros H.
  destruct (if cfg_cipher_type cfg =? VIGENERE b then _ else _)
    as [[[[cur pkl] ckl] g]|]; [|done].
  cbn in H. destruct (score_state b cfg cur); [|done].
  by injection H as <-.
Qed.

Lemma backtrack_state_frame (s s' : climber) :
  backtrack_state b cfg s = Some s' → restart_frame s s'.
Proof.
  unfold backtrack_state. intros H.
  destruct (copy_state _ _ _ _); [|done]. by injection H as <-.
Qed.

Lemma restart_begin_frame (s s' : climber) :
  restart_begin b keyword_fuel cfg s = Some s' → restart_frame s s'.
Proof.
  unfold restart_begin. intros H.
  destruct (if (0 <? best_score s)%float then _ else _) as [t|] eqn:Ht; [|done].
  cbn in H. destruct (k4_blocks _ _ _ _) as [cur|]; [|done].
  injection H as <-.
  assert (restart_frame s t) as (? & ? & ? & ?); [|done].
  destruct (0 <? best_score s)%float; [|by apply fresh_state_frame].
  destruct (frand _ _) as [u g]. destruct (u <? _)%float.
  - by apply backtrack_state_frame in Ht.
  - by apply fresh_state_frame in Ht.
Qed.

(** The stages of one hill climb. *)
Lemma hill_climb_stages (i i' : Z) (s s' : climber) :
  hill_climb b cfg i s = Some (i', s') →
  ∃ loc g flag n_contr,
    perturb_stage b cfg s = Some (loc, g) ∧
    constrain_stage b cfg (perturbate_keyword_p s) (n_contradictions s) loc
    = Some (flag, n_contr, local_state s') ∧
    perturbate_keyword_p s' = flag ∧
    n_iterations s' = n_iterations s + 1 ∧
    (current_state s' = current_state s ∨
     copy_state b cfg (local_state s') (current_state s)
     = Some (current_state s')) ∧
    (best_state s' = best_state s ∧ best_score s' = best_score s ∨
     copy_state b cfg (current_state s') (best_state s)
     = Some (best_state s')).
Proof.
  unfold hill_climb. intros H.
  destruct (perturb_stage b cfg s) as [[loc g]|]; [|done].
  cbn [mbind option_bind] in H.
  destruct (constrain_stage _ _ _ _ _) as [[[flag n_contr] loc']|] eqn:Hc;
    [|done].
  cbn [mbind option_bind] in H.
  destruct (score_state b cfg loc') as [local_score|]; [|done].
  cbn [mbind option_bind] in H.
  exists loc, g, flag, n_contr.
  assert (∀ cur cur_score n_expl g',
    (current_state s = cur ∨ copy_state b cfg loc' (current_state s) = Some cur) →
    (if (best_score s <? cur_score)%float then
       best ← copy_state b cfg cur (best_state s);
       Some (if cfg_verbose cfg then Z.max (climber_cycleword_len b cfg) 0 else i,
             Climber loc' cur best cur_score cur_score flag
               (cl_plaintext_keyword_len s) (cl_ciphertext_keyword_len s)
               (n_iterations s + 1) (n_backtracks s) n_expl n_contr g')
     else
       Some (i, Climber loc' cur (best_state s) cur_score (best_score s) flag
                  (cl_plaintext_keyword_len s) (cl_ciphertext_keyword_len s)
                  (n_iterations s + 1) (n_backtracks s) n_expl n_contr g'))
    = Some (i', s') →
    local_state s' = loc' ∧
    perturbate_keyword_p s' = flag ∧
    n_iterations s' = n_iterations s + 1 ∧
    (current_state s' = current_state s ∨
     copy_state b cfg loc' (current_state s) = Some (current_state s')) ∧
    (best_state s' = best_state s ∧ best_score s' = best_score s ∨
     copy_state b cfg (current_state s') (best_state s)
     = Some (best_state s'))) as Hlast.
  { intros cur cur_score n_expl g' Hcur Hb.
    destruct (best_score s <? cur_score)%float.
    - destruct (copy_state b cfg cur (best_state s)) as [best|] eqn:Hbest;
        [|done].
      injection Hb as <- <-. cbn. split_and!; auto.
      destruct Hcur as [<-|Hcur]; auto.
    - injection Hb as <- <-. cbn. split_and!; auto.
      destruct Hcur as [<-|Hcur]; auto. }
  assert (local_state s' = loc' ∧
    perturbate_keyword_p s' = flag ∧
    n_iterations s' = n_iterations s + 1 ∧
    (current_state s' = current_state s ∨
     copy_state b cfg loc' (current_state s) = Some (current_state s')) ∧
    (best_state s' = best_state s ∧ best_score s' = best_score s ∨
     copy_state b cfg (current_state s') (best_state s)
     = Some (best_state s'))) as (<- & ? & ? & ? & ?); [|by split_and!].
  destruct (current_score s <? local_score)%float.
  - destruct (copy_state b cfg loc' (current_state s)) as [cur|] eqn:Hcur;
      [|done].
    apply (Hlast cur local_score (n_explore s) g); auto.
  - destruct (frand (RAND_MAX b) g) as [u g'].
    destruct (u <? cfg_slip_probability cfg)%float.
    + destruct (copy_state b cfg loc' (current_state s)) as [cur|] eqn:Hcur;
        [|done].
      apply (Hlast cur local_score (n_explore s + 1) g'); auto.
    + apply (Hlast (current_state s) (current_score s) (n_explore s) g'); auto.
Qed.
End climber_facts.

(** * Beaufort *)

Section beaufort.
Context (b : build) (keyword_fuel : nat) (cfg : climber_config).
Hypothesis Htype : cfg_cipher_type cfg = BEAUFORT b.
Hypothesis Hlabels : NoDup (cipher_types b).
Hypothesis Hk4 : k4_off b.

Lemma beaufort_label (x : Z) :
  x ∈ [VIGENERE b; QUAGMIRE_1 b; QUAGMIRE_2 b; QUAGMIRE_3 b; QUAGMIRE_4 b] →
  (cfg_cipher_type cfg =? x) = false.
Proof using Htype Hlabels.
  clear Hk4. intros Hx. apply Z.eqb_neq. rewrite Htype. intros <-.
  unfold cipher_types in Hlabels.
  change [VIGENERE b; QUAGMIRE_1 b; QUAGMIRE_2 b; QUAGMIRE_3 b; QUAGMIRE_4 b;
          BEAUFORT b]
    with ([VIGENERE b; QUAGMIRE_1 b; QUAGMIRE_2 b; QUAGMIRE_3 b; QUAGMIRE_4 b]
          ++ [BEAUFORT b]) in Hlabels.
  apply NoDup_app in Hlabels as (_ & Hdisj & _).
  apply (Hdisj _ Hx). set_solver.
Qed.

Lemma choose_keyword_move_beaufort (flag : bool) (g : rng) :
  choose_keyword_move b cfg flag g = (false, g).
Proof using Htype.
  unfold choose_keyword_move. by rewrite Htype, Z.eqb_refl.
Qed.

Lemma constrain_stage_beaufort (flag : bool) (n : Z) (loc : key_state) :
  constrain_stage b cfg flag n loc = Some (flag, n, loc).
Proof using Htype.
  unfold constrain_stage. by rewrite Htype, Z.eqb_refl, andb_false_r.
Qed.

Lemma fresh_state_beaufort (s s' : climber) :
  fresh_state b keyword_fuel cfg s = Some s' →
  keywords_identity (current_state s').
Proof using Htype Hlabels.
  clear Hk4. unfold fresh_state. intros H.
  rewrite !beaufort_label in H by set_solver.
  rewrite Htype, Z.eqb_refl in H.
  destruct (write_straight _ _) as [P|] eqn:HP; [|done].
  cbn [mbind option_bind] in H.
  destruct (vec_copy P _ _) as [C|] eqn:HC; [|done].
  cbn [mbind option_bind] in H.
  destruct (random_cycleword _ _ _ _) as [[W g]|]; [|done].
  cbn [mbind option_bind] in H.
  destruct (score_state _ _ _); [|done]. injection H as <-.
  apply (write_straight_take _ _ 26) in HP.
  apply (vec_copy_take _ _ _ 26) in HC.
  change (Z.to_nat 26) with 26%nat in HP, HC.
  split; cbn [current_state plaintext_keyword_state ciphertext_keyword_state];
    [exact HP|]. by rewrite HC.
Qed.

Lemma restart_begin_beaufort (s s' : climber) :
  ((0 <? best_score s)%float = true → keywords_identity (best_state s)) →
  restart_begin b keyword_fuel cfg s = Some s' →
  keywords_identity (current_state s').
Proof using Htype Hlabels Hk4.
  unfold restart_begin. intros Hbest H.
  destruct (if (0 <? best_score s)%float then _ else _) as [t|] eqn:Ht; [|done].
  cbn in H. destruct (k4_blocks _ _ _ _) as [cur|] eqn:Hcur; [|done].
  injection H as <-. cbn. apply (k4_blocks_off _ _ _ _ _ Hk4) in Hcur as ->.
  destruct (0 <? best_score s)%float; [|by apply fresh_state_beaufort in Ht].
  destruct (frand _ _) as [u g]. destruct (u <? _)%float.
  - unfold backtrack_state in Ht. cbn in Ht.
    destruct (copy_state _ _ _ _) as [k|] eqn:Hk; [|done].
    injection Ht as <-. cbn. by apply (copy_state_identity _ _ _ _ _ Hk), Hbest.
  - by apply fresh_state_beaufort in Ht.
Qed.

(** The move of an iteration: the current state copied, then
    [perturbate_cycleword] on the cycleword. *)
Lemma perturb_stage_beaufort (s : climber) (loc : key_state) (g : rng) :
  perturb_stage b cfg s = Some (loc, g) →
  ∃ loc0 W,
    copy_state b cfg (current_state s) (local_state s) = Some loc0 ∧
    perturbate_cycleword (cycleword_state loc0) ALPHABET_SIZE
      (climber_cycleword_len b cfg) (cl_rng s) = Some (W, g) ∧
    loc = KeyState (plaintext_keyword_state loc0)
            (ciphertext_keyword_state loc0) W.
Proof using Htype Hk4.
  unfold perturb_stage. intros H.
  destruct (copy_state _ _ _ _) as [loc0|] eqn:Hloc0; [|done].
  cbn [mbind option_bind] in H. rewrite choose_keyword_move_beaufort in H.
  destruct (perturbate_cycleword _ _ _ _) as [[W g']|] eqn:HW; [|done].
  cbn [mbind option_bind] in H.
  destruct (k4_blocks _ _ _ _) as [loc'|] eqn:Hk; [|done].
  apply (k4_blocks_off _ _ _ _ _ Hk4) in Hk as ->.
  injection H as <- <-. by exists loc0, W.
Qed.

(** The candidate of an iteration: the current state with
    [perturbate_cycleword] applied to its cycleword. *)
Lemma hill_climb_beaufort_move (i i' : Z) (s s' : climber) :
  hill_climb b cfg i s = Some (i', s') →
  ∃ loc0 W g,
    copy_state b cfg (current_state s) (local_state s) = Some loc0 ∧
    perturbate_cycleword (cycleword_state loc0) ALPHABET_SIZE
      (climber_cycleword_len b cfg) (cl_rng s) = Some (W, g) ∧
    local_state s' = KeyState (plaintext_keyword_state loc0)
                       (ciphertext_keyword_state loc0) W.
Proof using Htype Hk4.
  intros H.
  apply hill_climb_stages in H
    as (loc & g & flag & n_contr & Hp & Hc & _).
  rewrite constrain_stage_beaufort in Hc.
  assert (local_state s' = loc) as -> by congruence.
  apply perturb_stage_beaufort in Hp as (loc0 & W & Hloc0 & HW & Hloc).
  by exists loc0, W, g.
Qed.

Lemma hill_climb_beaufort (i i' : Z) (s s' : climber) :
  hill_climb b cfg i s = Some (i', s') →
  keywords_identity (current_state s) →
  ((0 <? best_score s)%float = true → keywords_identity (best_state s)) →
  keywords_identity (local_state s') ∧
  keywords_identity (current_state s') ∧
  ((0 <? best_score s')%float = true → keywords_identity (best_state s')).
Proof using Htype Hk4.
  intros H Hcur Hbest.
  destruct (hill_climb_beaufort_move _ _ _ _ H)
    as (loc0 & W & g & Hloc0 & _ & Hloc).
  apply hill_climb_stages in H as (_ & _ & _ & _ & _ & _ & _ & _ & Hcur' & Hbest').
  assert (keywords_identity (local_state s')) as Hid.
  { rewrite Hloc. apply (copy_state_identity _ _ _ _ _ Hloc0) in Hcur.
    exact Hcur. }
  assert (keywords_identity (current_state s')) as Hid'.
  { destruct Hcur' as [->|Hcp]; [done|].
    by apply (copy_state_identity _ _ _ _ _ Hcp). }
  split_and!; [done|done|].
  destruct Hbest' as [[-> ->]|Hcp]; [done|].
  intros _. by apply (copy_state_identity _ _ _ _ _ Hcp).
Qed.

Lemma climber_next_beaufort (c c' : control) (s s' : climber) :
  climber_next b keyword_fuel cfg c s = Some (c', s') →
  beaufort_inv c s → beaufort_inv c' s'.
Proof using Htype Hlabels Hk4.
  intros H (Hcur & Hloc & Hbest). destruct c as [n|n i|]; cbn in H.
  - destruct (n <? cfg_n_restarts cfg).
    + destruct (restart_begin _ _ _ _) as [t|] eqn:Ht; [|done].
      injection H as <- <-.
      pose proof (restart_begin_beaufort _ _ Hbest Ht) as Hid.
      apply restart_begin_frame in Ht as (Hl & Hb & Hs & Hn).
      unfold beaufort_inv. rewrite Hl, Hb, Hs, Hn. by split_and!.
    + injection H as <- <-. by split_and!.
  - destruct (i <? cfg_n_hill_climbs cfg).
    + destruct (hill_climb _ _ _ _) as [[j t]|] eqn:Ht; [|done].
      injection H as <- <-.
      destruct (hill_climb_beaufort _ _ _ _ Ht Hcur Hbest) as (? & ? & ?).
      by split_and!.
    + injection H as <- <-. by split_and!.
  - injection H as <- <-. by split_and!.
Qed.

Lemma climber_run_beaufort (k : nat) :
  ∀ (c c' : control) (s s' : climber),
    climber_run b keyword_fuel cfg k c s = Some (c', s') →
    beaufort_inv c s → beaufort_inv c' s'.
Proof using Htype Hlabels Hk4.
  induction k as [|k IH]; intros c c' s s' H Hinv; cbn in H.
  - by injection H as <- <-.
  - destruct (climber_next _ _ _ _ _) as [[c1 s1]|] eqn:H1; [|done].
    apply (IH _ _ _ _ H). by apply (climber_next_beaufort _ _ _ _ H1).
Qed.
End beaufort.

(** C8: in a Beaufort run (the K4 switches off), at every point that the
    two loops reach, the condition of the move answers "cycleword"
    whatever the flag and the generator, the iteration that follows copies
    the current state and applies [perturbate_cycleword] to its cycleword
    only, and the keyword arrays of the current, candidate and best state
    are the straight alphabet they were initialised to. *)
Theorem beaufort_never_perturbs_keyword (b : build) (keyword_fuel : nat)
    (cfg : climber_config) (k : nat)
    (uninit_local uninit_current uninit_best : key_state)
    (uninit_score : double) (uninit_flag : bool)
    (plaintext_keyword_len ciphertext_keyword_len : Z) (g : rng)
    (c : control) (s : climber) :
  cfg_cipher_type cfg = BEAUFORT b →
  NoDup (cipher_types b) →
  k4_off b →
  climber_run b keyword_fuel cfg k (AtRestart 0)
    (climber_entry uninit_local uninit_current uninit_best uninit_score
       uninit_flag plaintext_keyword_len ciphertext_keyword_len g)
  = Some (c, s) →
  beaufort_inv c s ∧
  (∀ flag g', choose_keyword_move b cfg flag g' = (false, g')) ∧
  (∀ i i' s',
     hill_climb b cfg i s = Some (i', s') →
     ∃ loc0 W g',
       copy_state b cfg (current_state s) (local_state s) = Some loc0 ∧
       perturbate_cycleword (cycleword_state loc0) ALPHABET_SIZE
         (climber_cycleword_len b cfg) (cl_rng s) = Some (W, g') ∧
       local_state s' = KeyState (plaintext_keyword_state loc0)
                          (ciphertext_keyword_state loc0) W).
Proof.
  intros Htype Hlabels Hk4 Hrun.
  assert (beaufort_inv c s) as Hinv.
  { apply (climber_run_beaufort b keyword_fuel cfg Htype Hlabels Hk4 _ _ _ _ _
             Hrun).
    split_and!; [done|cbn; lia|cbn; done]. }
  split_and!; [done| |].
  - intros flag g'. by apply choose_keyword_move_beaufort.
  - intros i i' s' H.
    by apply (hill_climb_beaufort_move b cfg Htype Hk4 i i').
Qed.

(** What a Beaufort run hands back with a score above zero: straight
    keywords. *)
Lemma beaufort_result_keywords (b : build) (keyword_fuel : nat)
    (cfg : climber_config) (fuel : nat)
    (uninit_local uninit_current uninit_best : key_state)
    (uninit_score : double) (uninit_flag : bool)
    (plaintext_keyword_len ciphertext_keyword_len : Z) (g : rng)
    (out out' : key_state) (score : double) (decrypted : list Z) :
  cfg_cipher_type cfg = BEAUFORT b →
  NoDup (cipher_types b) →
  k4_off b →
  quagmire_shotgun_hill_climber b keyword_fuel cfg fuel uninit_local
    uninit_current uninit_best uninit_score uninit_flag
    plaintext_keyword_len ciphertext_keyword_len g out
  = Some (score, out', decrypted) →
  (0 <? score)%float = true →
  keywords_identity out'.
Proof.
  intros Htype Hlabels Hk4 H Hscore. unfold quagmire_shotgun_hill_climber in H.
  destruct (climber_run _ _ _ _ _ _) as [[c s]|] eqn:Hrun; [|done].
  cbn in H. destruct c; [done|done|]. unfold climber_result in H.
  destruct (copy_state _ _ _ _) as [k|] eqn:Hk; [|done]. cbn in H.
  destruct (candidate_text _ _ _ _ _ _ _ _); [|done]. cbn in H.
  injection H as <- <- <-.
  apply (copy_state_identity _ _ _ _ _ Hk).
  apply (climber_run_beaufort b keyword_fuel cfg Htype Hlabels Hk4 _ _ _ _ _
           Hrun); [|done].
  split_and!; [done|cbn; lia|cbn; done].
Qed.

Lemma beaufort_never_perturbs_keyword_witness :
  ∃ s,
    climber_run example_build 100 (example_config 5 true) 3 (AtRestart 0)
      example_entry
    = Some (AtIteration 0 2, s) ∧
    beaufort_inv (AtIteration 0 2) s.
Proof.
  eexists. split; [vm_compute; reflexivity|].
  refine (proj1 (beaufort_never_perturbs_keyword example_build 100
    (example_config 5 true) 3 example_uninit example_uninit example_uninit
    0 false 7 7 rng_example
    (AtIteration 0 2) _ _ _ _ _)).
  - reflexivity.
  - apply (bool_decide_unpack _). vm_compute. exact I.
  - by repeat split.
  - vm_compute. reflexivity.
Defined.

(** * The flag that forces a keyword perturbation *)

(** C7 (amended): one step of the two loops.  The head of a restart, fresh
    or backtracked, leaves the flag raised, and with the flag raised the
    move is a keyword perturbation for every cipher type but Beaufort,
    without a call of [frand].  An iteration of a Quagmire I to IV run
    leaves in the flag the answer of its [constrain_cycleword] call on the
    perturbed candidate; an iteration of a Vigenere or Beaufort run leaves
    the flag as it was. *)
Theorem keyword_flag_transitions (b : build) (keyword_fuel : nat)
    (cfg : climber_config) (c c' : control) (s s' : climber) :
  climber_next b keyword_fuel cfg c s = Some (c', s') →
  match c with
  | AtRestart n =>
      if n <? cfg_n_restarts cfg then
        perturbate_keyword_p s' = true ∧
        ∀ g, choose_keyword_move b cfg (perturbate_keyword_p s') g
             = (negb (cfg_cipher_type cfg =? BEAUFORT b), g)
      else s' = s
  | AtIteration n i =>
      if i <? cfg_n_hill_climbs cfg then
        ∃ loc g,
          perturb_stage b cfg s = Some (loc, g) ∧
          if (cfg_cipher_type cfg =? VIGENERE b)
             || (cfg_cipher_type cfg =? BEAUFORT b)
          then perturbate_keyword_p s' = perturbate_keyword_p s
          else ∃ W,
            constrain_cycleword (INACTIVE b) (cfg_cipher_indices cfg)
              (cfg_cipher_len cfg) (cfg_crib_indices cfg)
              (cfg_crib_positions cfg) (cfg_n_cribs cfg)
              (plaintext_keyword_state loc) (ciphertext_keyword_state loc)
              (cycleword_state loc) (climber_cycleword_len b cfg)
              (cfg_variant cfg)
            = Some (perturbate_keyword_p s', W)
      else s' = s
  | AtReturn => s' = s
  end.
Proof.
  intros H. destruct c as [n|n i|]; cbn in H.
  - destruct (n <? cfg_n_restarts cfg); [|by injection H as <- <-].
    destruct (restart_begin _ _ _ _) as [t|] eqn:Ht; [|done].
    injection H as <- <-. apply restart_begin_flag in Ht. rewrite Ht.
    split; [done|]. intros g. unfold choose_keyword_move.
    by destruct (cfg_cipher_type cfg =? BEAUFORT b).
  - destruct (i <? cfg_n_hill_climbs cfg); [|by injection H as <- <-].
    destruct (hill_climb _ _ _ _) as [[j t]|] eqn:Ht; [|done].
    injection H as <- <-.
    apply hill_climb_stages in Ht
      as (loc & g & flag & n_contr & Hp & Hc & <- & _).
    exists loc, g. split; [done|]. unfold constrain_stage in Hc.
    destruct (cfg_cipher_type cfg =? VIGENERE b); cbn in Hc |- *;
      [congruence|].
    destruct (cfg_cipher_type cfg =? BEAUFORT b); cbn in Hc |- *;
      [congruence|].
    destruct (constrain_cycleword _ _ _ _ _ _ _ _ _ _ _) as [[[|] W]|];
      [| |done]; cbn in Hc; exists W; congruence.
  - by injection H as <- <-.
Qed.

Lemma keyword_flag_transitions_witness :
  ∃ s',
    climber_next example_build 100 (example_config 3 false) (AtRestart 0)
      example_entry = Some (AtIteration 0 0, s') ∧
    perturbate_keyword_p s' = true ∧
    ∀ g, choose_keyword_move example_build (example_config 3 false)
           (perturbate_keyword_p s') g = (true, g).
Proof.
  eexists. split; [vm_compute; reflexivity|].
  refine (keyword_flag_transitions example_build 100 (example_config 3 false)
            (AtRestart 0) (AtIteration 0 0) example_entry _ _).
  vm_compute. reflexivity.
Defined.

(** C7 as stated fails: a Quagmire III run whose keyword permutation
    probability is zero, at its first, fresh restart.  The restart leaves
    the flag raised; the first iteration takes the keyword move without
    consulting the generator, and its candidate has another plaintext
    keyword than the current state. *)
Lemma fresh_restart_raises_flag :
  (0 <? best_score example_entry)%float = false ∧
  cfg_cipher_type (example_config 3 false) ≠ VIGENERE example_build ∧
  cfg_keyword_permutation_probability (example_config 3 false) = 0%float ∧
  ∃ s1 i s2,
    restart_begin example_build 100 (example_config 3 false) example_entry
    = Some s1 ∧
    perturbate_keyword_p s1 = true ∧
    choose_keyword_move example_build (example_config 3 false)
      (perturbate_keyword_p s1) (cl_rng s1) = (true, cl_rng s1) ∧
    hill_climb example_build (example_config 3 false) 0 s1 = Some (i, s2) ∧
    plaintext_keyword_state (local_state s2)
    ≠ plaintext_keyword_state (current_state s1).
Proof.
  split; [reflexivity|]. split; [by vm_compute|]. split; [reflexivity|].
  eexists _, _, _. split; [vm_compute; reflexivity|].
  split; [reflexivity|]. split; [reflexivity|].
  split; [vm_compute; reflexivity|].
  vm_compute. intros [=].
Qed.

(* ===================================================================== *)
(** * More on the cipher transforms *)

Lemma posn_of_rd (key : list Z) (j x : Z) :
  NoDup key → rd key j = Some x → posn_of key x = j.
Proof.
  intros Hnd [Hj Hx]%rd_Some.
  rewrite (posn_of_lookup key (Z.to_nat j) x Hnd Hx). lia.
Qed.

Lemma rd_fmap_seqZ (f : Z → Z) (n k : Z) :
  0 ≤ k < n → rd (f <$> seqZ 0 n) k = Some (f k).
Proof.
  intros Hk. apply rd_Some. split; [lia|].
  rewrite list_lookup_fmap, lookup_seqZ_lt by lia. simpl. f_equal. f_equal. lia.
Qed.

(** The symbol that each transform puts at place [k], read off the
    keywords. *)
Lemma transforms_formula (P C W text : list Z) (cycleword_len : Z)
    (beaufort : bool) :
  keyword_perm P → keyword_perm C → cycleword_ok W cycleword_len →
  Forall in_alphabet text →
  (∃ out,
     quagmire_decrypt text (Z.of_nat (length text)) P C W cycleword_len beaufort
     = Some out ∧ length out = length text ∧
     ∀ k x w jx jw,
       rd text k = Some x → rd W (Z.rem k cycleword_len) = Some w →
       rd C jx = Some x → rd C jw = Some (atbash beaufort w) →
       rd out k = atbash beaufort <$> rd P ((jx - jw) mod 26)) ∧
  (∃ out,
     quagmire_encrypt text (Z.of_nat (length text)) P C W cycleword_len beaufort
     = Some out ∧ length out = length text ∧
     ∀ k x w jx jw,
       rd text k = Some x → rd W (Z.rem k cycleword_len) = Some w →
       rd P jx = Some x → rd C jw = Some (atbash beaufort w) →
       rd out k = atbash beaufort <$> rd C ((jx + jw) mod 26)).
Proof.
  intros HP HC HW Hall.
  pose proof (quagmire_decrypt_spec P C W cycleword_len beaufort HP HC HW text Hall)
    as Hdec.
  pose proof (quagmire_encrypt_spec P C W cycleword_len beaufort HP HC HW text Hall)
    as Henc.
  destruct HP as (HPlen & HPnd & HPall). destruct HC as (HClen & HCnd & HCall).
  assert (HP : keyword_perm P) by done. assert (HC : keyword_perm C) by done.
  split.
  - eexists. split; [exact Hdec|]. split; [by rewrite length_fmap, length_seqZ, Nat2Z.id|].
    intros k x w jx jw Hx Hw Hjx Hjw.
    assert (0 ≤ k < Z.of_nat (length text)) as Hk.
    { apply rd_Some in Hx as [? Hx]. apply lookup_lt_Some in Hx. lia. }
    rewrite rd_fmap_seqZ by done.
    unfold decrypt_symbol, cycle_symbol, at_. rewrite Hx, Hw. cbn [from_option id].
    rewrite (posn_of_rd C jx x HCnd Hjx), (posn_of_rd C jw _ HCnd Hjw).
    rewrite wrap_index_mod.
    destruct (keyword_perm_at P ((jx - jw) mod 26) HP) as (_ & -> & _);
      [apply Z.mod_pos_bound; lia|]. done.
  - eexists. split; [exact Henc|]. split; [by rewrite length_fmap, length_seqZ, Nat2Z.id|].
    intros k x w jx jw Hx Hw Hjx Hjw.
    assert (0 ≤ k < Z.of_nat (length text)) as Hk.
    { apply rd_Some in Hx as [? Hx]. apply lookup_lt_Some in Hx. lia. }
    rewrite rd_fmap_seqZ by done.
    unfold encrypt_symbol, cycle_symbol, at_. rewrite Hx, Hw. cbn [from_option id].
    rewrite (posn_of_rd P jx x HPnd Hjx), (posn_of_rd C jw _ HCnd Hjw).
    rewrite wrap_index_mod.
    destruct (keyword_perm_at C ((jx + jw) mod 26) HC) as (_ & -> & _);
      [apply Z.mod_pos_bound; lia|]. done.
Qed.

(** X1: for keyword permutations, a cycleword over the alphabet and a
    text over the alphabet, both transforms return a text of the same
    length, and symbol [k] of it is read off the keywords: with [jx] the
    place of the input symbol and [jw] the place of the (Atbash-ed)
    cycleword symbol [W[k % cycleword_len]] in the ciphertext keyword,
    [quagmire_decrypt] gives the plaintext keyword's symbol at
    [(jx - jw) mod 26]; with [jx] the place of the input symbol in the
    plaintext keyword, [quagmire_encrypt] gives the ciphertext keyword's
    symbol at [(jx + jw) mod 26]; under the Beaufort flag the symbol is
    Atbash-ed once more. *)
Theorem quagmire_transforms_formula (P C W text : list Z) (cycleword_len : Z)
    (beaufort : bool) :
  keyword_perm P → keyword_perm C → cycleword_ok W cycleword_len →
  Forall in_alphabet text →
  (∃ out,
     quagmire_decrypt text (Z.of_nat (length text)) P C W cycleword_len beaufort
     = Some out ∧ length out = length text ∧
     ∀ k x w jx jw,
       rd text k = Some x → rd W (Z.rem k cycleword_len) = Some w →
       rd C jx = Some x → rd C jw = Some (atbash beaufort w) →
       rd out k = atbash beaufort <$> rd P ((jx - jw) mod 26)) ∧
  (∃ out,
     quagmire_encrypt text (Z.of_nat (length text)) P C W cycleword_len beaufort
     = Some out ∧ length out = length text ∧
     ∀ k x w jx jw,
       rd text k = Some x → rd W (Z.rem k cycleword_len) = Some w →
       rd P jx = Some x → rd C jw = Some (atbash beaufort w) →
       rd out k = atbash beaufort <$> rd C ((jx + jw) mod 26)).
Proof. apply transforms_formula. Qed.

Lemma quagmire_transforms_formula_witness :
  ∃ out,
    quagmire_decrypt [7;4;11;11;14] 5 kryptos_alphabet kryptos_alphabet
      [10;14;12] 3 false = Some out ∧ length out = 5%nat.
Proof.
  destruct (proj1 (quagmire_transforms_formula kryptos_alphabet kryptos_alphabet
    [10;14;12] [7;4;11;11;14] 3 false kryptos_alphabet_perm kryptos_alphabet_perm
    ltac:(apply (bool_decide_unpack _); vm_compute; exact I)
    ltac:(apply (bool_decide_unpack _); vm_compute; exact I)))
    as (out & Hout & Hlen & _).
  by exists out.
Defined.

(** ** Beaufort on the straight alphabets *)

Lemma straight_rd (i : Z) :
  0 ≤ i < 26 → rd (straight_alphabet 26) i = Some i.
Proof.
  intros Hi. apply rd_Some. split; [lia|]. unfold straight_alphabet.
  rewrite lookup_seqZ_lt by lia. f_equal. lia.
Qed.

Lemma straight_at (i : Z) : 0 ≤ i < 26 → at_ (straight_alphabet 26) i = i.
Proof. intros Hi. unfold at_. by rewrite straight_rd. Qed.

Lemma straight_posn (x : Z) :
  in_alphabet x → posn_of (straight_alphabet 26) x = x.
Proof.
  intros Hx. apply posn_of_rd; [apply NoDup_seqZ|]. by apply straight_rd.
Qed.

Section beaufort_straight.
Context (W : list Z) (cycleword_len : Z).
Context (HW : cycleword_ok W cycleword_len).

(** Encryption is [w - x], decryption [-x - w - 2], modulo 26. *)
Lemma beaufort_encrypt_symbol (i x : Z) :
  0 ≤ i → in_alphabet x →
  encrypt_symbol (straight_alphabet 26) (straight_alphabet 26) W cycleword_len
    true i x
  = (at_ W (Z.rem i cycleword_len) - x) mod 26.
Proof using HW.
  intros Hi Hx. unfold encrypt_symbol.
  destruct (cycle_symbol_ok W cycleword_len true i HW Hi) as (_ & _ & Hc).
  rewrite (straight_posn x Hx), (straight_posn _ Hc), wrap_index_mod.
  rewrite straight_at by (apply Z.mod_pos_bound; lia).
  unfold cycle_symbol, atbash, ALPHABET_SIZE in *.
  unfold in_alphabet, ALPHABET_SIZE in Hx, Hc.
  set (w := at_ W (i `rem` cycleword_len)) in *.
  Z.div_mod_to_equations. lia.
Qed.

Lemma beaufort_decrypt_symbol (i x : Z) :
  0 ≤ i → in_alphabet x →
  decrypt_symbol (straight_alphabet 26) (straight_alphabet 26) W cycleword_len
    true i x
  = (- x - at_ W (Z.rem i cycleword_len) - 2) mod 26.
Proof using HW.
  intros Hi Hx. unfold decrypt_symbol.
  destruct (cycle_symbol_ok W cycleword_len true i HW Hi) as (_ & _ & Hc).
  rewrite (straight_posn x Hx), (straight_posn _ Hc), wrap_index_mod.
  rewrite straight_at by (apply Z.mod_pos_bound; lia).
  unfold cycle_symbol, atbash, ALPHABET_SIZE in *.
  unfold in_alphabet, ALPHABET_SIZE in Hx, Hc.
  set (w := at_ W (i `rem` cycleword_len)) in *.
  Z.div_mod_to_equations. lia.
Qed.

Lemma beaufort_encrypt_twice (i x : Z) :
  0 ≤ i → in_alphabet x →
  encrypt_symbol (straight_alphabet 26) (straight_alphabet 26) W cycleword_len
    true i
    (encrypt_symbol (straight_alphabet 26) (straight_alphabet 26) W
       cycleword_len true i x) = x.
Proof using HW.
  intros Hi Hx.
  rewrite (beaufort_encrypt_symbol i x Hi Hx).
  rewrite beaufort_encrypt_symbol;
    [|done|unfold in_alphabet, ALPHABET_SIZE; apply Z.mod_pos_bound; lia].
  unfold in_alphabet, ALPHABET_SIZE in Hx.
  Z.div_mod_to_equations. lia.
Qed.

Lemma beaufort_decrypt_twice (i x : Z) :
  0 ≤ i → in_alphabet x →
  decrypt_symbol (straight_alphabet 26) (straight_alphabet 26) W cycleword_len
    true i
    (decrypt_symbol (straight_alphabet 26) (straight_alphabet 26) W
       cycleword_len true i x) = x.
Proof using HW.
  intros Hi Hx.
  rewrite (beaufort_decrypt_symbol i x Hi Hx).
  rewrite beaufort_decrypt_symbol;
    [|done|unfold in_alphabet, ALPHABET_SIZE; apply Z.mod_pos_bound; lia].
  unfold in_alphabet, ALPHABET_SIZE in Hx.
  Z.div_mod_to_equations. lia.
Qed.
End beaufort_straight.

Lemma transform_twice (f : Z → Z → Z) (text : list Z)
    (xform : list Z → Z → option (list Z)) :
  (∀ t, Forall in_alphabet t →
     xform t (Z.of_nat (length t))
     = Some ((λ k, f k (at_ t k)) <$> seqZ 0 (Z.of_nat (length t)))) →
  (∀ k x, in_alphabet (f k x)) →
  (∀ k x, 0 ≤ k → in_alphabet x → f k (f k x) = x) →
  Forall in_alphabet text →
  ∃ E, xform text (Z.of_nat (length text)) = Some E ∧
       length E = length text ∧
       (∀ k, 0 ≤ k < Z.of_nat (length text) → rd E k = Some (f k (at_ text k))) ∧
       xform E (Z.of_nat (length text)) = Some text.
Proof.
  intros Hspec Hrange Htwice Hall. eexists. split; [by apply Hspec|].
  set (E := _ <$> seqZ 0 _).
  assert (length E = length text) as HlenE by apply tabulate_length.
  split; [done|].
  split; [intros k Hk; by apply (rd_fmap_seqZ (λ k, f k (at_ text k)))|].
  rewrite <- HlenE at 1. rewrite Hspec.
  - f_equal. rewrite HlenE. apply tabulate_ext. intros k Hk.
    unfold E. rewrite tabulate_at by done. apply Htwice; [lia|].
    by apply rd_text.
  - apply tabulate_Forall. intros k. apply Hrange.
Qed.

(** X2: Beaufort as the solver runs it, on the straight alphabets with
    the flag on.  [quagmire_encrypt] maps the symbol [x] under the cycleword
    symbol [w] to [(w - x) mod 26] and [quagmire_decrypt] maps it to
    [(-x - w - 2) mod 26]; each transform, applied twice under the same
    cycleword, gives the text back. *)
Theorem beaufort_straight_involutions (W text : list Z) (cycleword_len : Z) :
  cycleword_ok W cycleword_len → Forall in_alphabet text →
  (∃ E,
     quagmire_encrypt text (Z.of_nat (length text)) (straight_alphabet 26)
       (straight_alphabet 26) W cycleword_len true = Some E ∧
     length E = length text ∧
     (∀ k x w, rd text k = Some x → rd W (Z.rem k cycleword_len) = Some w →
               rd E k = Some ((w - x) mod 26)) ∧
     quagmire_encrypt E (Z.of_nat (length text)) (straight_alphabet 26)
       (straight_alphabet 26) W cycleword_len true = Some text) ∧
  (∃ D,
     quagmire_decrypt text (Z.of_nat (length text)) (straight_alphabet 26)
       (straight_alphabet 26) W cycleword_len true = Some D ∧
     length D = length text ∧
     (∀ k x w, rd text k = Some x → rd W (Z.rem k cycleword_len) = Some w →
               rd D k = Some ((- x - w - 2) mod 26)) ∧
     quagmire_decrypt D (Z.of_nat (length text)) (straight_alphabet 26)
       (straight_alphabet 26) W cycleword_len true = Some text).
Proof.
  intros HW Hall. split.
  - destruct (transform_twice
      (encrypt_symbol (straight_alphabet 26) (straight_alphabet 26) W
         cycleword_len true) text
      (λ t n, quagmire_encrypt t n (straight_alphabet 26) (straight_alphabet 26)
                W cycleword_len true))
      as (E & HE & Hlen & Hsym & Hback); [| | |done|].
    + intros t Ht. by apply quagmire_encrypt_spec; [apply straight_alphabet_perm..| |].
    + intros k x. apply encrypt_symbol_alphabet, straight_alphabet_perm.
    + intros k x Hk Hx. by apply beaufort_encrypt_twice.
    + exists E. split_and!; [done|done| |done].
      intros k x w Hx Hw.
      assert (0 ≤ k < Z.of_nat (length text)) as Hk.
      { apply rd_Some in Hx as [? Hx]. apply lookup_lt_Some in Hx. lia. }
      rewrite (Hsym k Hk). f_equal.
      destruct (rd_text text k Hall Hk) as [Hrd Hin].
      rewrite beaufort_encrypt_symbol; [|done|lia|done].
      unfold at_. by rewrite Hx, Hw.
  - destruct (transform_twice
      (decrypt_symbol (straight_alphabet 26) (straight_alphabet 26) W
         cycleword_len true) text
      (λ t n, quagmire_decrypt t n (straight_alphabet 26) (straight_alphabet 26)
                W cycleword_len true))
      as (D & HD & Hlen & Hsym & Hback); [| | |done|].
    + intros t Ht. by apply quagmire_decrypt_spec; [apply straight_alphabet_perm..| |].
    + intros k x. apply decrypt_symbol_alphabet, straight_alphabet_perm.
    + intros k x Hk Hx. by apply beaufort_decrypt_twice.
    + exists D. split_and!; [done|done| |done].
      intros k x w Hx Hw.
      assert (0 ≤ k < Z.of_nat (length text)) as Hk.
      { apply rd_Some in Hx as [? Hx]. apply lookup_lt_Some in Hx. lia. }
      rewrite (Hsym k Hk). f_equal.
      destruct (rd_text text k Hall Hk) as [Hrd Hin].
      rewrite beaufort_decrypt_symbol; [|done|lia|done].
      unfold at_. by rewrite Hx, Hw.
Qed.

Lemma beaufort_straight_involutions_witness :
  ∃ E,
    quagmire_encrypt [7;4;11;11;14] 5 (straight_alphabet 26)
      (straight_alphabet 26) [10;14;12] 3 true = Some E ∧
    quagmire_encrypt E 5 (straight_alphabet 26)
      (straight_alphabet 26) [10;14;12] 3 true = Some [7;4;11;11;14].
Proof.
  destruct (proj1 (beaufort_straight_involutions [10;14;12] [7;4;11;11;14] 3
    ltac:(apply (bool_decide_unpack _); vm_compute; exact I)
    ltac:(apply (bool_decide_unpack _); vm_compute; exact I)))
    as (E & HE & _ & _ & Hback).
  by exists E.
Defined.

(** X3: on the straight alphabets with the flag off the transforms are the
    Vigenere tableau: [quagmire_encrypt] maps the symbol [x] under the
    cycleword symbol [w] to [(x + w) mod 26], [quagmire_decrypt] maps it to
    [(x - w) mod 26]. *)
Theorem straight_alphabets_vigenere (W text : list Z) (cycleword_len : Z) :
  cycleword_ok W cycleword_len → Forall in_alphabet text →
  (∃ E,
     quagmire_encrypt text (Z.of_nat (length text)) (straight_alphabet 26)
       (straight_alphabet 26) W cycleword_len false = Some E ∧
     length E = length text ∧
     ∀ k x w, rd text k = Some x → rd W (Z.rem k cycleword_len) = Some w →
              rd E k = Some ((x + w) mod 26)) ∧
  (∃ D,
     quagmire_decrypt text (Z.of_nat (length text)) (straight_alphabet 26)
       (straight_alphabet 26) W cycleword_len false = Some D ∧
     length D = length text ∧
     ∀ k x w, rd text k = Some x → rd W (Z.rem k cycleword_len) = Some w →
              rd D k = Some ((x - w) mod 26)).
Proof.
  intros HW Hall.
  destruct (transforms_formula (straight_alphabet 26)
    (straight_alphabet 26) W text cycleword_len false straight_alphabet_perm
    straight_alphabet_perm HW Hall)
    as [(D & HD & HlenD & HsymD) (E & HE & HlenE & HsymE)].
  assert (∀ k x w, rd text k = Some x → rd W (Z.rem k cycleword_len) = Some w →
                   in_alphabet x ∧ in_alphabet w) as Hin.
  { intros k x w Hx Hw.
    assert (0 ≤ k < Z.of_nat (length text)) as Hk.
    { apply rd_Some in Hx as [? Hx']. apply lookup_lt_Some in Hx'. lia. }
    destruct (rd_text text k Hall Hk) as [Hrd Hxin].
    destruct (cycle_symbol_ok W cycleword_len false k HW) as (_ & Hrw & Hwin);
      [lia|].
    unfold cycle_symbol, atbash in Hwin. unfold at_ in Hxin, Hwin.
    rewrite Hx in Hxin. rewrite Hw in Hwin. done. }
  split.
  - exists E. split_and!; [done|done|]. intros k x w Hx Hw.
    destruct (Hin k x w Hx Hw) as [Hxin Hwin].
    rewrite (HsymE k x w x w Hx Hw); [| by apply straight_rd..].
    rewrite straight_rd by (apply Z.mod_pos_bound; lia). done.
  - exists D. split_and!; [done|done|]. intros k x w Hx Hw.
    destruct (Hin k x w Hx Hw) as [Hxin Hwin].
    rewrite (HsymD k x w x w Hx Hw); [| by apply straight_rd..].
    rewrite straight_rd by (apply Z.mod_pos_bound; lia). done.
Qed.

Lemma straight_alphabets_vigenere_witness :
  ∃ E,
    quagmire_encrypt [7;4;11;11;14] 5 (straight_alphabet 26)
      (straight_alphabet 26) [10;14;12] 3 false = Some E ∧
    length E = 5%nat.
Proof.
  destruct (proj1 (straight_alphabets_vigenere [10;14;12] [7;4;11;11;14] 3
    ltac:(apply (bool_decide_unpack _); vm_compute; exact I)
    ltac:(apply (bool_decide_unpack _); vm_compute; exact I)))
    as (E & HE & Hlen & _).
  by exists E.
Defined.

(** X4: a cycleword length of zero is a remainder by zero: on a text of
    one symbol or more neither transform has a defined result, whatever the
    keywords and the cycleword. *)
Theorem zero_cycleword_len_undefined (text P C W : list Z) (cipher_len : Z)
    (beaufort : bool) :
  1 ≤ cipher_len →
  quagmire_decrypt text cipher_len P C W 0 beaufort = None ∧
  quagmire_encrypt text cipher_len P C W 0 beaufort = None.
Proof.
  intros Hlen.
  assert (∀ posn, find_cycleword C W 0 beaufort 0 posn = None) as Hfind.
  { intros posn. reflexivity. }
  unfold quagmire_decrypt, quagmire_encrypt, for_range.
  destruct (Z.to_nat (cipher_len - 0)) as [|n] eqn:Hn; [lia|].
  cbn [for_loop]. unfold quagmire_decrypt_step, quagmire_encrypt_step.
  rewrite !Hfind. cbn [posn_keyword posn_cycleword].
  split.
  - by destruct (decrypt_find_keyword text C 0 None).
  - by destruct (encrypt_find_keyword text P 0 None).
Qed.

Lemma zero_cycleword_len_undefined_witness :
  quagmire_decrypt [0] 1 (straight_alphabet 26) (straight_alphabet 26) [0] 0
    false = None.
Proof.
  exact (proj1 (zero_cycleword_len_undefined [0] (straight_alphabet 26)
    (straight_alphabet 26) [0] 1 false ltac:(lia))).
Defined.

(* ===================================================================== *)
(** * The random draws *)

(** The generator after [n] calls of [rand()]. *)
Lemma rand_int_draw (min max : Z) (g : rng) (v : Z) (g' : rng) :
  rand_int min max g = Some (v, g') →
  max ≠ min ∧ v = min + Z.rem (g O) (max - min) ∧ g' = (λ n, g (S n)).
Proof.
  unfold rand_int, rand. destruct (Z.eqb_spec (max - min) 0); [done|].
  intros [= <- <-]. split_and!; [lia|done|done].
Qed.

Lemma rand_int_in_range (RAND_MAX : Z) (min max : Z) (g : rng) :
  rng_ok RAND_MAX g → min < max →
  ∃ v, rand_int min max g = Some (v, λ n, g (S n)) ∧ min ≤ v < max.
Proof.
  intros Hg Hlt.
  destruct (rand_int_ok RAND_MAX min max g Hg Hlt) as (v & g' & Hv & Hr & _).
  exists v. split; [|done].
  by destruct (rand_int_draw _ _ _ _ _ Hv) as (_ & _ & ->).
Qed.

(** X5: [rand_int(min, max)] with [min < max] answers a value in
    [[min, max)] and uses one result of [rand()]; with [min = max] it
    takes a remainder by zero. *)
Theorem rand_int_range (RAND_MAX : Z) (min max : Z) (g : rng) :
  rng_ok RAND_MAX g →
  (min < max →
   ∃ v, rand_int min max g = Some (v, λ n, g (S n)) ∧ min ≤ v < max) ∧
  (min = max → rand_int min max g = None).
Proof.
  intros Hg. split.
  - intros Hlt.
    destruct (rand_int_ok RAND_MAX min max g Hg Hlt) as (v & g' & Hv & Hr & _).
    exists v. split; [|done].
    by destruct (rand_int_draw _ _ _ _ _ Hv) as (_ & _ & ->).
  - intros ->. unfold rand_int. by rewrite Z.sub_diag.
Qed.

Lemma rand_int_range_witness :
  ∃ v, rand_int 0 26 rng_example = Some (v, λ n, rng_example (S n)) ∧
       0 ≤ v < 26.
Proof.
  apply (proj1 (rand_int_range 32767 0 26 rng_example rng_example_ok)). lia.
Defined.

(** X6: [perturbate_cycleword] on a cycleword of [len >= 1] entries with
    [max >= 1] replaces one entry, at an index below [len], by a value in
    [[0, max)], and leaves every other entry as it was; it uses two results
    of [rand()].  With [len = 0] or [max = 0] it takes a remainder by
    zero. *)
Theorem perturbate_cycleword_one_entry (RAND_MAX : Z) (state : list Z)
    (max len : Z) (g : rng) :
  rng_ok RAND_MAX g →
  (1 ≤ len ≤ Z.of_nat (length state) → 1 ≤ max →
   ∃ (i : nat) (v : Z),
     perturbate_cycleword state max len g
     = Some (<[i := v]> state, λ n, g (S (S n))) ∧
     (Z.of_nat i < len) ∧ 0 ≤ v < max) ∧
  (len = 0 ∨ max = 0 → perturbate_cycleword state max len g = None).
Proof.
  intros Hg. unfold perturbate_cycleword. split.
  - intros Hlen Hmax.
    destruct (rand_int_in_range RAND_MAX 0 len g Hg) as (i & -> & Hi); [lia|].
    cbn [mbind option_bind].
    assert (rng_ok RAND_MAX (λ n, g (S n))) as Hg' by (intros n; apply Hg).
    destruct (rand_int_in_range RAND_MAX 0 max _ Hg') as (v & -> & Hv); [lia|].
    cbn [mbind option_bind]. unfold wr.
    rewrite bool_decide_eq_true_2 by lia. cbn [mbind option_bind].
    exists (Z.to_nat i), v. split; [done|lia].
  - intros [-> | ->].
    + done.
    + by destruct (rand_int 0 len g) as [[i g1]|].
Qed.

Lemma perturbate_cycleword_one_entry_witness :
  ∃ (i : nat) (v : Z),
    perturbate_cycleword [10;14;12] 26 3 rng_example
    = Some (<[i := v]> [10;14;12], λ n, rng_example (S (S n))) ∧
    (Z.of_nat i < 3) ∧ 0 ≤ v < 26.
Proof.
  apply (proj1 (perturbate_cycleword_one_entry 32767 [10;14;12] 26 3 rng_example
                  rng_example_ok)); [simpl|]; lia.
Defined.

(** X7: [random_cycleword] on an array of at least [keyword_len] entries,
    with [max >= 1], returns: entry [i] below [keyword_len] becomes
    [rand() % max] of the [i]-th call, a value in [[0, max)]; the entries
    from [keyword_len] on are left alone; [keyword_len] results of
    [rand()] are used. *)
Theorem random_cycleword_spec (RAND_MAX : Z) (cycleword : list Z)
    (max : Z) (len : nat) (g : rng) :
  rng_ok RAND_MAX g → (len ≤ length cycleword)%nat → 1 ≤ max →
  ∃ g',
    random_cycleword cycleword max (Z.of_nat len) g
    = Some (((λ i, Z.rem (g i) max) <$> seq 0 len) ++ drop len cycleword, g') ∧
    (∀ n, g' n = g (len + n)%nat) ∧
    Forall (λ v, 0 ≤ v < max) ((λ i, Z.rem (g i) max) <$> seq 0 len).
Proof.
  intros Hg Hlen Hmax.
  unfold random_cycleword, for_range. rewrite Z.sub_0_r, Nat2Z.id.
  match goal with
  | |- context [for_loop ?n ?lo ?body ?s] =>
      destruct (for_loop_inv
        (λ i '(cw, g'), ∃ k : nat, i = Z.of_nat k ∧ (k ≤ len)%nat ∧
           cw = ((λ i, Z.rem (g i) max) <$> seq 0 k) ++ drop k cycleword ∧
           ∀ n, g' n = g (k + n)%nat)
        body n lo s) as ([cw g'] & Hrun & k & Hk & _ & -> & Hg')
  end.
  - exists O. split_and!; [done|lia|by rewrite drop_0|done].
  - intros i [cw g1] Hi (k & -> & Hkl & -> & Hg1).
    assert (k < len)%nat as Hlt by lia.
    unfold rand_int, rand. rewrite (proj2 (Z.eqb_neq _ _)) by lia.
    cbn [mbind option_bind]. unfold wr.
    rewrite bool_decide_eq_true_2.
    2:{ rewrite length_app, length_fmap, length_seq, length_drop. lia. }
    cbn [mbind option_bind]. eexists. split; [reflexivity|].
    exists (S k). split_and!; [lia|lia| |intros n; rewrite Hg1; f_equal; lia].
    rewrite Nat2Z.id, Z.add_0_l, Z.sub_0_r, Hg1, Nat.add_0_r.
    rewrite seq_S, fmap_app. cbn [fmap list_fmap Nat.add].
    rewrite <- (assoc_L (++)). cbn [app].
    destruct (lookup_lt_is_Some_2 cycleword k) as [x Hx]; [lia|].
    rewrite (drop_S cycleword x k Hx).
    rewrite insert_app_r_alt by (rewrite length_fmap, length_seq; lia).
    by rewrite length_fmap, length_seq, Nat.sub_diag.
  - exists g'. split_and!.
    + assert (k = len) as -> by lia. exact Hrun.
    + assert (k = len) as -> by lia. done.
    + apply Forall_fmap, Forall_forall. intros i _. simpl.
      pose proof (Z.rem_bound_pos (g i) max (proj1 (Hg i)) ltac:(lia)). lia.
Qed.

Lemma random_cycleword_spec_witness :
  ∃ g',
    random_cycleword [0;0;0;0] 26 3 rng_example
    = Some (((λ i, Z.rem (rng_example i) 26) <$> seq 0 3) ++ drop 3 [0;0;0;0], g').
Proof.
  destruct (random_cycleword_spec 32767 [0;0;0;0] 26 3 rng_example
              rng_example_ok ltac:(simpl; lia) ltac:(lia)) as (g' & Hg' & _).
  by exists g'.
Defined.

(** X8: [rand_int_frequency_weighted] over a range [[min_index,
    max_index)] of one index or more, whose symbols have a monogram
    frequency, answers an index of the range; over an empty range it
    answers [max_index - 1], an index below the range. *)
Theorem rand_int_frequency_weighted_range (RAND_MAX : Z)
    (english_monograms : list double) (state : list Z)
    (min_index max_index : Z) (g : rng) :
  rng_ok RAND_MAX g →
  (min_index < max_index →
   (∀ i, min_index ≤ i < max_index →
      ∃ s m, rd state i = Some s ∧ monogram english_monograms s = Some m) →
   ∃ v g', rand_int_frequency_weighted RAND_MAX english_monograms state
             min_index max_index g = Some (v, g') ∧
           min_index ≤ v < max_index) ∧
  (max_index ≤ min_index →
   rand_int_frequency_weighted RAND_MAX english_monograms state
     min_index max_index g = Some (max_index - 1, λ n, g (S n))).
Proof.
  intros Hg. split.
  - intros Hlt Hrd.
    destruct (rand_int_frequency_weighted_ok RAND_MAX english_monograms state
                min_index max_index g Hg Hlt Hrd) as (v & g' & Hv & Hr & _).
    by exists v, g'.
  - intros Hle. unfold rand_int_frequency_weighted, for_range.
    replace (Z.to_nat (max_index - min_index)) with O by lia.
    reflexivity.
Qed.

Lemma rand_int_frequency_weighted_range_witness :
  ∃ v g', rand_int_frequency_weighted 32767 (replicate 26 1%float)
            kryptos_alphabet 0 7 rng_example = Some (v, g') ∧
          0 ≤ v < 7.
Proof.
  apply (proj1 (rand_int_frequency_weighted_range 32767 (replicate 26 1%float)
                  kryptos_alphabet 0 7 rng_example rng_example_ok)); [lia|].
  intros i Hi.
  assert (i = 0 ∨ i = 1 ∨ i = 2 ∨ i = 3 ∨ i = 4 ∨ i = 5 ∨ i = 6) as Hcases
    by lia.
  destruct Hcases as [->|[->|[->|[->|[->|[->| ->]]]]]];
    eexists _, _; split; reflexivity.
Defined.

(** * [tally] *)


Lemma occurrences_snoc (s x : Z) (text : list Z) :
  occurrences s (text ++ [x])
  = occurrences s text + (if decide (x = s) then 1 else 0).
Proof.
  unfold occurrences. rewrite filter_app, length_app.
  rewrite filter_cons, filter_nil. destruct (decide (x = s)); simpl; lia.
Qed.

(** X9: [tally] over the first [len] symbols of a text is defined exactly
    when each of them is an index of the frequency array, that is in
    [[0, n_frequencies)]; any other symbol is a write outside the array.
    When defined, entry [s] of the result is the number of times that [s]
    stands among these symbols. *)
Theorem tally_counts (text : list Z) (len n : nat) :
  (len ≤ length text)%nat →
  (is_Some (tally text (Z.of_nat len) (Z.of_nat n))
   ↔ Forall (λ s, 0 ≤ s < Z.of_nat n) (take len text)) ∧
  (∀ fr, tally text (Z.of_nat len) (Z.of_nat n) = Some fr →
         length fr = n ∧
         ∀ s, 0 ≤ s < Z.of_nat n →
              rd fr s = Some (occurrences s (take len text))).
Proof.
  intros Hlen. unfold tally, for_range. rewrite Z.sub_0_r, !Nat2Z.id.
  set (body := λ (i : Z) (frequencies : list Z),
         s ← rd text i; f ← rd frequencies s;
         frequencies ← wr frequencies s (f + 1); Some (Next frequencies)).
  set (I := λ (i : Z) (fr : list Z), ∃ k : nat, i = Z.of_nat k ∧ (k ≤ len)%nat ∧
         length fr = n ∧
         Forall (λ s, 0 ≤ s < Z.of_nat n) (take k text) ∧
         ∀ s, 0 ≤ s < Z.of_nat n → rd fr s = Some (occurrences s (take k text))).
  assert (I 0 (replicate n 0)) as HI0.
  { exists O. split_and!; [done|lia|by rewrite length_replicate|by rewrite take_0|].
    intros s Hs. rewrite take_0. apply rd_Some. split; [lia|].
    apply lookup_replicate_2. lia. }
  assert (∀ i fr r, 0 ≤ i < 0 + Z.of_nat len → I i fr → body i fr = Some r →
            match r with Next fr' => I (i + 1) fr' | Break _ => False end)
    as Hstep.
  { intros i fr r Hi (k & -> & Hk & Hfr & Hall & Hcount) Hb. unfold body in Hb.
    destruct (rd text (Z.of_nat k)) as [s|] eqn:Hs; [|done].
    cbn [mbind option_bind] in Hb.
    destruct (rd fr s) as [f|] eqn:Hf; [|done]. cbn [mbind option_bind] in Hb.
    destruct (wr fr s (f + 1)) as [fr'|] eqn:Hw; [|done].
    cbn [mbind option_bind] in Hb. injection Hb as <-.
    rewrite rd_of_nat in Hs. apply wr_Some in Hw as (Hs0 & Hslt & ->).
    exists (S k). rewrite (take_S_r text k s Hs).
    split_and!; [lia|lia|by rewrite length_insert| |].
    - apply Forall_app. split; [done|]. apply Forall_singleton. lia.
    - intros s' Hs'. rewrite occurrences_snoc. apply rd_Some. split; [lia|].
      destruct (decide (s = s')) as [->|Hne].
      + rewrite list_lookup_insert_eq by lia. f_equal.
        rewrite (Hcount s') in Hf by lia. injection Hf as <-. lia.
      + rewrite list_lookup_insert_ne by lia.
        specialize (Hcount s' Hs'). apply rd_Some in Hcount as [_ ->].
        f_equal. lia. }
  split; [split|].
  - intros [fr Hfr].
    destruct (for_loop_partial I (λ _, False) body len 0 (replicate n 0) fr Hfr HI0)
      as [(k & Hk & _ & _ & Hall & _)|[]].
    + intros i t r Hi Ht Hb. specialize (Hstep i t r Hi Ht Hb). by destruct r.
    + by replace k with len in Hall by lia.
  - intros Hall.
    destruct (for_loop_inv I body len 0 (replicate n 0) HI0) as (fr & -> & _);
      [|done].
    intros i fr Hi HIi. pose proof HIi as (k & -> & Hk & Hfr & _ & Hcount).
    assert (k < len)%nat as Hlt by lia.
    destruct (lookup_lt_is_Some_2 text k) as [s Hs]; [lia|].
    assert (0 ≤ s < Z.of_nat n) as Hsn.
    { rewrite Forall_forall in Hall. apply Hall.
      apply list_elem_of_lookup. exists k. by rewrite lookup_take_lt. }
    assert (∃ r, body (Z.of_nat k) fr = Some r) as [r Hr].
    { unfold body. rewrite rd_of_nat, Hs. cbn [mbind option_bind].
      rewrite (Hcount s Hsn). cbn [mbind option_bind]. unfold wr.
      rewrite bool_decide_eq_true_2 by lia. by eexists. }
    pose proof (Hstep _ _ _ Hi HIi Hr) as Hnext.
    destruct r as [fr'|]; [|done]. by exists fr'.
  - intros fr Hfr.
    destruct (for_loop_partial I (λ _, False) body len 0 (replicate n 0) fr Hfr HI0)
      as [(k & Hk & _ & Hlenfr & _ & Hcount)|[]].
    + intros i t r Hi Ht Hb. specialize (Hstep i t r Hi Ht Hb). by destruct r.
    + by replace k with len in Hcount by lia.
Qed.

Lemma tally_counts_witness :
  is_Some (tally [7;4;11;11;14] 5 26)
  ↔ Forall (λ s, 0 ≤ s < 26) (take 5 [7;4;11;11;14]).
Proof.
  exact (proj1 (tally_counts [7;4;11;11;14] 5 26 ltac:(simpl; lia))).
Defined.

(* ===================================================================== *)
(** * The argument loop of [main] *)

Section command_line_facts.
Context (atoi : string → Z) (atof : string → double).

Lemma parse_args_app_aux (n : nat) :
  ∀ (a b : list string) (c c1 : main_locals),
    (length a ≤ n)%nat →
    parse_args atoi atof a c = Some (Parsed c1) →
    parse_args atoi atof (a ++ b) c = parse_args atoi atof b c1.
Proof.
  induction n as [|n IH]; intros a b c c1 Hn Ha.
  - destruct a; [|simpl in Hn; lia]. simpl in *. congruence.
  - destruct a as [|arg rest]; [simpl in *; congruence|].
    simpl in Ha |- *. destruct (arg_action_of atoi atof arg) as [f|f|].
    + destruct rest as [|v rest']; [done|]. simpl.
      destruct (f v c) as [c'|]; [|done].
      apply IH; [simpl in Hn; lia|done].
    + apply IH; [simpl in Hn; lia|done].
    + done.
Qed.

(** What every branch of the chain keeps is kept by the whole loop. *)
Lemma parse_args_inv (I : main_locals → Prop) :
  (∀ arg f v c c', arg_action_of atoi atof arg = WithValue f →
                   f v c = Some c' → I c → I c') →
  (∀ arg f c, arg_action_of atoi atof arg = NoValue f → I c → I (f c)) →
  ∀ (n : nat) (args : list string) (c c' : main_locals),
    (length args ≤ n)%nat → I c →
    parse_args atoi atof args c = Some (Parsed c') → I c'.
Proof.
  intros Hv Hn n. induction n as [|n IH]; intros args c c' Hlen HI Hp.
  - destruct args; [|simpl in Hlen; lia]. simpl in Hp. congruence.
  - destruct args as [|arg rest]; [simpl in Hp; congruence|].
    simpl in Hp. destruct (arg_action_of atoi atof arg) as [f|f|] eqn:Ha.
    + destruct rest as [|v rest']; [done|].
      destruct (f v c) as [c1|] eqn:Hf; [|done].
      apply (IH rest' c1 c'); [simpl in Hlen; lia| |done]. by eapply Hv.
    + apply (IH rest (f c) c'); [simpl in Hlen; lia| |done]. by eapply Hn.
    + done.
Qed.
End command_line_facts.

(** Splits the chain of [arg_action_of] into its branches. *)
Ltac arg_branches H :=
  unfold arg_action_of in H;
  repeat match type of H with
         | (if ?b then _ else _) = _ => destruct b
         end;
  try discriminate H; injection H as <-.

(** X10: the argument loop composes: when a first run of arguments is read
    to its end, reading it followed by further arguments is reading the
    further arguments from the locals that the first run leaves. *)
Theorem parse_args_app (atoi : string → Z) (atof : string → double)
    (a b : list string) (c c1 : main_locals) :
  parse_args atoi atof a c = Some (Parsed c1) →
  parse_args atoi atof (a ++ b) c = parse_args atoi atof b c1.
Proof. intros Ha. by apply (parse_args_app_aux atoi atof (length a)). Qed.

Lemma parse_args_app_witness :
  parse_args (λ _, 7) (λ _, 1%float)
    (["-type"%string; "4"%string; "-verbose"%string]
       ++ ["-nrestarts"%string; "9"%string]) main_init
  = parse_args (λ _, 7) (λ _, 1%float) ["-nrestarts"; "9"]%string
      (on_flags (set_verbose true) (on_ints (set_cipher_type 7) main_init)).
Proof.
  exact (parse_args_app (λ _, 7) (λ _, 1%float)
           ["-type"; "4"; "-verbose"]%string ["-nrestarts"; "9"]%string
           main_init _ eq_refl).
Defined.

(** X11: no command line changes [keyword_permutation_probability], and
    none lowers [plaintext_max_keyword_len] or [ciphertext_max_keyword_len]:
    after the loop the first is what it was and the two maxima are at least
    what they were, so from the initialisers of [main] the probability is
    0.01 and both maxima are at least 12 ([-maxkeywordlen] assigns the
    keyword lengths, not the maxima). *)
Theorem parse_args_never_assigns (atoi : string → Z) (atof : string → double)
    (args : list string) (c c' : main_locals) :
  parse_args atoi atof args c = Some (Parsed c') →
  keyword_permutation_probability (probs c')
  = keyword_permutation_probability (probs c) ∧
  plaintext_max_keyword_len (ints c) ≤ plaintext_max_keyword_len (ints c') ∧
  ciphertext_max_keyword_len (ints c) ≤ ciphertext_max_keyword_len (ints c').
Proof.
  intros Hp.
  apply (parse_args_inv atoi atof (λ c1,
    keyword_permutation_probability (probs c1)
    = keyword_permutation_probability (probs c) ∧
    plaintext_max_keyword_len (ints c) ≤ plaintext_max_keyword_len (ints c1) ∧
    ciphertext_max_keyword_len (ints c) ≤ ciphertext_max_keyword_len (ints c1))
    ) with (n := length args) (args := args) (c := c); [| |done|by split_and!; try lia|done].
  - intros arg f v c0 c1 Ha Hf HI. arg_branches Ha;
      destruct c0 as [[] [] [] [] []]; cbn in Hf, HI |- *;
      unfold strcpy_filename in Hf;
      repeat match type of Hf with
             | context [if ?b then _ else _] => destruct b
             end;
      simplify_eq/=; split_and!; try tauto; try lia.
  - intros arg f c0 Ha HI. arg_branches Ha;
      destruct c0 as [[] [] [] [] []]; cbn in HI |- *; done.
Qed.

Lemma parse_args_never_assigns_witness :
  ∃ c', parse_args (λ _, 3) (λ _, 1%float)
          ["-maxkeywordlen"; "3"; "-keywordpermprob"; "1"]%string main_init
        = Some (Parsed c') ∧
  keyword_permutation_probability (probs c') = 0.01%float ∧
  12 ≤ plaintext_max_keyword_len (ints c') ∧
  12 ≤ ciphertext_max_keyword_len (ints c').
Proof.
  eexists. split; [reflexivity|].
  exact (parse_args_never_assigns (λ _, 3) (λ _, 1%float)
           ["-maxkeywordlen"; "3"; "-keywordpermprob"; "1"]%string
           main_init _ eq_refl).
Defined.

(** X12: from the initialisers of [main], whatever the command line, when
    the loop ends with [cycleword_len_present] set, [cycleword_len] has been
    assigned and is not 0: [-cyclewordlen 0] clears the flag again, and the
    local without initialiser is never taken for a period given. *)
Theorem cycleword_len_present_assigned (atoi : string → Z)
    (atof : string → double) (args : list string) (c' : main_locals) :
  parse_args atoi atof args main_init = Some (Parsed c') →
  cycleword_len_present (flags c') = true →
  ∃ n, cycleword_len (ints c') = Some n ∧ n ≠ 0.
Proof.
  intros Hp.
  apply (parse_args_inv atoi atof (λ c1,
    cycleword_len_present (flags c1) = true →
    ∃ n, cycleword_len (ints c1) = Some n ∧ n ≠ 0))
    with (n := length args) (args := args) (c := main_init);
    [| |done|done|done].
  - intros arg f v c0 c1 Ha Hf HI. arg_branches Ha;
      destruct c0 as [[] [] [] [] []]; cbn in Hf, HI |- *;
      unfold strcpy_filename in Hf;
      repeat match type of Hf with
             | context [if ?b then _ else _] => destruct b eqn:?
             end;
      simplify_eq/=; try done.
    + intros _. eexists. split; [done|lia].
  - intros arg f c0 Ha HI. arg_branches Ha;
      destruct c0 as [[] [] [] [] []]; cbn in HI |- *; done.
Qed.

Lemma cycleword_len_present_assigned_witness :
  ∃ n, cycleword_len (ints (on_ints (set_max_cycleword_len 20)
         (on_ints (set_cycleword_len 7)
            (on_flags (set_cycleword_len_present true) main_init))))
       = Some n ∧ n ≠ 0.
Proof.
  exact (cycleword_len_present_assigned (λ _, 7) (λ _, 1%float)
           ["-cyclewordlen"; "7"]%string _ eq_refl eq_refl).
Defined.

(* ===================================================================== *)
(** * [int_pow] *)

(** The least power of two above [e]. *)
Lemma pow2_above_step (e : Z) :
  2 ≤ e → 2 ^ (Z.log2 e + 1) = 2 * 2 ^ (Z.log2 (e / 2) + 1).
Proof.
  intros He.
  assert (0 < e / 2) as Hq by (apply Z.div_str_pos; lia).
  pose proof (Z.log2_spec (e / 2) Hq) as [Hlo Hhi].
  pose proof (Z.log2_nonneg (e / 2)) as Hl.
  assert (Z.log2 e = Z.log2 (e / 2) + 1) as ->.
  { apply Z.log2_unique; [lia|]. unfold Z.succ in *.
    rewrite !Z.pow_add_r in * by lia. change (2 ^ 1) with 2 in *.
    pose proof (Z.div_mod e 2 ltac:(lia)).
    pose proof (Z.mod_pos_bound e 2 ltac:(lia)). lia. }
  rewrite (Z.pow_add_r 2 (Z.log2 (e / 2) + 1) 1) by lia.
  change (2 ^ 1) with 2. lia.
Qed.

Lemma pow2_above_bounds (e : Z) : 0 < e → e < 2 ^ (Z.log2 e + 1) ≤ 2 * e.
Proof.
  intros He. pose proof (Z.log2_spec e He) as [Hlo Hhi].
  pose proof (Z.log2_nonneg e). unfold Z.succ in Hhi.
  rewrite Z.pow_add_r in * by lia. change (2 ^ 1) with 2 in *. lia.
Qed.

Lemma pow_even_nonneg (b k : Z) : 0 ≤ k → 0 ≤ b ^ (2 * k).
Proof.
  intros Hk. rewrite Z.pow_mul_r by lia. apply Z.pow_nonneg.
  rewrite Z.pow_2_r. nia.
Qed.

Lemma pow_abs_le (b i j : Z) : 0 ≤ i ≤ j → b ≠ 0 → Z.abs b ^ i ≤ Z.abs b ^ j.
Proof. intros Hij Hb. apply Z.pow_le_mono_r; lia. Qed.

Section int_pow_facts.
Context (INT_MAX : Z) (HINT_MAX : 1 ≤ INT_MAX).

Lemma int_mul_Some (a b r : Z) :
  int_mul INT_MAX a b = Some r ↔ r = a * b ∧ - INT_MAX - 1 ≤ a * b ≤ INT_MAX.
Proof.
  unfold int_mul. case_bool_decide; split.
  - by intros [= <-].
  - by intros [-> _].
  - done.
  - intros [_ ?]. lia.
Qed.

Lemma int_pow_loop_sound (fuel : nat) :
  ∀ res b e st,
    0 ≤ e →
    while_loop fuel (λ '(_, _, exp), negb (exp =? 0))
      (λ '(result, base, exp),
         result ← (if negb (Z.rem exp 2 =? 0) then int_mul INT_MAX result base
                   else Some result);
         let exp := Z.quot exp 2 in
         base ← int_mul INT_MAX base base;
         Some (result, base, exp)) (res, b, e) = Some st →
    st.1.1 = res * b ^ e ∧ (0 < e → b ^ 2 ^ (Z.log2 e + 1) ≤ INT_MAX).
Proof.
  induction fuel as [|fuel IH]; intros res b e st He Hl; [done|].
  cbn [while_loop] in Hl. destruct (Z.eqb_spec e 0) as [->|Hne].
  - cbn in Hl. injection Hl as <-. cbn. split; [lia|lia].
  - cbn [negb] in Hl.
    rewrite Z.rem_mod_nonneg, Z.quot_div_nonneg in Hl by lia.
    pose proof (Z.div_mod e 2 ltac:(lia)) as Hdm.
    pose proof (Z.mod_pos_bound e 2 ltac:(lia)) as Hm.
    destruct (if negb (e mod 2 =? 0) then int_mul INT_MAX res b else Some res)
      as [res'|] eqn:Hres; [|done].
    cbn [mbind option_bind] in Hl.
    destruct (int_mul INT_MAX b b) as [b2|] eqn:Hb2; [|done].
    cbn [mbind option_bind] in Hl.
    apply int_mul_Some in Hb2 as [-> Hb2].
    assert (res' = res * b ^ (e mod 2)) as ->.
    { destruct (Z.eqb_spec (e mod 2) 0) as [->|Hm1]; cbn [negb] in Hres.
      - injection Hres as <-. rewrite Z.pow_0_r. lia.
      - apply int_mul_Some in Hres as [-> _].
        replace (e mod 2) with 1 by lia. by rewrite Z.pow_1_r. }
    apply IH in Hl as [-> Hle]; [|apply Z.div_pos; lia]. split.
    + assert (0 ≤ e / 2) as Hq by (apply Z.div_pos; lia).
      assert (b ^ e = b ^ (e mod 2) * b ^ (2 * (e / 2))) as ->.
      { rewrite <- Z.pow_add_r by lia. f_equal. lia. }
      rewrite (Z.pow_mul_r b 2) by lia. rewrite Z.pow_2_r. lia.
    + intros _. destruct (decide (e = 1)) as [->|He1].
      * change (2 ^ (Z.log2 1 + 1)) with 2. rewrite Z.pow_2_r. lia.
      * rewrite pow2_above_step by lia. rewrite Z.pow_mul_r;
          [|lia|pose proof (Z.log2_nonneg (e / 2)); lia].
        rewrite Z.pow_2_r. apply Hle. apply Z.div_str_pos. lia.
Qed.

Lemma int_pow_loop_defined (fuel : nat) :
  ∀ res b e,
    0 ≤ e < 2 ^ (Z.of_nat fuel - 1) →
    (e = 0 ∨ b ^ 2 ^ (Z.log2 e + 1) ≤ INT_MAX) →
    Z.abs res ≤ INT_MAX →
    Z.abs res * Z.abs b ^ e ≤ INT_MAX →
    is_Some (while_loop fuel (λ '(_, _, exp), negb (exp =? 0))
      (λ '(result, base, exp),
         result ← (if negb (Z.rem exp 2 =? 0) then int_mul INT_MAX result base
                   else Some result);
         let exp := Z.quot exp 2 in
         base ← int_mul INT_MAX base base;
         Some (result, base, exp)) (res, b, e)).
Proof.
  induction fuel as [|fuel IH]; intros res b e He Hb Hres0 Hres.
  - exfalso. change (Z.of_nat 0 - 1) with (-1) in He.
    rewrite Z.pow_neg_r in He by lia. lia.
  - cbn [while_loop]. destruct (Z.eqb_spec e 0) as [->|Hne]; [by eexists|].
    cbn [negb]. destruct Hb as [?|Hb]; [done|].
    rewrite Z.rem_mod_nonneg, Z.quot_div_nonneg by lia.
    pose proof (Z.div_mod e 2 ltac:(lia)) as Hdm.
    pose proof (Z.mod_pos_bound e 2 ltac:(lia)) as Hm.
    assert (0 ≤ e / 2) as Hq by (apply Z.div_pos; lia).
    replace (Z.of_nat (S fuel) - 1) with (Z.of_nat fuel) in He by lia.
    assert (fuel ≠ O) as Hfuel.
    { intros ->. change (2 ^ Z.of_nat 0) with 1 in He. lia. }
    assert (e / 2 < 2 ^ (Z.of_nat fuel - 1)) as Hq2.
    { replace (Z.of_nat fuel) with (Z.succ (Z.of_nat fuel - 1)) in He by lia.
      rewrite Z.pow_succ_r in He by lia. lia. }
    pose proof (pow2_above_bounds e ltac:(lia)) as Ht.
    (* the square of the base *)
    assert (b * b ≤ b ^ 2 ^ (Z.log2 e + 1)) as Hsq.
    { destruct (decide (b = 0)) as [->|Hb0].
      - rewrite Z.pow_0_l by lia. lia.
      - pose proof (Z.log2_nonneg e) as Hlg.
        replace (2 ^ (Z.log2 e + 1)) with (2 * (2 ^ Z.log2 e))
          by (rewrite Z.pow_add_r by lia; change (2 ^ 1) with 2; lia).
        assert (1 ≤ 2 ^ Z.log2 e) as HK
          by (pose proof (Z.pow_pos_nonneg 2 (Z.log2 e)); lia).
        rewrite Z.pow_mul_r, Z.pow_2_r by lia.
        rewrite <- (Z.pow_1_r (b * b)) at 1.
        apply Z.pow_le_mono_r; [nia|lia]. }
    assert (Z.abs res * Z.abs b ^ (e mod 2) ≤ INT_MAX) as Hres'.
    { destruct (decide (b = 0)) as [->|Hb0].
      - destruct (decide (e mod 2 = 0)) as [->|?].
        + rewrite Z.pow_0_r. lia.
        + rewrite Z.abs_0, Z.pow_0_l by lia. lia.
      - pose proof (pow_abs_le b (e mod 2) e ltac:(lia) Hb0).
        assert (0 ≤ Z.abs b ^ (e mod 2)) by (apply Z.pow_nonneg; lia). nia. }
    assert (∃ res', (if negb (e mod 2 =? 0) then int_mul INT_MAX res b
                     else Some res) = Some res' ∧
                    res' = res * b ^ (e mod 2)) as (res' & -> & ->).
    { destruct (Z.eqb_spec (e mod 2) 0) as [Hm0|Hm1]; cbn [negb].
      - eexists. split; [done|]. rewrite Hm0, Z.pow_0_r. lia.
      - replace (e mod 2) with 1 in * by lia. rewrite Z.pow_1_r in *.
        eexists. split; [|done]. apply int_mul_Some. split; [done|].
        rewrite <- Z.abs_mul in Hres'. lia. }
    cbn [mbind option_bind].
    assert (int_mul INT_MAX b b = Some (b * b)) as ->.
    { apply int_mul_Some. split; [done|]. nia. }
    cbn [mbind option_bind]. apply IH; [lia| | |].
    + destruct (decide (e / 2 = 0)) as [?|Hq0]; [by left|right].
      rewrite pow2_above_step in Hb by lia.
      rewrite Z.pow_mul_r in Hb; [|lia|pose proof (Z.log2_nonneg (e / 2)); lia].
      by rewrite Z.pow_2_r in Hb.
    + by rewrite Z.abs_mul, Z.abs_pow.
    + rewrite (Z.abs_mul res), Z.abs_pow, (Z.abs_mul b b), <- Z.pow_2_r.
      rewrite <- Z.pow_mul_r by lia.
      rewrite <- Z.mul_assoc, <- Z.pow_add_r by lia.
      by replace (e mod 2 + 2 * (e / 2)) with e by lia.
Qed.
End int_pow_facts.

(** X13: [int_pow(base, exp)] for [exp >= 0] returns [base ^ exp] when it
    runs without signed overflow, and it does so exactly when [exp] is 0 or
    [base] to the least power of two above [exp] is at most [INT_MAX]: the
    loop squares [base] once more after the last multiplication.  With a
    32-bit [int], [int_pow(ALPHABET_SIZE, n)] is defined for [n <= 3] only. *)
Theorem int_pow_spec (INT_MAX : Z) (fuel : nat) (base exp : Z) :
  1 ≤ INT_MAX → 0 ≤ exp < 2 ^ (Z.of_nat fuel - 1) →
  int_pow INT_MAX fuel base exp
  = (if decide (exp = 0 ∨ base ^ 2 ^ (Z.log2 exp + 1) ≤ INT_MAX)
     then Some (base ^ exp) else None) ∧
  (INT_MAX = 2 ^ 31 - 1 →
   (is_Some (int_pow INT_MAX fuel ALPHABET_SIZE exp) ↔ exp ≤ 3)).
Proof.
  intros HM He.
  assert (∀ b, int_pow INT_MAX fuel b exp
    = (if decide (exp = 0 ∨ b ^ 2 ^ (Z.log2 exp + 1) ≤ INT_MAX)
       then Some (b ^ exp) else None)) as Hspec.
  { intros b. unfold int_pow.
    match goal with |- context [while_loop fuel ?c ?f ?s] =>
      destruct (while_loop fuel c f s) as [[[r b'] e']|] eqn:Hl end.
    - apply (int_pow_loop_sound INT_MAX) in Hl as [Hr Hle]; [|lia].
      cbn in Hr |- *. rewrite decide_True; [f_equal; lia|].
      destruct (decide (exp = 0)); [by left|right; apply Hle; lia].
    - cbn. destruct (decide _) as [Hc|]; [|done]. exfalso.
      assert (Z.abs 1 * Z.abs b ^ exp ≤ INT_MAX) as Hres.
      { change (Z.abs 1) with 1. rewrite Z.mul_1_l.
        destruct Hc as [->|Hc]; [rewrite Z.pow_0_r; lia|].
        destruct (decide (exp = 0)) as [->|Hne]; [rewrite Z.pow_0_r; lia|].
        destruct (decide (b = 0)) as [->|Hb0]; [rewrite Z.abs_0, Z.pow_0_l; lia|].
        pose proof (pow2_above_bounds exp ltac:(lia)) as Ht.
        pose proof (Z.log2_nonneg exp).
        replace (2 ^ (Z.log2 exp + 1)) with (2 * (2 ^ Z.log2 exp)) in *
          by (rewrite Z.pow_add_r by lia; change (2 ^ 1) with 2; lia).
        rewrite <- (Z.abs_eq (b ^ (2 * 2 ^ Z.log2 exp))) in Hc
          by (apply pow_even_nonneg; lia).
        rewrite Z.abs_pow in Hc.
        pose proof (pow_abs_le b exp (2 * 2 ^ Z.log2 exp) ltac:(lia) Hb0). lia. }
      destruct (int_pow_loop_defined INT_MAX HM fuel 1 b exp He Hc
                  ltac:(change (Z.abs 1) with 1; lia) Hres)
        as [st Hst].
      assert (Some st = None) by (rewrite <- Hst; exact Hl). done. }
  split; [apply Hspec|]. intros ->. rewrite Hspec.
  destruct (decide (exp ≤ 3)) as [Hle|Hgt].
  - split; [done|intros _]. rewrite decide_True; [done|].
    assert (exp = 0 ∨ exp = 1 ∨ exp = 2 ∨ exp = 3) as Hcases by lia.
    destruct Hcases as [Hx|[Hx|[Hx|Hx]]]; subst exp;
      [by left|right; by vm_compute..].
  - split; [|lia]. destruct (decide _) as [[?|Hc]|]; [lia| |by intros []].
    exfalso. assert (Z.log2 4 ≤ Z.log2 exp) as Hlog by (apply Z.log2_le_mono; lia).
    change (Z.log2 4) with 2 in Hlog.
    assert (2 ^ 3 ≤ 2 ^ (Z.log2 exp + 1)) as Hp by (apply Z.pow_le_mono_r; lia).
    assert (ALPHABET_SIZE ^ 2 ^ 3 ≤ ALPHABET_SIZE ^ 2 ^ (Z.log2 exp + 1)) as Hq
      by (apply Z.pow_le_mono_r; [done|done]).
    assert (2 ^ 31 - 1 < ALPHABET_SIZE ^ 2 ^ 3) by by vm_compute. lia.
Qed.

Lemma int_pow_spec_witness :
  int_pow (2 ^ 31 - 1) 8 26 3 = Some 17576.
Proof.
  exact (proj1 (int_pow_spec (2 ^ 31 - 1) 8 26 3 ltac:(done) ltac:(done))).
Defined.

(* ===================================================================== *)
(** * [ngram_index_int] and [ngram_score_slow] *)

Lemma horner_snoc (l : list Z) (d : Z) :
  horner (l ++ [d]) = horner l + d * 26 ^ Z.of_nat (length l).
Proof.
  induction l as [|x l IH].
  - cbn. unfold ALPHABET_SIZE. lia.
  - cbn [app horner foldr length] in *. fold (horner (l ++ [d])).
    fold (horner l). rewrite IH, Nat2Z.inj_succ, Z.pow_succ_r by lia.
    unfold ALPHABET_SIZE. lia.
Qed.

Lemma horner_inj (a b : list Z) :
  length a = length b → Forall in_alphabet a → Forall in_alphabet b →
  horner a = horner b → a = b.
Proof.
  revert b. induction a as [|x a IH]; intros [|y b] Hlen Ha Hb Heq; try done.
  apply Forall_cons in Ha as [Hx Ha]. apply Forall_cons in Hb as [Hy Hb].
  cbn [horner foldr] in Heq. fold (horner a) in Heq. fold (horner b) in Heq.
  unfold in_alphabet, ALPHABET_SIZE in *.
  assert (x = y ∧ horner a = horner b) as [-> Hh] by lia.
  f_equal. apply IH; [by injection Hlen|done..].
Qed.

(** The loop of [ngram_index_int] over the first [n] entries: it stays
    in the range of [int] when [26 ^ n] does. *)
Lemma ngram_index_int_loop (INT_MAX : Z) (a : list Z) (n : nat) :
  (n ≤ length a)%nat → Forall in_alphabet (take n a) →
  26 ^ Z.of_nat n ≤ INT_MAX →
  for_loop n 0 (λ i '(index, base),
      d ← rd a i;
      t ← int_mul INT_MAX d base;
      index ← int_add INT_MAX index t;
      base ← int_mul INT_MAX base ALPHABET_SIZE;
      Some (Next (index, base))) (0, 1)
  = Some (horner (take n a), 26 ^ Z.of_nat n).
Proof.
  intros Hn Hall Hfit.
  match goal with |- for_loop _ _ ?body _ = _ =>
    destruct (for_loop_inv (λ i '(index, base), ∃ j : nat, i = Z.of_nat j ∧
                 index = horner (take j a) ∧ base = 26 ^ i) body n 0 (0, 1))
      as ([index base] & -> & j & Hj & -> & ->) end.
  - exists O. by rewrite take_0.
  - intros i [index base] Hi (j & -> & -> & ->).
    destruct (lookup_lt_is_Some_2 a j) as [d Hd]; [lia|].
    rewrite rd_of_nat, Hd. cbn [mbind option_bind].
    assert (in_alphabet d) as Hda.
    { rewrite Forall_lookup in Hall. apply (Hall j).
      rewrite lookup_take_lt by lia. done. }
    assert (Forall in_alphabet (take j a)) as Hpre.
    { replace (take j a) with (take j (take n a))
        by (rewrite take_take; f_equal; lia).
      by apply Forall_take. }
    pose proof (horner_range _ Hpre) as Hr.
    rewrite length_take_le in Hr by lia.
    assert (26 ^ (Z.of_nat j + 1) ≤ 26 ^ Z.of_nat n) as Hle
      by (apply Z.pow_le_mono_r; lia).
    rewrite Z.pow_add_r, Z.pow_1_r in Hle by lia.
    unfold in_alphabet, ALPHABET_SIZE in Hda.
    assert (0 < 26 ^ Z.of_nat j) as Hpos by (apply Z.pow_pos_nonneg; lia).
    set (q := 26 ^ Z.of_nat j) in *.
    assert (0 ≤ d * q ≤ 25 * q) as Hprod by nia.
    rewrite (int_mul_fits INT_MAX d q) by lia. cbn [mbind option_bind].
    rewrite int_add_fits by lia. cbn [mbind option_bind].
    unfold ALPHABET_SIZE. rewrite (int_mul_fits INT_MAX q 26) by lia.
    cbn [mbind option_bind]. eexists. split; [done|].
    exists (S j). rewrite (take_S_r a j d Hd), horner_snoc.
    rewrite length_take_le by lia. fold q. split_and!; [lia|done|].
    rewrite Z.pow_add_r by lia. fold q. lia.
  - rewrite Z.add_0_l in *. by replace j with n by lia.
Qed.

(** A run of the index loop that returns has multiplied [base] by 26 at
    every step, inside the range of [int]. *)
Lemma index_loop_base (INT_MAX : Z) (read : Z → option Z) (n : nat) :
  ∀ (lo index base index' base' : Z),
    for_loop n lo (λ i '(index, base),
        d ← read i;
        t ← int_mul INT_MAX d base;
        index ← int_add INT_MAX index t;
        base ← int_mul INT_MAX base ALPHABET_SIZE;
        Some (Next (index, base))) (index, base) = Some (index', base') →
    base' = base * 26 ^ Z.of_nat n ∧ ((0 < n)%nat → base' ≤ INT_MAX).
Proof.
  induction n as [|n IH]; intros lo index base index' base' Hrun.
  - cbn in Hrun. injection Hrun as <- <-. split; [lia|lia].
  - cbn [for_loop] in Hrun.
    destruct (read lo) as [d|]; [|done]. cbn [mbind option_bind] in Hrun.
    destruct (int_mul INT_MAX d base) as [t|]; [|done].
    cbn [mbind option_bind] in Hrun.
    destruct (int_add INT_MAX index t) as [index1|]; [|done].
    cbn [mbind option_bind] in Hrun.
    destruct (int_mul INT_MAX base ALPHABET_SIZE) as [base1|] eqn:Hb; [|done].
    cbn [mbind option_bind] in Hrun.
    unfold int_mul, ALPHABET_SIZE in Hb. case_bool_decide as Hfit; [|done].
    injection Hb as <-.
    apply IH in Hrun as [-> Hle].
    rewrite Nat2Z.inj_succ, Z.pow_succ_r by lia. split; [lia|].
    intros _. destruct n as [|n]; [|apply Hle; lia].
    cbn. lia.
Qed.

(** The index loop reads only through [read]. *)
Lemma index_loop_ext (INT_MAX : Z) (read1 read2 : Z → option Z) (n : nat) :
  ∀ (lo : Z) (st : Z * Z),
    (∀ j, lo ≤ j < lo + Z.of_nat n → read1 j = read2 j) →
    for_loop n lo (λ i '(index, base),
        d ← read1 i;
        t ← int_mul INT_MAX d base;
        index ← int_add INT_MAX index t;
        base ← int_mul INT_MAX base ALPHABET_SIZE;
        Some (Next (index, base))) st
    = for_loop n lo (λ i '(index, base),
        d ← read2 i;
        t ← int_mul INT_MAX d base;
        index ← int_add INT_MAX index t;
        base ← int_mul INT_MAX base ALPHABET_SIZE;
        Some (Next (index, base))) st.
Proof.
  induction n as [|n IH]; intros lo [index base] Hread; [done|].
  cbn [for_loop]. rewrite (Hread lo) by lia.
  destruct (read2 lo) as [d|]; [|done]. cbn [mbind option_bind].
  destruct (int_mul INT_MAX d base) as [t|]; [|done].
  cbn [mbind option_bind].
  destruct (int_add INT_MAX index t) as [index1|]; [|done].
  cbn [mbind option_bind].
  destruct (int_mul INT_MAX base ALPHABET_SIZE) as [base1|]; [|done].
  cbn [mbind option_bind]. apply IH. intros j Hj. apply Hread. lia.
Qed.

(** A read that fails makes the index loop undefined. *)
Lemma index_loop_read_fails (INT_MAX : Z) (read : Z → option Z) (n : nat) :
  ∀ (lo : Z) (st : Z * Z) (j0 : Z),
    lo ≤ j0 < lo + Z.of_nat n → read j0 = None →
    for_loop n lo (λ i '(index, base),
        d ← read i;
        t ← int_mul INT_MAX d base;
        index ← int_add INT_MAX index t;
        base ← int_mul INT_MAX base ALPHABET_SIZE;
        Some (Next (index, base))) st = None.
Proof.
  induction n as [|n IH]; intros lo [index base] j0 Hj0 Hnone; [lia|].
  cbn [for_loop].
  destruct (read lo) as [d|] eqn:Hd; [|done]. cbn [mbind option_bind].
  destruct (int_mul INT_MAX d base) as [t|]; [|done].
  cbn [mbind option_bind].
  destruct (int_add INT_MAX index t) as [index1|]; [|done].
  cbn [mbind option_bind].
  destruct (int_mul INT_MAX base ALPHABET_SIZE) as [base1|]; [|done].
  cbn [mbind option_bind]. apply (IH _ _ j0); [|done].
  assert (j0 ≠ lo) by congruence. lia.
Qed.

Lemma ngram_index_int_take (INT_MAX : Z) (a : list Z) (n : nat) :
  (n ≤ length a)%nat → Forall in_alphabet (take n a) →
  26 ^ Z.of_nat n ≤ INT_MAX →
  ngram_index_int INT_MAX a (Z.of_nat n) = Some (horner (take n a)).
Proof.
  intros Hn Hall Hfit. unfold ngram_index_int, for_range.
  rewrite Z.sub_0_r, Nat2Z.id, ngram_index_int_loop by done. done.
Qed.

(** The copy loop of [ngram_score_slow]: it fills [ngram] with the
    window, or a read of the text fails. *)
Lemma ngram_copy_loop (decrypted : list Z) (i : Z) (n : nat) :
  ∀ (lo : nat) (ngram : list Z),
    (lo + n ≤ length ngram)%nat →
    match for_loop n (Z.of_nat lo) (λ j ngram,
            d ← rd decrypted (i + j);
            ngram ← wr ngram j d;
            Some (Next ngram)) ngram with
    | Some ng =>
        length ng = length ngram ∧
        (∀ j : nat, (lo ≤ j < lo + n)%nat →
           rd decrypted (i + Z.of_nat j) = ng !! j) ∧
        (∀ j : nat, (j < lo)%nat → ng !! j = ngram !! j)
    | None =>
        ∃ j : nat, (lo ≤ j < lo + n)%nat ∧
                   rd decrypted (i + Z.of_nat j) = None
    end.
Proof.
  induction n as [|n IH]; intros lo ngram Hlen.
  - cbn. split_and!; [done|intros; lia|done].
  - cbn [for_loop].
    destruct (rd decrypted (i + Z.of_nat lo)) as [d|] eqn:Hd.
    2: { cbn. exists lo. split; [lia|done]. }
    cbn [mbind option_bind]. unfold wr.
    rewrite bool_decide_eq_true_2 by lia. cbn [mbind option_bind].
    rewrite Nat2Z.id.
    replace (Z.of_nat lo + 1) with (Z.of_nat (S lo)) by lia.
    specialize (IH (S lo) (<[lo:=d]> ngram)).
    rewrite length_insert in IH. specialize (IH ltac:(lia)).
    destruct (for_loop n (Z.of_nat (S lo)) _ _) as [ng|].
    + destruct IH as (Hl & Hwin & Hpre). split_and!; [done| |].
      * intros j Hj. destruct (decide (j = lo)) as [->|Hne].
        -- rewrite Hpre by lia. rewrite list_lookup_insert_eq by lia. done.
        -- apply Hwin. lia.
      * intros j Hj. rewrite Hpre by lia.
        by rewrite list_lookup_insert_ne by lia.
    + destruct IH as (j & Hj & Hnone). exists j. split; [lia|done].
Qed.

(** Two loops that go step by step together. *)
Lemma for_loop_sim {S1 S2 : Type} (R : Z → S1 → S2 → Prop)
    (body1 : Z → S1 → option (ctl S1)) (body2 : Z → S2 → option (ctl S2))
    (n : nat) :
  ∀ (lo : Z) (s1 : S1) (s2 : S2),
    R lo s1 s2 →
    (∀ i s1 s2, lo ≤ i < lo + Z.of_nat n → R i s1 s2 →
       match body1 i s1, body2 i s2 with
       | Some (Next a), Some (Next b) => R (i + 1) a b
       | None, None => True
       | _, _ => False
       end) →
    match for_loop n lo body1 s1, for_loop n lo body2 s2 with
    | Some a, Some b => R (lo + Z.of_nat n) a b
    | None, None => True
    | _, _ => False
    end.
Proof.
  induction n as [|n IH]; intros lo s1 s2 HR Hbody.
  - cbn. by rewrite Z.add_0_r.
  - cbn [for_loop]. pose proof (Hbody lo s1 s2 ltac:(lia) HR) as Hstep.
    destruct (body1 lo s1) as [[a|a]|], (body2 lo s2) as [[b|b]|]; try done.
    replace (lo + Z.of_nat (S n)) with (lo + 1 + Z.of_nat n) by lia.
    apply IH; [done|]. intros i t1 t2 Hi. apply Hbody. lia.
Qed.

(** X14: with [int]s up to [INT_MAX], [ngram_index_int] over [ngram_size]
    alphabet symbols that the array has is defined exactly when
    [26 ^ ngram_size] fits an [int] (the last [base *= 26] overflows
    otherwise): up to [ngram_size] 6 for an [int] of 32 bits.  It then
    returns the value of the symbols as a little-endian number in base 26,
    in [[0, 26 ^ ngram_size)], and two n-grams have the same index only
    when they are the same n-gram.  Reading more entries than the array
    has is undefined. *)
Theorem ngram_index_int_injective (INT_MAX : Z) (a b : list Z) (n : nat) :
  1 ≤ INT_MAX →
  (n ≤ length a)%nat → (n ≤ length b)%nat →
  Forall in_alphabet (take n a) → Forall in_alphabet (take n b) →
  (is_Some (ngram_index_int INT_MAX a (Z.of_nat n))
   ↔ 26 ^ Z.of_nat n ≤ INT_MAX) ∧
  (INT_MAX = 2 ^ 31 - 1 →
   (is_Some (ngram_index_int INT_MAX a (Z.of_nat n)) ↔ (n ≤ 6)%nat)) ∧
  (26 ^ Z.of_nat n ≤ INT_MAX →
   ∃ ia ib,
     ngram_index_int INT_MAX a (Z.of_nat n) = Some ia ∧
     ngram_index_int INT_MAX b (Z.of_nat n) = Some ib ∧
     ia = horner (take n a) ∧
     0 ≤ ia < 26 ^ Z.of_nat n ∧
     (ia = ib ↔ take n a = take n b)) ∧
  ∀ m : nat, (length a < m)%nat →
    ngram_index_int INT_MAX a (Z.of_nat m) = None.
Proof.
  intros HM Ha Hb Hfa Hfb.
  assert (Hdef : is_Some (ngram_index_int INT_MAX a (Z.of_nat n))
                 ↔ 26 ^ Z.of_nat n ≤ INT_MAX).
  { split.
    - intros [ia Hia]. unfold ngram_index_int, for_range in Hia.
      rewrite Z.sub_0_r, Nat2Z.id in Hia.
      match type of Hia with (?l ≫= _) = _ =>
        destruct l as [[index base]|] eqn:Hl; [|done] end.
      apply index_loop_base in Hl as [-> Hle].
      destruct n as [|n]; [cbn; lia|]. rewrite Z.mul_1_l in Hle.
      apply Hle. lia.
    - intros Hfit. rewrite ngram_index_int_take by done. done. }
  split; [done|]. split; [|split].
  - intros ->. rewrite Hdef. split.
    + intros Hfit. destruct (decide (n ≤ 6)%nat) as [|Hn]; [done|].
      assert (26 ^ 7 ≤ 26 ^ Z.of_nat n) by (apply Z.pow_le_mono_r; lia).
      lia.
    + intros Hn.
      assert (26 ^ Z.of_nat n ≤ 26 ^ 6) by (apply Z.pow_le_mono_r; lia).
      lia.
  - intros Hfit. exists (horner (take n a)), (horner (take n b)).
    do 2 (split; [by apply ngram_index_int_take|]). split; [done|].
    split.
    + pose proof (horner_range _ Hfa) as Hr.
      by rewrite length_take_le in Hr by lia.
    + split; [|by intros ->]. apply horner_inj; [|done..].
      by rewrite !length_take_le by lia.
  - intros m Hm. unfold ngram_index_int, for_range.
    rewrite Z.sub_0_r, Nat2Z.id.
    rewrite (index_loop_read_fails INT_MAX (rd a) m 0 (0, 1)
               (Z.of_nat (length a))); [done|lia|].
    rewrite rd_of_nat. apply lookup_ge_None. lia.
Qed.

Lemma ngram_index_int_injective_witness :
  (is_Some (ngram_index_int (2 ^ 31 - 1) [19; 7] 2) ↔ 26 ^ 2 ≤ 2 ^ 31 - 1) ∧
  (2 ^ 31 - 1 = 2 ^ 31 - 1 →
   (is_Some (ngram_index_int (2 ^ 31 - 1) [19; 7] 2) ↔ (2 ≤ 6)%nat)) ∧
  (26 ^ 2 ≤ 2 ^ 31 - 1 →
   ∃ ia ib,
     ngram_index_int (2 ^ 31 - 1) [19; 7] 2 = Some ia ∧
     ngram_index_int (2 ^ 31 - 1) [7; 19] 2 = Some ib ∧
     ia = horner (take 2 [19; 7]) ∧ 0 ≤ ia < 26 ^ 2 ∧
     (ia = ib ↔ take 2 [19; 7] = take 2 [7; 19])) ∧
  ∀ m : nat, (2 < m)%nat →
    ngram_index_int (2 ^ 31 - 1) [19; 7] (Z.of_nat m) = None.
Proof.
  apply (ngram_index_int_injective (2 ^ 31 - 1) [19; 7] [7; 19] 2);
    [lia|simpl; lia..| |];
    repeat constructor; unfold in_alphabet, ALPHABET_SIZE; lia.
Defined.

(** X15: the old routine [ngram_score_slow] returns what [ngram_score]
    returns, undefined cases included, for every text, table and n-gram
    size that fits the local array [ngram] of [MAX_NGRAM_SIZE] entries,
    whatever the array holds at first. *)
Theorem ngram_score_slow_agrees (INT_MAX : Z)
    (libm_pow : double → double → double)
    (ngram_uninit decrypted : list Z) (cipher_len : Z)
    (ngram_data : list double) (ngram_size : Z) :
  ngram_size ≤ Z.of_nat (length ngram_uninit) →
  ngram_score_slow INT_MAX libm_pow ngram_uninit decrypted cipher_len
    ngram_data ngram_size
  = ngram_score INT_MAX libm_pow decrypted cipher_len ngram_data ngram_size.
Proof.
  intros Hsize. unfold ngram_score_slow, ngram_score, for_range.
  rewrite !Z.sub_0_r.
  match goal with
  | |- (?l2 ≫= _) = (?l1 ≫= _) =>
      assert (match l1, l2 with
              | Some a, Some b => a = b.1 ∧ length b.2 = length ngram_uninit
              | None, None => True
              | _, _ => False
              end) as Hsim
  end.
  { apply (for_loop_sim (λ _ (s1 : double) (s2 : double * list Z),
             s1 = s2.1 ∧ length s2.2 = length ngram_uninit)); [done|].
    intros i score [score' ngram] Hi [-> Hlen]. cbn [fst snd] in *.
    pose proof (ngram_copy_loop decrypted i (Z.to_nat ngram_size) 0 ngram
                  ltac:(lia)) as Hcopy.
    change (Z.of_nat 0) with 0 in Hcopy.
    destruct (for_loop (Z.to_nat ngram_size) 0 _ ngram) as [ng|].
    - destruct Hcopy as (Hl & Hwin & _). cbn [mbind option_bind].
      unfold ngram_index_int, for_range. rewrite Z.sub_0_r.
      rewrite (index_loop_ext INT_MAX (λ j, rd decrypted (i + j)) (rd ng)).
      2: { intros j Hj. rewrite <- (Z2Nat.id j) by lia.
           rewrite rd_of_nat. apply Hwin. lia. }
      destruct (for_loop (Z.to_nat ngram_size) 0 _ (0, 1))
        as [[index base]|]; [|done].
      cbn [mbind option_bind].
      destruct (ngram_at ngram_data index); cbn [mbind option_bind]; [|done].
      split; [done|]. cbn [snd]. lia.
    - destruct Hcopy as (j & Hj & Hnone). cbn [mbind option_bind].
      rewrite (index_loop_read_fails INT_MAX (λ j, rd decrypted (i + j))
                 _ 0 (0, 1) (Z.of_nat j)); [done|lia|done]. }
  match goal with
  | |- (?l2 ≫= _) = (?l1 ≫= _) => destruct l1 as [s1|], l2 as [[s2 ng]|]
  end; try done.
  destruct Hsim as [Hsim _]. cbn in Hsim. by subst.
Qed.

Lemma ngram_score_slow_agrees_witness :
  ngram_score_slow (2 ^ 31 - 1) (λ _ _, 1%float) [0; 0; 0] [19; 7; 4] 3
    (replicate 676 0.5%float) 2
  = ngram_score (2 ^ 31 - 1) (λ _ _, 1%float) [19; 7; 4] 3
      (replicate 676 0.5%float) 2.
Proof.
  exact (ngram_score_slow_agrees (2 ^ 31 - 1) (λ _ _, 1%float) [0; 0; 0]
           [19; 7; 4] 3 (replicate 676 0.5%float) 2 ltac:(simpl; lia)).
Defined.

(* ===================================================================== *)
(** * [shuffle] *)




(* ===================================================================== *)
(** * Texts: [ord], [print_text] and the cribs of [main] *)

Lemma get_lookup (s : string) (n : nat) :
  String.get n s = list_ascii_of_string s !! n.
Proof.
  revert n. induction s as [|c s IH]; intros [|n]; cbn; auto.
Qed.

Lemma length_list_ascii (s : string) :
  length (list_ascii_of_string s) = String.length s.
Proof. induction s as [|c s IH]; cbn; [done|by rewrite IH]. Qed.

Lemma string_of_list_ascii_snoc (l : list ascii) (c : ascii) :
  string_of_list_ascii (l ++ [c])
  = (string_of_list_ascii l ++ String c "")%string.
Proof. induction l as [|x l IH]; cbn; [done|by rewrite IH]. Qed.

Lemma char_of_int_code (c : ascii) : char_of_int (char_code c) = c.
Proof.
  unfold char_of_int, char_code. pose proof (nat_ascii_bounded c).
  rewrite Z.mod_small by lia. by rewrite Nat2Z.id, ascii_nat_embedding.
Qed.

(** What [ord] leaves in [indices]. *)
Lemma ord_spec (toupper : Z → Z) (text : string) (indices : list Z) :
  (String.length text ≤ length indices)%nat →
  ord toupper text indices
  = Some (((λ c, toupper (char_code c) - 65) <$> list_ascii_of_string text)
          ++ drop (String.length text) indices).
Proof.
  intros Hlen. unfold ord, for_range. rewrite Z.sub_0_r, Nat2Z.id.
  set (f := λ c : ascii, toupper (char_code c) - 65).
  set (chars := list_ascii_of_string text).
  assert (length chars = String.length text) as Hchars
    by apply length_list_ascii.
  match goal with
  | |- for_loop ?n ?lo ?body ?s = _ =>
      destruct (for_loop_inv
        (λ i a, ∃ k : nat, i = Z.of_nat k ∧
           a = (f <$> take k chars) ++ drop k indices)
        body n lo s) as (a & -> & k & Hk & ->)
  end.
  - exists O. by rewrite take_0, drop_0.
  - intros i a Hi (k & -> & ->). rewrite Nat2Z.id, get_lookup.
    destruct (lookup_lt_is_Some_2 chars k) as [c Hc]; [lia|].
    fold chars. rewrite Hc. cbn [mbind option_bind]. unfold wr.
    assert (length (f <$> take k chars) = k) as Hfk
      by (rewrite length_fmap, length_take_le; lia).
    rewrite bool_decide_eq_true_2
      by (rewrite length_app, Hfk, length_drop; lia).
    cbn [mbind option_bind]. eexists. split; [done|]. exists (S k).
    split; [lia|]. rewrite (take_S_r chars k c Hc), fmap_app.
    rewrite <- (assoc_L (++)). cbn [fmap list_fmap app].
    destruct (lookup_lt_is_Some_2 indices k) as [x Hx]; [lia|].
    rewrite (drop_S indices x k Hx), Nat2Z.id.
    rewrite insert_app_r_alt by lia. rewrite Hfk, Nat.sub_diag. done.
  - f_equal. assert (k = String.length text) as -> by lia.
    by rewrite <- Hchars, firstn_all, Hchars.
Qed.

(** What [print_text] writes. *)
Lemma print_text_spec (indices : list Z) (len : nat) :
  (len ≤ length indices)%nat →
  print_text indices (Z.of_nat len)
  = Some (string_of_list_ascii ((λ x, char_of_int (x + 65)) <$> take len indices)).
Proof.
  intros Hlen. unfold print_text, for_range. rewrite Z.sub_0_r, Nat2Z.id.
  match goal with
  | |- for_loop ?n ?lo ?body ?s = _ =>
      destruct (for_loop_inv
        (λ i out, ∃ k : nat, i = Z.of_nat k ∧
           out = string_of_list_ascii
                   ((λ x, char_of_int (x + 65)) <$> take k indices))
        body n lo s) as (a & -> & k & Hk & ->)
  end.
  - exists O. by rewrite take_0.
  - intros i out Hi (k & -> & ->).
    destruct (lookup_lt_is_Some_2 indices k) as [x Hx]; [lia|].
    rewrite rd_of_nat, Hx. cbn [mbind option_bind]. eexists. split; [done|].
    exists (S k). split; [lia|].
    rewrite (take_S_r indices k x Hx), fmap_app. cbn [fmap list_fmap].
    by rewrite string_of_list_ascii_snoc.
  - by replace k with len by lia.
Qed.

(** X17: [ord] over a text that fits the array is defined and writes
    [toupper(c) - 'A'] for each [char], leaving the rest of the array; for
    a text of letters these are symbols of the alphabet, and [print_text]
    over them writes the text in upper case, so a text of capitals comes
    back as it is.  No character is refused: any other [char] gives an
    index that is whatever [toupper(c) - 'A'] is. *)
Theorem ord_print_text (toupper : Z → Z) (text : string) (indices : list Z) :
  (∀ c, 65 ≤ c ≤ 90 → toupper c = c) →
  (∀ c, 97 ≤ c ≤ 122 → toupper c = c - 32) →
  (String.length text ≤ length indices)%nat →
  let chars := list_ascii_of_string text in
  let len := String.length text in
  ∃ idx,
    ord toupper text indices = Some idx ∧
    idx = ((λ c, toupper (char_code c) - 65) <$> chars) ++ drop len indices ∧
    (Forall (λ c, 65 ≤ char_code c ≤ 90 ∨ 97 ≤ char_code c ≤ 122) chars →
     Forall in_alphabet (take len idx) ∧
     print_text idx (Z.of_nat len)
     = Some (string_of_list_ascii
               ((λ c, char_of_int (toupper (char_code c))) <$> chars))) ∧
    (Forall (λ c, 65 ≤ char_code c ≤ 90) chars →
     print_text idx (Z.of_nat len) = Some text).
Proof.
  intros Hup Hlow Hlen chars len. eexists. split; [by apply ord_spec|].
  split; [done|].
  assert (length chars = len) as Hchars by apply length_list_ascii.
  set (f := λ c : ascii, toupper (char_code c) - 65).
  assert (take len ((f <$> chars) ++ drop len indices) = f <$> chars) as Htake.
  { rewrite take_app_le by (rewrite length_fmap; lia).
    by rewrite firstn_all2 by (rewrite length_fmap; lia). }
  assert (print_text ((f <$> chars) ++ drop len indices) (Z.of_nat len)
          = Some (string_of_list_ascii
                    ((λ c, char_of_int (toupper (char_code c))) <$> chars)))
    as Hprint.
  { rewrite print_text_spec
      by (rewrite length_app, length_fmap, length_drop; lia).
    rewrite Htake, <- list_fmap_compose. do 2 f_equal.
    apply list_fmap_ext. intros _ c _. cbn. unfold f. f_equal. lia. }
  split.
  - intros Hletters. split; [|done].
    change (Forall in_alphabet (take len ((f <$> chars) ++ drop len indices))).
    rewrite Htake.
    apply Forall_fmap. eapply Forall_impl; [exact Hletters|].
    intros c [Hc|Hc]; unfold in_alphabet, ALPHABET_SIZE, f; cbn.
    + rewrite Hup by done. lia.
    + rewrite Hlow by done. lia.
  - intros Hcaps. etrans; [exact Hprint|]. f_equal.
    transitivity (string_of_list_ascii chars);
      [|apply string_of_list_ascii_of_string].
    f_equal. rewrite <- (list_fmap_id chars) at 2.
    apply Forall_fmap_ext_1. eapply Forall_impl; [exact Hcaps|].
    intros c Hc. cbn. rewrite Hup by done. apply char_of_int_code.
Qed.

Lemma ord_print_text_witness :
  ∃ idx,
    ord toupper_ascii "Quagmire" (replicate 10 0) = Some idx ∧
    idx = ((λ c, toupper_ascii (char_code c) - 65)
             <$> list_ascii_of_string "Quagmire") ++ drop 8 (replicate 10 0) ∧
    (Forall (λ c, 65 ≤ char_code c ≤ 90 ∨ 97 ≤ char_code c ≤ 122)
       (list_ascii_of_string "Quagmire") →
     Forall in_alphabet (take 8 idx) ∧
     print_text idx 8
     = Some (string_of_list_ascii
               ((λ c, char_of_int (toupper_ascii (char_code c)))
                  <$> list_ascii_of_string "Quagmire"))) ∧
    (Forall (λ c, 65 ≤ char_code c ≤ 90) (list_ascii_of_string "Quagmire") →
     print_text idx 8 = Some "Quagmire"%string).
Proof.
  apply (ord_print_text toupper_ascii "Quagmire" (replicate 10 0)).
  - intros c Hc. unfold toupper_ascii. by rewrite bool_decide_eq_false_2 by lia.
  - intros c Hc. unfold toupper_ascii. by rewrite bool_decide_eq_true_2 by lia.
  - simpl. lia.
Defined.

Lemma StronglySorted_sublist {A : Type} (R : relation A) (l k : list A) :
  l `sublist_of` k → StronglySorted R k → StronglySorted R l.
Proof.
  induction 1 as [|x l k Hs IH|x l k Hs IH]; intros Hk; [done| |].
  - apply StronglySorted_inv in Hk as [Hk Hx]. constructor; [by apply IH|].
    rewrite Forall_forall in Hx |- *. intros y Hy. apply Hx.
    by eapply elem_of_sublist.
  - apply StronglySorted_inv in Hk as [Hk _]. by apply IH.
Qed.

Lemma seqZ_StronglySorted (lo : Z) (n : nat) :
  StronglySorted Z.lt (seqZ lo (Z.of_nat n)).
Proof.
  revert lo. induction n as [|n IH]; intros lo; [constructor|].
  rewrite seqZ_cons by lia. replace (Z.pred (Z.of_nat (S n))) with (Z.of_nat n) by lia.
  constructor; [apply IH|]. apply Forall_forall. intros x Hx.
  apply elem_of_seqZ in Hx. lia.
Qed.

Lemma char_code_bound (c : ascii) : 0 ≤ char_code c < 256.
Proof. unfold char_code. pose proof (nat_ascii_bounded c). lia. Qed.

(** The comparison with ['_'] does not depend on the sign of [char]. *)
Lemma char_value_underscore (char_signed : bool) (c : ascii) :
  (char_value char_signed c =? char_code "_"%char) = Ascii.eqb c "_"%char.
Proof.
  destruct (Ascii.eqb_spec c "_"%char) as [->|Hne].
  - by destruct char_signed.
  - apply Z.eqb_neq. intros Heq. apply Hne.
    pose proof (char_code_bound c) as Hb.
    assert (char_code c = 95) as Hc.
    { unfold char_value in Heq. change (char_code "_"%char) with 95 in Heq.
      destruct (char_signed && (127 <? char_code c)) eqn:Hs; [|done].
      apply andb_true_iff in Hs as [_ Hs]. lia. }
    rewrite <- (ascii_nat_embedding c). unfold char_code in Hc.
    replace (nat_of_ascii c) with 95%nat by lia. done.
Qed.

(** X18: the crib loop of [main], over a crib text as long as the
    ciphertext, is defined when the two arrays have room for the text.  It
    leaves in [crib_positions] the positions of the characters other than
    ['_'], ascending, in [crib_indices] their values as [char]s minus ['A']
    (a byte from 128 on counts as negative where [char] is signed; there is
    no [toupper] here, so that only a capital gives an index of the
    alphabet), and in [n_cribs] their number; the entries behind stay as
    they were. *)
Theorem main_cribs_spec (char_signed : bool) (cribtext : string)
    (crib_positions crib_indices : list Z) :
  let chars := list_ascii_of_string cribtext in
  let len := String.length cribtext in
  let cribs := filter (λ ic, Ascii.eqb ic.2 "_"%char = false) (zip (seqZ 0 (Z.of_nat len)) chars) in
  (len ≤ length crib_positions)%nat → (len ≤ length crib_indices)%nat →
  main_cribs char_signed cribtext (Z.of_nat len) crib_positions crib_indices
  = Some ((fst <$> cribs) ++ drop (length cribs) crib_positions,
          ((λ ic, char_value char_signed ic.2 - 65) <$> cribs)
            ++ drop (length cribs) crib_indices,
          Z.of_nat (length cribs)) ∧
  (length cribs ≤ len)%nat ∧
  StronglySorted Z.lt (fst <$> cribs) ∧
  Forall (λ ic, 0 ≤ ic.1 < Z.of_nat len ∧
                String.get (Z.to_nat ic.1) cribtext = Some ic.2 ∧
                (in_alphabet (char_value char_signed ic.2 - 65)
                 ↔ 65 ≤ char_code ic.2 ≤ 90))
    cribs.
Proof.
  intros chars len cribs Hpos Hidx.
  assert (length chars = len) as Hchars by apply length_list_ascii.
  set (P := λ ic : Z * ascii, Ascii.eqb ic.2 "_"%char = false) in *.
  set (cribs_to := λ k : nat, filter P (zip (seqZ 0 (Z.of_nat k)) (take k chars))).
  assert (∀ k, (k ≤ len)%nat → (length (cribs_to k) ≤ k)%nat) as Hcount.
  { intros k Hk. unfold cribs_to. etrans; [apply length_filter|].
    rewrite length_zip, length_seqZ, length_take. lia. }
  assert (cribs_to len = cribs) as Hall.
  { unfold cribs_to, cribs. by rewrite <- Hchars, firstn_all, Hchars. }
  split; [|split; [|split]].
  - unfold main_cribs, for_range. rewrite Z.sub_0_r, Nat2Z.id.
    match goal with
    | |- for_loop ?n ?lo ?body ?s = _ =>
        destruct (for_loop_inv
          (λ i '(pos, idx, n_cribs), ∃ k : nat, i = Z.of_nat k ∧
             pos = (fst <$> cribs_to k) ++ drop (length (cribs_to k)) crib_positions ∧
             idx = ((λ ic, char_value char_signed ic.2 - 65) <$> cribs_to k)
                     ++ drop (length (cribs_to k)) crib_indices ∧
             n_cribs = Z.of_nat (length (cribs_to k)))
          body n lo s) as ([[pos idx] n_cribs] & -> & k & Hk & -> & -> & ->)
    end.
    + exists O. by rewrite !drop_0.
    + intros i [[pos idx] n_cribs] Hi (k & -> & -> & -> & ->).
      rewrite Nat2Z.id, get_lookup.
      destruct (lookup_lt_is_Some_2 chars k) as [c Hc]; [lia|].
      fold chars. rewrite Hc. cbn [mbind option_bind].
      assert (cribs_to (S k)
              = cribs_to k ++ (if Ascii.eqb c "_"%char then [] else [(Z.of_nat k, c)]))
        as Hstep.
      { unfold cribs_to. rewrite (take_S_r chars k c Hc).
        replace (Z.of_nat (S k)) with (Z.of_nat k + 1) by lia.
        rewrite seqZ_app by lia. rewrite Z.add_0_l.
        change (seqZ (Z.of_nat k) 1) with [Z.of_nat k].
        rewrite zip_with_app
          by (rewrite length_seqZ, length_take; lia).
        rewrite filter_app. f_equal. cbn [zip_with].
        rewrite filter_cons, filter_nil. unfold P at 1. cbn [snd].
        case_decide as Hd; [by rewrite Hd|].
        by destruct (Ascii.eqb c "_"%char). }
      pose proof (Hcount k ltac:(lia)) as Hck.
      rewrite char_value_underscore.
      destruct (Ascii.eqb c "_"%char) eqn:Hne; cbn [negb].
      * eexists. split; [done|]. exists (S k). rewrite Hstep, app_nil_r.
        split_and!; [lia|done..].
      * set (m := length (cribs_to k)) in *.
        destruct (lookup_lt_is_Some_2 crib_positions m) as [x Hx]; [lia|].
        destruct (lookup_lt_is_Some_2 crib_indices m) as [y Hy]; [lia|].
        unfold wr. rewrite Nat2Z.id.
        rewrite bool_decide_eq_true_2
          by (rewrite length_app, length_fmap, length_drop; fold m; lia).
        cbn [mbind option_bind].
        rewrite bool_decide_eq_true_2
          by (rewrite length_app, length_fmap, length_drop; fold m; lia).
        cbn [mbind option_bind]. eexists. split; [done|]. exists (S k).
        rewrite Hstep.
        rewrite !fmap_app, length_app. cbn [fmap list_fmap length fst snd].
        rewrite <- !(assoc_L (++)). cbn [app]. fold m.
        replace (m + 1)%nat with (S m) by lia.
        rewrite (drop_S crib_positions x m Hx), (drop_S crib_indices y m Hy).
        rewrite !insert_app_r_alt by (rewrite length_fmap; fold m; lia).
        rewrite !length_fmap. fold m. rewrite Nat.sub_diag. cbn [insert list_insert].
        split_and!; [lia|done|done|lia].
    + rewrite Z.add_0_l in Hk. apply Nat2Z.inj in Hk. subst k.
      by rewrite Hall.
  - rewrite <- Hall. by apply Hcount.
  - unfold cribs. eapply StronglySorted_sublist; [|apply seqZ_StronglySorted].
    etrans; [apply fmap_sublist, sublist_filter|].
    rewrite fst_zip by (rewrite length_seqZ; lia). done.
  - apply Forall_forall. intros [i c] Hic. unfold cribs in Hic.
    apply list_elem_of_filter in Hic as [Hp Hic].
    apply elem_of_lookup_zip_with in Hic as (k & i' & c' & [= <- <-] & Hi & Hc).
    apply lookup_seqZ in Hi as [-> Hk]. cbn [fst snd].
    split_and!; [lia|lia| |].
    + by rewrite Z.add_0_l, Nat2Z.id, get_lookup.
    + unfold in_alphabet, ALPHABET_SIZE, char_value.
      match goal with
      | |- context [char_code ?x] => pose proof (char_code_bound x) as Hb
      end.
      destruct (char_signed && (127 <? char_code _)) eqn:Hs; [|lia].
      apply andb_true_iff in Hs as [_ Hs]. lia.
Qed.

Lemma main_cribs_spec_witness :
  main_cribs true
    (String "_"%char (String (ascii_of_nat 195) (String (ascii_of_nat 169) EmptyString)))
    3 (replicate 4 0) (replicate 4 0)
  = Some ([1; 2; 0; 0], [-126; -152; 0; 0], 2).
Proof.
  exact (proj1 (main_cribs_spec true
                  (String "_"%char
                     (String (ascii_of_nat 195) (String (ascii_of_nat 169) EmptyString)))
                  (replicate 4 0) (replicate 4 0)
                  ltac:(simpl; lia) ltac:(simpl; lia))).
Defined.

(* ===================================================================== *)
(** * The period estimator returns accepted candidates, in order *)

(** [<] on [double]s is a strict order. *)
Lemma SFltb_irrefl (x : spec_float) : SFltb x x = false.
Proof.
  unfold SFltb, SFcompare. destruct x as [s|s| |s m e]; try done; try by destruct s.
  change (PosDef.Pos.compare_cont Eq m m) with (Pos.compare m m).
  rewrite Z.compare_refl, Pos.compare_refl. by destruct s.
Qed.

Lemma SFltb_trans (x y z : spec_float) :
  SFltb x y = true → SFltb y z = true → SFltb x z = true.
Proof.
  unfold SFltb, SFcompare.
  destruct x as [sx|sx| |sx mx ex], y as [sy|sy| |sy my ey],
    z as [sz|sz| |sz mz ez]; try done;
    try destruct sx; try destruct sy; try destruct sz; try done;
    change PosDef.Pos.compare_cont with Pos.compare_cont;
    repeat match goal with
           | |- context [Pos.compare_cont Eq ?a ?b] =>
               change (Pos.compare_cont Eq a b) with (Pos.compare a b)
           end;
    destruct (Z.compare_spec ex ey), (Z.compare_spec ey ez),
      (Z.compare_spec ex ez); try done; try lia;
    destruct (Pos.compare_spec mx my), (Pos.compare_spec my mz),
      (Pos.compare_spec mx mz); cbn; try done; lia.
Qed.

Lemma ltb_irrefl (x : double) : (x <? x)%float = false.
Proof. rewrite ltb_spec. apply SFltb_irrefl. Qed.

Lemma ltb_trans (x y z : double) :
  (x <? y)%float = true → (y <? z)%float = true → (x <? z)%float = true.
Proof. rewrite !ltb_spec. apply SFltb_trans. Qed.

Lemma ltb_asym (x y : double) :
  (x <? y)%float = true → (y <? x)%float = true → False.
Proof.
  intros Hxy Hyx. pose proof (ltb_trans _ _ _ Hxy Hyx) as H.
  by rewrite ltb_irrefl in H.
Qed.

Lemma StronglySorted_irrefl_NoDup {A : Type} (R : relation A) (l : list A) :
  (∀ x, ¬ R x x) → StronglySorted R l → NoDup l.
Proof.
  intros Hirr. induction 1 as [|x l Hl IH Hx]; constructor; [|done].
  intros Hin. rewrite Forall_forall in Hx. by apply (Hirr x), Hx.
Qed.

Lemma rdd_Some (vec : list double) (i : Z) (x : double) :
  rdd vec i = Some x ↔ 0 ≤ i ∧ vec !! Z.to_nat i = Some x.
Proof. unfold rdd. case_bool_decide; intuition (done || lia). Qed.

(** The selection loop of [estimate_cycleword_lengths]. *)
Lemma select_lengths_sound (mu_ioc mu_ioc_normalised : list double)
    (max_cycleword_len : Z) (n_sigma_threshold ioc_threshold : double)
    (cycleword_lengths lengths : list Z) (n : Z) :
  select_lengths mu_ioc mu_ioc_normalised max_cycleword_len n_sigma_threshold
    ioc_threshold cycleword_lengths = Some (n, lengths) →
  0 ≤ n ≤ Z.max 0 max_cycleword_len ∧
  Forall (λ p, 1 ≤ p ≤ max_cycleword_len ∧
               accepts mu_ioc mu_ioc_normalised n_sigma_threshold
                 ioc_threshold p = true) (take (Z.to_nat n) lengths) ∧
  StronglySorted (λ p q, (z_score mu_ioc_normalised q
                          <? z_score mu_ioc_normalised p)%float = true)
    (take (Z.to_nat n) lengths).
Proof.
  unfold select_lengths, for_range. rewrite Z.sub_0_r. intros Hsel.
  set (OK := λ p : Z, 1 ≤ p ≤ max_cycleword_len ∧
               accepts mu_ioc mu_ioc_normalised n_sigma_threshold
                 ioc_threshold p = true).
  set (zs := z_score mu_ioc_normalised).
  set (R := λ p q : Z, (zs q <? zs p)%float = true).
  set (Iout := λ (i : Z) (st : Z * double * list Z),
    let '(n, cur, ls) := st in
    ∃ k : nat, n = Z.of_nat k ∧ Z.of_nat k ≤ i ∧
      Forall OK (take k ls) ∧ StronglySorted R (take k ls) ∧
      (Z.of_nat k < i → cur = 0%float) ∧
      (Z.of_nat k = i → ∀ m, (m <? cur)%float = true →
         Forall (λ q, (m <? zs q)%float = true) (take k ls))).
  match type of Hsel with
  | (?l ≫= _) = _ => destruct l as [[[n' cur] ls]|] eqn:Hout; [|done]
  end.
  cbn in Hsel. injection Hsel as -> ->.
  match type of Hout with
  | for_loop ?N 0 ?body ?s = _ =>
      destruct (for_loop_partial Iout (λ _, False) body N 0 s _ Hout)
        as [(k & -> & Hk & HOK & Hsorted & _)|[]]
  end.
  - exists O. split_and!; [done|lia|by rewrite take_0| |lia|by rewrite take_0].
    rewrite take_0. constructor.
  - intros i [[n0 cur0] ls0] r Hi (k & -> & Hk & HOK & Hsorted & HB & HA) Hbody.
    (* the inner loop *)
    set (Iin := λ (j : Z) (st : bool * double * list Z),
      let '(t, m, ls') := st in
      take (Z.to_nat i) ls' = take (Z.to_nat i) ls0 ∧
      (t = false → m = 0%float ∧ ls' = ls0) ∧
      (cur0 = 0%float → t = false) ∧
      (t = true → ∃ p, ls' !! Z.to_nat i = Some p ∧ 1 ≤ p ≤ j ∧
         accepts mu_ioc mu_ioc_normalised n_sigma_threshold ioc_threshold p
         = true ∧
         zs p = m ∧ (m <? cur0)%float = true)).
    match type of Hbody with
    | (?l ≫= _) = _ => destruct l as [[[t m] ls']|] eqn:Hin; [|done]
    end.
    cbn in Hbody. injection Hbody as <-.
    match type of Hin with
    | for_loop ?N 0 ?body ?s = _ =>
        destruct (for_loop_partial Iin (λ _, False) body N 0 s _ Hin)
          as [(Htake & Hf & H0 & Ht)|[]]
    end.
    + split_and!; [done|done| |done].
      intros ->. destruct (decide (false = false)); done.
    + intros j [[t1 m1] ls1] r Hj (Htake & Hf & H0 & Ht) Hb.
      destruct (rdd mu_ioc_normalised j) as [z|] eqn:Hz; [|done].
      destruct (rdd mu_ioc j) as [v|] eqn:Hv; [|done].
      cbn [mbind option_bind] in Hb.
      destruct ((n_sigma_threshold <? z)%float && (ioc_threshold <? v)%float
                && (m1 <? z)%float && (z <? cur0)%float) eqn:Hcond.
      * destruct (wr ls1 i (j + 1)) as [ls2|] eqn:Hw; [|done].
        cbn in Hb. injection Hb as <-.
        apply wr_Some in Hw as (_ & Hlt & ->).
        apply andb_prop in Hcond as [Hcond Hzc].
        apply andb_prop in Hcond as [Hcond Hmz].
        split_and!.
        -- by rewrite take_insert_ge by lia.
        -- done.
        -- intros ->. destruct t1.
           ++ by specialize (H0 eq_refl).
           ++ destruct (Hf eq_refl) as [-> _]. by destruct (ltb_asym _ _ Hmz Hzc).
        -- intros _. exists (j + 1). rewrite list_lookup_insert_eq by done.
           split_and!; [done|lia|lia| | |done].
           ++ unfold accepts. replace (j + 1 - 1) with j by lia.
              by rewrite Hz, Hv.
           ++ unfold zs, z_score. replace (j + 1 - 1) with j by lia.
              by rewrite Hz.
      * cbn in Hb. injection Hb as <-. split_and!; [done..|].
        intros Ht1. destruct (Ht Ht1) as (p & ? & ? & ? & ? & ?).
        exists p. split_and!; [done|lia|lia|done..].
    + (* after the round *)
      cbn beta iota. destruct t.
      * destruct (Ht eq_refl) as (p & Hp & Hpj & Hacc & Hzp & Hlt).
        assert (Z.of_nat k = i) as Hki.
        { destruct (decide (Z.of_nat k = i)) as [|Hne]; [done|].
          by specialize (H0 (HB ltac:(lia))). }
        exists (S k). subst i. rewrite Nat2Z.id in *.
        rewrite (take_S_r ls' k p Hp), Htake.
        split_and!; [lia|lia| | |lia|].
        -- apply Forall_app. split; [done|]. apply Forall_singleton.
           split; [lia|done].
        -- apply StronglySorted_app_2; [|done|repeat constructor].
           intros q p' Hq ->%list_elem_of_singleton. unfold R.
           specialize (HA eq_refl (zs p)). rewrite Hzp in HA |- *.
           rewrite Forall_forall in HA. by apply HA.
        -- intros _ m' Hm'. apply Forall_app. split.
           ++ apply (HA eq_refl). by eapply ltb_trans.
           ++ apply Forall_singleton. by rewrite Hzp.
      * destruct (Hf eq_refl) as [-> ->]. exists k.
        split_and!; [done|lia|done|done|done|lia].
  - rewrite Nat2Z.id. split_and!; [lia|lia|done|done].
Qed.

(** [mu_ioc] has [MAX_CYCLEWORD_LEN] entries. *)
Lemma candidate_iocs_bound (text : list Z) (len max_cycleword_len : Z)
    (mu_ioc : list double) :
  candidate_iocs text len max_cycleword_len = Some mu_ioc →
  max_cycleword_len ≤ MAX_CYCLEWORD_LEN.
Proof.
  unfold candidate_iocs, for_range. intros Hrun.
  match type of Hrun with
  | for_loop ?N 1 ?body ?s = _ =>
      destruct (for_loop_partial
        (λ i (a : list double), Z.of_nat (length a) = MAX_CYCLEWORD_LEN ∧
                                i ≤ MAX_CYCLEWORD_LEN + 1)
        (λ _, False) body N 1 s _ Hrun) as [[_ Hle]|[]]
  end.
  - rewrite length_replicate. unfold MAX_CYCLEWORD_LEN. lia.
  - intros i a r Hi [Ha _] Hb.
    destruct (mean_ioc text len i) as [m|]; [|done].
    cbn [mbind option_bind] in Hb. unfold wrd in Hb.
    case_bool_decide as Hin; [|done]. cbn in Hb. injection Hb as <-.
    rewrite length_insert. lia.
  - lia.
Qed.

(** X19: whatever [estimate_cycleword_lengths] returns is sound: every
    period returned is in [[1, max_cycleword_len]] and passes both
    thresholds, the periods stand in strictly descending order of z-score,
    and none stands twice.  A [max_cycleword_len] above [MAX_CYCLEWORD_LEN]
    runs over the local arrays: then nothing is returned. *)
Theorem estimate_cycleword_lengths_sound (libm_pow : double → double → double)
    (text : list Z) (len max_cycleword_len : Z)
    (n_sigma_threshold ioc_threshold : double) (periods : list Z) :
  estimate_cycleword_lengths libm_pow text len max_cycleword_len
    n_sigma_threshold ioc_threshold = Some periods →
  ∃ mu_ioc mu_ioc_normalised,
    candidate_iocs text len max_cycleword_len = Some mu_ioc ∧
    normalise_iocs libm_pow mu_ioc max_cycleword_len = Some mu_ioc_normalised ∧
    Forall (λ p, 1 ≤ p ≤ max_cycleword_len ∧
                 accepts mu_ioc mu_ioc_normalised n_sigma_threshold
                   ioc_threshold p = true) periods ∧
    StronglySorted (λ p q, (z_score mu_ioc_normalised q
                            <? z_score mu_ioc_normalised p)%float = true)
      periods ∧
    NoDup periods ∧
    max_cycleword_len ≤ MAX_CYCLEWORD_LEN.
Proof.
  unfold estimate_cycleword_lengths. intros Hest.
  destruct (candidate_iocs text len max_cycleword_len) as [mu|] eqn:Hmu;
    [|done].
  cbn [mbind option_bind] in Hest.
  destruct (normalise_iocs libm_pow mu max_cycleword_len) as [z|] eqn:Hz;
    [|done].
  cbn [mbind option_bind] in Hest.
  destruct (select_lengths mu z max_cycleword_len n_sigma_threshold
              ioc_threshold (replicate (Z.to_nat MAX_CIPHER_LENGTH) 0))
    as [[n lengths]|] eqn:Hsel; [|done].
  cbn in Hest. injection Hest as <-.
  apply select_lengths_sound in Hsel as (_ & HOK & Hsorted).
  exists mu, z. split_and!; [done..| |by eapply candidate_iocs_bound].
  eapply StronglySorted_irrefl_NoDup; [|exact Hsorted].
  intros p Hp. cbn in Hp. by rewrite ltb_irrefl in Hp.
Qed.

Lemma estimate_cycleword_lengths_sound_witness :
  ∃ mu_ioc mu_ioc_normalised,
    candidate_iocs abc_text 60 20 = Some mu_ioc ∧
    normalise_iocs pow_square mu_ioc 20 = Some mu_ioc_normalised ∧
    Forall (λ p, 1 ≤ p ≤ 20 ∧
                 accepts mu_ioc mu_ioc_normalised 1 0.047 p = true) [3] ∧
    StronglySorted (λ p q, (z_score mu_ioc_normalised q
                            <? z_score mu_ioc_normalised p)%float = true) [3] ∧
    NoDup [3] ∧
    20 ≤ MAX_CYCLEWORD_LEN.
Proof.
  apply (estimate_cycleword_lengths_sound pow_square abc_text 60 20 1 0.047 [3]).
  vm_compute. reflexivity.
Defined.

(* ===================================================================== *)
(** * The hill climber: its loops and its best score *)

Section climber_loops.
Context (b : build) (keyword_fuel : nat) (cfg : climber_config).

(** What one hill climb does to the best score and to the loop counter. *)
Lemma hill_climb_best (i i' : Z) (s s' : climber) :
  hill_climb b cfg i s = Some (i', s') →
  (best_score s' = best_score s ∧ i' = i) ∨
  ((best_score s <? best_score s')%float = true ∧
   i' = if cfg_verbose cfg then Z.max (climber_cycleword_len b cfg) 0 else i).
Proof.
  unfold hill_climb. intros H.
  destruct (perturb_stage b cfg s) as [[loc g]|]; [|done].
  cbn [mbind option_bind] in H.
  destruct (constrain_stage _ _ _ _ _) as [[[flag n_contr] loc']|]; [|done].
  cbn [mbind option_bind] in H.
  destruct (score_state b cfg loc') as [local_score|]; [|done].
  cbn [mbind option_bind] in H.
  match type of H with
  | (?m ≫= _) = _ => destruct m as [[[[cur cur_score] n_expl] g']|]; [|done]
  end.
  cbn [mbind option_bind] in H.
  destruct (best_score s <? cur_score)%float eqn:Hlt.
  - destruct (copy_state b cfg cur (best_state s)) as [best|]; [|done].
    injection H as <- <-. right. by cbn.
  - injection H as <- <-. left. by cbn.
Qed.



(** One step never lowers the best score. *)
Lemma climber_next_best (c c' : control) (s s' : climber) :
  climber_next b keyword_fuel cfg c s = Some (c', s') →
  best_score s' = best_score s ∨ (best_score s <? best_score s')%float = true.
Proof.
  destruct c as [n|n i|]; cbn; intros Hnext.
  - destruct (n <? cfg_n_restarts cfg); [|injection Hnext as <- <-; by left].
    destruct (restart_begin b keyword_fuel cfg s) as [t|] eqn:Ht; [|done].
    cbn in Hnext. injection Hnext as <- <-.
    apply restart_begin_frame in Ht as (_ & _ & -> & _). by left.
  - destruct (i <? cfg_n_hill_climbs cfg); [|injection Hnext as <- <-; by left].
    destruct (hill_climb b cfg i s) as [[i' t]|] eqn:Ht; [|done].
    cbn in Hnext. injection Hnext as <- <-.
    destruct (hill_climb_best _ _ _ _ Ht) as [[-> _]|[Hlt _]]; auto.
  - injection Hnext as <- <-. by left.
Qed.

Lemma climber_run_best (k : nat) :
  ∀ c c' s s',
    climber_run b keyword_fuel cfg k c s = Some (c', s') →
    best_score s' = best_score s ∨ (best_score s <? best_score s')%float = true.
Proof.
  induction k as [|k IH]; intros c c' s s' Hrun.
  - cbn in Hrun. injection Hrun as <- <-. by left.
  - cbn [climber_run] in Hrun.
    destruct (climber_next b keyword_fuel cfg c s) as [[c1 s1]|] eqn:Hnext;
      [|done].
    destruct (climber_next_best _ _ _ _ Hnext) as [<-|H1]; [by eapply IH|].
    destruct (IH _ _ _ _ Hrun) as [->|H2]; [by right|].
    right. by eapply ltb_trans.
Qed.
End climber_loops.



(** X21: the best score never goes down: over any number of steps of the
    two loops it is what it was or strictly greater.  As it is [0.] at the
    entry, the score that the climber returns is [0.] or strictly positive,
    never negative and never a NaN. *)
Theorem best_score_never_decreases (b : build) (keyword_fuel : nat)
    (cfg : climber_config) (k : nat) (c c' : control) (s s' : climber) :
  climber_run b keyword_fuel cfg k c s = Some (c', s') →
  (best_score s' = best_score s ∨
   (best_score s <? best_score s')%float = true) ∧
  (best_score s = 0%float →
   ∀ out score out' decrypted,
     climber_result b cfg s' out = Some (score, out', decrypted) →
     score = 0%float ∨ (0 <? score)%float = true).
Proof.
  intros Hrun. pose proof (climber_run_best _ _ _ _ _ _ _ _ Hrun) as Hbest.
  split; [done|]. intros H0 out score out' decrypted Hres.
  unfold climber_result in Hres.
  destruct (copy_state _ _ _ _) as [o|]; [|done]. cbn in Hres.
  destruct (candidate_text _ _ _ _ _ _ _ _); [|done]. cbn in Hres.
  injection Hres as <- <- <-. rewrite H0 in Hbest.
  destruct Hbest as [->|?]; auto.
Qed.

Lemma best_score_never_decreases_witness :
  ∃ s', climber_run example_build 100 (example_config 5 true) 5 (AtRestart 0)
          example_entry = Some (AtReturn, s') ∧
        (best_score s' = best_score example_entry ∨
         (best_score example_entry <? best_score s')%float = true).
Proof.
  eexists. split; [vm_compute; reflexivity|].
  refine (proj1 (best_score_never_decreases example_build 100
    (example_config 5 true) 5 (AtRestart 0) AtReturn example_entry _ _)).
  vm_compute. reflexivity.
Defined.

(* ===================================================================== *)
(** * The keywords that go with a cipher type *)

Lemma cipher_labels_distinct (b : build) :
  NoDup (cipher_types b) →
  VIGENERE b ≠ QUAGMIRE_1 b ∧ VIGENERE b ≠ QUAGMIRE_2 b ∧
  VIGENERE b ≠ QUAGMIRE_3 b ∧ VIGENERE b ≠ QUAGMIRE_4 b ∧
  QUAGMIRE_1 b ≠ QUAGMIRE_2 b ∧ QUAGMIRE_1 b ≠ QUAGMIRE_3 b ∧
  QUAGMIRE_1 b ≠ QUAGMIRE_4 b ∧ QUAGMIRE_2 b ≠ QUAGMIRE_3 b ∧
  QUAGMIRE_2 b ≠ QUAGMIRE_4 b ∧ QUAGMIRE_3 b ≠ QUAGMIRE_4 b.
Proof.
  unfold cipher_types. rewrite !NoDup_cons, !not_elem_of_cons.
  intros H. split_and!; intros Heq; rewrite Heq in H; tauto.
Qed.

Section coupling.
Context (b : build) (keyword_fuel : nat) (cfg : climber_config).
Hypothesis Hlabels : NoDup (cipher_types b).
Hypothesis Hk4 : k4_off b.

Lemma copy_state_coupled (src dest k : key_state) :
  copy_state b cfg src dest = Some k →
  keywords_coupled b (cfg_cipher_type cfg) src →
  keywords_coupled b (cfg_cipher_type cfg) k.
Proof using Type.
  intros [HP HC]%copy_state_keywords (H1 & H2 & H3).
  split_and!; intros Ht; rewrite ?HP, ?HC; auto.
Qed.

(** A state whose keywords are those of a coupled state. *)
Lemma coupled_keywords (k k' : key_state) :
  plaintext_keyword_state k' = plaintext_keyword_state k →
  ciphertext_keyword_state k' = ciphertext_keyword_state k →
  keywords_coupled b (cfg_cipher_type cfg) k →
  keywords_coupled b (cfg_cipher_type cfg) k'.
Proof using Type. intros HP HC (H1 & H2 & H3). unfold keywords_coupled. by rewrite HP, HC. Qed.

Lemma fresh_state_coupled (s s' : climber) :
  fresh_state b keyword_fuel cfg s = Some s' →
  keywords_coupled b (cfg_cipher_type cfg) (current_state s').
Proof using Hlabels.
  clear Hk4. unfold fresh_state. intros H.
  pose proof (cipher_labels_distinct b Hlabels) as Hd.
  match type of H with
  | (?m ≫= _) = _ => destruct m as [[[[cur pkl] ckl] g]|] eqn:Hcur; [|done]
  end.
  cbn [mbind option_bind] in H.
  destruct (score_state b cfg cur); [|done]. injection H as <-.
  cbn [current_state]. revert Hcur.
  destruct (Z.eqb_spec (cfg_cipher_type cfg) (VIGENERE b)) as [Ht|Hn1].
  { intros Hcur. cbv iota in Hcur. destruct (random_keyword _ _ _ _ _) as [[P g1]|]; [|by cbn in Hcur].
    cbn [mbind option_bind] in Hcur.
    destruct (vec_copy P (ciphertext_keyword_state _) _) as [C|] eqn:HC; [|by cbn in Hcur].
    cbn [mbind option_bind] in Hcur.
    destruct (vec_copy P (cycleword_state _) _) as [W|]; [|by cbn in Hcur]. injection Hcur as <- <- <- <-.
    apply (vec_copy_take _ _ _ 26) in HC.
    split_and!; cbn; intros; [lia|lia|done]. }
  destruct (Z.eqb_spec (cfg_cipher_type cfg) (QUAGMIRE_1 b)) as [Ht|Hn2].
  { intros Hcur. cbv iota in Hcur. destruct (random_keyword _ _ _ _ _) as [[P g1]|]; [|by cbn in Hcur].
    cbn [mbind option_bind] in Hcur.
    destruct (write_straight _ _) as [C|] eqn:HC; [|by cbn in Hcur].
    cbn [mbind option_bind] in Hcur.
    destruct (random_cycleword _ _ _ _) as [[W g2]|]; [|by cbn in Hcur].
    injection Hcur as <- <- <- <-.
    apply (write_straight_take _ _ 26) in HC.
    split_and!; cbn; intros; [exact HC|lia|lia]. }
  destruct (Z.eqb_spec (cfg_cipher_type cfg) (QUAGMIRE_2 b)) as [Ht|Hn3].
  { intros Hcur. cbv iota in Hcur. destruct (write_straight _ _) as [P|] eqn:HP; [|by cbn in Hcur].
    cbn [mbind option_bind] in Hcur.
    destruct (random_keyword _ _ _ _ _) as [[C g1]|]; [|by cbn in Hcur].
    cbn [mbind option_bind] in Hcur.
    destruct (random_cycleword _ _ _ _) as [[W g2]|]; [|by cbn in Hcur].
    injection Hcur as <- <- <- <-.
    apply (write_straight_take _ _ 26) in HP.
    split_and!; cbn; intros; [lia|exact HP|lia]. }
  destruct (Z.eqb_spec (cfg_cipher_type cfg) (QUAGMIRE_3 b)) as [Ht|Hn4].
  { intros Hcur. cbv iota in Hcur. destruct (random_keyword _ _ _ _ _) as [[P g1]|]; [|by cbn in Hcur].
    cbn [mbind option_bind] in Hcur.
    destruct (vec_copy P (ciphertext_keyword_state _) _) as [C|] eqn:HC; [|by cbn in Hcur].
    cbn [mbind option_bind] in Hcur.
    destruct (random_cycleword _ _ _ _) as [[W g2]|]; [|by cbn in Hcur].
    injection Hcur as <- <- <- <-.
    apply (vec_copy_take _ _ _ 26) in HC.
    split_and!; cbn; intros; [lia|lia|done]. }
  cbv iota. intros _. split_and!; intros; lia.
Qed.

Lemma keyword_move_coupled (k k' : key_state) (pkl ckl : Z) (g g' : rng) :
  keyword_move b cfg k pkl ckl g = Some (k', g') →
  keywords_coupled b (cfg_cipher_type cfg) k →
  keywords_coupled b (cfg_cipher_type cfg) k'.
Proof using Hlabels.
  clear Hk4. unfold keyword_move. intros H (H1 & H2 & H3).
  pose proof (cipher_labels_distinct b Hlabels) as Hd. revert H.
  destruct (Z.eqb_spec (cfg_cipher_type cfg) (VIGENERE b)) as [Ht|Hn1].
  { intros H. cbv iota in H.
    destruct (perturb_keyword _ _ _ _) as [[P g1]|]; [|by cbn in H].
    cbn [mbind option_bind] in H.
    destruct (vec_copy P (ciphertext_keyword_state _) _) as [C|] eqn:HC;
      [|by cbn in H].
    cbn [mbind option_bind] in H.
    destruct (vec_copy P (cycleword_state _) _) as [W|]; [|by cbn in H].
    injection H as <- <-. apply (vec_copy_take _ _ _ 26) in HC.
    split_and!; cbn; intros; [lia|lia|done]. }
  destruct (Z.eqb_spec (cfg_cipher_type cfg) (QUAGMIRE_1 b)) as [Ht|Hn2].
  { intros H. cbv iota in H.
    destruct (perturb_keyword _ _ _ _) as [[P g1]|]; [|by cbn in H].
    injection H as <- <-. split_and!; cbn; intros; [auto|lia|lia]. }
  destruct (Z.eqb_spec (cfg_cipher_type cfg) (QUAGMIRE_2 b)) as [Ht|Hn3].
  { intros H. cbv iota in H.
    destruct (perturb_keyword _ _ _ _) as [[C g1]|]; [|by cbn in H].
    injection H as <- <-. split_and!; cbn; intros; [lia|auto|lia]. }
  destruct (Z.eqb_spec (cfg_cipher_type cfg) (QUAGMIRE_3 b)) as [Ht|Hn4].
  { intros H. cbv iota in H.
    destruct (perturb_keyword _ _ _ _) as [[P g1]|]; [|by cbn in H].
    cbn [mbind option_bind] in H.
    destruct (vec_copy P _ _) as [C|] eqn:HC; [|by cbn in H].
    injection H as <- <-. apply (vec_copy_take _ _ _ 26) in HC.
    split_and!; cbn; intros; [lia|lia|done]. }
  intros _. split_and!; intros; lia.
Qed.

Lemma perturb_stage_coupled (s : climber) (loc : key_state) (g : rng) :
  perturb_stage b cfg s = Some (loc, g) →
  keywords_coupled b (cfg_cipher_type cfg) (current_state s) →
  keywords_coupled b (cfg_cipher_type cfg) loc.
Proof using Hlabels Hk4.
  unfold perturb_stage. intros H Hcur.
  destruct (copy_state _ _ _ _) as [loc0|] eqn:Hloc0; [|done].
  cbn [mbind option_bind] in H.
  apply (copy_state_coupled _ _ _ Hloc0) in Hcur.
  destruct (choose_keyword_move _ _ _ _) as [keyword g0].
  match type of H with
  | (?m ≫= _) = _ => destruct m as [[loc1 g1]|] eqn:Hmove; [|done]
  end.
  cbn [mbind option_bind] in H.
  destruct (k4_blocks _ _ _ _) as [loc'|] eqn:Hk; [|done].
  apply (k4_blocks_off _ _ _ _ _ Hk4) in Hk as ->.
  injection H as <- <-. destruct keyword.
  - by apply keyword_move_coupled in Hmove.
  - destruct (perturbate_cycleword _ _ _ _) as [[W g2]|]; [|done].
    injection Hmove as <- <-. by eapply coupled_keywords.
Qed.

Lemma constrain_stage_coupled (flag flag' : bool) (n n' : Z)
    (loc loc' : key_state) :
  constrain_stage b cfg flag n loc = Some (flag', n', loc') →
  keywords_coupled b (cfg_cipher_type cfg) loc →
  keywords_coupled b (cfg_cipher_type cfg) loc'.
Proof using Type.
  unfold constrain_stage. intros H Hloc.
  destruct (negb _ && negb _); [|by injection H as <- <- <-].
  destruct (constrain_cycleword _ _ _ _ _ _ _ _ _ _ _) as [[contr W]|];
    [|done].
  cbn in H. destruct contr; injection H as <- <- <-;
    by eapply coupled_keywords.
Qed.

Lemma hill_climb_coupled (i i' : Z) (s s' : climber) :
  hill_climb b cfg i s = Some (i', s') →
  keywords_coupled b (cfg_cipher_type cfg) (current_state s) →
  ((0 <? best_score s)%float = true →
   keywords_coupled b (cfg_cipher_type cfg) (best_state s)) →
  keywords_coupled b (cfg_cipher_type cfg) (local_state s') ∧
  keywords_coupled b (cfg_cipher_type cfg) (current_state s') ∧
  ((0 <? best_score s')%float = true →
   keywords_coupled b (cfg_cipher_type cfg) (best_state s')).
Proof using Hlabels Hk4.
  intros H Hcur Hbest.
  apply hill_climb_stages in H
    as (loc & g & flag & n_contr & Hp & Hc & _ & _ & Hcur' & Hbest').
  assert (keywords_coupled b (cfg_cipher_type cfg) (local_state s')) as Hloc.
  { eapply constrain_stage_coupled; [exact Hc|].
    by eapply perturb_stage_coupled. }
  assert (keywords_coupled b (cfg_cipher_type cfg) (current_state s')) as Hc'.
  { destruct Hcur' as [->|Hcp]; [done|]. by eapply copy_state_coupled. }
  split_and!; [done|done|].
  destruct Hbest' as [[-> ->]|Hcp]; [done|].
  intros _. by eapply copy_state_coupled.
Qed.

Lemma restart_begin_coupled (s s' : climber) :
  ((0 <? best_score s)%float = true →
   keywords_coupled b (cfg_cipher_type cfg) (best_state s)) →
  restart_begin b keyword_fuel cfg s = Some s' →
  keywords_coupled b (cfg_cipher_type cfg) (current_state s').
Proof using Hlabels Hk4.
  unfold restart_begin. intros Hbest H.
  destruct (if (0 <? best_score s)%float then _ else _) as [t|] eqn:Ht; [|done].
  cbn in H. destruct (k4_blocks _ _ _ _) as [cur|] eqn:Hcur; [|done].
  injection H as <-. cbn. apply (k4_blocks_off _ _ _ _ _ Hk4) in Hcur as ->.
  destruct (0 <? best_score s)%float; [|by apply fresh_state_coupled in Ht].
  destruct (frand _ _) as [u g]. destruct (u <? _)%float.
  - unfold backtrack_state in Ht. cbn in Ht.
    destruct (copy_state _ _ _ _) as [k|] eqn:Hk; [|done].
    injection Ht as <-. cbn. eapply copy_state_coupled; [exact Hk|]. by apply Hbest.
  - by apply fresh_state_coupled in Ht.
Qed.

Lemma climber_next_coupled (c c' : control) (s s' : climber) :
  climber_next b keyword_fuel cfg c s = Some (c', s') →
  coupled_inv b (cfg_cipher_type cfg) c s →
  coupled_inv b (cfg_cipher_type cfg) c' s'.
Proof using Hlabels Hk4.
  intros H (Hcur & Hloc & Hbest). destruct c as [n|n i|]; cbn in H.
  - destruct (n <? cfg_n_restarts cfg).
    + destruct (restart_begin _ _ _ _) as [t|] eqn:Ht; [|done].
      injection H as <- <-.
      pose proof (restart_begin_coupled _ _ Hbest Ht) as Hid.
      apply restart_begin_frame in Ht as (Hl & Hb & Hs & Hn).
      unfold coupled_inv. rewrite Hl, Hb, Hs, Hn. by split_and!.
    + injection H as <- <-. by split_and!.
  - destruct (i <? cfg_n_hill_climbs cfg).
    + destruct (hill_climb _ _ _ _) as [[j t]|] eqn:Ht; [|done].
      injection H as <- <-.
      destruct (hill_climb_coupled _ _ _ _ Ht Hcur Hbest) as (? & ? & ?).
      by split_and!.
    + injection H as <- <-. by split_and!.
  - injection H as <- <-. by split_and!.
Qed.

Lemma climber_run_coupled (k : nat) :
  ∀ (c c' : control) (s s' : climber),
    climber_run b keyword_fuel cfg k c s = Some (c', s') →
    coupled_inv b (cfg_cipher_type cfg) c s →
    coupled_inv b (cfg_cipher_type cfg) c' s'.
Proof using Hlabels Hk4.
  induction k as [|k IH]; intros c c' s s' H Hinv; cbn in H.
  - by injection H as <- <-.
  - destruct (climber_next _ _ _ _ _) as [[c1 s1]|] eqn:H1; [|done].
    apply (IH _ _ _ _ H). by apply (climber_next_coupled _ _ _ _ H1).
Qed.
End coupling.

(** X22: the climber keeps the keywords that go with the cipher type (the
    K4 switches off, the type labels distinct).  At every point of a run
    the current, the candidate and the best state have, for Quagmire I, a
    straight ciphertext keyword, for Quagmire II a straight plaintext
    keyword, for Vigenere and Quagmire III the same keyword twice; and so
    have the keywords that the climber returns with a score above zero. *)
Theorem climber_keeps_coupling (b : build) (keyword_fuel : nat)
    (cfg : climber_config) (k : nat)
    (uninit_local uninit_current uninit_best : key_state)
    (uninit_score : double) (uninit_flag : bool)
    (plaintext_keyword_len ciphertext_keyword_len : Z) (g : rng)
    (c : control) (s : climber) :
  NoDup (cipher_types b) →
  k4_off b →
  climber_run b keyword_fuel cfg k (AtRestart 0)
    (climber_entry uninit_local uninit_current uninit_best uninit_score
       uninit_flag plaintext_keyword_len ciphertext_keyword_len g)
  = Some (c, s) →
  coupled_inv b (cfg_cipher_type cfg) c s ∧
  ∀ out score out' decrypted,
    climber_result b cfg s out = Some (score, out', decrypted) →
    (0 <? score)%float = true →
    keywords_coupled b (cfg_cipher_type cfg) out'.
Proof.
  intros Hlabels Hk4 Hrun.
  assert (coupled_inv b (cfg_cipher_type cfg) c s) as Hinv.
  { apply (climber_run_coupled b keyword_fuel cfg Hlabels Hk4 _ _ _ _ _ Hrun).
    split_and!; [done|cbn; lia|cbn; done]. }
  split; [done|]. intros out score out' decrypted Hres Hscore.
  unfold climber_result in Hres.
  destruct (copy_state _ _ _ _) as [o|] eqn:Ho; [|done]. cbn in Hres.
  destruct (candidate_text _ _ _ _ _ _ _ _); [|done]. cbn in Hres.
  injection Hres as <- <- <-.
  eapply copy_state_coupled; [exact Ho|]. by apply Hinv.
Qed.

Lemma climber_keeps_coupling_witness :
  ∃ s,
    climber_run example_build 100 (example_config 1 false) 3 (AtRestart 0)
      example_entry
    = Some (AtIteration 0 2, s) ∧
    coupled_inv example_build 1 (AtIteration 0 2) s.
Proof.
  eexists. split; [vm_compute; reflexivity|].
  refine (proj1 (climber_keeps_coupling example_build 100
    (example_config 1 false) 3 example_uninit example_uninit example_uninit
    0 false 7 7 rng_example (AtIteration 0 2) _ _ _ _)).
  - apply (bool_decide_unpack _). vm_compute. exact I.
  - by repeat split.
  - vm_compute. reflexivity.
Defined.

(* ===================================================================== *)
(** * [random_keyword] sets up the block encoding *)

(** A [while] loop that returns keeps what its body keeps. *)
Lemma while_loop_partial {St : Type} (I : St → Prop) (cond : St → bool)
    (body : St → option St) (fuel : nat) :
  ∀ s s' : St,
    while_loop fuel cond body s = Some s' →
    I s →
    (∀ s t, I s → cond s = true → body s = Some t → I t) →
    I s' ∧ cond s' = false.
Proof.
  induction fuel as [|fuel IH]; intros s s' Hrun HI Hbody; [done|].
  cbn [while_loop] in Hrun. destruct (cond s) eqn:Hc.
  - destruct (body s) as [t|] eqn:Ht; [|done].
    apply (IH t s' Hrun); [by eapply Hbody|done].
  - by injection Hrun as <-.
Qed.

Lemma length_filter_complement {A : Type} (P : A → Prop)
    `{∀ x, Decision (P x)} (l : list A) :
  (length (filter P l) + length (filter (λ x, ¬ P x) l) = length l)%nat.
Proof.
  induction l as [|x l IH]; [done|]. rewrite !filter_cons.
  destruct (decide (P x)); [rewrite decide_False by tauto|rewrite decide_True by done];
    cbn; lia.
Qed.

(** The symbols of the alphabet outside a list of distinct symbols. *)
Lemma length_alphabet_rest (pre : list Z) :
  NoDup pre → Forall in_alphabet pre →
  (length (filter (λ x, x ∉ pre) (seqZ 0 26)) = 26 - length pre)%nat.
Proof.
  intros Hnd Hall.
  pose proof (length_filter_complement (λ x, x ∈ pre) (seqZ 0 26)) as Hsum.
  rewrite length_seqZ in Hsum.
  assert (filter (λ x, x ∈ pre) (seqZ 0 26) ≡ₚ pre) as Hperm.
  { apply NoDup_Permutation; [apply NoDup_filter, NoDup_seqZ|done|].
    intros x. rewrite list_elem_of_filter, elem_of_seqZ. split; [tauto|].
    intros Hx. split; [done|]. rewrite Forall_forall in Hall.
    specialize (Hall x Hx). unfold in_alphabet, ALPHABET_SIZE in Hall. lia. }
  apply Permutation_length in Hperm. change (Z.to_nat 26) with 26%nat in Hsum.
  lia.
Qed.

(** The first loop of [random_keyword]: [keyword_len] distinct symbols. *)
Lemma random_keyword_draws (RAND_MAX : Z) (fuel : nat) (keyword kw : list Z)
    (keyword_len n : Z) (g g' : rng) :
  rng_ok RAND_MAX g → length keyword = 26%nat → 0 ≤ keyword_len →
  while_loop fuel
    (λ '(keyword, n_chars, g), n_chars <? keyword_len)
    (λ '(keyword, n_chars, g),
       '(candidate, g) ← rand_int 0 ALPHABET_SIZE g;
       distinct ← for_range 0 n_chars (λ i distinct,
                    ki ← rd keyword i;
                    if ki =? candidate then Some (Break false)
                    else Some (Next distinct)) true;
       if distinct : bool then
         keyword ← wr keyword n_chars candidate;
         Some (keyword, n_chars + 1, g)
       else Some (keyword, n_chars, g))
    (keyword, 0, g) = Some (kw, n, g') →
  n = keyword_len ∧ keyword_len ≤ 26 ∧ length kw = 26%nat ∧
  NoDup (take (Z.to_nat keyword_len) kw) ∧
  Forall in_alphabet (take (Z.to_nat keyword_len) kw) ∧
  rng_ok RAND_MAX g'.
Proof.
  intros Hg Hlen Hkl Hrun.
  destruct (while_loop_partial
    (λ '(kw, n, g), 0 ≤ n ≤ keyword_len ∧ n ≤ 26 ∧ length kw = 26%nat ∧
       NoDup (take (Z.to_nat n) kw) ∧ Forall in_alphabet (take (Z.to_nat n) kw) ∧
       rng_ok RAND_MAX g) _ _ _ _ _ Hrun)
    as [(Hn & Hn26 & Hlen' & Hnd & Hall & Hg') Hexit].
  - split_and!; [lia|lia|lia|done|constructor|constructor|done].
  - intros [[k1 n1] g1] [[k2 n2] g2] (Hn & Hn26 & Hl & Hnd & Hall & Hg1) Hc Hbody.
    apply Z.ltb_lt in Hc.
    destruct (rand_int_ok RAND_MAX 0 ALPHABET_SIZE g1 Hg1 eq_refl)
      as (cand & g3 & Hcand & Hrange & Hg3).
    rewrite Hcand in Hbody. cbn [mbind option_bind] in Hbody.
    match type of Hbody with
    | (?m ≫= _) = _ => destruct m as [distinct|] eqn:Hdist; [|done]
    end.
    cbn [mbind option_bind] in Hbody. destruct distinct.
    + destruct (wr k1 n1 cand) as [k3|] eqn:Hw; [|done].
      cbn in Hbody. injection Hbody as <- <- <-.
      apply wr_Some in Hw as (_ & Hlt & ->).
      unfold for_range in Hdist. rewrite Z.sub_0_r in Hdist.
      destruct (for_loop_partial
        (λ i (d : bool), ∀ j : nat, Z.of_nat j < i → k1 !! j ≠ Some cand)
        (λ d, d = false) _ _ _ _ _ Hdist) as [Hnot|?]; [| |clear Hdist|done].
      * intros j Hj. lia.
      * intros i d r Hi HI Hb.
        destruct (rd k1 i) as [ki|] eqn:Hki; [|done]. cbn in Hb.
        destruct (Z.eqb_spec ki cand) as [->|Hne]; injection Hb as <-; [done|].
        intros j Hj. destruct (decide (Z.of_nat j < i)); [by apply HI|].
        assert (i = Z.of_nat j) as -> by lia.
        rewrite rd_of_nat in Hki. rewrite Hki. congruence.
      * rewrite length_insert.
        replace (Z.to_nat (n1 + 1)) with (S (Z.to_nat n1)) by lia.
        rewrite (take_S_r _ _ cand) by (by apply list_lookup_insert_eq).
        rewrite take_insert_ge by lia.
        split_and!; [lia|lia|lia|done| | |done].
        -- apply NoDup_app. split_and!; [done| |apply NoDup_singleton].
           intros x Hx ->%list_elem_of_singleton.
           apply list_elem_of_lookup in Hx as [j Hj].
           pose proof (lookup_lt_Some _ _ _ Hj) as Hjl.
           rewrite length_take in Hjl.
           rewrite lookup_take_lt in Hj by lia.
           apply (Hnot j); [lia|done].
        -- apply Forall_app. split; [done|]. by apply Forall_singleton.
    + injection Hbody as <- <- <-. split_and!; done || lia.
  - apply Z.ltb_ge in Hexit. assert (n = keyword_len) as -> by lia.
    split_and!; done || lia.
Qed.

(** The second loop of [random_keyword]: the rest of the alphabet, in
    order, behind the keyword. *)
Lemma random_keyword_pads (keyword kw : list Z) (keyword_len indx : Z) :
  length keyword = 26%nat → 0 ≤ keyword_len ≤ 26 →
  NoDup (take (Z.to_nat keyword_len) keyword) →
  Forall in_alphabet (take (Z.to_nat keyword_len) keyword) →
  for_range 0 ALPHABET_SIZE (λ i '(keyword, indx),
       present ← for_range 0 keyword_len (λ j present,
                    kj ← rd keyword j;
                    if kj =? i then Some (Break true)
                    else Some (Next present)) false;
       if present : bool then Some (Next (keyword, indx))
       else keyword ← wr keyword indx i; Some (Next (keyword, indx + 1)))
    (keyword, keyword_len) = Some (kw, indx) →
  kw = take (Z.to_nat keyword_len) keyword
       ++ filter (λ x, x ∉ take (Z.to_nat keyword_len) keyword) (seqZ 0 26).
Proof.
  intros Hlen Hkl Hnd Hall Hrun. set (kl := Z.to_nat keyword_len) in *.
  set (pre := take kl keyword) in *.
  assert (length pre = kl) as Hpre by (unfold pre; rewrite length_take; lia).
  unfold for_range in Hrun. rewrite Z.sub_0_r in Hrun.
  destruct (for_loop_partial
    (λ i '(k, ix), 0 ≤ i ∧ length k = 26%nat ∧
       let seg := filter (λ x, x ∉ pre) (seqZ 0 i) in
       ix = Z.of_nat (kl + length seg) ∧ take (kl + length seg) k = pre ++ seg)
    (λ _, False) _ _ _ _ _ Hrun) as [(_ & Hlen' & Hix & Htake)|[]].
  - split; [done|]. split; [done|]. cbv zeta.
    change (seqZ 0 0) with (@nil Z). rewrite filter_nil. cbn [length].
    split; [lia|]. by rewrite Nat.add_0_r, app_nil_r.
  - intros i [k ix] r Hi (Hi0 & Hk & Hix & Htake) Hbody. cbn zeta in *.
    set (seg := filter (λ x, x ∉ pre) (seqZ 0 i)) in *.
    assert (take kl k = pre) as Hkpre.
    { replace kl with (kl `min` (kl + length seg))%nat at 1 by lia.
      rewrite <- take_take, Htake, take_app_le by lia.
      by rewrite firstn_all2 by lia. }
    assert (seqZ 0 (i + 1) = seqZ 0 i ++ [i]) as Hseq
      by (by rewrite seqZ_app by lia).
    match type of Hbody with
    | (?m ≫= _) = _ => destruct m as [present|] eqn:Hpres; [|done]
    end.
    cbn [mbind option_bind] in Hbody.
    unfold for_range in Hpres. rewrite Z.sub_0_r in Hpres. fold kl in Hpres.
    destruct (for_loop_partial
      (λ j (p : bool), p = false ∧
         ∀ j' : nat, Z.of_nat j' < j → k !! j' ≠ Some i)
      (λ p, p = true ∧ i ∈ pre) _ _ _ _ _ Hpres)
      as [[-> Hnot]|[-> Hin]]; [| | |].
    + split; [done|]. intros j' Hj'. lia.
    + intros j p r' Hj [-> HI] Hb.
      destruct (rd k j) as [kj|] eqn:Hkj; [|done]. cbn in Hb.
      destruct (Z.eqb_spec kj i) as [->|Hne]; injection Hb as <-.
      * split; [done|]. rewrite <- Hkpre. apply list_elem_of_lookup.
        exists (Z.to_nat j). rewrite lookup_take_lt by lia.
        by apply rd_Some in Hkj as [_ ?].
      * split; [done|]. intros j' Hj'.
        destruct (decide (Z.of_nat j' < j)); [by apply HI|].
        assert (j = Z.of_nat j') as -> by lia.
        rewrite rd_of_nat in Hkj. rewrite Hkj. congruence.
    + (* the symbol is not in the keyword: it is written *)
      destruct (wr k ix i) as [k'|] eqn:Hw; [|done]. cbn in Hbody.
      injection Hbody as <-. apply wr_Some in Hw as (_ & Hlt & ->).
      assert (i ∉ pre) as Hni.
      { rewrite <- Hkpre. intros [j Hj]%list_elem_of_lookup.
        pose proof (lookup_lt_Some _ _ _ Hj) as Hjl. rewrite length_take in Hjl.
        rewrite lookup_take_lt in Hj by lia. apply (Hnot j); [lia|done]. }
      rewrite Hseq, filter_app, filter_cons, filter_nil, decide_True by done.
      fold seg. rewrite length_app, length_insert. cbn [length].
      subst ix. rewrite Nat2Z.id in *.
      split_and!; [lia|done|lia|].
      replace (kl + (length seg + 1))%nat with (S (kl + length seg)) by lia.
      rewrite (take_S_r _ _ i) by (by apply list_lookup_insert_eq).
      rewrite take_insert_ge, Htake by lia. by rewrite <- (assoc_L (++)).
    + (* the symbol is in the keyword *)
      injection Hbody as <-.
      rewrite Hseq, filter_app, filter_cons, filter_nil, decide_False
        by (intros Hn; by apply Hn).
      rewrite app_nil_r. fold seg. split_and!; done || lia.
  - cbn zeta in Htake. rewrite Z.add_0_l in Htake.
    change (Z.of_nat (Z.to_nat ALPHABET_SIZE)) with 26 in Htake.
    rewrite (length_alphabet_rest pre Hnd Hall) in Htake.
    replace (kl + (26 - length pre))%nat with 26%nat in Htake by lia.
    by rewrite firstn_all2 in Htake by lia.
Qed.

(** X23: whatever [random_keyword] returns on an array of
    [ALPHABET_SIZE] entries is a keyword permutation in the block encoding
    of [perturbate_keyword]: [keyword_len] distinct symbols, then the rest
    of the alphabet in ascending order.  It returns only for a keyword
    length in [[0, 26]]: the rejection loop cannot find a 27th distinct
    symbol, and a negative length makes the padding loop write in front of
    the array. *)
Theorem random_keyword_encoding (RAND_MAX : Z) (fuel : nat)
    (keyword kw : list Z) (keyword_len : Z) (g g' : rng) :
  rng_ok RAND_MAX g → length keyword = 26%nat →
  random_keyword fuel keyword ALPHABET_SIZE keyword_len g = Some (kw, g') →
  0 ≤ keyword_len ≤ 26 ∧
  keyword_encoding keyword_len kw ∧
  kw = take (Z.to_nat keyword_len) kw
       ++ filter (λ x, x ∉ take (Z.to_nat keyword_len) kw) (seqZ 0 26) ∧
  rng_ok RAND_MAX g'.
Proof.
  intros Hg Hlen Hrun. unfold random_keyword in Hrun.
  match type of Hrun with
  | (?m ≫= _) = _ => destruct m as [[[k1 n] g1]|] eqn:Hloop; [|done]
  end.
  cbn [mbind option_bind] in Hrun.
  match type of Hrun with
  | (?m ≫= _) = _ => destruct m as [[k2 indx]|] eqn:Hpad; [|done]
  end.
  cbn in Hrun. injection Hrun as <- <-.
  destruct (decide (0 ≤ keyword_len)) as [Hkl|Hkl].
  - destruct (random_keyword_draws RAND_MAX fuel keyword k1 keyword_len n g g1
                Hg Hlen Hkl Hloop) as (-> & Hle & Hlen1 & Hnd & Hall & Hg1).
    pose proof (random_keyword_pads k1 k2 keyword_len indx Hlen1
                  ltac:(lia) Hnd Hall Hpad) as Hk2.
    set (pre := take (Z.to_nat keyword_len) k1) in *.
    assert (length pre = Z.to_nat keyword_len) as Hpre
      by (unfold pre; rewrite length_take; lia).
    assert (take (Z.to_nat keyword_len) k2 = pre) as Htk.
    { rewrite Hk2, take_app_le by lia. by rewrite firstn_all2 by lia. }
    rewrite Htk. split_and!; [done|done| |done|done].
    rewrite Hk2. apply keyword_encoding_join.
    + lia.
    + rewrite (length_alphabet_rest pre Hnd Hall). lia.
    + done.
    + apply Forall_forall. intros x [_ Hx]%list_elem_of_filter.
      apply elem_of_seqZ in Hx. unfold in_alphabet, ALPHABET_SIZE. lia.
    + done.
    + eapply StronglySorted_sublist; [apply sublist_filter|].
      apply (seqZ_StronglySorted 0 26).
    + intros x. rewrite list_elem_of_filter, elem_of_seqZ.
      unfold in_alphabet, ALPHABET_SIZE. split; intros [? ?]; split; done || lia.
  - exfalso. destruct fuel as [|fuel]; [done|]. cbn [while_loop] in Hloop.
    rewrite (proj2 (Z.ltb_ge 0 keyword_len)) in Hloop by lia.
    injection Hloop as <- <- <-.
    unfold for_range in Hpad.
    change (Z.to_nat (ALPHABET_SIZE - 0)) with 26%nat in Hpad.
    cbn [for_loop] in Hpad.
    replace (Z.to_nat (keyword_len - 0)) with O in Hpad by lia.
    cbn [for_loop mbind option_bind] in Hpad. unfold wr in Hpad.
    rewrite bool_decide_eq_false_2 in Hpad by lia. done.
Qed.

Lemma random_keyword_encoding_witness :
  ∃ kw g',
    random_keyword 100 (replicate 26 0) ALPHABET_SIZE 7 rng_example
    = Some (kw, g') ∧ keyword_encoding 7 kw.
Proof.
  eexists _, _. split; [vm_compute; reflexivity|].
  refine (proj1 (proj2 (random_keyword_encoding 32767 100 (replicate 26 0) _ 7
            rng_example _ rng_example_ok eq_refl _))).
  vm_compute. reflexivity.
Defined.

(* ===================================================================== *)
(** * [main]: which runs of the climber are made *)

(** A loop that only adds to a list. *)
Lemma for_loop_collect {A : Type} (F : Z → A → Prop)
    (body : Z → list A → option (ctl (list A))) (n : nat) :
  ∀ (lo : Z) (acc acc' : list A),
    (∀ i a r, lo ≤ i < lo + Z.of_nat n → body i a = Some r →
       ∃ a', r = Next a' ∧ ∀ t, t ∈ a' ↔ t ∈ a ∨ F i t) →
    for_loop n lo body acc = Some acc' →
    ∀ t, t ∈ acc' ↔ t ∈ acc ∨ ∃ i, lo ≤ i < lo + Z.of_nat n ∧ F i t.
Proof.
  induction n as [|n IH]; intros lo acc acc' Hbody Hrun t.
  - cbn in Hrun. injection Hrun as <-. split; [by left|].
    intros [?|(i & Hi & _)]; [done|lia].
  - cbn [for_loop] in Hrun. destruct (body lo acc) as [r|] eqn:Hb; [|done].
    destruct (Hbody lo acc r ltac:(lia) Hb) as (a' & -> & Ha').
    rewrite (IH (lo + 1) a' acc'); [|intros i a r Hi; apply Hbody; lia|done].
    rewrite Ha'. split.
    + intros [[?|?]|(i & Hi & ?)]; [by left|right; exists lo; split; [lia|done]|].
      right. exists i. split; [lia|done].
    + intros [?|(i & Hi & HF)]; [by left; left|].
      destruct (decide (i = lo)) as [->|Hne]; [by left; right|].
      right. exists i. split; [lia|done].
Qed.

Lemma for_range_collect {A : Type} (F : Z → A → Prop)
    (body : Z → list A → option (ctl (list A))) (lo hi : Z)
    (acc acc' : list A) :
  (∀ i a r, lo ≤ i < hi → body i a = Some r →
     ∃ a', r = Next a' ∧ ∀ t, t ∈ a' ↔ t ∈ a ∨ F i t) →
  for_range lo hi body acc = Some acc' →
  ∀ t, t ∈ acc' ↔ t ∈ acc ∨ ∃ i, lo ≤ i < hi ∧ F i t.
Proof.
  intros Hbody Hrun t. unfold for_range in Hrun.
  rewrite (for_loop_collect F body (Z.to_nat (hi - lo)) lo acc acc'); [| |done].
  - split; (intros [?|(i & Hi & ?)]; [by left|right; exists i; split; [lia|done]]).
  - intros i a r Hi. apply Hbody. lia.
Qed.

(** The triples that the three loops let through. *)
Lemma main_calls_members (b : build) (CRIB_CHECK : bool) (o : int_opts)
    (f : flag_opts) (cipher_indices : list Z) (cipher_len : Z)
    (crib_indices crib_positions : list Z) (n_cribs : Z)
    (cycleword_lengths : list Z) (n_cycleword_lengths : Z)
    (calls : list (Z * Z * Z)) :
  main_calls b CRIB_CHECK o f cipher_indices cipher_len crib_indices
    crib_positions n_cribs cycleword_lengths n_cycleword_lengths
  = Some calls →
  ∀ p j k,
    (p, j, k) ∈ calls ↔
    ∃ i, 0 ≤ i < n_cycleword_lengths ∧
         rd cycleword_lengths i = Some p ∧
         Z.min (min_keyword_len o) (plaintext_keyword_len o) ≤ j
           < plaintext_max_keyword_len o ∧
         Z.min (min_keyword_len o) (ciphertext_keyword_len o) ≤ k
           < ciphertext_max_keyword_len o ∧
         main_selects b CRIB_CHECK o f cipher_indices cipher_len crib_indices
           crib_positions n_cribs cycleword_lengths i j k = Some true.
Proof.
  intros Hrun p j k. unfold main_calls in Hrun.
  set (sel := main_selects b CRIB_CHECK o f cipher_indices cipher_len
                crib_indices crib_positions n_cribs cycleword_lengths) in *.
  set (Fk := λ (i j k : Z) (t : Z * Z * Z),
         sel i j k = Some true ∧ ∃ p, rd cycleword_lengths i = Some p ∧ t = (p, j, k)).
  set (Fj := λ (i j : Z) (t : Z * Z * Z),
         ∃ k, Z.min (min_keyword_len o) (ciphertext_keyword_len o) ≤ k
                < ciphertext_max_keyword_len o ∧ Fk i j k t).
  set (Fi := λ (i : Z) (t : Z * Z * Z),
         ∃ j, Z.min (min_keyword_len o) (plaintext_keyword_len o) ≤ j
                < plaintext_max_keyword_len o ∧ Fj i j t).
  assert (∀ t, t ∈ calls ↔
            t ∈ [] ∨ ∃ i, 0 ≤ i < n_cycleword_lengths ∧ Fi i t) as Hspec.
  { eapply (for_range_collect Fi); [|exact Hrun].
    intros i a r Hi Hb. cbn beta in Hb.
    match type of Hb with
    | (?m ≫= _) = _ => destruct m as [a1|] eqn:Hj; [|done]
    end.
    cbn in Hb. injection Hb as <-. exists a1. split; [done|].
    eapply (for_range_collect (Fj i)); [|exact Hj].
    intros j' a2 r2 Hj' Hb2. cbn beta in Hb2.
    match type of Hb2 with
    | (?m ≫= _) = _ => destruct m as [a3|] eqn:Hk; [|done]
    end.
    cbn in Hb2. injection Hb2 as <-. exists a3. split; [done|].
    eapply (for_range_collect (Fk i j')); [|exact Hk].
    intros k' a4 r4 Hk' Hb4. cbn beta in Hb4.
    destruct (sel i j' k') as [[|]|] eqn:Hsel; [| |done]; cbn in Hb4.
    + destruct (rd cycleword_lengths i) as [p'|] eqn:Hp; [|done].
      cbn in Hb4. injection Hb4 as <-. eexists. split; [done|].
      intros t. rewrite elem_of_app, list_elem_of_singleton. unfold Fk.
      split; [intros [?| ->]; [by left|right; split; [done|by exists p']]|].
      intros [?|[_ (p'' & Hp'' & ->)]]; [by left|].
      rewrite Hp in Hp''. injection Hp'' as <-. by right.
    + injection Hb4 as <-. eexists. split; [done|]. intros t. unfold Fk.
      split; [by left|]. intros [?|[Hs _]]; [done|].
      rewrite Hsel in Hs. done. }
  rewrite Hspec. split.
  - intros [Hnil|(i & Hi & j' & Hj & k' & Hk & Hsel & p' & Hp & [= -> -> ->])];
      [by apply elem_of_nil in Hnil|].
    by exists i.
  - intros (i & Hi & Hp & Hj & Hk & Hsel). right. exists i. split; [done|].
    exists j. split; [done|]. exists k. split; [done|]. split; [done|].
    by exists p.
Qed.

(** X24: the climber is called with the cycleword length [p] and the
    keyword lengths [j] and [k] exactly when [p] is one of the first
    [n_cycleword_lengths] candidates, [j] and [k] lie between the smaller
    of [min_keyword_len] and the keyword length given and the maximum
    (excluded), and the tests of the loop body let the triple pass. *)
Theorem main_calls_spec (b : build) (CRIB_CHECK : bool) (o : int_opts)
    (f : flag_opts) (cipher_indices : list Z) (cipher_len : Z)
    (crib_indices crib_positions : list Z) (n_cribs : Z)
    (cycleword_lengths : list Z) (n_cycleword_lengths : Z)
    (calls : list (Z * Z * Z)) :
  main_calls b CRIB_CHECK o f cipher_indices cipher_len crib_indices
    crib_positions n_cribs cycleword_lengths n_cycleword_lengths
  = Some calls →
  ∀ p j k,
    (p, j, k) ∈ calls ↔
    ∃ i, 0 ≤ i < n_cycleword_lengths ∧
         rd cycleword_lengths i = Some p ∧
         Z.min (min_keyword_len o) (plaintext_keyword_len o) ≤ j
           < plaintext_max_keyword_len o ∧
         Z.min (min_keyword_len o) (ciphertext_keyword_len o) ≤ k
           < ciphertext_max_keyword_len o ∧
         main_selects b CRIB_CHECK o f cipher_indices cipher_len crib_indices
           crib_positions n_cribs cycleword_lengths i j k = Some true.
Proof. apply main_calls_members. Qed.

Lemma main_calls_spec_witness :
  (12, 1, 1) ∈ [(3, 1, 1); (5, 1, 1); (12, 1, 1)] ↔
  ∃ i, 0 ≤ i < 3 ∧ rd [3; 5; 12] i = Some 12 ∧
       Z.min 1 5 ≤ 1 < 2 ∧ Z.min 1 5 ≤ 1 < 12 ∧
       main_selects example_build true
         (main_cipher_cases example_build (set_cipher_type 5 (ints main_init)))
         (flags main_init) [7; 4; 11; 11; 14] 5 [] [] 0 [3; 5; 12] i 1 1
       = Some true.
Proof.
  exact (main_calls_spec example_build true
    (main_cipher_cases example_build (set_cipher_type 5 (ints main_init)))
    (flags main_init) [7; 4; 11; 11; 14] 5 [] [] 0 [3; 5; 12] 3
    [(3, 1, 1); (5, 1, 1); (12, 1, 1)] eq_refl 12 1 1).
Defined.

(** What a triple that passes the tests of the loop body satisfies. *)
Lemma main_selects_true (b : build) (CRIB_CHECK : bool) (o : int_opts)
    (f : flag_opts) (cipher_indices : list Z) (cipher_len : Z)
    (crib_indices crib_positions : list Z) (n_cribs : Z)
    (cycleword_lengths : list Z) (i j k : Z) :
  main_selects b CRIB_CHECK o f cipher_indices cipher_len crib_indices
    crib_positions n_cribs cycleword_lengths i j k = Some true →
  (plaintext_keyword_len_present f = true → j = plaintext_keyword_len o) ∧
  (ciphertext_keyword_len_present f = true → k = ciphertext_keyword_len o) ∧
  (cipher_type o = VIGENERE b ∨ cipher_type o = QUAGMIRE_3 b → j = k) ∧
  (cipher_type o = VIGENERE b →
   rd cycleword_lengths i = Some j ∧ rd cycleword_lengths i = Some k) ∧
  (cipher_type o = BEAUFORT b → j = 1 ∧ k = 1) ∧
  (CRIB_CHECK = true →
   ∃ p, rd cycleword_lengths i = Some p ∧
        cribs_satisfied_p cipher_indices cipher_len crib_indices
          crib_positions n_cribs p = Some true).
Proof.
  unfold main_selects. intros H.
  destruct (plaintext_keyword_len_present f && negb (j =? plaintext_keyword_len o))
    eqn:H1; [done|].
  destruct (ciphertext_keyword_len_present f && negb (k =? ciphertext_keyword_len o))
    eqn:H2; [done|].
  destruct (((cipher_type o =? VIGENERE b) || (cipher_type o =? QUAGMIRE_3 b))
            && negb (j =? k)) eqn:H3; [done|].
  match type of H with
  | (?m ≫= _) = _ => destruct m as [other|] eqn:H4; [|done]
  end.
  cbn [mbind option_bind] in H. destruct other; [done|].
  destruct ((cipher_type o =? BEAUFORT b) && negb ((j =? 1) && (k =? 1)))
    eqn:H5; [done|].
  destruct (rd cycleword_lengths i) as [p|] eqn:Hp; [|done].
  cbn [mbind option_bind] in H.
  destruct (cribs_satisfied_p _ _ _ _ _ _) as [sat|] eqn:Hsat; [|done].
  cbn [mbind option_bind] in H.
  destruct (negb sat && CRIB_CHECK) eqn:H6; [done|].
  split_and!.
  - intros Hf. rewrite Hf in H1. cbn in H1. apply negb_false_iff in H1. lia.
  - intros Hf. rewrite Hf in H2. cbn in H2. apply negb_false_iff in H2. lia.
  - intros Ht. assert ((cipher_type o =? VIGENERE b)
                       || (cipher_type o =? QUAGMIRE_3 b) = true) as Hor.
    { destruct Ht as [->| ->]; rewrite Z.eqb_refl; [done|apply orb_true_r]. }
    rewrite Hor in H3. cbn in H3. apply negb_false_iff in H3. lia.
  - intros Ht. rewrite Ht, Z.eqb_refl in H4. cbn in H4.
    injection H4 as H4. apply negb_false_iff, andb_true_iff in H4 as [Hj Hk].
    apply Z.eqb_eq in Hj, Hk. by subst.
  - intros Ht. rewrite Ht, Z.eqb_refl in H5. cbn in H5.
    apply negb_false_iff, andb_true_iff in H5 as [Hj Hk]. lia.
  - intros ->. exists p. split; [done|]. rewrite andb_true_r in H6.
    apply negb_false_iff in H6. by subst.
Qed.

(** X25: what the tests mean for the cipher types, after the Vigenere and
    Beaufort cases of [main].  A keyword length given on the command line
    is the only one tried.  Quagmire III is run with equal keyword lengths
    only.  Vigenere is run with both keyword lengths equal to the cycleword
    length, so a period that is not below both maxima (12 unless the
    command line raises them) is never tried.  Beaufort is run with keyword
    lengths 1 and 1 only, so with a keyword length other than 1 given it is
    not run at all. *)
Theorem main_calls_by_cipher_type (b : build) (CRIB_CHECK : bool)
    (o : int_opts) (f : flag_opts) (cipher_indices : list Z) (cipher_len : Z)
    (crib_indices crib_positions : list Z) (n_cribs : Z)
    (cycleword_lengths : list Z) (n_cycleword_lengths : Z)
    (calls : list (Z * Z * Z)) :
  NoDup (cipher_types b) →
  main_calls b CRIB_CHECK (main_cipher_cases b o) f cipher_indices cipher_len
    crib_indices crib_positions n_cribs cycleword_lengths n_cycleword_lengths
  = Some calls →
  (∀ p j k, (p, j, k) ∈ calls →
     (plaintext_keyword_len_present f = true → j = plaintext_keyword_len o) ∧
     (ciphertext_keyword_len_present f = true → k = ciphertext_keyword_len o) ∧
     (cipher_type o = QUAGMIRE_3 b → j = k) ∧
     (cipher_type o = VIGENERE b →
      j = p ∧ k = p ∧
      p < plaintext_max_keyword_len o ∧ p < ciphertext_max_keyword_len o) ∧
     (cipher_type o = BEAUFORT b → j = 1 ∧ k = 1)) ∧
  (cipher_type o = BEAUFORT b →
   plaintext_keyword_len_present f = true → plaintext_keyword_len o ≠ 1 →
   calls = []).
Proof.
  intros Hlabels Hrun.
  pose proof (main_calls_members _ _ _ _ _ _ _ _ _ _ _ _ Hrun) as Hspec.
  assert (cipher_type (main_cipher_cases b o) = cipher_type o ∧
          plaintext_keyword_len (main_cipher_cases b o) = plaintext_keyword_len o ∧
          ciphertext_keyword_len (main_cipher_cases b o) = ciphertext_keyword_len o ∧
          ciphertext_max_keyword_len (main_cipher_cases b o)
          = ciphertext_max_keyword_len o ∧
          (cipher_type o ≠ BEAUFORT b →
           plaintext_max_keyword_len (main_cipher_cases b o)
           = plaintext_max_keyword_len o)) as (Ht & Hpl & Hcl & Hcm & Hpm).
  { unfold main_cipher_cases. destruct o as [ct ? ? ? ? ? ? ? ? ? ?]. cbn.
    destruct (ct =? VIGENERE b); cbn; destruct (Z.eqb_spec ct (BEAUFORT b));
      cbn; by split_and!. }
  assert (VIGENERE b ≠ BEAUFORT b) as Hvb.
  { unfold cipher_types in Hlabels.
    rewrite !NoDup_cons, !not_elem_of_cons in Hlabels. intros Heq.
    rewrite Heq in Hlabels. tauto. }
  assert (∀ p j k, (p, j, k) ∈ calls →
     (plaintext_keyword_len_present f = true → j = plaintext_keyword_len o) ∧
     (ciphertext_keyword_len_present f = true → k = ciphertext_keyword_len o) ∧
     (cipher_type o = QUAGMIRE_3 b → j = k) ∧
     (cipher_type o = VIGENERE b →
      j = p ∧ k = p ∧
      p < plaintext_max_keyword_len o ∧ p < ciphertext_max_keyword_len o) ∧
     (cipher_type o = BEAUFORT b → j = 1 ∧ k = 1)) as Hall.
  { intros p j k Hin. apply Hspec in Hin as (i & Hi & Hp & Hj & Hk & Hsel).
    apply main_selects_true in Hsel as (H1 & H2 & H3 & H4 & H5 & _).
    rewrite Ht, Hpl, Hcl in *. rewrite Hcm in Hk.
    split_and!; [done|done|by auto| |done].
    intros Hv. destruct (H4 Hv) as [Hpj Hpk]. rewrite Hp in Hpj, Hpk.
    injection Hpj as <-. injection Hpk as <-.
    rewrite Hpm in Hj by congruence. split_and!; [done|done|lia|lia]. }
  split; [done|]. intros Hb Hf Hne.
  destruct calls as [|[[p j] k] calls]; [done|]. exfalso.
  destruct (Hall p j k ltac:(left)) as (H1 & _ & _ & _ & H5).
  destruct (H5 Hb) as [-> _]. by specialize (H1 Hf).
Qed.

Lemma main_calls_by_cipher_type_witness :
  ∃ calls,
    main_calls example_build true
      (main_cipher_cases example_build
         (set_plaintext_keyword_len 5 (set_cipher_type 5 (ints main_init))))
      (set_plaintext_keyword_len_present true (flags main_init))
      [7; 4; 11; 11; 14] 5 [] [] 0 [3; 5; 12] 3 = Some calls ∧
    calls = [].
Proof.
  eexists. split; [vm_compute; reflexivity|].
  refine (proj2 (main_calls_by_cipher_type example_build true
    (set_plaintext_keyword_len 5 (set_cipher_type 5 (ints main_init)))
    (set_plaintext_keyword_len_present true (flags main_init))
    [7; 4; 11; 11; 14] 5 [] [] 0 [3; 5; 12] 3 [] _ _) _ _ _).
  - apply (bool_decide_unpack _). vm_compute. exact I.
  - vm_compute. reflexivity.
  - reflexivity.
  - reflexivity.
  - cbn. lia.
Defined.

(* ===================================================================== *)
(** * The period estimator on a short text *)

(** A NaN stays a NaN. *)
Lemma add_nan_r (x : double) : (x + nan)%float = nan.
Proof.
  apply Prim2SF_inj. rewrite add_spec. change (Prim2SF nan) with S754_nan.
  by destruct (Prim2SF x).
Qed.

Lemma sub_nan_r (x : double) : (x - nan)%float = nan.
Proof.
  apply Prim2SF_inj. rewrite sub_spec. change (Prim2SF nan) with S754_nan.
  by destruct (Prim2SF x).
Qed.

Lemma div_nan_l (x : double) : (nan / x)%float = nan.
Proof.
  apply Prim2SF_inj. rewrite div_spec. change (Prim2SF nan) with S754_nan.
  by destruct (Prim2SF x).
Qed.

Lemma ltb_nan_r (x : double) : (x <? nan)%float = false.
Proof.
  rewrite ltb_spec. change (Prim2SF nan) with S754_nan.
  unfold SFltb, SFcompare. by destruct (Prim2SF x).
Qed.

(** The index of coincidence of at most one symbol is [0/0]. *)
Lemma index_of_coincidence_short (column : list Z) (i : Z) (x : double) :
  0 ≤ i ≤ 1 → Z.of_nat (length column) = i →
  index_of_coincidence column i = Some x → x = nan.
Proof.
  intros Hi Hlen Hx. destruct (decide (i = 0)) as [->|Hne].
  - destruct column; [|done]. vm_compute in Hx. by injection Hx as <-.
  - assert (i = 1) as -> by lia.
    destruct column as [|c [|? ?]]; [done| |cbn in Hlen; lia].
    destruct (decide (0 ≤ c < 26)) as [Hc|Hc].
    + assert (c ∈ seqZ 0 26) as Hin by (apply elem_of_seqZ; lia).
      vm_compute in Hin.
      repeat (apply elem_of_cons in Hin as [->|Hin];
              [vm_compute in Hx; by injection Hx as <-|]).
      by apply elem_of_nil in Hin.
    + exfalso. unfold index_of_coincidence, tally, for_range in Hx.
      change (Z.to_nat (1 - 0)) with 1%nat in Hx. cbn [for_loop] in Hx.
      change (rd [c] 0) with (Some c) in Hx. cbn [mbind option_bind] in Hx.
      assert (rd (replicate (Z.to_nat ALPHABET_SIZE) 0) c = None) as Hrd.
      { unfold rd. case_bool_decide; [|done].
        apply lookup_ge_None_2. rewrite length_replicate.
        unfold ALPHABET_SIZE. lia. }
      rewrite Hrd in Hx. done.
Qed.

(** A candidate length above half the text has a column of at most one
    symbol. *)
Lemma mean_ioc_short (text : list Z) (len p : Z) (m : double) :
  1 ≤ p → len < 2 * p → mean_ioc text len p = Some m → m = nan.
Proof.
  intros Hp Hlen Hm. unfold mean_ioc in Hm.
  match type of Hm with
  | (?l ≫= _) = _ => destruct l as [w|] eqn:Hw; [|done]
  end.
  cbn in Hm. injection Hm as <-.
  assert (w = nan) as ->; [|apply div_nan_l].
  unfold for_range in Hw. rewrite Z.sub_0_r in Hw.
  destruct (for_loop_partial (λ k (w : double), k = p → w = nan) (λ _, False)
              _ _ _ _ _ Hw) as [H|[]]; [| |apply H; lia].
  - intros ?. lia.
  - intros k w0 r Hk _ Hbody.
    match type of Hbody with
    | (?l ≫= _) = _ => destruct l as [[i column]|] eqn:Hcol; [|done]
    end.
    cbn [mbind option_bind] in Hbody.
    destruct (index_of_coincidence column i) as [ioc|] eqn:Hioc; [|done].
    cbn in Hbody. injection Hbody as <-. intros Hlast.
    destruct (while_loop_partial
      (λ '(i, column), 0 ≤ i ∧ Z.of_nat (length column) = i ∧
                       (i = 0 ∨ p * (i - 1) + k < len))
      _ _ _ _ _ Hcol) as [(Hi0 & Hcl & Hprev) Hexit].
    + split_and!; [done|done|by left].
    + intros [i1 c1] [i2 c2] (Hi1 & Hc1 & _) Hcond Hb.
      apply Z.ltb_lt in Hcond.
      destruct (i1 <? MAX_CIPHER_LENGTH); [|done].
      destruct (rd text _) as [c|]; [|done]. cbn in Hb.
      injection Hb as <- <-. rewrite length_app. cbn [length].
      split_and!; [lia|lia|right]. by replace (i1 + 1 - 1) with i1 by lia.
    + apply Z.ltb_ge in Hexit.
      assert (0 ≤ i ≤ 1) as Hi by nia.
      rewrite (index_of_coincidence_short column i ioc Hi Hcl Hioc).
      apply add_nan_r.
Qed.

(** The z-scores when the last candidate length is above half the text. *)
Lemma normalise_iocs_short (libm_pow : double → double → double)
    (text : list Z) (len max_cycleword_len : Z) (mu_ioc z : list double) :
  1 ≤ max_cycleword_len → len < 2 * max_cycleword_len →
  candidate_iocs text len max_cycleword_len = Some mu_ioc →
  normalise_iocs libm_pow mu_ioc max_cycleword_len = Some z →
  ∀ j, 0 ≤ j < max_cycleword_len → rdd z j = Some nan.
Proof.
  intros Hmax Hlen Hmu Hz.
  (* the last mean is a NaN *)
  assert (rdd mu_ioc (max_cycleword_len - 1) = Some nan) as Hlast.
  { unfold candidate_iocs, for_range in Hmu.
    destruct (for_loop_partial
      (λ i (a : list double),
         i = max_cycleword_len + 1 → rdd a (max_cycleword_len - 1) = Some nan)
      (λ _, False) _ _ _ _ _ Hmu) as [H|[]]; [| |apply H; lia].
    - intros ?. lia.
    - intros i a r Hi _ Hb.
      destruct (mean_ioc text len i) as [m|] eqn:Hm; [|done].
      cbn [mbind option_bind] in Hb. unfold wrd in Hb.
      case_bool_decide as Hin; [|done]. cbn in Hb. injection Hb as <-.
      intros Hi1. assert (i = max_cycleword_len) as -> by lia.
      rewrite (mean_ioc_short _ _ _ _ Hmax Hlen Hm).
      apply rdd_Some. split; [lia|]. apply list_lookup_insert_eq. lia. }
  (* so is their mean *)
  unfold normalise_iocs in Hz.
  destruct (vec_mean mu_ioc max_cycleword_len) as [mu|] eqn:Hmean; [|done].
  cbn [mbind option_bind] in Hz.
  destruct (vec_stddev libm_pow mu_ioc max_cycleword_len) as [std|]; [|done].
  cbn [mbind option_bind] in Hz.
  assert (mu = nan) as ->.
  { unfold vec_mean in Hmean.
    match type of Hmean with
    | (?l ≫= _) = _ => destruct l as [total|] eqn:Htotal; [|done]
    end.
    cbn in Hmean. injection Hmean as <-.
    assert (total = nan) as ->; [|apply div_nan_l].
    unfold for_range in Htotal. rewrite Z.sub_0_r in Htotal.
    destruct (for_loop_partial
      (λ i (t : double), i = max_cycleword_len → t = nan)
      (λ _, False) _ _ _ _ _ Htotal) as [H|[]]; [| |apply H; lia].
    - intros ?. lia.
    - intros i t r Hi _ Hb.
      destruct (rdd mu_ioc i) as [v|] eqn:Hv; [|done]. cbn in Hb.
      injection Hb as <-. intros Hi1.
      assert (i = max_cycleword_len - 1) as -> by lia.
      rewrite Hlast in Hv. injection Hv as <-. apply add_nan_r. }
  unfold for_range in Hz. rewrite Z.sub_0_r in Hz.
  destruct (for_loop_partial
    (λ i (a : list double), ∀ j, 0 ≤ j < i → rdd a j = Some nan)
    (λ _, False) _ _ _ _ _ Hz) as [H|[]].
  - intros j Hj. lia.
  - intros i a r Hi HI Hb.
    destruct (rdd mu_ioc i) as [v|]; [|done]. cbn [mbind option_bind] in Hb.
    unfold wrd in Hb. case_bool_decide as Hin; [|done]. cbn in Hb.
    injection Hb as <-. intros j Hj. rewrite sub_nan_r, div_nan_l.
    apply rdd_Some. split; [lia|].
    destruct (decide (j = i)) as [->|Hne].
    + apply list_lookup_insert_eq. lia.
    + rewrite list_lookup_insert_ne by lia.
      specialize (HI j ltac:(lia)). by apply rdd_Some in HI as [_ ?].
  - intros j Hj. apply H. lia.
Qed.

(** X26: on a text shorter than twice [max_cycleword_len] (40 letters with
    the default of 20) [estimate_cycleword_lengths] finds no period,
    whatever the text and the thresholds: the longest candidate has a
    column of at most one letter, whose index of coincidence is [0/0], and
    the NaN goes through the mean into every z-score, which then passes no
    test. *)
Theorem estimate_cycleword_lengths_short_text
    (libm_pow : double → double → double) (text : list Z)
    (len max_cycleword_len : Z) (n_sigma_threshold ioc_threshold : double)
    (periods : list Z) :
  1 ≤ max_cycleword_len → len < 2 * max_cycleword_len →
  estimate_cycleword_lengths libm_pow text len max_cycleword_len
    n_sigma_threshold ioc_threshold = Some periods →
  periods = [].
Proof.
  intros Hmax Hlen Hest. unfold estimate_cycleword_lengths in Hest.
  destruct (candidate_iocs text len max_cycleword_len) as [mu|] eqn:Hmu;
    [|done].
  cbn [mbind option_bind] in Hest.
  destruct (normalise_iocs libm_pow mu max_cycleword_len) as [z|] eqn:Hz;
    [|done].
  cbn [mbind option_bind] in Hest.
  pose proof (normalise_iocs_short libm_pow text len max_cycleword_len mu z
                Hmax Hlen Hmu Hz) as Hnan.
  match type of Hest with
  | (?l ≫= _) = _ => destruct l as [[n lengths]|] eqn:Hsel; [|done]
  end.
  cbn in Hest. injection Hest as <-.
  assert (n = 0) as ->; [|done].
  unfold select_lengths, for_range in Hsel. rewrite Z.sub_0_r in Hsel.
  match type of Hsel with
  | (?l ≫= _) = _ => destruct l as [[[n' cur] ls]|] eqn:Hout; [|done]
  end.
  cbn in Hsel. injection Hsel as -> ->.
  destruct (for_loop_partial
    (λ _ (st : Z * double * list Z), st.1.1 = 0) (λ _, False)
    _ _ _ _ _ Hout) as [H|[]]; [done| |done].
  intros i [[n0 cur0] ls0] r Hi Hn0 Hbody. cbn in Hn0. subst n0.
  match type of Hbody with
  | (?l ≫= _) = _ => destruct l as [[[t m] ls']|] eqn:Hin; [|done]
  end.
  cbn in Hbody. injection Hbody as <-. cbn.
  destruct (for_loop_partial
    (λ _ (st : bool * double * list Z), st.1.1 = false) (λ _, False)
    _ _ _ _ _ Hin) as [H|[]]; [done| |by cbn in H; subst t].
  intros j [[t1 m1] ls1] r Hj Ht1 Hb. cbn in Ht1. subst t1.
  rewrite (Hnan j ltac:(lia)) in Hb. cbn [mbind option_bind] in Hb.
  destruct (rdd mu j) as [v|]; [|done]. cbn [mbind option_bind] in Hb.
  rewrite ltb_nan_r in Hb. cbn in Hb. by injection Hb as <-.
Qed.

Lemma estimate_cycleword_lengths_short_text_witness :
  ∃ periods,
    estimate_cycleword_lengths pow_square (take 39 abc_text) 39 20 1 0.047
    = Some periods ∧ periods = [].
Proof.
  eexists. split; [vm_compute; reflexivity|].
  apply (estimate_cycleword_lengths_short_text pow_square (take 39 abc_text)
           39 20 1 0.047 []); [lia|lia|vm_compute; reflexivity].
Defined.

(* ===================================================================== *)
(** * [constrain_cycleword]: what it answers and what it writes *)

Lemma rd_at (a : list Z) (k : Z) :
  0 ≤ k < Z.of_nat (length a) → rd a k = Some (at_ a k).
Proof.
  intros Hk. destruct (lookup_lt_is_Some_2 a (Z.to_nat k)) as [x Hx]; [lia|].
  assert (rd a k = Some x) as Hrd by (apply rd_Some; split; [lia|done]).
  unfold at_. by rewrite Hrd.
Qed.

Lemma find_posn_hit (key : list Z) (target : Z) (posn : option Z) :
  keyword_perm key → in_alphabet target →
  find_posn key target posn = Some (Some (posn_of key target)).
Proof.
  intros Hkey Hx.
  destruct (posn_of_spec key target) as (j & -> & Hj & Hpre);
    [by apply keyword_perm_elem|].
  pose proof (lookup_lt_Some _ _ _ Hj) as Hlt.
  destruct Hkey as (Hlen & _ & _).
  unfold find_posn, for_range.
  apply for_loop_hit with (k := j).
  - unfold ALPHABET_SIZE. lia.
  - intros k' Hk'. rewrite Z.add_0_l, rd_of_nat.
    destruct (lookup_lt_is_Some_2 key k') as [y Hy]; [lia|].
    rewrite Hy. simpl.
    destruct (Z.eqb_spec y target) as [->|]; [|done].
    by destruct (Hpre k' target Hy Hk').
  - rewrite Z.add_0_l, rd_of_nat, Hj. simpl. by rewrite Z.eqb_refl.
Qed.

(** [crib_cyclewords] after the first loop. *)
Lemma constrain_init (INACTIVE len : Z) :
  1 ≤ len ≤ MAX_CYCLEWORD_LEN →
  ∃ ccw,
    for_range 0 len (λ i ccw, ccw ← wr ccw i INACTIVE; Some (Next ccw))
      (replicate (Z.to_nat MAX_CYCLEWORD_LEN) 0) = Some ccw ∧
    length ccw = Z.to_nat MAX_CYCLEWORD_LEN ∧
    ∀ k : nat, (Z.of_nat k < len) → ccw !! k = Some INACTIVE.
Proof.
  intros Hlen.
  destruct (for_loop_inv
    (λ (i : Z) (ccw : list Z),
       length ccw = Z.to_nat MAX_CYCLEWORD_LEN ∧
       ∀ k : nat, Z.of_nat k < i → ccw !! k = Some INACTIVE)
    (λ i ccw, ccw ← wr ccw i INACTIVE; Some (Next ccw))
    (Z.to_nat (len - 0)) 0 (replicate (Z.to_nat MAX_CYCLEWORD_LEN) 0))
    as (ccw & Hrun & Hl & Hall).
  { split; [by rewrite length_replicate|]. intros; lia. }
  { intros i ccw Hi [Hl Hall]. unfold wr.
    rewrite bool_decide_eq_true_2 by lia. cbn [mbind option_bind].
    eexists. split; [done|]. split; [by rewrite length_insert|].
    intros k Hk. destruct (decide (k = Z.to_nat i)) as [->|Hne].
    - apply list_lookup_insert_eq. lia.
    - rewrite list_lookup_insert_ne by done. apply Hall. lia. }
  exists ccw. split; [exact Hrun|]. split; [done|].
  intros k Hk. apply Hall. lia.
Qed.

Section constrain_facts.
Context (INACTIVE : Z) (cipher crib_indices crib_positions P C : list Z).
Context (len : Z) (variant : bool).
Hypothesis HP : keyword_perm P.
Hypothesis HC : keyword_perm C.
Hypothesis Hcipher : Forall in_alphabet cipher.
Hypothesis Hcribs : Forall in_alphabet crib_indices.
Hypothesis Hpos : Forall (λ pos, 0 ≤ pos < Z.of_nat (length cipher)) crib_positions.
Hypothesis Hn : length crib_indices = length crib_positions.
Hypothesis Hlen : 1 ≤ len ≤ MAX_CYCLEWORD_LEN.
Hypothesis Hinactive : ¬ in_alphabet INACTIVE.

Lemma crib_reads (j : Z) :
  0 ≤ j < Z.of_nat (length crib_positions) →
  rd crib_positions j = Some (at_ crib_positions j) ∧
  rd crib_indices j = Some (at_ crib_indices j) ∧
  rd cipher (at_ crib_positions j)
  = Some (at_ cipher (at_ crib_positions j)) ∧
  in_alphabet (at_ crib_indices j) ∧
  in_alphabet (at_ cipher (at_ crib_positions j)) ∧
  0 ≤ crib_column crib_positions len j < len.
Proof using Hcipher Hcribs Hpos Hn Hlen.
  intros Hj. pose proof (rd_at crib_positions j Hj) as Hp.
  assert (0 ≤ at_ crib_positions j < Z.of_nat (length cipher)) as Hpj.
  { rewrite Forall_forall in Hpos. apply Hpos.
    apply rd_Some in Hp as [_ Hp]. by eapply list_elem_of_lookup_2. }
  destruct (rd_text crib_indices j Hcribs ltac:(lia)) as [Hx Hxa].
  destruct (rd_text cipher _ Hcipher Hpj) as [Hc Hca].
  split_and!; try done.
  - unfold crib_column. apply Z.rem_nonneg; lia.
  - unfold crib_column.
    pose proof (Z.rem_bound_pos (at_ crib_positions j) len ltac:(lia) ltac:(lia)).
    lia.
Qed.

Lemma crib_demand_alphabet (j : Z) :
  0 ≤ j < Z.of_nat (length crib_positions) →
  in_alphabet (crib_demand P C cipher crib_indices crib_positions variant j) ∧
  ∃ indx, 0 ≤ indx < 26 ∧
    crib_demand P C cipher crib_indices crib_positions variant j = at_ P indx ∧
    rd P indx
    = Some (crib_demand P C cipher crib_indices crib_positions variant j).
Proof using HP Hcipher Hcribs Hpos Hn Hlen.
  intros Hj. destruct (crib_reads j Hj) as (_ & _ & _ & Hx & Hc & _).
  unfold crib_demand, demanded_symbol.
  destruct variant.
  - pose proof (wrap_index_range
      (posn_of C (at_ crib_indices j)
       - posn_of P (at_ cipher (at_ crib_positions j)))) as Hw.
    destruct (keyword_perm_at P _ HP Hw) as (Ha & Hr & _).
    split; [done|]. eexists. split; [exact Hw|]. split; [reflexivity|exact Hr].
  - pose proof (wrap_index_range
      (posn_of C (at_ cipher (at_ crib_positions j))
       - posn_of P (at_ crib_indices j))) as Hw.
    destruct (keyword_perm_at P _ HP Hw) as (Ha & Hr & _).
    split; [done|]. eexists. split; [exact Hw|]. split; [reflexivity|exact Hr].
Qed.

(** One crib, for the cycleword position [i]. *)
Lemma constrain_crib_spec (i j : Z) (st : constrain_locals) (cw : Z) :
  0 ≤ j < Z.of_nat (length crib_positions) →
  rd (crib_cyclewords st) i = Some cw →
  (Z.to_nat i < length (cc_cycleword_indices st))%nat →
  let D := crib_demand P C cipher crib_indices crib_positions variant j in
  ∃ pk pc,
    constrain_crib INACTIVE cipher crib_indices crib_positions P C len variant
      i j st
    = if crib_column crib_positions len j =? i then
        if cw =? INACTIVE then
          Some (Next (ConstrainLocals
                        (<[Z.to_nat i := D]> (crib_cyclewords st))
                        (<[Z.to_nat i := D]> (cc_cycleword_indices st))
                        pk pc false))
        else if negb (cw =? D) then
          Some (Break (ConstrainLocals (crib_cyclewords st)
                         (cc_cycleword_indices st) pk pc true))
        else
          Some (Next (ConstrainLocals (crib_cyclewords st)
                        (cc_cycleword_indices st) pk pc false))
      else Some (Next st).
Proof using HP HC Hcipher Hcribs Hpos Hn Hlen.
  intros Hj Hcw Hi D.
  destruct (crib_reads j Hj) as (Hp & Hx & Hc & Hxa & Hca & Hcol).
  destruct (crib_demand_alphabet j Hj) as (HD & _).
  pose proof (proj1 (rd_Some _ _ _) Hcw) as [Hi0 Hcwl].
  apply lookup_lt_Some in Hcwl.
  unfold constrain_crib. rewrite Hp. cbn [mbind option_bind].
  rewrite (proj2 (Z.eqb_neq len 0)) by lia.
  fold (crib_column crib_positions len j).
  destruct (crib_column crib_positions len j =? i); [|by exists None, None].
  rewrite Hx, Hc. cbn [mbind option_bind].
  destruct variant.
  - rewrite (find_posn_hit P _ _ HP Hca), (find_posn_hit C _ _ HC Hxa).
    cbn [mbind option_bind]. rewrite Hcw. cbn [mbind option_bind].
    pose proof (wrap_index_range
      (posn_of C (at_ crib_indices j)
       - posn_of P (at_ cipher (at_ crib_positions j)))) as Hw.
    destruct (keyword_perm_at P _ HP Hw) as (_ & -> & _).
    cbn [mbind option_bind].
    change (at_ P _) with D. eexists _, _.
    destruct (cw =? INACTIVE); [|done]. unfold wr.
    rewrite !bool_decide_eq_true_2 by lia. done.
  - rewrite (find_posn_hit C _ _ HC Hca), (find_posn_hit P _ _ HP Hxa).
    cbn [mbind option_bind]. rewrite Hcw. cbn [mbind option_bind].
    pose proof (wrap_index_range
      (posn_of C (at_ cipher (at_ crib_positions j))
       - posn_of P (at_ crib_indices j))) as Hw.
    destruct (keyword_perm_at P _ HP Hw) as (_ & -> & _).
    cbn [mbind option_bind].
    change (at_ P _) with D. eexists _, _.
    destruct (cw =? INACTIVE); [|done]. unfold wr.
    rewrite !bool_decide_eq_true_2 by lia. done.
Qed.

(** The cribs of one column: the loop over [j] for a fixed [i]. *)
Lemma constrain_column (i : Z) (st : constrain_locals) :
  0 ≤ i < len →
  cc_contradiction st = false →
  crib_cyclewords st !! Z.to_nat i = Some INACTIVE →
  (Z.to_nat i < length (cc_cycleword_indices st))%nat →
  let n := Z.of_nat (length crib_positions) in
  let D := crib_demand P C cipher crib_indices crib_positions variant in
  let col := crib_column crib_positions len in
  ∃ st',
    for_range 0 n
      (constrain_crib INACTIVE cipher crib_indices crib_positions P C len
         variant i) st = Some st' ∧
    length (crib_cyclewords st') = length (crib_cyclewords st) ∧
    length (cc_cycleword_indices st') = length (cc_cycleword_indices st) ∧
    (∀ k : nat, k ≠ Z.to_nat i →
       crib_cyclewords st' !! k = crib_cyclewords st !! k ∧
       cc_cycleword_indices st' !! k = cc_cycleword_indices st !! k) ∧
    if cc_contradiction st' then
      ∃ j1 j2, 0 ≤ j1 < n ∧ 0 ≤ j2 < n ∧ col j1 = i ∧ col j2 = i ∧
               D j1 ≠ D j2
    else
      ((∀ j, 0 ≤ j < n → col j ≠ i) ∧
       cc_cycleword_indices st' !! Z.to_nat i
       = cc_cycleword_indices st !! Z.to_nat i)
      ∨ (∃ j0, 0 ≤ j0 < n ∧ col j0 = i ∧
           cc_cycleword_indices st' !! Z.to_nat i = Some (D j0) ∧
           ∀ j, 0 ≤ j < n → col j = i → D j = D j0).
Proof using HP HC Hcipher Hcribs Hpos Hn Hlen Hinactive.
  intros Hi Hc0 Hin0 HiW n D col.
  set (same := λ s : constrain_locals,
    length (crib_cyclewords s) = length (crib_cyclewords st) ∧
    length (cc_cycleword_indices s) = length (cc_cycleword_indices st) ∧
    ∀ k : nat, k ≠ Z.to_nat i →
      crib_cyclewords s !! k = crib_cyclewords st !! k ∧
      cc_cycleword_indices s !! k = cc_cycleword_indices st !! k).
  set (I := λ (j : Z) (s : constrain_locals),
    cc_contradiction s = false ∧ same s ∧
    ((crib_cyclewords s !! Z.to_nat i = Some INACTIVE ∧
      (∀ j', 0 ≤ j' < j → col j' ≠ i) ∧
      cc_cycleword_indices s !! Z.to_nat i
      = cc_cycleword_indices st !! Z.to_nat i)
     ∨ (∃ j0, 0 ≤ j0 < j ∧ col j0 = i ∧
          crib_cyclewords s !! Z.to_nat i = Some (D j0) ∧
          cc_cycleword_indices s !! Z.to_nat i = Some (D j0) ∧
          ∀ j', 0 ≤ j' < j → col j' = i → D j' = D j0))).
  set (Q := λ s : constrain_locals,
    cc_contradiction s = true ∧ same s ∧
    ∃ j1 j2, 0 ≤ j1 < n ∧ 0 ≤ j2 < n ∧ col j1 = i ∧ col j2 = i ∧
             D j1 ≠ D j2).
  assert (Hlen_ccw : (Z.to_nat i < length (crib_cyclewords st))%nat)
    by by eapply lookup_lt_Some.
  destruct (for_loop_inv_break I Q
    (constrain_crib INACTIVE cipher crib_indices crib_positions P C len
       variant i) (Z.to_nat (n - 0)) 0 st) as (st' & Hrun & Hfin).
  { split; [done|]. split; [by split_and!|]. left. split_and!; [done| |done].
    intros; lia. }
  { intros j s Hj (Hcs & (Hl1 & Hl2 & Hoth) & Hcol).
    assert (0 ≤ j < n) as Hj' by lia.
    assert (∃ cw, crib_cyclewords s !! Z.to_nat i = Some cw) as [cw Hcw].
    { apply lookup_lt_is_Some_2. lia. }
    assert (rd (crib_cyclewords s) i = Some cw) as Hrd
      by (apply rd_Some; split; [lia|done]).
    destruct (constrain_crib_spec i j s cw Hj' Hrd ltac:(lia))
      as (pk & pc & Hstep).
    fold D in Hstep. fold (col j) in Hstep.
    destruct (Z.eqb_spec (col j) i) as [Hcj|Hcj].
    - destruct Hcol as [(HA & Hnone & HW)|(j0 & Hj0 & Hc0' & HB & HW & Hall)].
      + (* first crib of the column *)
        assert (cw = INACTIVE) as -> by congruence.
        rewrite Z.eqb_refl in Hstep. left. eexists. split; [exact Hstep|].
        split; [done|]. split.
        * unfold same. cbn. rewrite !length_insert. split_and!; [done..|].
          intros k Hk. rewrite !list_lookup_insert_ne by done. by apply Hoth.
        * right. exists j. cbn.
          rewrite !list_lookup_insert_eq by lia.
          split_and!; [lia..|done|done|done|].
          intros j' Hj'' Hcj'. destruct (decide (j' = j)) as [->|]; [done|].
          destruct (Hnone j'); [lia|done].
      + (* a later crib of the column *)
        assert (cw = D j0) as -> by congruence.
        assert (in_alphabet (D j0)) as HDa
          by (apply crib_demand_alphabet; lia).
        rewrite (proj2 (Z.eqb_neq (D j0) INACTIVE)) in Hstep
          by (intros Heq; apply Hinactive; by rewrite <- Heq).
        destruct (Z.eqb_spec (D j0) (D j)) as [HDj|HDj]; cbn [negb] in Hstep.
        * left. eexists. split; [exact Hstep|].
          split; [done|]. split; [done|]. right. exists j0. cbn.
          split_and!; [lia..|done|done|done|].
          intros j' Hj'' Hcj'. destruct (decide (j' = j)) as [->|]; [done|].
          apply Hall; [lia|done].
        * right. eexists. split; [exact Hstep|].
          split; [done|]. split; [done|].
          exists j0, j. split_and!; [lia..|done|done|done].
    - left. exists s. split; [exact Hstep|]. split; [done|].
      split; [done|].
      destruct Hcol as [(HA & Hnone & HW)|(j0 & Hj0 & Hc0' & HB & HW & Hall)].
      + left. split_and!; [done| |done].
        intros j' Hj''. destruct (decide (j' = j)) as [->|]; [done|].
        apply Hnone. lia.
      + right. exists j0. split_and!; [lia..|done|done|done|].
        intros j' Hj'' Hcj'. destruct (decide (j' = j)) as [->|]; [done|].
        apply Hall; [lia|done]. }
  exists st'. split; [exact Hrun|].
  replace (0 + Z.of_nat (Z.to_nat (n - 0))) with n in Hfin by lia.
  destruct Hfin as [(Hcs & (Hl1 & Hl2 & Hoth) & Hcol)|(Hcs & (Hl1 & Hl2 & Hoth) & Hconf)];
    rewrite Hcs; (split; [done|]); (split; [done|]); (split; [done|]).
  - destruct Hcol as [(HA & Hnone & HW)|(j0 & Hj0 & Hc0' & HB & HW & Hall)].
    + by left.
    + right. by exists j0.
  - done.
Qed.

(** The function as a whole: it returns; it answers [true] exactly when
    two cribs of one column demand different symbols; otherwise every
    column that holds a crib has the demanded symbol and the other
    entries of the cycleword are as they were. *)
Lemma constrain_cycleword_result (cipher_len n_cribs : Z) (W : list Z) :
  n_cribs = Z.of_nat (length crib_positions) →
  len ≤ Z.of_nat (length W) →
  let D := crib_demand P C cipher crib_indices crib_positions variant in
  let col := crib_column crib_positions len in
  ∃ contradiction W',
    constrain_cycleword INACTIVE cipher cipher_len crib_indices crib_positions
      n_cribs P C W len variant = Some (contradiction, W') ∧
    length W' = length W ∧
    (contradiction = true ↔
       ∃ j1 j2, 0 ≤ j1 < n_cribs ∧ 0 ≤ j2 < n_cribs ∧ col j1 = col j2 ∧
                D j1 ≠ D j2) ∧
    (contradiction = false →
       (∀ j, 0 ≤ j < n_cribs → W' !! Z.to_nat (col j) = Some (D j)) ∧
       (∀ k : nat, (∀ j, 0 ≤ j < n_cribs → col j ≠ Z.of_nat k) →
          W' !! k = W !! k)).
Proof using HP HC Hcipher Hcribs Hpos Hn Hlen Hinactive.
  intros Hnc HW D col. unfold constrain_cycleword.
  destruct (Z.eqb_spec n_cribs 0) as [Hz|Hz].
  { exists false, W. split; [done|]. split; [done|]. split.
    - split; [done|]. intros (j1 & _ & ? & _). lia.
    - intros _. split; [intros; lia|done]. }
  destruct (constrain_init INACTIVE len Hlen) as (ccw & -> & Hlccw & Hinit).
  cbn [mbind option_bind].
  set (done_col := λ (cyc : list Z) (i : Z),
    ((∀ j, 0 ≤ j < n_cribs → col j ≠ i) ∧
     cyc !! Z.to_nat i = W !! Z.to_nat i)
    ∨ (∃ j0, 0 ≤ j0 < n_cribs ∧ col j0 = i ∧
         cyc !! Z.to_nat i = Some (D j0) ∧
         ∀ j, 0 ≤ j < n_cribs → col j = i → D j = D j0)).
  set (I := λ (i : Z) (s : constrain_locals),
    cc_contradiction s = false ∧
    length (crib_cyclewords s) = Z.to_nat MAX_CYCLEWORD_LEN ∧
    length (cc_cycleword_indices s) = length W ∧
    (∀ k : nat, i ≤ Z.of_nat k < len →
       crib_cyclewords s !! k = Some INACTIVE) ∧
    (∀ k : nat, i ≤ Z.of_nat k → cc_cycleword_indices s !! k = W !! k) ∧
    (∀ i', 0 ≤ i' < i → done_col (cc_cycleword_indices s) i')).
  set (Q := λ s : constrain_locals,
    cc_contradiction s = true ∧
    length (cc_cycleword_indices s) = length W ∧
    ∃ j1 j2, 0 ≤ j1 < n_cribs ∧ 0 ≤ j2 < n_cribs ∧ col j1 = col j2 ∧
             D j1 ≠ D j2).
  match goal with
  | |- context [for_range 0 len ?body ?s0] =>
      assert (∃ st, for_range 0 len body s0 = Some st ∧
                (I (0 + Z.of_nat (Z.to_nat (len - 0))) st ∨ Q st))
        as (st & Hrun & Hfin);
        [apply (for_loop_inv_break I Q body (Z.to_nat (len - 0)) 0 s0)|]
  end.
  { split_and!; try done.
    - intros k Hk. apply Hinit. lia.
    - intros; lia. }
  { intros i s Hi (Hcs & Hl1 & Hl2 & Hin & Hrest & Hdone).
    destruct (constrain_column i s) as (s' & Hs' & Hl1' & Hl2' & Hoth & Hres);
      [lia|done| | |].
    { apply Hin. lia. }
    { lia. }
    rewrite <- Hnc in Hs', Hres. rewrite Hs'. cbn [mbind option_bind].
    fold D col in Hres.
    destruct (cc_contradiction s') eqn:Hcs'.
    - right. exists s'. split; [done|]. split; [done|].
      split; [congruence|].
      destruct Hres as (j1 & j2 & ? & ? & ? & ? & ?).
      exists j1, j2. split_and!; (done || lia).
    - left. exists s'. split; [done|]. split_and!; try congruence.
      + intros k Hk. destruct (Hoth k) as [-> _]; [lia|]. apply Hin. lia.
      + intros k Hk. destruct (Hoth k) as [_ ->]; [lia|]. apply Hrest. lia.
      + intros i' Hi'. destruct (decide (i' = i)) as [->|Hne].
        * destruct Hres as [[Hnone HWi]|(j0 & ? & ? & ? & ?)].
          -- left. split; [done|]. rewrite HWi.
             replace (cc_cycleword_indices s !! Z.to_nat i)
               with (W !! Z.to_nat i); [done|].
             symmetry. apply Hrest. lia.
          -- right. by exists j0.
        * destruct (Hoth (Z.to_nat i')) as [_ Heq]; [lia|].
          destruct (Hdone i') as [[Hnone HWi]|(j0 & ? & ? & ? & ?)]; [lia| |].
          -- left. split; [done|]. by rewrite Heq.
          -- right. exists j0. rewrite Heq. split_and!; (done || lia). }
  rewrite Hrun. cbn [mbind option_bind].
  exists (cc_contradiction st), (cc_cycleword_indices st). split; [done|].
  replace (0 + Z.of_nat (Z.to_nat (len - 0))) with len in Hfin by lia.
  destruct Hfin as [(Hcs & _ & Hl2 & _ & Hrest & Hdone)|(Hcs & Hl2 & Hconf)];
    rewrite Hcs; (split; [done|]); split.
  - split; [done|]. intros (j1 & j2 & Hj1 & Hj2 & Hcol & Hne).
    destruct (crib_reads j1 ltac:(lia)) as (_ & _ & _ & _ & _ & Hc1).
    fold (col j1) in Hc1.
    destruct (Hdone (col j1) Hc1) as [[Hnone _]|(j0 & _ & _ & _ & Hall)].
    + by destruct (Hnone j1).
    + destruct Hne. rewrite (Hall j1), (Hall j2) by done. done.
  - intros _. split.
    + intros j Hj.
      destruct (crib_reads j ltac:(lia)) as (_ & _ & _ & _ & _ & Hcj).
      fold (col j) in Hcj.
      destruct (Hdone (col j) Hcj) as [[Hnone _]|(j0 & _ & _ & HW0 & Hall)].
      * by destruct (Hnone j).
      * rewrite HW0. f_equal. symmetry. by apply Hall.
    + intros k Hk. destruct (decide (Z.of_nat k < len)) as [Hklt|Hkge].
      * destruct (Hdone (Z.of_nat k)) as [[_ HWk]|(j0 & Hj0 & Hcj0 & _)];
          [lia| |].
        -- by rewrite Nat2Z.id in HWk.
        -- by destruct (Hk j0).
      * apply Hrest. lia.
  - done.
  - done.
Qed.
End constrain_facts.

(** X27: on keyword permutations, symbols of the alphabet, crib positions
    inside the ciphertext and a period from 1 to [MAX_CYCLEWORD_LEN] that
    fits the cycleword, [constrain_cycleword] returns.  It answers [true]
    exactly when two cribs of one column (position modulo the period)
    demand different cycleword symbols.  When it answers [false], the
    column of every crib holds the symbol the crib demands, and the
    entries of the cycleword in whose column no crib lies are as the
    caller passed them. *)
Theorem constrain_cycleword_spec (INACTIVE : Z)
    (cipher : list Z) (cipher_len : Z) (crib_indices crib_positions : list Z)
    (n_cribs : Z) (P C W : list Z) (len : Z) (variant : bool) :
  keyword_perm P → keyword_perm C →
  Forall in_alphabet cipher → Forall in_alphabet crib_indices →
  Forall (λ pos, 0 ≤ pos < Z.of_nat (length cipher)) crib_positions →
  length crib_indices = length crib_positions →
  n_cribs = Z.of_nat (length crib_positions) →
  1 ≤ len ≤ MAX_CYCLEWORD_LEN → len ≤ Z.of_nat (length W) →
  ¬ in_alphabet INACTIVE →
  let D := crib_demand P C cipher crib_indices crib_positions variant in
  let col := crib_column crib_positions len in
  ∃ contradiction W',
    constrain_cycleword INACTIVE cipher cipher_len crib_indices crib_positions
      n_cribs P C W len variant = Some (contradiction, W') ∧
    length W' = length W ∧
    (contradiction = true ↔
       ∃ j1 j2, 0 ≤ j1 < n_cribs ∧ 0 ≤ j2 < n_cribs ∧ col j1 = col j2 ∧
                D j1 ≠ D j2) ∧
    (contradiction = false →
       (∀ j, 0 ≤ j < n_cribs → W' !! Z.to_nat (col j) = Some (D j)) ∧
       (∀ k : nat, (∀ j, 0 ≤ j < n_cribs → col j ≠ Z.of_nat k) →
          W' !! k = W !! k)).
Proof.
  intros HP HC Hcipher Hcribs Hpos Hn Hnc Hlen HW Hinactive.
  by apply constrain_cycleword_result.
Qed.

Lemma constrain_cycleword_spec_witness :
  let D := crib_demand kryptos_alphabet kryptos_alphabet [2;3;4;5] [2;7] [0;2]
             false in
  let col := crib_column [0;2] 2 in
  ∃ contradiction W',
    constrain_cycleword (-1) [2;3;4;5] 4 [2;7] [0;2] 2
      kryptos_alphabet kryptos_alphabet [0;0] 2 false
    = Some (contradiction, W') ∧
    length W' = length [0;0] ∧
    (contradiction = true ↔
       ∃ j1 j2, 0 ≤ j1 < 2 ∧ 0 ≤ j2 < 2 ∧ col j1 = col j2 ∧ D j1 ≠ D j2) ∧
    (contradiction = false →
       (∀ j, 0 ≤ j < 2 → W' !! Z.to_nat (col j) = Some (D j)) ∧
       (∀ k : nat, (∀ j, 0 ≤ j < 2 → col j ≠ Z.of_nat k) →
          W' !! k = [0;0] !! k)).
Proof.
  refine (constrain_cycleword_spec (-1) [2;3;4;5] 4 [2;7] [0;2] 2
            kryptos_alphabet kryptos_alphabet [0;0] 2 false
            _ _ _ _ _ _ _ _ _ _).
  - exact kryptos_alphabet_perm.
  - exact kryptos_alphabet_perm.
  - apply (bool_decide_unpack _). vm_compute. exact I.
  - apply (bool_decide_unpack _). vm_compute. exact I.
  - apply (bool_decide_unpack _). vm_compute. exact I.
  - reflexivity.
  - reflexivity.
  - unfold MAX_CYCLEWORD_LEN. lia.
  - simpl. lia.
  - unfold in_alphabet, ALPHABET_SIZE. lia.
Defined.

Lemma lookup_at (a : list Z) (k x : Z) :
  0 ≤ k → a !! Z.to_nat k = Some x → at_ a k = x.
Proof.
  intros Hk Hx. unfold at_.
  by rewrite (proj2 (rd_Some a k x) (conj Hk Hx)).
Qed.

(** X28: when the plaintext and the ciphertext keyword are the same
    permutation and [constrain_cycleword] reports no contradiction, the
    candidate text under the cycleword it leaves ([quagmire_decrypt], or
    [quagmire_encrypt] for a variant cipher) has the crib symbol at every
    crib position. *)
Theorem constrain_cycleword_same_keyword (INACTIVE : Z)
    (cipher : list Z) (cipher_len : Z) (crib_indices crib_positions : list Z)
    (n_cribs : Z) (K W W' : list Z) (len : Z) (variant : bool) :
  keyword_perm K →
  Forall in_alphabet cipher → Forall in_alphabet crib_indices →
  Forall (λ pos, 0 ≤ pos < Z.of_nat (length cipher)) crib_positions →
  length crib_indices = length crib_positions →
  n_cribs = Z.of_nat (length crib_positions) →
  len ≤ MAX_CYCLEWORD_LEN → cycleword_ok W len →
  ¬ in_alphabet INACTIVE →
  constrain_cycleword INACTIVE cipher cipher_len crib_indices crib_positions
    n_cribs K K W len variant = Some (false, W') →
  ∃ text,
    candidate_text cipher (Z.of_nat (length cipher)) K K W' len variant false
    = Some text ∧
    ∀ j, 0 ≤ j < n_cribs →
      text !! Z.to_nat (at_ crib_positions j) = Some (at_ crib_indices j).
Proof.
  intros HK Hcipher Hcribs Hpos Hn Hnc Hlen [HlenW HWa] Hinactive Hrun.
  destruct (constrain_cycleword_result INACTIVE cipher crib_indices
              crib_positions K K len variant HK HK Hcipher Hcribs Hpos Hn
              ltac:(lia) Hinactive cipher_len n_cribs W Hnc ltac:(lia))
    as (c & W'' & Hrun' & HlW' & _ & Hfalse).
  rewrite Hrun in Hrun'. injection Hrun' as <- <-.
  destruct (Hfalse eq_refl) as [Hcols Hrest]. clear Hfalse.
  set (D := crib_demand K K cipher crib_indices crib_positions variant) in *.
  set (col := crib_column crib_positions len) in *.
  assert (HD : ∀ j, 0 ≤ j < n_cribs → in_alphabet (D j)).
  { intros j Hj.
    apply (crib_demand_alphabet cipher crib_indices crib_positions K K len
             variant HK Hcipher Hcribs Hpos Hn ltac:(lia)). lia. }
  assert (HW' : cycleword_ok W' len).
  { split; [lia|]. apply Forall_lookup. intros k x Hk.
    apply lookup_take_Some in Hk as [Hk Hklt].
    destruct (decide (Exists (λ j, col j = Z.of_nat k) (seqZ 0 n_cribs)))
      as [Hex|Hnex].
    - apply Exists_exists in Hex as (j & Hj & Hcj).
      apply elem_of_seqZ in Hj.
      pose proof (Hcols j ltac:(lia)) as Hc.
      rewrite Hcj, Nat2Z.id in Hc. rewrite Hc in Hk. injection Hk as <-.
      apply HD. lia.
    - rewrite Hrest in Hk.
      + rewrite Forall_lookup in HWa. apply (HWa k).
        by apply lookup_take_Some.
      + intros j Hj Hcj. apply Hnex. apply Exists_exists. exists j.
        split; [|done]. apply elem_of_seqZ. lia. }
  assert (Hsym : ∀ sym : Z → Z,
    (∀ j, 0 ≤ j < n_cribs →
       sym (at_ crib_positions j) = at_ crib_indices j) →
    ∀ j, 0 ≤ j < n_cribs →
      (sym <$> seqZ 0 (Z.of_nat (length cipher)))
        !! Z.to_nat (at_ crib_positions j) = Some (at_ crib_indices j)).
  { intros sym Hs j Hj.
    destruct (crib_reads cipher crib_indices crib_positions len Hcipher Hcribs
                Hpos Hn ltac:(lia) j ltac:(lia)) as (Hp & _).
    apply rd_Some in Hp as [_ Hp].
    rewrite Forall_lookup in Hpos. pose proof (Hpos _ _ Hp) as Hpj.
    rewrite list_lookup_fmap, lookup_seqZ_lt by lia. cbn.
    rewrite Z.add_0_l, Z2Nat.id by lia. f_equal. by apply Hs. }
  assert (Hcyc : ∀ j, 0 ≤ j < n_cribs →
    cycle_symbol W' len false (at_ crib_positions j) = D j).
  { intros j Hj. unfold cycle_symbol, atbash.
    fold (crib_column crib_positions len j). fold (col j).
    destruct (crib_reads cipher crib_indices crib_positions len Hcipher Hcribs
                Hpos Hn ltac:(lia) j ltac:(lia)) as (_ & _ & _ & _ & _ & Hc).
    apply lookup_at; [apply Hc|]. by apply Hcols. }
  unfold candidate_text. destruct variant.
  - rewrite (quagmire_encrypt_spec K K W' len false HK HK HW' cipher Hcipher).
    eexists. split; [done|]. apply Hsym. intros j Hj.
    destruct (crib_reads cipher crib_indices crib_positions len Hcipher Hcribs
                Hpos Hn ltac:(lia) j ltac:(lia)) as (_ & _ & _ & Hx & Hc & _).
    unfold encrypt_symbol. rewrite Hcyc by done.
    unfold D, crib_demand, demanded_symbol, atbash.
    destruct (keyword_perm_posn K _ HK Hx) as (Hpx & Hax & _).
    destruct (keyword_perm_posn K _ HK Hc) as (Hpc & _ & _).
    destruct (keyword_perm_at K _ HK (wrap_index_range
      (posn_of K (at_ crib_indices j)
       - posn_of K (at_ cipher (at_ crib_positions j))))) as (_ & _ & ->).
    rewrite !wrap_index_mod, Zplus_mod_idemp_r.
    replace (_ + (_ - _)) with (posn_of K (at_ crib_indices j)) by lia.
    by rewrite Z.mod_small.
  - rewrite (quagmire_decrypt_spec K K W' len false HK HK HW' cipher Hcipher).
    eexists. split; [done|]. apply Hsym. intros j Hj.
    destruct (crib_reads cipher crib_indices crib_positions len Hcipher Hcribs
                Hpos Hn ltac:(lia) j ltac:(lia)) as (_ & _ & _ & Hx & Hc & _).
    unfold decrypt_symbol. rewrite Hcyc by done.
    unfold D, crib_demand, demanded_symbol, atbash.
    destruct (keyword_perm_posn K _ HK Hx) as (Hpx & Hax & _).
    destruct (keyword_perm_posn K _ HK Hc) as (Hpc & _ & _).
    destruct (keyword_perm_at K _ HK (wrap_index_range
      (posn_of K (at_ cipher (at_ crib_positions j))
       - posn_of K (at_ crib_indices j)))) as (_ & _ & ->).
    rewrite !wrap_index_mod, Zminus_mod_idemp_r.
    replace (_ - (_ - _)) with (posn_of K (at_ crib_indices j)) by lia.
    by rewrite Z.mod_small.
Qed.

Lemma constrain_cycleword_same_keyword_witness :
  ∃ text,
    candidate_text [2;3;4;5] 4 kryptos_alphabet kryptos_alphabet [15;0] 2
      false false = Some text ∧
    ∀ j, 0 ≤ j < 2 → text !! Z.to_nat (at_ [0;2] j) = Some (at_ [18;1] j).
Proof.
  refine (constrain_cycleword_same_keyword (-1) [2;3;4;5] 4 [18;1] [0;2] 2
            kryptos_alphabet [0;0] [15;0] 2 false _ _ _ _ _ _ _ _ _ _).
  - exact kryptos_alphabet_perm.
  - apply (bool_decide_unpack _). vm_compute. exact I.
  - apply (bool_decide_unpack _). vm_compute. exact I.
  - apply (bool_decide_unpack _). vm_compute. exact I.
  - reflexivity.
  - reflexivity.
  - unfold MAX_CYCLEWORD_LEN. lia.
  - apply (bool_decide_unpack _). vm_compute. exact I.
  - unfold in_alphabet, ALPHABET_SIZE. lia.
  - vm_compute. reflexivity.
Defined.
